(** * Contact histograms of MDTools ([scripts/structure/contact_hist_deprecated.py])

    A shallow embedding of [contact_hist] and of the bound-average step of
    the script's normalisation, together with the properties the
    specification states about them.

    Conventions of the embedding:
    - a NumPy array of [dtype=np.uint32] is a [list N] whose stores are
      reduced modulo [2^32] ([u32]); array positions are [nat]; the sum of
      an element of such an array and a Python integer that is used as a
      length ([np.max(...) + 1]) is a wider integer, as NumPy computes it
      with the promotion rules the script was written for;
    - an indexed read or write outside the array raises [IndexError] in
      Python: the operations below return [None] there, and so does every
      other raising NumPy call ([np.max] of an empty array, [np.add.at] with
      operands of different shapes);
    - [warnings.warn] appends to a list of warnings that is returned next to
      the result;
    - the embedding is the one of the default [debug=False]: the consistency
      checks of the debug branch only read the histograms and raise, they
      never change what is returned;
    - a [np.float64] is a [spec_float] of the Standard Library with the
      binary64 parameters; NumPy's floating-point error state is the default
      one, in which an operation warns and returns its IEEE 754 result. *)

From Stdlib Require Import NArith ZArith QArith Lia SpecFloat.
From stdpp Require Import base decidable option numbers list sorting.

Local Open Scope N_scope.

(** ** Unsigned 32-bit stores *)

Definition u32 (x : N) : N := x mod 2 ^ 32.

(** [a -= b] on a [uint32] element. *)
Definition sub32 (a b : N) : N := (a + (2 ^ 32 - b mod 2 ^ 32)) mod 2 ^ 32.

(** ** NumPy helpers *)

Definition zeros (n : nat) : list N := replicate n 0.

(** Modelled from the spec: [mdt.nph.extend] is not part of the sources at
    hand; the specification describes it as the operation that ensures a
    capacity of at least [len], zero-filling the new slots on the right and
    never truncating. *)
Definition extend (a : list N) (len : nat) : list N :=
  a ++ replicate (len - length a)%nat 0.

(** [a[i] += v] on a [uint32] array. *)
Definition incr_at (a : list N) (i : nat) (v : N) : option (list N) :=
  x ← a !! i; Some (<[i := u32 (x + v)]> a).

(** [a[i] = v] on a [uint32] array; a value beyond the range wraps. *)
Definition set_at (a : list N) (i : nat) (v : N) : option (list N) :=
  _ ← a !! i; Some (<[i := u32 v]> a).

(** [a[idx]]: gather with an index array. *)
Definition take_idx {A} (a : list A) (idx : list nat) : option (list A) :=
  mapM (λ i, a !! i) idx.

(** [a[idx] = vals]: scatter, the writes performed from left to right. *)
Fixpoint put_idx {A} (a : list A) (idx : list nat) (vals : list A) : list A :=
  match idx, vals with
  | i :: idx', v :: vals' => put_idx (<[i := v]> a) idx' vals'
  | _, _ => a
  end.

(** [a[idx] += 1] with an index array: NumPy evaluates [a[idx] + 1] first
    and stores it afterwards, so a position listed several times is
    incremented once. *)
Definition fancy_incr (a : list N) (idx : list nat) : option (list N) :=
  tmp ← take_idx a idx; Some (put_idx a idx ((λ x, u32 (x + 1)) <$> tmp)).

(** [np.add.at(a, idx, vals)]: unbuffered, every listed position is
    incremented as often as it is listed. *)
Fixpoint add_at (a : list N) (idx : list nat) (vals : list N) : option (list N) :=
  match idx, vals with
  | [], [] => Some a
  | i :: idx', v :: vals' => a' ← incr_at a i v; add_at a' idx' vals'
  | _, _ => None
  end.

(** [mask[idx] = False]. *)
Definition clear_idx (mask : list bool) (idx : list nat) : option (list bool) :=
  _ ← take_idx mask idx; Some (put_idx mask idx (replicate (length idx) false)).

Definition count_nonzero (l : list bool) : nat := length (filter (λ b, b = true) l).

(** [np.unique]: the sorted distinct values. *)
Definition np_unique (l : list N) : list N := merge_sort N.le (remove_dups l).

Definition count_of (v : N) (l : list N) : nat := length (filter (λ x, x = v) l).

(** [np.unique(l, return_counts=True)[1]]. *)
Definition unique_counts (l : list N) : list nat :=
  (λ v, count_of v l) <$> np_unique l.

(** [np.searchsorted(a, v)] on a sorted array: the left insertion point,
    which is the number of elements smaller than [v]. *)
Definition searchsorted (a : list N) (v : N) : nat :=
  length (filter (λ x, x < v) a).

Definition by_value (p q : N * nat) : Prop := p.1 ≤ q.1.

#[global] Instance by_value_dec (p q : N * nat) : Decision (by_value p q) :=
  N.le_dec p.1 q.1.

(** [np.intersect1d(ar1, ar2, assume_unique=True, return_indices=True)[1]]
    for arrays without duplicates, which is what [assume_unique] asks of
    the caller: the positions in [ar1] of the values that also occur in
    [ar2], in the order of the values. The code calls it on the ids of the
    selection atoms and on the sorted distinct resids. For an array with a
    repeated value, for which NumPy promises nothing (it pairs adjacent
    equal values of the sorted concatenation), the definition still gives
    the positions of the common values. *)
Definition intersect1d_indices (ar1 ar2 : list N) : list nat :=
  snd <$> merge_sort by_value
            (filter (λ p : N * nat, p.1 ∈ ar2) (zip ar1 (seq 0 (length ar1)))).

(** [np.max] of an array used as a length; it raises on an empty array. *)
Definition np_max (l : list N) : option N :=
  match l with
  | [] => None
  | x :: l' => Some (foldr N.max x l')
  end.

Definition max_nat (l : list nat) : nat := foldr Nat.max 0%nat l.

(** [np.bincount(x)]: as many bins as the largest value plus one, bin [k]
    holding the number of occurrences of [k]; no bin for an empty [x]. *)
Definition bincount (x : list N) : list N :=
  match np_max x with
  | None => []
  | Some m => (λ k, N.of_nat (count_of (N.of_nat k) x)) <$> seq 0 (S (N.to_nat m))
  end.

(** [a.astype(np.uint32)]. *)
Definition astype_uint32 (a : list N) : list N := u32 <$> a.

Definition np_sum (l : list N) : N := foldr N.add 0 l.

(** ** Atom groups

    An [AtomGroup] of MDAnalysis is the list of its atoms, in the order of
    the group. Every atom belongs to one residue of the universe. A residue
    is an object of its own, known by its index [resindex]; its [resid] is
    the residue number of the topology, an attribute of the residue that
    several residues may share (residues of different segments or
    molecules). An atom carries both, and two atoms belong to the same
    residue when they agree on both, so that the resid is a function of the
    residue. Coordinates and the cutoff are rational numbers;
    [contact_hist] only compares the cutoff with 0 and hands both to the
    neighbour query. *)

Definition Point : Type := Q * Q * Q.

Record Atom : Type := mkAtom { id : N; resindex : N; resid : N; position : Point }.

Definition AtomGroup : Type := list Atom.

(** The residue of an atom. *)
Definition residue (a : Atom) : N * N := (resindex a, resid a).

Definition n_atoms (ag : AtomGroup) : nat := length ag.
Definition resids (ag : AtomGroup) : list N := resid <$> ag.
Definition resindices (ag : AtomGroup) : list N := resindex <$> ag.
Definition ids (ag : AtomGroup) : list N := id <$> ag.

(** [ag.n_residues]: the number of residues that the atoms of the group
    belong to. *)
Definition n_residues (ag : AtomGroup) : nat := length (remove_dups (residue <$> ag)).

(** The slots of a per-residue array that the loop of [contact_hist] never
    writes: it finds the slot of a residue by its resid (lines 462 and 491),
    so that residues with one resid share a slot. *)
Definition unused_slots (ag : AtomGroup) : nat :=
  n_residues ag - length (np_unique (resids ag)).

(** No two residues of the group share a resid. *)
Definition resids_distinct (ag : AtomGroup) : Prop :=
  Forall (λ a, Forall (λ b, resid a = resid b → resindex a = resindex b) ag) ag.

#[global] Instance resids_distinct_dec ag : Decision (resids_distinct ag) :=
  ltac:(unfold resids_distinct; exact _).

(** Modelled from the spec: [mdt.select.atoms_around_point] is the external
    neighbour query, which returns the subset of the group [ag] that lies
    within [cutoff] of [point]. The distance criterion itself (metric and
    periodic box) is the parameter [in_range]. *)
Definition atoms_around_point (in_range : Point → Point → Q → bool)
    (ag : AtomGroup) (point : Point) (cutoff : Q) : AtomGroup :=
  filter (λ a, in_range point (position a) cutoff = true) ag.

(** ** The loop over the reference atoms *)

Fixpoint for_each {S A} (body : S → A → option S) (st : S) (l : list A) : option S :=
  match l with
  | [] => Some st
  | a :: l' => st' ← body st a; for_each body st' l'
  end.

(** The arrays that the loop of [contact_hist] updates. *)
Record State : Type := mkState {
  s_refatm_selatm : list N;
  s_refatm_diff_selres : list N;
  s_refatm_same_selres : list N;
  s_refres_diff_selatm : list N;
  s_refres_selatm_tot : list N;
  s_refres_diff_selres : list N;
  s_refatm_selres_pair : list N;
  s_refres_selatm_pair : list (list N);
  s_refres_selres_pair : list (list N);
  s_selatm_unused : list (list bool);
  s_selres_unused : list (list bool)
}.

Definition init_state (ref sel : AtomGroup) (expected_max_contacts : nat) : State :=
  {| s_refatm_selatm := zeros expected_max_contacts;
     s_refatm_diff_selres := zeros expected_max_contacts;
     s_refatm_same_selres := zeros expected_max_contacts;
     s_refres_diff_selatm := zeros (n_residues ref);
     s_refres_selatm_tot := zeros (n_residues ref);
     s_refres_diff_selres := zeros (n_residues ref);
     s_refatm_selres_pair := zeros expected_max_contacts;
     s_refres_selatm_pair := replicate (n_residues ref) (zeros (n_atoms sel));
     s_refres_selres_pair := replicate (n_residues ref) (zeros (n_residues sel));
     s_selatm_unused := replicate (n_residues ref) (replicate (n_atoms sel) true);
     s_selres_unused := replicate (n_residues ref) (replicate (n_residues sel) true) |}.

(** The update of [refatm_same_selres] and [refatm_selres_pair] for one
    reference atom (lines 480-489), from the multiplicities
    [selresids_counts] of the residues it touches. *)
Definition same_and_pair (same pair : list N) (selresids_counts : list nat)
    : option (list N * list N) :=
  if decide (length selresids_counts = 0%nat) then
    same' ← incr_at same 0 1; Some (same', pair)
  else
    let selresids_counts_max := max_nat selresids_counts in
    same' ← fancy_incr (extend same (selresids_counts_max + 1)) selresids_counts;
    pair' ← add_at (extend pair (selresids_counts_max + 1)) selresids_counts
              (replicate (length selresids_counts) 1);
    Some (same', pair').

(** The partners [idx] of one reference residue that were not credited to
    it before (lines 498-499 and 507-508): their number, and the mask with
    them marked as used. *)
Definition credit_unused (unused : list (list bool)) (refresid : nat) (idx : list nat)
    : option (nat * list (list bool)) :=
  row ← unused !! refresid;
  fresh ← take_idx row idx;
  row' ← clear_idx row idx;
  Some (count_nonzero fresh, <[refresid := row']> unused).

(** One pass of [for refatm in ref.atoms] (lines 465-512). *)
Definition loop_body (in_range : Point → Point → Q → bool) (sel : AtomGroup) (cutoff : Q)
    (unique_refresids unique_selresids : list N) (st : State) (refatm : Atom)
    : option State :=
  let sel_near_ref := atoms_around_point in_range sel (position refatm) cutoff in
  (* refatm_selatm and refatm_diff_selres *)
  refatm_selatm ←
    incr_at (extend (s_refatm_selatm st) (n_atoms sel_near_ref + 1))
            (n_atoms sel_near_ref) 1;
  refatm_diff_selres ←
    incr_at (extend (s_refatm_diff_selres st) (n_residues sel_near_ref + 1))
            (n_residues sel_near_ref) 1;
  (* refatm_same_selres and refatm_selres_pair *)
  let selresids := np_unique (resids sel_near_ref) in
  let selresids_counts := unique_counts (resids sel_near_ref) in
  sp ← same_and_pair (s_refatm_same_selres st) (s_refatm_selres_pair st) selresids_counts;
  (* refres_selatm_tot *)
  let refresid := searchsorted unique_refresids (resid refatm) in
  refres_selatm_tot ←
    incr_at (s_refres_selatm_tot st) refresid (N.of_nat (n_atoms sel_near_ref));
  (* refres_diff_selatm and refres_selatm_pair *)
  let selatmids := intersect1d_indices (ids sel) (ids sel_near_ref) in
  ca ← credit_unused (s_selatm_unused st) refresid selatmids;
  refres_diff_selatm ← incr_at (s_refres_diff_selatm st) refresid (N.of_nat ca.1);
  atm_row ← s_refres_selatm_pair st !! refresid;
  atm_row' ← fancy_incr atm_row selatmids;
  (* refres_diff_selres and refres_selres_pair *)
  let selresids_idx := intersect1d_indices unique_selresids selresids in
  cr ← credit_unused (s_selres_unused st) refresid selresids_idx;
  refres_diff_selres ← incr_at (s_refres_diff_selres st) refresid (N.of_nat cr.1);
  res_row ← s_refres_selres_pair st !! refresid;
  res_row' ← add_at res_row selresids_idx (N.of_nat <$> selresids_counts);
  Some {| s_refatm_selatm := refatm_selatm;
          s_refatm_diff_selres := refatm_diff_selres;
          s_refatm_same_selres := sp.1;
          s_refres_diff_selatm := refres_diff_selatm;
          s_refres_selatm_tot := refres_selatm_tot;
          s_refres_diff_selres := refres_diff_selres;
          s_refatm_selres_pair := sp.2;
          s_refres_selatm_pair := <[refresid := atm_row']> (s_refres_selatm_pair st);
          s_refres_selres_pair := <[refresid := res_row']> (s_refres_selres_pair st);
          s_selatm_unused := ca.2;
          s_selres_unused := cr.2 |}.

(** ** From the pair-count matrices to the histograms *)

(** [np.any(np.equal(matrix, n), axis=1)]. *)
Definition rows_with (n : N) (matrix : list (list N)) : list bool :=
  (λ row, existsb (N.eqb n) row) <$> matrix.

(** [np.any(matrix, axis=1)]. *)
Definition rows_nonzero (matrix : list (list N)) : list bool :=
  (λ row, existsb (λ x, negb (x =? 0)) row) <$> matrix.

(** The "same partner" histogram of a pair-count matrix:
    [refres_same_selatm] (lines 517-527) and [refres_same_selres]
    (lines 530-540). *)
Definition refres_same (ref_n_residues : nat) (matrix : list (list N)) : option (list N) :=
  m ← np_max (concat matrix);
  let max_contacts := (N.to_nat m + 1)%nat in
  same ← for_each
           (λ same n, set_at same n (N.of_nat (count_nonzero (rows_with (N.of_nat n) matrix))))
           (zeros max_contacts) (seq 1 (max_contacts - 1));
  same ← set_at same 0 (N.of_nat ref_n_residues);
  x ← same !! 0%nat;
  Some (<[0%nat := sub32 x (N.of_nat (count_nonzero (rows_nonzero matrix)))]> same).

(** The "bonds per pair" histogram of a pair-count matrix:
    [refres_selatm_pair] (lines 549-551) and [refres_selres_pair]
    (lines 552-554). *)
Definition refres_pair (matrix : list (list N)) : option (list N) :=
  set_at (astype_uint32 (bincount (concat matrix))) 0 0.

(** The eleven histograms that [contact_hist] returns. *)
Record Hists : Type := mkHists {
  refatm_selatm : list N;
  refatm_diff_selres : list N;
  refatm_same_selres : list N;
  refres_diff_selatm : list N;
  refres_same_selatm : list N;
  refres_selatm_tot : list N;
  refres_diff_selres : list N;
  refres_same_selres : list N;
  refatm_selres_pair : list N;
  refres_selatm_pair : list N;
  refres_selres_pair : list N
}.

Definition hists_list (h : Hists) : list (list N) :=
  [refatm_selatm h; refatm_diff_selres h; refatm_same_selres h;
   refres_diff_selatm h; refres_same_selatm h; refres_selatm_tot h;
   refres_diff_selres h; refres_same_selres h;
   refatm_selres_pair h; refres_selatm_pair h; refres_selres_pair h].

(** The statements after the loop (lines 516-577): the residue-level
    histograms and the common length. *)
Definition finish (ref : AtomGroup) (st : State) : option Hists :=
  refres_same_selatm ← refres_same (n_residues ref) (s_refres_selatm_pair st);
  refres_same_selres ← refres_same (n_residues ref) (s_refres_selres_pair st);
  let refres_diff_selatm := astype_uint32 (bincount (s_refres_diff_selatm st)) in
  let refres_selatm_tot := astype_uint32 (bincount (s_refres_selatm_tot st)) in
  let refres_diff_selres := astype_uint32 (bincount (s_refres_diff_selres st)) in
  refres_selatm_pair ← refres_pair (s_refres_selatm_pair st);
  refres_selres_pair ← refres_pair (s_refres_selres_pair st);
  let length :=
    max_nat [length (s_refatm_selatm st); length (s_refatm_diff_selres st);
             length (s_refatm_same_selres st); length refres_diff_selatm;
             length refres_same_selatm; length refres_selatm_tot;
             length refres_diff_selres; length refres_same_selres;
             length (s_refatm_selres_pair st); length refres_selatm_pair;
             length refres_selres_pair] in
  Some {| refatm_selatm := extend (s_refatm_selatm st) length;
          refatm_diff_selres := extend (s_refatm_diff_selres st) length;
          refatm_same_selres := extend (s_refatm_same_selres st) length;
          refres_diff_selatm := extend refres_diff_selatm length;
          refres_same_selatm := extend refres_same_selatm length;
          refres_selatm_tot := extend refres_selatm_tot length;
          refres_diff_selres := extend refres_diff_selres length;
          refres_same_selres := extend refres_same_selres length;
          refatm_selres_pair := extend (s_refatm_selres_pair st) length;
          refres_selatm_pair := extend refres_selatm_pair length;
          refres_selres_pair := extend refres_selres_pair length |}.

(** ** [contact_hist] (lines 437-463 and 843-853) *)

Inductive Warning : Type :=
  | RuntimeWarning_cutoff (cutoff : Q).

(** The result for a reference group without atoms. *)
Definition empty_hists : Hists :=
  mkHists [0] [0] [0] [0] [0] [0] [0] [0] [0] [0] [0].

(** The result for an empty selection group or a non-positive cutoff. *)
Definition trivial_hists (ref : AtomGroup) : Hists :=
  let a := [N.of_nat (n_atoms ref)] in
  let r := [N.of_nat (n_residues ref)] in
  mkHists a a a r r r r r [0] [0] [0].

Definition contact_hist (in_range : Point → Point → Q → bool)
    (ref sel : AtomGroup) (cutoff : Q) (expected_max_contacts : Z)
    : list Warning * option Hists :=
  let warned := if Qle_bool cutoff 0 then [RuntimeWarning_cutoff cutoff] else [] in
  let expected_max_contacts :=
    if decide (expected_max_contacts ≤ 0)%Z then 16%Z else expected_max_contacts in
  if decide (n_atoms ref = 0%nat) then (warned, Some empty_hists)
  else if orb (bool_decide (n_atoms sel = 0%nat)) (Qle_bool cutoff 0)
  then (warned, Some (trivial_hists ref))
  else
    let unique_refresids := np_unique (resids ref) in
    let unique_selresids := np_unique (resids sel) in
    (warned,
     st ← for_each (loop_body in_range sel cutoff unique_refresids unique_selresids)
            (init_state ref sel (Z.to_nat expected_max_contacts)) ref;
     finish ref st).

(** ** The bound averages of the normalisation (lines 1090-1107)

    The script divides the accumulated histograms by the number of
    reference units and derives, from each histogram of probabilities, the
    average coordination number and its variant for the bound units. *)

Definition float64 : Type := spec_float.

Definition f64_add : float64 → float64 → float64 := SFadd 53 1024.
Definition f64_sub : float64 → float64 → float64 := SFsub 53 1024.
Definition f64_mul : float64 → float64 → float64 := SFmul 53 1024.
Definition f64_div : float64 → float64 → float64 := SFdiv 53 1024.

(** The conversion of an integer to [np.float64]. *)
Definition f64_of_Z (z : Z) : float64 := binary_normalize 53 1024 z 0 false.

(** [hist / n]: a [uint32] histogram divided by the integer [n]. *)
Definition probabilities (hist : list N) (n : N) : list float64 :=
  (λ c, f64_div (f64_of_Z (Z.of_N c)) (f64_of_Z (Z.of_N n))) <$> hist.

(** [np.arange(n)], as the operand of a product with [np.float64]. *)
Definition arange (n : nat) : list float64 := (λ k, f64_of_Z (Z.of_nat k)) <$> seq 0 n.

(** [np.sum(hist * np.arange(len(hist)))]. The order in which [np.sum]
    adds the products up is NumPy's own, so the reduction [np_sum_f] is a
    parameter. *)
Definition average (np_sum_f : list float64 → float64) (hist : list float64) : float64 :=
  np_sum_f (zip_with f64_mul hist (arange (length hist))).

(** [av / (1 - hist[0])] with [av] the average above: [av_atm_bound[i]]
    and [av_res_bound[i]]. *)
Definition bound_average (np_sum_f : list float64 → float64) (hist : list float64)
    : option float64 :=
  p0 ← hist !! 0%nat;
  Some (f64_div (average np_sum_f hist) (f64_sub (f64_of_Z 1) p0)).

(** A reduction that adds the elements up from left to right. *)
Definition sum_left (l : list float64) : float64 := foldl f64_add (f64_of_Z 0) l.

(** A floating-point value that is no finite number. *)
Definition non_finite (x : float64) : Prop :=
  x = S754_nan ∨ ∃ s, x = S754_infinity s.

(** ** Notions used by the statements *)

(** The content of bin [k] of a histogram; a bin beyond the end of the
    array counts as empty, which is how zero-padding reads. *)
Definition bin (h : list N) (k : nat) : N := default 0 (h !! k).

(** Two histograms agree on every bin, whatever their padding. *)
Definition same_bins (h1 h2 : list N) : Prop := ∀ k, bin h1 k = bin h2 k.

(** The contact multiplicity of a selection residue for one reference
    atom: the number of atoms of the atom's neighbour set that belong to the
    residue. The code counts by resid ([np.unique(sel_near_ref.resids,
    return_counts=True)], line 478), and so does [multiplicity]: [r] is the
    resid of the residue. *)
Definition multiplicity (sel_near_ref : AtomGroup) (r : N) : nat :=
  length (filter (λ b, resid b = r) sel_near_ref).

(** The threshold scan as the specification words it. A pair-count matrix
    has one row per reference residue and one column per partner. *)

(** The number of reference residues that have at least one partner column
    whose bond count is exactly [n]. *)
Definition residues_with_partner_at (n : N) (matrix : list (list N)) : nat :=
  length (filter (λ row, n ∈ row) matrix).

(** The number of reference residues with at least one nonzero entry in
    their row. *)
Definition residues_in_contact (matrix : list (list N)) : nat :=
  length (filter (λ row, Exists (λ x, x ≠ 0) row) matrix).

(** [same] is the threshold scan of [matrix] for [n_res] reference
    residues: bin [n] counts the residues with a partner at exactly [n]
    bonds, for every [n] from 1 to the largest entry, and bin 0 is the number
    of residues less those in contact. *)
Definition threshold_scan (n_res : nat) (matrix : list (list N)) (same : list N) : Prop :=
  ∃ m, np_max (concat matrix) = Some m ∧
    (∀ n, (1 ≤ n ≤ N.to_nat m)%nat →
       same !! n = Some (N.of_nat (residues_with_partner_at (N.of_nat n) matrix))) ∧
    same !! 0%nat = Some (N.of_nat (n_res - residues_in_contact matrix)).

(** Two states of the loop agree: the growable atom-level histograms hold
    the same bins, whatever their lengths, and the arrays whose shape the
    groups fix are equal. *)
Definition agree (s1 s2 : State) : Prop :=
  same_bins (s_refatm_selatm s1) (s_refatm_selatm s2) ∧
  same_bins (s_refatm_diff_selres s1) (s_refatm_diff_selres s2) ∧
  same_bins (s_refatm_same_selres s1) (s_refatm_same_selres s2) ∧
  same_bins (s_refatm_selres_pair s1) (s_refatm_selres_pair s2) ∧
  s_refres_diff_selatm s1 = s_refres_diff_selatm s2 ∧
  s_refres_selatm_tot s1 = s_refres_selatm_tot s2 ∧
  s_refres_diff_selres s1 = s_refres_diff_selres s2 ∧
  s_refres_selatm_pair s1 = s_refres_selatm_pair s2 ∧
  s_refres_selres_pair s1 = s_refres_selres_pair s2 ∧
  s_selatm_unused s1 = s_selatm_unused s2 ∧
  s_selres_unused s1 = s_selres_unused s2.

(** The shapes of the loop's arrays. *)
Record wf_state (n_res n_selatm n_selres : nat) (st : State) : Prop := {
  wf_same : (0 < length (s_refatm_same_selres st))%nat;
  wf_diff_selatm : length (s_refres_diff_selatm st) = n_res;
  wf_tot : length (s_refres_selatm_tot st) = n_res;
  wf_diff_selres : length (s_refres_diff_selres st) = n_res;
  wf_atm_pair : length (s_refres_selatm_pair st) = n_res;
  wf_atm_rows : Forall (λ row, length row = n_selatm) (s_refres_selatm_pair st);
  wf_res_pair : length (s_refres_selres_pair st) = n_res;
  wf_res_rows : Forall (λ row, length row = n_selres) (s_refres_selres_pair st);
  wf_atm_unused : length (s_selatm_unused st) = n_res;
  wf_atm_unused_rows : Forall (λ row, length row = n_selatm) (s_selatm_unused st);
  wf_res_unused : length (s_selres_unused st) = n_res;
  wf_res_unused_rows : Forall (λ row, length row = n_selres) (s_selres_unused st)
}.

(** ** Notions used by the further properties *)

(** A reference atom with the neighbour set [sel_near_ref] counts in bin
    [m] of [refatm_same_selres]: it has no neighbour and [m] is 0, or it
    touches a selection residue by exactly [m] contacts, the residue being
    told by its resid. *)
Definition counts_in_same_bin (sel_near_ref : AtomGroup) (m : nat) : Prop :=
  (n_atoms sel_near_ref = 0%nat ∧ m = 0%nat) ∨
  Exists (λ b, multiplicity sel_near_ref (resid b) = m) sel_near_ref.

#[global] Instance counts_in_same_bin_dec s m : Decision (counts_in_same_bin s m) :=
  ltac:(unfold counts_in_same_bin; exact _).

(** The connected pairs of a reference atom and a selection residue: every
    reference atom with each residue that its neighbour set touches, the
    residue being told by its resid. *)
Definition refatm_selres_pairs (in_range : Point → Point → Q → bool)
    (ref sel : AtomGroup) (cutoff : Q) : list (Atom * N) :=
  a ← ref;
  (λ r, (a, r)) <$> remove_dups (resids (atoms_around_point in_range sel (position a) cutoff)).

(** The bonds of a pair: the contacts of the reference atom that fall on
    the selection residue. *)
Definition bonds (in_range : Point → Point → Q → bool) (sel : AtomGroup) (cutoff : Q)
    (p : Atom * N) : nat :=
  multiplicity (atoms_around_point in_range sel (position p.1) cutoff) p.2.

(** The number of contacts of a frame: the pairs of a reference atom and a
    selection atom within the cutoff. *)
Definition n_contacts (in_range : Point → Point → Q → bool) (ref sel : AtomGroup)
    (cutoff : Q) : nat :=
  sum_list ((λ a, n_atoms (atoms_around_point in_range sel (position a) cutoff)) <$> ref).

(** [np.sum(hist * np.arange(len(hist)))] on a histogram of counts
    (lines 697-699): the number of contacts that the histogram stands for. *)
Definition tot_contacts (hist : list N) : N :=
  np_sum (zip_with N.mul hist (N.of_nat <$> seq 0 (length hist))).

(** The sum of [f k * k] over the bins [k] below [L]. *)
Definition weighted_sum (f : nat → N) (L : nat) : N :=
  np_sum ((λ k, f k * N.of_nat k) <$> seq 0 L).

(** ** The loop over the frames (lines 1013-1069)

    A frame of the trajectory gives the reference and the selection group
    their atoms and positions, and the neighbour query its box: the
    distance criterion is the frame's own. *)

Record Frame : Type := mkFrame {
  frame_in_range : Point → Point → Q → bool;
  frame_ref : AtomGroup;
  frame_sel : AtomGroup
}.

(** [a.shape[1]] of a two-dimensional array with at least one row. *)
Definition shape1 (a : list (list N)) : nat :=
  match a with
  | [] => 0%nat
  | row :: _ => length row
  end.

(** Modelled from the spec: [mdt.nph.match_shape] is not part of the
    sources at hand; the specification describes the unification of two
    histograms as padding both sides with zeros on the right to the longer
    length, never truncating. The script calls it on two-dimensional arrays
    with the same number of rows. *)
Definition match_shape (a b : list (list N)) : list (list N) * list (list N) :=
  let length := (shape1 a `max` shape1 b)%nat in
  ((λ row, extend row length) <$> a, (λ row, extend row length) <$> b).

(** [a += b] on [uint32] arrays of one shape. *)
Definition iadd (a b : list N) : list N := zip_with (λ x y, u32 (x + y)) a b.

Definition iadd2 (a b : list (list N)) : list (list N) := zip_with iadd a b.

(** The sums that the loop over the frames accumulates. The counters of
    the atoms and residues are Python integers. *)
Record Totals : Type := mkTotals {
  hist_atm : list (list N);
  hist_res : list (list N);
  hist_par : list (list N);
  n_refatm : N;
  n_refres : N;
  n_selatm : N;
  n_selres : N;
  n_pairs : list N
}.

Definition init_totals : Totals :=
  {| hist_atm := replicate 3 (zeros 16);
     hist_res := replicate 5 (zeros 16);
     hist_par := replicate 3 (zeros 16);
     n_refatm := 0; n_refres := 0; n_selatm := 0; n_selres := 0;
     n_pairs := zeros 3 |}.

(** One pass of [for ts in trj] (lines 1043-1069), with [debug] off. The
    counters are kept for updating groups only. When [contact_hist] returns
    early, for an empty selection group or a cutoff that is not positive,
    its arrays are of NumPy's default integer type and not [uint32], and
    [hist_atm += hist_atm_tmp] raises a casting error: the pass fails. *)
Definition frame_step (updating_ref updating_sel : bool) (cutoff : Q)
    (t : Totals) (frame : Frame) : option Totals :=
  let ref := frame_ref frame in
  let sel := frame_sel frame in
  let n_refatm := if updating_ref then n_refatm t + N.of_nat (n_atoms ref) else n_refatm t in
  let n_refres :=
    if updating_ref then n_refres t + N.of_nat (n_residues ref) else n_refres t in
  let n_selatm := if updating_sel then n_selatm t + N.of_nat (n_atoms sel) else n_selatm t in
  let n_selres :=
    if updating_sel then n_selres t + N.of_nat (n_residues sel) else n_selres t in
  if decide (n_atoms ref = 0%nat) then
    Some {| hist_atm := hist_atm t; hist_res := hist_res t; hist_par := hist_par t;
            n_refatm := n_refatm; n_refres := n_refres;
            n_selatm := n_selatm; n_selres := n_selres; n_pairs := n_pairs t |}
  else if orb (bool_decide (n_atoms sel = 0%nat)) (Qle_bool cutoff 0) then None
  else
    r ← (contact_hist (frame_in_range frame) ref sel cutoff
           (Z.of_nat (shape1 (hist_atm t)))).2;
    let hist_tmp := hists_list r in
    let '(hist_atm', hist_atm_tmp) := match_shape (hist_atm t) (take 3 hist_tmp) in
    let '(hist_res', hist_res_tmp) := match_shape (hist_res t) (take 5 (drop 3 hist_tmp)) in
    let '(hist_par', hist_par_tmp) := match_shape (hist_par t) (drop 8 hist_tmp) in
    let n_pairs_tmp := (λ row, u32 (np_sum row)) <$> drop 8 hist_tmp in
    Some {| hist_atm := iadd2 hist_atm' hist_atm_tmp;
            hist_res := iadd2 hist_res' hist_res_tmp;
            hist_par := iadd2 hist_par' hist_par_tmp;
            n_refatm := n_refatm; n_refres := n_refres;
            n_selatm := n_selatm; n_selres := n_selres;
            n_pairs := iadd (n_pairs t) n_pairs_tmp |}.

(** The loop over the frames of the trajectory. *)
Definition accumulate (updating_ref updating_sel : bool) (cutoff : Q)
    (frames : list Frame) : option Totals :=
  for_each (frame_step updating_ref updating_sel cutoff) init_totals frames.

(** The numbers of reference atoms and residues by which the script
    divides [hist_atm] and [hist_res] (lines 1084-1091): the counters of an
    updating group, and for a group [ref] that is not updating its numbers
    times the number of frames. *)
Definition ref_totals (updating_ref : bool) (ref : AtomGroup) (n_frames : nat)
    (t : Totals) : N * N :=
  if updating_ref then (n_refatm t, n_refres t)
  else (N.of_nat (n_atoms ref) * N.of_nat n_frames,
        N.of_nat (n_residues ref) * N.of_nat n_frames).

(** The reference atoms and residues of all frames. *)
Definition frames_refatm (frames : list Frame) : nat :=
  sum_list ((λ f, n_atoms (frame_ref f)) <$> frames).

Definition frames_refres (frames : list Frame) : nat :=
  sum_list ((λ f, n_residues (frame_ref f)) <$> frames).

(** Row [i] of a two-dimensional array. *)
Definition row (a : list (list N)) (i : nat) : list N := default [] (a !! i).

(** A two-dimensional array of [n] rows of length [w]. *)
Definition has_shape (n w : nat) (a : list (list N)) : Prop :=
  length a = n ∧ Forall (λ row, length row = w) a.

(** The invariant of the loop over the frames. *)
Definition totals_inv (updating_ref : bool) (done : list Frame) (t : Totals) : Prop :=
  ∃ w, (16 ≤ w)%nat ∧
    has_shape 3 w (hist_atm t) ∧ has_shape 5 w (hist_res t) ∧ has_shape 3 w (hist_par t) ∧
    np_sum (row (hist_atm t) 0) = N.of_nat (frames_refatm done) ∧
    np_sum (row (hist_atm t) 1) = N.of_nat (frames_refatm done) ∧
    np_sum (row (hist_res t) 0) = N.of_nat (frames_refres done) ∧
    np_sum (row (hist_res t) 2) = N.of_nat (frames_refres done) ∧
    np_sum (row (hist_res t) 3) = N.of_nat (frames_refres done) ∧
    (updating_ref = true →
       n_refatm t = N.of_nat (frames_refatm done) ∧
       n_refres t = N.of_nat (frames_refres done)).

(** The pairs of a reference atom and a selection atom of all frames,
    whether in contact or not. *)
Definition frames_products (frames : list Frame) : nat :=
  sum_list ((λ f, n_atoms (frame_ref f) * n_atoms (frame_sel f))%nat <$> frames).

(** The invariant of the loop over the frames for the pair histograms. *)
Definition pairs_inv (done : list Frame) (t : Totals) : Prop :=
  ∃ w, has_shape 3 w (hist_par t) ∧ length (n_pairs t) = 3%nat ∧
    ∀ i, (i < 3)%nat →
      bin (n_pairs t) i = np_sum (row (hist_par t) i) ∧
      np_sum (row (hist_par t) i) ≤ N.of_nat (frames_products done).


(** ** The last row of the output table (lines 1120-1126)

    The arrays are the normalised histograms; what the script asks of an
    element is whether it compares equal to zero, which is the parameter
    [is_zero]. *)

(** The positions of the elements of a row that are not zero. *)
Definition nonzero_in_row {A} (is_zero : A → bool) (r : list A) : list nat :=
  fst <$> filter (λ p : nat * A, is_zero p.2 = false) (zip (seq 0 (length r)) r).

(** [np.nonzero(a)[1]]: the column indices of the elements of a
    two-dimensional array that are not zero, row by row. *)
Definition nonzero_columns {A} (is_zero : A → bool) (a : list (list A)) : list nat :=
  concat (nonzero_in_row is_zero <$> a).

(** [np.all(a == 0)]. *)
Definition all_zero {A} (is_zero : A → bool) (a : list (list A)) : bool :=
  forallb (forallb is_zero) a.

Definition last_nonzero {A} (is_zero : A → bool) (hist_atm hist_res hist_par : list (list A))
    : nat :=
  let last_nonzero := 0%nat in
  let last_nonzero :=
    if all_zero is_zero hist_atm then last_nonzero
    else (last_nonzero `max` max_nat (nonzero_columns is_zero hist_atm))%nat in
  let last_nonzero :=
    if all_zero is_zero hist_res then last_nonzero
    else (last_nonzero `max` max_nat (nonzero_columns is_zero hist_res))%nat in
  let last_nonzero :=
    if all_zero is_zero hist_par then last_nonzero
    else (last_nonzero `max` max_nat (nonzero_columns is_zero hist_par))%nat in
  last_nonzero.

(** * Discretized trajectories ([scripts/discretization/state_lifetime_autocorr.py])

    A discretized trajectory is an integer array of shape [(f, n)]: one row
    per frame, holding the index of the state of each of the [n] compounds.
    It is the list of its rows; the empty list stands for an array without
    a second axis. *)

(** [np.all(a, axis=0)] for a Boolean array with rows of length [n]. *)
Definition all_axis0 (n : nat) (a : list (list bool)) : list bool :=
  foldr (zip_with andb) (replicate n true) a.

(** [a[mask]] for a Boolean mask of the shape of [a]: the elements at which
    the mask holds, row by row. *)
Definition mask_index (a : list (list Z)) (mask : list (list bool)) : list Z :=
  concat (zip_with (λ r m, fst <$> filter (λ p : Z * bool, p.2 = true) (zip r m)) a mask).

(** The values that [dtraj_transition_info] returns. *)
Record TransitionInfo : Type := mkTransitionInfo {
  n_stay : nat;
  always_neg : nat;
  never_neg : nat;
  n_frames_neg : nat;
  n_trans : nat;
  pos2pos : nat;
  pos2neg : nat;
  neg2pos : nat;
  neg2neg : nat
}.

(** The states of a discretized trajectory are the elements of an integer
    array: they fit NumPy's [int64], the type that [np.asarray] gives to
    Python integers that fit it and the widest signed type of an array read
    from a file. *)
Definition is_int64 (x : Z) : Prop := (- 2 ^ 63 ≤ x < 2 ^ 63)%Z.

#[global] Instance is_int64_dec x : Decision (is_int64 x) :=
  ltac:(unfold is_int64; exact _).

(** [dtraj_transition_info] (lines 43-129), for an integer array. The
    difference of two states, which NumPy computes modulo [2^64], is zero
    exactly when they are the same state. *)
Definition dtraj_transition_info (dtraj : list (list Z)) : option TransitionInfo :=
  match dtraj with
  | [] => None
  | dtraj_0 :: _ =>
      let n_compounds := length dtraj_0 in
      let n_stay :=
        count_nonzero
          (all_axis0 n_compounds ((λ r : list Z, zip_with (λ x y, x =? y)%Z r dtraj_0) <$> dtraj)) in
      let always_neg :=
        count_nonzero (all_axis0 n_compounds ((λ r : list Z, (λ x, x <? 0)%Z <$> r) <$> dtraj)) in
      let never_neg :=
        count_nonzero (all_axis0 n_compounds ((λ r : list Z, (λ x, 0 <=? x)%Z <$> r) <$> dtraj)) in
      let n_frames_neg := count_nonzero (concat ((λ r : list Z, (λ x, x <? 0)%Z <$> r) <$> dtraj)) in
      let transitions :=
        zip_with (zip_with (λ x y, negb (y - x =? 0)%Z)) dtraj (tail dtraj) in
      let trans_init := transitions ++ [replicate n_compounds false] in
      let trans_final := replicate n_compounds false :: transitions in
      let n_trans := count_nonzero (concat transitions) in
      if decide (count_nonzero (concat trans_init) ≠ n_trans) then None
      else if decide (count_nonzero (concat trans_final) ≠ n_trans) then None
      else
        let init := mask_index dtraj trans_init in
        let final := mask_index dtraj trans_final in
        let pos2pos :=
          count_nonzero (zip_with andb ((λ x, 0 <=? x)%Z <$> init)
                           ((λ x, 0 <=? x)%Z <$> final)) in
        let pos2neg :=
          count_nonzero (zip_with andb ((λ x, 0 <=? x)%Z <$> init)
                           ((λ x, x <? 0)%Z <$> final)) in
        let neg2pos :=
          count_nonzero (zip_with andb ((λ x, x <? 0)%Z <$> init)
                           ((λ x, 0 <=? x)%Z <$> final)) in
        let neg2neg :=
          count_nonzero (zip_with andb ((λ x, x <? 0)%Z <$> init)
                           ((λ x, x <? 0)%Z <$> final)) in
        if decide ((pos2pos + pos2neg + neg2pos + neg2neg)%nat ≠ n_trans) then None
        else Some (mkTransitionInfo n_stay always_neg never_neg n_frames_neg
                     n_trans pos2pos pos2neg neg2pos neg2neg)
  end.

(** The changes of state in a trajectory: the state before and the state
    after, for every compound and every two consecutive frames between which
    the state of the compound changes, frame by frame. *)
Definition state_changes (dtraj : list (list Z)) : list (Z * Z) :=
  concat (zip_with (λ r r', filter (λ p : Z * Z, p.1 ≠ p.2) (zip r r')) dtraj (tail dtraj)).

(** The states of a trajectory sorted into classes by [k]: the changes of
    class between consecutive frames, and the columns (compounds) whose class
    is that of the frame [r0] in every frame. *)
Definition class_changes {K} `{EqDecision K} (k : Z → K) (dtraj : list (list Z)) :
    list (Z * Z) :=
  concat (zip_with (λ r r', filter (λ p : Z * Z, k p.1 ≠ k p.2) (zip r r')) dtraj (tail dtraj)).

Definition class_constant {K} (k : Z → K) (r0 : list Z) (dtraj : list (list Z))
    (c : nat) : Prop :=
  Forall (λ r : list Z, k <$> r !! c = k <$> r0 !! c) dtraj.

#[global] Instance class_constant_dec {K} `{EqDecision K} (k : Z → K) r0 dtraj c :
  Decision (class_constant k r0 dtraj c) :=
  ltac:(unfold class_constant; exact _).

(** The number of resids of the reference group none of whose atoms has
    an atom of the selection group within the cutoff: the number of residues
    without contact, for a group no two residues of which share a resid. *)
Definition residues_without_contact (in_range : Point → Point → Q → bool)
    (ref sel : AtomGroup) (cutoff : Q) : nat :=
  length (filter
    (λ r, Forall (λ a, resid a = r →
                       n_atoms (atoms_around_point in_range sel (position a) cutoff) = 0%nat)
            ref)
    (remove_dups (resids ref))).

(** The contacts of a reference residue with a selection atom [b]: the
    atoms of the residue that have [b] within the cutoff. The residue is
    named by its resid [rs], as in the remaining notions of this part: they
    are notions of groups no two residues of which share a resid. *)
Definition atom_contacts (in_range : Point → Point → Q → bool) (ref : AtomGroup)
    (cutoff : Q) (rs : N) (b : Atom) : nat :=
  length (filter
    (λ a, resid a = rs ∧ in_range (position a) (position b) cutoff = true) ref).

(** The contacts of a reference residue [rs] with a selection residue [q]:
    the neighbours in [q] of the atoms of [rs], atom by atom. *)
Definition residue_contacts (in_range : Point → Point → Q → bool) (ref sel : AtomGroup)
    (cutoff : Q) (rs q : N) : nat :=
  sum_list ((λ a, multiplicity (atoms_around_point in_range sel (position a) cutoff) q)
              <$> filter (λ a, resid a = rs) ref).

(** The pairs of a reference residue and a selection atom, and those of a
    reference residue and a selection residue. *)
Definition refres_selatm_pairs (ref sel : AtomGroup) : list (N * Atom) :=
  rs ← remove_dups (resids ref); (λ b, (rs, b)) <$> sel.

Definition refres_selres_pairs (ref sel : AtomGroup) : list (N * N) :=
  rs ← remove_dups (resids ref); (λ q, (rs, q)) <$> remove_dups (resids sel).

(** ** A concrete frame

    The end-to-end example of the specification: two reference atoms in
    residues of their own, three selection atoms in the residues
    [{atom_a, atom_b}] and [{atom_c}]; with the cutoff [2], [atom1] is in
    contact with [atom_a] and [atom_b] and [atom2] with no atom. *)

(** The distance criterion without periodic images. *)
Definition euclid (p q : Point) (cutoff : Q) : bool :=
  let '(x1, y1, z1) := p in
  let '(x2, y2, z2) := q in
  Qle_bool ((x1 - x2) * (x1 - x2) + (y1 - y2) * (y1 - y2) + (z1 - z2) * (z1 - z2))
           (cutoff * cutoff).

Definition at_point (x y z : Z) : Point := (inject_Z x, inject_Z y, inject_Z z).

Definition atom1 : Atom := mkAtom 1 0 1 (at_point 0 0 0).
Definition atom2 : Atom := mkAtom 2 1 2 (at_point 100 0 0).
Definition atom_a : Atom := mkAtom 11 2 7 (at_point 1 0 0).
Definition atom_b : Atom := mkAtom 12 2 7 (at_point 0 1 0).
Definition atom_c : Atom := mkAtom 13 3 8 (at_point 50 0 0).

Definition example_ref : AtomGroup := [atom1; atom2].
Definition example_sel : AtomGroup := [atom_a; atom_b; atom_c].

(** A selection group whose residues hold one atom each. *)
Definition example_sel_singletons : AtomGroup := [atom_a; atom_c].

(** A reference atom in a residue of its own that has the resid of the
    residue of [atom1], as residues of two molecules or segments have; it is
    in contact with [atom_c]. With [atom1] it makes a reference group of two
    residues of one atom and one resid. *)
Definition atom3 : Atom := mkAtom 3 4 1 (at_point 50 1 0).

Definition example_ref_shared_resid : AtomGroup := [atom1; atom3].

(** A selection atom in a residue of its own that has the resid of the
    residue of [atom_a]; it is in contact with [atom1]. With [atom_a] it
    makes a selection group of two residues of one atom and one resid. *)
Definition atom_d : Atom := mkAtom 14 5 7 (at_point 0 0 1).

Definition example_sel_shared_resid : AtomGroup := [atom_a; atom_d].

(** Two frames of a trajectory. *)
Definition example_frames : list Frame :=
  [mkFrame euclid example_ref example_sel; mkFrame euclid example_ref example_sel_singletons].
(** A trajectory of three frames and three compounds: the first compound
    changes state in every frame, the second is always in the negative
    state, the third never changes state. *)
Definition example_dtraj : list (list Z) := [[0; -1; 2]; [1; -1; 2]; [-1; -1; 2]]%Z.

Definition example_info : TransitionInfo := mkTransitionInfo 2 1 1 4 2 1 1 0 0.

(** * Text helpers of MDTools ([mdtools/file_handler.py]) *)

(** A Python [str] is the list of its code points. *)
Definition str : Type := list N.

(** The characters at which [str.splitlines] ends a line: line feed,
    vertical tab, form feed, carriage return, the file, group and record
    separators, next line, and the line and paragraph separators. *)
Definition is_line_boundary (c : N) : bool :=
  bool_decide (c ∈ [10; 11; 12; 13; 28; 29; 30; 133; 8232; 8233]).

(** [text.splitlines(keepends=True)], with [line] the part of the current
    line that was read already. A carriage return that a line feed follows
    ends the line together with it; no line is produced for an empty rest. *)
Fixpoint splitlines_from (line text : str) : list str :=
  match text with
  | [] => match line with [] => [] | _ => [line] end
  | c :: rest =>
      if is_line_boundary c then
        match rest with
        | c' :: rest' =>
            if (c =? 13) && (c' =? 10)
            then (line ++ [c; c']) :: splitlines_from [] rest'
            else (line ++ [c]) :: splitlines_from [] rest
        | [] => [line ++ [c]]
        end
      else splitlines_from (line ++ [c]) rest
  end.

Definition splitlines_keepends (text : str) : list str := splitlines_from [] text.

(** [amount * char] for an integer and a string: the string repeated, and
    the empty string when the integer is not positive. *)
Definition str_mul (amount : Z) (char : str) : str :=
  concat (replicate (Z.to_nat amount) char).

(** [indent] (lines 94-133). *)
Definition indent (text : str) (amount : Z) (char : str) : str :=
  let padding := str_mul amount char in
  concat ((λ line, padding ++ line) <$> splitlines_keepends text).

(** The text ["Hi\n\r\n!"] of three lines and the padding string ["# "]. *)
Definition example_text : str := [72; 105; 10; 13; 10; 33].
Definition example_char : str := [35; 32].

(** * Properties *)

(** ** Arithmetic of the 32-bit stores *)

Lemma u32_le x : u32 x ≤ x.
Proof. unfold u32. apply N.Div0.mod_le. Qed.

Lemma u32_lt x : u32 x < 2 ^ 32.
Proof. unfold u32. apply N.mod_lt. discriminate. Qed.

Lemma u32_small x : x < 2 ^ 32 → u32 x = x.
Proof. unfold u32. apply N.mod_small. Qed.

Lemma sub32_lt a b : sub32 a b < 2 ^ 32.
Proof. unfold sub32. apply N.mod_lt. discriminate. Qed.

Lemma sub32_small a b : b ≤ a → a < 2 ^ 32 → sub32 a b = a - b.
Proof.
  intros Hb Ha. unfold sub32.
  rewrite (N.mod_small b) by lia.
  replace (a + (2 ^ 32 - b)) with ((a - b) + 1 * 2 ^ 32) by lia.
  rewrite N.Div0.mod_add. apply N.mod_small. lia.
Qed.

(** ** Bins, padding and sums *)

Lemma bin_lookup h k x : h !! k = Some x → bin h k = x.
Proof. unfold bin. by intros ->. Qed.

Lemma bin_ge h k : (length h ≤ k)%nat → bin h k = 0.
Proof. intros H. unfold bin. by rewrite lookup_ge_None_2. Qed.

Lemma lookup_bin h k : (k < length h)%nat → h !! k = Some (bin h k).
Proof.
  intros H. destruct (lookup_lt_is_Some_2 h k H) as [x Hx].
  by rewrite (bin_lookup _ _ _ Hx).
Qed.

Lemma bin_insert h i k x :
  (i < length h)%nat → bin (<[i := x]> h) k = if decide (k = i) then x else bin h k.
Proof.
  intros Hi. unfold bin. case_decide as Hk.
  - subst. by rewrite list_lookup_insert_eq.
  - by rewrite list_lookup_insert_ne.
Qed.

Lemma bin_replicate n k : bin (replicate n 0) k = 0.
Proof.
  unfold bin. destruct (replicate n 0 !! k) as [x|] eqn:E; [|done].
  apply lookup_replicate in E. by destruct E as [-> _].
Qed.

Lemma length_extend a n : length (extend a n) = (length a `max` n)%nat.
Proof. unfold extend. rewrite length_app, length_replicate. lia. Qed.

Lemma bin_extend a n k : bin (extend a n) k = bin a k.
Proof.
  unfold extend. destruct (decide (k < length a)%nat) as [Hk|Hk].
  - unfold bin. by rewrite lookup_app_l.
  - rewrite (bin_ge a) by lia. unfold bin.
    rewrite lookup_app_r by lia.
    destruct (replicate _ _ !! _) as [x|] eqn:E; [|done].
    apply lookup_replicate in E. by destruct E as [-> _].
Qed.

Lemma same_bins_extend a n : same_bins (extend a n) a.
Proof. intros k. apply bin_extend. Qed.

Lemma extend_lookup a n k x : a !! k = Some x → extend a n !! k = Some x.
Proof. apply lookup_app_l_Some. Qed.

Lemma np_sum_cons x l : np_sum (x :: l) = x + np_sum l.
Proof. done. Qed.

Lemma np_sum_app a b : np_sum (a ++ b) = np_sum a + np_sum b.
Proof. induction a as [|x a IH]; simpl; [done|]. rewrite IH. lia. Qed.

Lemma np_sum_replicate n : np_sum (replicate n 0) = 0.
Proof. induction n as [|n IH]; simpl; [done|]. by rewrite IH. Qed.

Lemma np_sum_extend a n : np_sum (extend a n) = np_sum a.
Proof. unfold extend. rewrite np_sum_app, np_sum_replicate. lia. Qed.

Lemma np_sum_insert a i x y :
  a !! i = Some x → np_sum (<[i := y]> a) + x = np_sum a + y.
Proof.
  revert i. induction a as [|z a IH]; intros [|i] Hi; simplify_eq/=; [lia|].
  specialize (IH _ Hi). lia.
Qed.

Lemma Forall_extend (P : N → Prop) a n : P 0 → Forall P a → Forall P (extend a n).
Proof.
  intros H0 Ha. unfold extend. apply Forall_app. split; [done|].
  by apply Forall_replicate.
Qed.

(** ** Indexed updates *)

Lemma incr_at_Some a i v :
  (i < length a)%nat → incr_at a i v = Some (<[i := u32 (bin a i + v)]> a).
Proof. intros Hi. unfold incr_at. by rewrite (lookup_bin _ _ Hi). Qed.

Lemma incr_at_inv a i v a' :
  incr_at a i v = Some a' → (i < length a)%nat ∧ a' = <[i := u32 (bin a i + v)]> a.
Proof.
  unfold incr_at. intros H. destruct (a !! i) as [x|] eqn:E; simplify_eq/=.
  split; [by eapply lookup_lt_Some|]. by rewrite (bin_lookup _ _ _ E).
Qed.

Lemma set_at_Some a i v : (i < length a)%nat → set_at a i v = Some (<[i := u32 v]> a).
Proof. intros Hi. unfold set_at. by rewrite (lookup_bin _ _ Hi). Qed.

Lemma set_at_inv a i v a' :
  set_at a i v = Some a' → (i < length a)%nat ∧ a' = <[i := u32 v]> a.
Proof.
  unfold set_at. intros H. destruct (a !! i) as [x|] eqn:E; simplify_eq/=.
  split; [by eapply lookup_lt_Some|done].
Qed.

Lemma take_idx_Some {A} (a : list A) idx :
  Forall (λ i, (i < length a)%nat) idx → is_Some (take_idx a idx).
Proof.
  intros H. apply mapM_is_Some. eapply Forall_impl; [exact H|].
  intros i Hi. by apply lookup_lt_is_Some_2.
Qed.

Lemma take_idx_inv {A} (a : list A) idx vals :
  take_idx a idx = Some vals →
  Forall (λ i, (i < length a)%nat) idx ∧ Forall2 (λ i x, a !! i = Some x) idx vals.
Proof.
  intros H. apply mapM_Some in H. split; [|done].
  induction H as [|i x idx vals Hi _ IH]; constructor; [|done].
  by eapply lookup_lt_Some.
Qed.

Lemma take_idx_bin a idx :
  Forall (λ i, (i < length a)%nat) idx → take_idx a idx = Some (bin a <$> idx).
Proof.
  intros H. apply mapM_Some. induction H as [|i idx Hi _ IH]; simpl; constructor; [|done].
  by apply lookup_bin.
Qed.

Lemma length_put_idx {A} (b : list A) idx vals : length (put_idx b idx vals) = length b.
Proof.
  revert b vals. induction idx as [|i idx IH]; intros b [|v vals]; simpl; try done.
  by rewrite IH, length_insert.
Qed.

Lemma put_idx_lookup {A} (g : nat → A) (b : list A) idx k :
  Forall (λ i, (i < length b)%nat) idx →
  put_idx b idx (g <$> idx) !! k = if decide (k ∈ idx) then Some (g k) else b !! k.
Proof.
  revert b. induction idx as [|i idx IH]; intros b Hidx.
  { rewrite decide_False by apply not_elem_of_nil. done. }
  apply Forall_cons in Hidx as [Hi Hidx]. cbn [fmap list_fmap put_idx].
  rewrite IH by (rewrite length_insert; done).
  destruct (decide (k ∈ idx)) as [Hk|Hk].
  - rewrite decide_True; [done|]. by apply elem_of_cons; right.
  - destruct (decide (k = i)) as [->|Hne].
    + rewrite decide_True by (apply elem_of_cons; by left).
      by apply list_lookup_insert_eq.
    + rewrite decide_False.
      * by apply list_lookup_insert_ne.
      * intros [?|?]%elem_of_cons; congruence.
Qed.

Lemma fancy_incr_Some a idx :
  Forall (λ i, (i < length a)%nat) idx →
  fancy_incr a idx = Some (put_idx a idx ((λ i, u32 (bin a i + 1)) <$> idx)).
Proof.
  intros H. unfold fancy_incr. rewrite (take_idx_bin _ _ H). simpl.
  by rewrite <- list_fmap_compose.
Qed.

Lemma fancy_incr_inv a idx a' :
  fancy_incr a idx = Some a' →
  Forall (λ i, (i < length a)%nat) idx ∧
  length a' = length a ∧
  ∀ k, bin a' k = if decide (k ∈ idx) then u32 (bin a k + 1) else bin a k.
Proof.
  intros H.
  assert (Forall (λ i, (i < length a)%nat) idx) as Hidx.
  { unfold fancy_incr in H. destruct (take_idx a idx) as [tmp|] eqn:E; [|done].
    by apply take_idx_inv in E as [? _]. }
  rewrite (fancy_incr_Some _ _ Hidx) in H. simplify_eq.
  split; [done|]. split; [apply length_put_idx|].
  intros k. unfold bin at 1. rewrite put_idx_lookup by done.
  by case_decide.
Qed.

Lemma add_at_Some a idx vals :
  Forall (λ i, (i < length a)%nat) idx → length idx = length vals →
  is_Some (add_at a idx vals).
Proof.
  revert a vals. induction idx as [|i idx IH]; intros a [|v vals] Hidx Hlen;
    simplify_eq/=; [by eexists|].
  apply Forall_cons in Hidx as [Hi Hidx].
  rewrite (incr_at_Some _ _ _ Hi). simpl. apply IH; [|done].
  by rewrite length_insert.
Qed.

Lemma add_at_inv a idx vals a' :
  add_at a idx vals = Some a' →
  Forall (λ i, (i < length a)%nat) idx ∧ length idx = length vals ∧ length a' = length a.
Proof.
  revert a vals. induction idx as [|i idx IH]; intros a [|v vals] H; simplify_eq/=; [done|].
  destruct (incr_at a i v) as [a1|] eqn:E; simplify_eq/=.
  apply incr_at_inv in E as [Hi ->].
  apply IH in H as (Hidx & Hlen & Hl). rewrite length_insert in Hidx, Hl.
  split; [by constructor|]. split; [by f_equal|done].
Qed.

Lemma add_at_bin_notin a idx vals a' k :
  add_at a idx vals = Some a' → k ∉ idx → bin a' k = bin a k.
Proof.
  revert a vals. induction idx as [|i idx IH]; intros a [|v vals] H Hk; simplify_eq/=; [done|].
  destruct (incr_at a i v) as [a1|] eqn:E; simplify_eq/=.
  apply incr_at_inv in E as [Hi ->].
  apply not_elem_of_cons in Hk as [Hne Hk].
  rewrite (IH _ _ H Hk), bin_insert by done. by rewrite decide_False.
Qed.

Lemma add_at_same_bins a b idx vals a' b' :
  same_bins a b → add_at a idx vals = Some a' → add_at b idx vals = Some b' →
  same_bins a' b'.
Proof.
  revert a b vals. induction idx as [|i idx IH]; intros a b [|v vals] Hab Ha Hb;
    simplify_eq/=; [done|].
  destruct (incr_at a i v) as [a1|] eqn:Ea; simplify_eq/=.
  destruct (incr_at b i v) as [b1|] eqn:Eb; simplify_eq/=.
  apply incr_at_inv in Ea as [Hia ->]. apply incr_at_inv in Eb as [Hib ->].
  eapply IH; [|done..].
  intros k. rewrite !bin_insert by done. case_decide; [|done]. by rewrite (Hab i).
Qed.

Lemma clear_idx_Some mask idx :
  Forall (λ i, (i < length mask)%nat) idx → is_Some (clear_idx mask idx).
Proof.
  intros H. unfold clear_idx. destruct (take_idx_Some mask idx H) as [x ->].
  by eexists.
Qed.

Lemma clear_idx_inv mask idx mask' :
  clear_idx mask idx = Some mask' →
  length mask' = length mask ∧
  ∀ k, mask' !! k = if decide (k ∈ idx) then Some false else mask !! k.
Proof.
  unfold clear_idx. intros H.
  destruct (take_idx mask idx) as [tmp|] eqn:E; simplify_eq/=.
  apply take_idx_inv in E as [Hidx _].
  split; [apply length_put_idx|]. intros k.
  rewrite <- (const_fmap (λ _ : nat, false)) by done.
  by apply put_idx_lookup.
Qed.

(** ** [np.unique], [np.searchsorted] and [np.intersect1d] *)

Lemma np_unique_Permutation l : np_unique l ≡ₚ remove_dups l.
Proof. apply merge_sort_Permutation. Qed.

Lemma elem_of_np_unique l x : x ∈ np_unique l ↔ x ∈ l.
Proof. rewrite np_unique_Permutation. apply elem_of_remove_dups. Qed.

Lemma NoDup_np_unique l : NoDup (np_unique l).
Proof. rewrite np_unique_Permutation. apply NoDup_remove_dups. Qed.

Lemma resids_distinct_spec ag :
  resids_distinct ag ↔
  ∀ a b, a ∈ ag → b ∈ ag → resid a = resid b → resindex a = resindex b.
Proof.
  unfold resids_distinct. rewrite Forall_forall. split.
  - intros H a b Ha Hb. specialize (H a Ha). rewrite Forall_forall in H. by apply H.
  - intros H a Ha. apply Forall_forall. intros b Hb. by apply H.
Qed.

Lemma resids_of_residues (ag : AtomGroup) : resids ag = snd <$> (residue <$> ag).
Proof. unfold resids. rewrite <- list_fmap_compose. by apply list_fmap_ext. Qed.

(** The slots that [np.unique(ag.resids)] gives are at most as many as the
    residues of the group. *)
Lemma n_unique_resids_le ag : (length (np_unique (resids ag)) ≤ n_residues ag)%nat.
Proof.
  unfold n_residues. rewrite np_unique_Permutation.
  rewrite <- (length_fmap snd (remove_dups (residue <$> ag))).
  apply submseteq_length, NoDup_submseteq; [apply NoDup_remove_dups|].
  intros x Hx. apply (proj1 (elem_of_remove_dups _ _)) in Hx.
  unfold resids in Hx. apply list_elem_of_fmap in Hx as (a & -> & Ha).
  apply list_elem_of_fmap. exists (residue a). split; [done|].
  apply elem_of_remove_dups. by apply list_elem_of_fmap_2.
Qed.

Lemma length_np_unique_resids ag :
  resids_distinct ag → length (np_unique (resids ag)) = n_residues ag.
Proof.
  intros Hd. unfold n_residues. rewrite np_unique_Permutation.
  rewrite <- (length_fmap snd (remove_dups (residue <$> ag))).
  apply Permutation_length, NoDup_Permutation; [apply NoDup_remove_dups| |].
  - apply NoDup_fmap_2_strong; [|apply NoDup_remove_dups].
    intros x y Hx Hy Heq.
    apply (proj1 (elem_of_remove_dups _ _)) in Hx, Hy.
    apply list_elem_of_fmap in Hx as (a & -> & Ha).
    apply list_elem_of_fmap in Hy as (b & -> & Hb).
    unfold residue in *. simpl in Heq.
    by rewrite (proj1 (resids_distinct_spec ag) Hd a b Ha Hb Heq), Heq.
  - intros x. rewrite elem_of_remove_dups, resids_of_residues.
    rewrite !list_elem_of_fmap. split.
    + intros (r & -> & Hr). exists r. split; [done|]. by apply elem_of_remove_dups.
    + intros (r & -> & Hr). exists r. split; [done|].
      by apply (proj1 (elem_of_remove_dups _ _)).
Qed.

Lemma n_resids_distinct ag :
  resids_distinct ag → length (remove_dups (resids ag)) = n_residues ag.
Proof.
  intros H. rewrite <- (length_np_unique_resids ag H). by rewrite np_unique_Permutation.
Qed.

Lemma resids_distinct_NoDup ag : NoDup (resids ag) → resids_distinct ag.
Proof.
  intros Hnd. apply resids_distinct_spec. intros a b Ha Hb Heq.
  apply list_elem_of_lookup in Ha as [i Hi]. apply list_elem_of_lookup in Hb as [j Hj].
  assert (i = j) as ->.
  { apply (NoDup_lookup (resids ag) i j (resid a)); [done|..]; unfold resids;
      rewrite list_lookup_fmap; [by rewrite Hi|by rewrite Hj, Heq]. }
  congruence.
Qed.

Lemma atoms_around_point_resids_distinct in_range (ag : AtomGroup) p c :
  resids_distinct ag → resids_distinct (atoms_around_point in_range ag p c).
Proof.
  rewrite !resids_distinct_spec. intros Hd a b Ha Hb.
  apply list_elem_of_filter in Ha as [_ Ha]. apply list_elem_of_filter in Hb as [_ Hb].
  by apply Hd.
Qed.

Lemma resids_distinct_filter (P : Atom → Prop) `{!∀ a, Decision (P a)} (ag : AtomGroup) :
  resids_distinct ag → resids_distinct (filter P ag).
Proof.
  rewrite !resids_distinct_spec. intros Hd a b Ha Hb.
  apply list_elem_of_filter in Ha as [_ Ha]. apply list_elem_of_filter in Hb as [_ Hb].
  by apply Hd.
Qed.

Lemma length_unique_counts l : length (unique_counts l) = length (np_unique l).
Proof. unfold unique_counts. by rewrite length_fmap. Qed.

Lemma np_unique_nil_inv l : np_unique l = [] → l = [].
Proof.
  intros H. destruct l as [|x l]; [done|].
  assert (x ∈ np_unique (x :: l)) as Hx by (apply elem_of_np_unique; left).
  rewrite H in Hx. by apply elem_of_nil in Hx.
Qed.

Lemma count_of_pos v l : v ∈ l → (0 < count_of v l)%nat.
Proof.
  intros Hv. unfold count_of.
  assert (v ∈ filter (λ x, x = v) l) as Hin by (by apply list_elem_of_filter).
  destruct (filter _ l); [by apply elem_of_nil in Hin|simpl; lia].
Qed.

Lemma unique_counts_pos l : Forall (λ c, (0 < c)%nat) (unique_counts l).
Proof.
  unfold unique_counts. apply Forall_fmap, Forall_forall. intros v Hv. simpl.
  apply count_of_pos. by apply elem_of_np_unique.
Qed.

Lemma max_nat_ge l c : c ∈ l → (c ≤ max_nat l)%nat.
Proof.
  induction l as [|x l IH]; [by intros ?%elem_of_nil|].
  intros [->|H]%elem_of_cons; simpl; [lia|]. specialize (IH H). lia.
Qed.

Lemma searchsorted_lt a v : v ∈ a → (searchsorted a v < length a)%nat.
Proof. intros Hv. unfold searchsorted. eapply length_filter_lt; [done|lia]. Qed.

Lemma length_filter_strict {A} (P Q : A → Prop)
    `{!∀ x, Decision (P x)} `{!∀ x, Decision (Q x)} (l : list A) (y : A) :
  (∀ x, P x → Q x) → y ∈ l → Q y → ¬ P y →
  (length (filter P l) < length (filter Q l))%nat.
Proof.
  intros HPQ Hy HQ HP.
  assert (∀ l', length (filter P l') ≤ length (filter Q l'))%nat as Hle.
  { induction l' as [|x l' IH]; [done|]. rewrite !filter_cons.
    destruct (decide (P x)) as [HPx|HPx].
    - rewrite decide_True by auto. simpl. lia.
    - case_decide; simpl; lia. }
  induction l as [|x l IH]; [by apply elem_of_nil in Hy|].
  rewrite !filter_cons. apply elem_of_cons in Hy as [<-|Hy].
  - rewrite decide_False, decide_True by done. simpl. specialize (Hle l). lia.
  - specialize (IH Hy). destruct (decide (P x)) as [HPx|HPx].
    + rewrite decide_True by auto. simpl. lia.
    + case_decide; simpl; lia.
Qed.

(** Distinct values of a sorted array have distinct insertion points. *)
Lemma searchsorted_inj a v w :
  v ∈ a → w ∈ a → searchsorted a v = searchsorted a w → v = w.
Proof.
  intros Hv Hw Heq. unfold searchsorted in Heq.
  destruct (N.lt_trichotomy v w) as [Hlt|[?|Hlt]]; [|done|].
  - assert (length (filter (λ x, (x < v)%N) a)
            < length (filter (λ x, (x < w)%N) a))%nat; [|lia].
    apply (length_filter_strict _ _ a v); [intros; lia|done|lia|lia].
  - assert (length (filter (λ x, (x < w)%N) a)
            < length (filter (λ x, (x < v)%N) a))%nat; [|lia].
    apply (length_filter_strict _ _ a w); [intros; lia|done|lia|lia].
Qed.

Lemma intersect1d_indices_Permutation ar1 ar2 :
  intersect1d_indices ar1 ar2 ≡ₚ
    (filter (λ p : N * nat, p.1 ∈ ar2) (zip ar1 (seq 0 (length ar1)))).*2.
Proof. unfold intersect1d_indices. by rewrite merge_sort_Permutation. Qed.

Lemma intersect1d_indices_lt ar1 ar2 :
  Forall (λ i, (i < length ar1)%nat) (intersect1d_indices ar1 ar2).
Proof.
  rewrite intersect1d_indices_Permutation. apply Forall_fmap, Forall_forall.
  intros [v i] [_ Hin]%list_elem_of_filter. simpl.
  apply elem_of_zip_r, elem_of_seq in Hin. lia.
Qed.

Lemma NoDup_intersect1d_indices ar1 ar2 : NoDup (intersect1d_indices ar1 ar2).
Proof.
  rewrite intersect1d_indices_Permutation.
  apply (sublist_NoDup _ (seq 0 (length ar1))); [apply NoDup_seq|].
  rewrite <- (snd_zip ar1 (seq 0 (length ar1))) at 2 by (rewrite length_seq; lia).
  apply fmap_sublist, sublist_filter.
Qed.

Lemma fst_filter_zip_seq (P : N → Prop) `{!∀ x, Decision (P x)} (l : list N) j :
  (filter (λ p : N * nat, P p.1) (zip l (seq j (length l)))).*1 = filter P l.
Proof.
  revert j. induction l as [|x l IH]; intros j; [done|]. simpl.
  rewrite !filter_cons. simpl. case_decide; simpl; by rewrite IH.
Qed.

Lemma length_intersect1d_indices ar1 ar2 :
  NoDup ar1 → NoDup ar2 → (∀ x, x ∈ ar2 → x ∈ ar1) →
  length (intersect1d_indices ar1 ar2) = length ar2.
Proof.
  intros H1 H2 Hsub. rewrite intersect1d_indices_Permutation, length_fmap.
  rewrite <- (length_fmap fst
    (filter (λ p : N * nat, p.1 ∈ ar2) (zip ar1 (seq 0 (length ar1))))).
  pose proof (fst_filter_zip_seq (λ x, x ∈ ar2) ar1 0) as Hfst.
  cbv beta in Hfst. rewrite Hfst.
  apply Permutation_length, NoDup_Permutation; [exact (NoDup_filter _ _ H1)|done|].
  intros x. rewrite list_elem_of_filter. split; [by intros [? _]|].
  intros Hx. split; [done|]. by apply Hsub.
Qed.

(** ** The loop combinator *)

Lemma for_each_app {S A} (body : S → A → option S) st l1 l2 :
  for_each body st (l1 ++ l2) = st' ← for_each body st l1; for_each body st' l2.
Proof.
  revert st. induction l1 as [|a l1 IH]; intros st; simpl; [done|].
  destruct (body st a) as [st1|]; simpl; [apply IH|done].
Qed.

(** Invariant rule: an invariant that every pass re-establishes, while
    passing, holds at the end of the loop, and the loop ends. *)
Lemma for_each_inv {S A} (I : list A → S → Prop) (body : S → A → option S) l st0 :
  I [] st0 →
  (∀ done a todo st, l = done ++ a :: todo → I done st →
     ∃ st', body st a = Some st' ∧ I (done ++ [a]) st') →
  ∃ st, for_each body st0 l = Some st ∧ I l st.
Proof.
  intros H0 Hstep.
  assert (∀ todo done st, l = done ++ todo → I done st →
            ∃ st', for_each body st todo = Some st' ∧ I l st') as Hgen.
  { induction todo as [|a todo IH]; intros done st Hl HI.
    - rewrite app_nil_r in Hl. subst. by exists st.
    - destruct (Hstep done a todo st Hl HI) as (st1 & Hb & HI1).
      simpl. rewrite Hb. simpl. apply (IH (done ++ [a])); [|done].
      by rewrite <- app_assoc. }
  by apply (Hgen l []).
Qed.

(** Two runs of the same loop from related states stay related. *)
Lemma for_each_rel {S A} (R : S → S → Prop) (body : S → A → option S) l s1 s2 s1' s2' :
  R s1 s2 →
  (∀ a t1 t2 t1' t2', a ∈ l → R t1 t2 → body t1 a = Some t1' → body t2 a = Some t2' →
     R t1' t2') →
  for_each body s1 l = Some s1' → for_each body s2 l = Some s2' → R s1' s2'.
Proof.
  revert s1 s2. induction l as [|a l IH]; intros s1 s2 HR Hstep H1 H2; simplify_eq/=.
  { done. }
  destruct (body s1 a) as [t1|] eqn:E1; simplify_eq/=.
  destruct (body s2 a) as [t2|] eqn:E2; simplify_eq/=.
  apply (IH t1 t2); [|intros; eapply Hstep; [by right|done..]|done..].
  eapply Hstep; [by left|done..].
Qed.

(** ** The neighbour query *)

Lemma atoms_around_point_elem in_range ag p c a :
  a ∈ atoms_around_point in_range ag p c → a ∈ ag.
Proof. unfold atoms_around_point. by intros [_ ?]%list_elem_of_filter. Qed.

Lemma atoms_around_point_sublist in_range ag p c :
  atoms_around_point in_range ag p c `sublist_of` ag.
Proof. apply sublist_filter. Qed.

Lemma atoms_around_point_resids in_range ag p c r :
  r ∈ resids (atoms_around_point in_range ag p c) → r ∈ resids ag.
Proof.
  unfold resids. intros (a & -> & Ha)%list_elem_of_fmap.
  apply list_elem_of_fmap_2. by eapply atoms_around_point_elem.
Qed.

Lemma atoms_around_point_ids in_range ag p c i :
  i ∈ ids (atoms_around_point in_range ag p c) → i ∈ ids ag.
Proof.
  unfold ids. intros (a & -> & Ha)%list_elem_of_fmap.
  apply list_elem_of_fmap_2. by eapply atoms_around_point_elem.
Qed.

Lemma atoms_around_point_NoDup_ids in_range ag p c :
  NoDup (ids ag) → NoDup (ids (atoms_around_point in_range ag p c)).
Proof.
  intros H. eapply sublist_NoDup; [exact H|].
  apply fmap_sublist, atoms_around_point_sublist.
Qed.

(** ** The pieces of one pass *)

Lemma same_and_pair_Some same pair counts :
  (0 < length same)%nat → is_Some (same_and_pair same pair counts).
Proof.
  intros Hs. unfold same_and_pair. case_decide as Hc.
  - rewrite incr_at_Some by done. by eexists.
  - assert (Forall (λ i, (i < length (extend same (max_nat counts + 1)))%nat) counts)
      as H1.
    { apply Forall_forall. intros c Hc'. apply max_nat_ge in Hc'.
      rewrite length_extend. lia. }
    assert (Forall (λ i, (i < length (extend pair (max_nat counts + 1)))%nat) counts)
      as H2.
    { apply Forall_forall. intros c Hc'. apply max_nat_ge in Hc'.
      rewrite length_extend. lia. }
    rewrite (fancy_incr_Some _ _ H1). simpl.
    destruct (add_at_Some _ counts (replicate (length counts) 1) H2) as [p Hp].
    { by rewrite length_replicate. }
    rewrite Hp. by eexists.
Qed.

(** What one reference atom does to [refatm_same_selres] and
    [refatm_selres_pair]. *)
Lemma same_and_pair_inv same pair counts same' pair' :
  same_and_pair same pair counts = Some (same', pair') →
  (length same ≤ length same')%nat ∧
  (length pair ≤ length pair')%nat ∧
  (∀ k, bin same' k =
        if decide (k ∈ if decide (length counts = 0%nat) then [0%nat] else counts)
        then u32 (bin same k + 1) else bin same k) ∧
  (∀ k, k ∉ counts → bin pair' k = bin pair k).
Proof.
  unfold same_and_pair. intros H. case_decide as Hc.
  - destruct (incr_at same 0 1) as [s|] eqn:E; simplify_eq/=.
    apply incr_at_inv in E as [H0 ->]. rewrite length_insert.
    split; [done|]. split; [done|]. split; [|done].
    intros k. rewrite bin_insert by done.
    destruct (decide (k = 0%nat)) as [->|Hk].
    + rewrite decide_True; [done|]. by apply list_elem_of_singleton.
    + rewrite decide_False; [done|]. by intros ?%list_elem_of_singleton.
  - destruct (fancy_incr _ counts) as [s|] eqn:E1; simplify_eq/=.
    destruct (add_at _ counts _) as [p|] eqn:E2; simplify_eq/=.
    apply fancy_incr_inv in E1 as (_ & Hl1 & Hb1).
    pose proof (add_at_inv _ _ _ _ E2) as (_ & _ & Hl2).
    rewrite length_extend in Hl1, Hl2.
    split; [lia|]. split; [lia|]. split.
    + intros k. rewrite Hb1, bin_extend. done.
    + intros k Hk. rewrite (add_at_bin_notin _ _ _ _ _ E2 Hk). apply bin_extend.
Qed.

Lemma credit_unused_Some unused refresid idx n :
  (refresid < length unused)%nat → Forall (λ row, length row = n) unused →
  Forall (λ i, (i < n)%nat) idx →
  ∃ c unused', credit_unused unused refresid idx = Some (c, unused') ∧
    length unused' = length unused ∧ Forall (λ row, length row = n) unused'.
Proof.
  intros Hr Hrows Hidx. unfold credit_unused.
  destruct (lookup_lt_is_Some_2 _ _ Hr) as [row Hrow]. rewrite Hrow. simpl.
  assert (length row = n) as Hn.
  { eapply Forall_lookup_1 in Hrows; [|exact Hrow]. done. }
  assert (Forall (λ i, (i < length row)%nat) idx) as Hidx' by (by rewrite Hn).
  destruct (take_idx_Some row idx Hidx') as [fresh ->]. simpl.
  destruct (clear_idx_Some row idx Hidx') as [row' Hrow']. rewrite Hrow'. simpl.
  eexists _, _. split; [done|]. rewrite length_insert. split; [done|].
  apply Forall_insert; [done|]. apply clear_idx_inv in Hrow' as [-> _]. done.
Qed.

(** ** One pass of the loop *)

Section Loop.
Context (in_range : Point → Point → Q → bool) (ref sel : AtomGroup) (cutoff : Q).

Local Abbreviation near a := (atoms_around_point in_range sel (position a) cutoff).
Local Abbreviation body :=
  (loop_body in_range sel cutoff (np_unique (resids ref)) (np_unique (resids sel))).
Local Abbreviation refresid a := (searchsorted (np_unique (resids ref)) (resid a)).
Local Abbreviation WF := (wf_state (n_residues ref) (n_atoms sel) (n_residues sel)).

Lemma refresid_lt a : a ∈ ref → (refresid a < n_residues ref)%nat.
Proof.
  intros Ha. eapply Nat.lt_le_trans; [|apply n_unique_resids_le]. apply searchsorted_lt.
  apply elem_of_np_unique. unfold resids. by apply list_elem_of_fmap_2.
Qed.

Lemma selatmids_lt a :
  Forall (λ i, (i < n_atoms sel)%nat) (intersect1d_indices (ids sel) (ids (near a))).
Proof.
  pose proof (intersect1d_indices_lt (ids sel) (ids (near a))) as H.
  unfold ids in H at 1. by rewrite length_fmap in H.
Qed.

Lemma selresids_idx_lt a :
  Forall (λ i, (i < n_residues sel)%nat)
    (intersect1d_indices (np_unique (resids sel)) (np_unique (resids (near a)))).
Proof.
  pose proof (intersect1d_indices_lt (np_unique (resids sel))
                (np_unique (resids (near a)))) as H.
  eapply Forall_impl; [exact H|]. intros i Hi.
  eapply Nat.lt_le_trans; [exact Hi|]. apply n_unique_resids_le.
Qed.

Lemma length_selresids_idx a :
  length (intersect1d_indices (np_unique (resids sel)) (np_unique (resids (near a))))
  = length (unique_counts (resids (near a))).
Proof.
  rewrite length_unique_counts.
  apply length_intersect1d_indices; [apply NoDup_np_unique..|].
  intros r Hr. apply elem_of_np_unique.
  apply (proj1 (elem_of_np_unique _ _)) in Hr.
  exact (atoms_around_point_resids _ _ _ _ _ Hr).
Qed.

Lemma init_state_wf emc : (0 < emc)%nat → WF (init_state ref sel emc).
Proof.
  intros Hemc. split; simpl; unfold zeros; rewrite ?length_replicate; try done;
    by apply Forall_replicate; rewrite ?length_replicate.
Qed.

(** A pass over an atom of the reference group raises no error. *)
Lemma loop_body_Some st a :
  WF st → a ∈ ref → ∃ st', body st a = Some st' ∧ WF st'.
Proof.
  intros [] Ha. pose proof (refresid_lt a Ha) as Hr. unfold loop_body.
  rewrite (incr_at_Some (extend (s_refatm_selatm st) _))
    by (rewrite length_extend; unfold n_atoms; lia).
  cbn [mbind option_bind].
  rewrite (incr_at_Some (extend (s_refatm_diff_selres st) _))
    by (rewrite length_extend; lia).
  cbn [mbind option_bind].
  destruct (same_and_pair_Some (s_refatm_same_selres st) (s_refatm_selres_pair st)
              (unique_counts (resids (near a))) wf_same0) as [[same' pair'] Hsp].
  rewrite Hsp. cbn [mbind option_bind].
  rewrite (incr_at_Some (s_refres_selatm_tot st)) by lia. cbn [mbind option_bind].
  destruct (credit_unused_Some (s_selatm_unused st) (refresid a)
              (intersect1d_indices (ids sel) (ids (near a))) (n_atoms sel))
    as (ca & ua & Hca & Hual & Huar); [lia|done|apply selatmids_lt|].
  rewrite Hca. cbn [mbind option_bind].
  rewrite (incr_at_Some (s_refres_diff_selatm st)) by lia. cbn [mbind option_bind].
  destruct (lookup_lt_is_Some_2 (s_refres_selatm_pair st) (refresid a))
    as [atm_row Hatm]; [lia|].
  rewrite Hatm. cbn [mbind option_bind].
  assert (length atm_row = n_atoms sel) as Hatml.
  { by eapply Forall_lookup_1 in wf_atm_rows0. }
  rewrite fancy_incr_Some by (rewrite Hatml; apply selatmids_lt). cbn [mbind option_bind].
  destruct (credit_unused_Some (s_selres_unused st) (refresid a)
              (intersect1d_indices (np_unique (resids sel))
                 (np_unique (resids (near a)))) (n_residues sel))
    as (cr & ur & Hcr & Hurl & Hurr); [lia|done|apply selresids_idx_lt|].
  rewrite Hcr. cbn [mbind option_bind].
  rewrite (incr_at_Some (s_refres_diff_selres st)) by lia. cbn [mbind option_bind].
  destruct (lookup_lt_is_Some_2 (s_refres_selres_pair st) (refresid a))
    as [res_row Hres]; [lia|].
  rewrite Hres. cbn [mbind option_bind].
  assert (length res_row = n_residues sel) as Hresl.
  { by eapply Forall_lookup_1 in wf_res_rows0. }
  destruct (add_at_Some res_row
              (intersect1d_indices (np_unique (resids sel))
                 (np_unique (resids (near a))))
              (N.of_nat <$> unique_counts (resids (near a)))) as [res_row' Hadd].
  { rewrite Hresl. apply selresids_idx_lt. }
  { by rewrite length_fmap, length_selresids_idx. }
  rewrite Hadd. cbn [mbind option_bind]. eexists. split; [done|].
  apply same_and_pair_inv in Hsp as (Hls & _).
  apply add_at_inv in Hadd as (_ & _ & Hl').
  split; simpl; rewrite ?length_insert; try lia.
  - apply Forall_insert; [done|]. by rewrite length_put_idx.
  - apply Forall_insert; [done|]. lia.
  - done.
  - done.
Qed.

(** What a pass that raises no error has done to each array. *)
Lemma loop_body_inv st a st' :
  body st a = Some st' →
  incr_at (extend (s_refatm_selatm st) (n_atoms (near a) + 1)) (n_atoms (near a)) 1
    = Some (s_refatm_selatm st') ∧
  incr_at (extend (s_refatm_diff_selres st) (n_residues (near a) + 1))
      (n_residues (near a)) 1
    = Some (s_refatm_diff_selres st') ∧
  same_and_pair (s_refatm_same_selres st) (s_refatm_selres_pair st)
      (unique_counts (resids (near a)))
    = Some (s_refatm_same_selres st', s_refatm_selres_pair st') ∧
  incr_at (s_refres_selatm_tot st) (refresid a) (N.of_nat (n_atoms (near a)))
    = Some (s_refres_selatm_tot st') ∧
  (∃ c, credit_unused (s_selatm_unused st) (refresid a)
          (intersect1d_indices (ids sel) (ids (near a)))
        = Some (c, s_selatm_unused st') ∧
        incr_at (s_refres_diff_selatm st) (refresid a) (N.of_nat c)
        = Some (s_refres_diff_selatm st')) ∧
  (∃ row row', s_refres_selatm_pair st !! refresid a = Some row ∧
        fancy_incr row (intersect1d_indices (ids sel) (ids (near a))) = Some row' ∧
        s_refres_selatm_pair st' = <[refresid a := row']> (s_refres_selatm_pair st)) ∧
  (∃ c, credit_unused (s_selres_unused st) (refresid a)
          (intersect1d_indices (np_unique (resids sel)) (np_unique (resids (near a))))
        = Some (c, s_selres_unused st') ∧
        incr_at (s_refres_diff_selres st) (refresid a) (N.of_nat c)
        = Some (s_refres_diff_selres st')) ∧
  (∃ row row', s_refres_selres_pair st !! refresid a = Some row ∧
        add_at row
          (intersect1d_indices (np_unique (resids sel)) (np_unique (resids (near a))))
          (N.of_nat <$> unique_counts (resids (near a))) = Some row' ∧
        s_refres_selres_pair st' = <[refresid a := row']> (s_refres_selres_pair st)).
Proof.
  unfold loop_body. intros H.
  repeat match type of H with
  | mbind _ ?x = Some _ =>
      let E := fresh "E" in destruct x eqn:E; cbn [mbind option_bind] in H; [|done]
  end.
  simplify_eq. simpl.
  repeat match goal with p : (_ * _)%type |- _ => destruct p end. simpl in *.
  repeat split; eauto.
Qed.
End Loop.

(** ** Residues of a group *)

Lemma n_residues_le ag : (n_residues ag ≤ n_atoms ag)%nat.
Proof.
  unfold n_residues, n_atoms. rewrite <- (length_fmap residue ag).
  apply submseteq_length, NoDup_submseteq; [apply NoDup_remove_dups|].
  intros x. by rewrite elem_of_remove_dups.
Qed.

Lemma n_residues_pos ag : (0 < n_atoms ag)%nat → (0 < n_residues ag)%nat.
Proof.
  intros H. unfold n_residues. destruct ag as [|a ag]; [simpl in H; lia|].
  assert (residue a ∈ remove_dups (residue <$> a :: ag)) as Hin.
  { apply elem_of_remove_dups. by left. }
  destruct (remove_dups (residue <$> a :: ag)); [by apply elem_of_nil in Hin|simpl; lia].
Qed.

Lemma n_residues_NoDup ag : NoDup (resids ag) → n_residues ag = n_atoms ag.
Proof.
  intros H. unfold n_residues, n_atoms. rewrite <- (length_fmap residue ag).
  rewrite resids_of_residues in H. apply NoDup_fmap_1 in H.
  apply Permutation_length, NoDup_Permutation; [apply NoDup_remove_dups|done|].
  intros x. apply elem_of_remove_dups.
Qed.

Lemma n_resids_NoDup ag : NoDup (resids ag) → length (remove_dups (resids ag)) = n_atoms ag.
Proof.
  intros H. unfold n_atoms. rewrite <- (length_fmap resid ag).
  apply Permutation_length, NoDup_Permutation; [apply NoDup_remove_dups|done|].
  intros x. apply elem_of_remove_dups.
Qed.

Lemma n_unique_resids_zero ag : length (np_unique (resids ag)) = 0%nat ↔ n_atoms ag = 0%nat.
Proof.
  split.
  - intros H. apply nil_length_inv, np_unique_nil_inv in H.
    unfold resids in H. apply fmap_nil_inv in H. by rewrite H.
  - intros H. apply nil_length_inv in H. by rewrite H.
Qed.

(** The guard of the debug checks: every residue index occurs once. *)
Lemma n_residues_NoDup_resindices ag : NoDup (resindices ag) → n_residues ag = n_atoms ag.
Proof.
  intros H. unfold n_residues, n_atoms. rewrite <- (length_fmap residue ag).
  assert (resindices ag = fst <$> (residue <$> ag)) as Heq.
  { unfold resindices. rewrite <- list_fmap_compose. by apply list_fmap_ext. }
  rewrite Heq in H. apply NoDup_fmap_1 in H.
  apply Permutation_length, NoDup_Permutation; [apply NoDup_remove_dups|done|].
  intros x. apply elem_of_remove_dups.
Qed.

(** ** [np.max], [np.bincount] and the row scans *)

Lemma np_max_Some l : l ≠ [] → is_Some (np_max l).
Proof. destruct l; [done|by eexists]. Qed.

Lemma np_max_ge l m x : np_max l = Some m → x ∈ l → x ≤ m.
Proof.
  destruct l as [|y l]; [done|]. simpl. intros [= <-]. revert x.
  induction l as [|z l IH]; simpl; intros x Hx.
  - apply list_elem_of_singleton in Hx. subst. lia.
  - apply elem_of_cons in Hx as [Hx|Hx].
    + subst. assert (y ≤ foldr N.max y l) by (apply IH; by left). lia.
    + apply elem_of_cons in Hx as [Hx|Hx]; [subst; lia|].
      assert (x ≤ foldr N.max y l) by (apply IH; by right). lia.
Qed.

Lemma count_of_le v l : (count_of v l ≤ length l)%nat.
Proof. apply length_filter. Qed.

Lemma count_of_cons v y l :
  count_of v (y :: l) = ((if decide (y = v) then 1 else 0) + count_of v l)%nat.
Proof. unfold count_of. rewrite filter_cons. by case_decide. Qed.

Lemma length_bincount x m : np_max x = Some m → length (bincount x) = S (N.to_nat m).
Proof. intros H. unfold bincount. rewrite H. by rewrite length_fmap, length_seq. Qed.

Lemma bincount_lookup x m k :
  np_max x = Some m → (k ≤ N.to_nat m)%nat →
  bincount x !! k = Some (N.of_nat (count_of (N.of_nat k) x)).
Proof.
  intros H Hk. unfold bincount. rewrite H, list_lookup_fmap.
  rewrite lookup_seq_lt by lia. done.
Qed.

Lemma bincount_nonempty x : x ≠ [] → (0 < length (bincount x))%nat.
Proof.
  intros H. destruct (np_max_Some x H) as [m Hm].
  rewrite (length_bincount _ _ Hm). lia.
Qed.

Lemma Forall_bincount x : Forall (λ c, c ≤ N.of_nat (length x)) (bincount x).
Proof.
  unfold bincount. destruct (np_max x); [|done].
  apply Forall_fmap, Forall_forall. intros k _. simpl.
  pose proof (count_of_le (N.of_nat k) x). lia.
Qed.

Lemma np_sum_counts (x : list N) (ks : list nat) :
  NoDup ks →
  np_sum ((λ k, N.of_nat (count_of (N.of_nat k) x)) <$> ks)
  = N.of_nat (length (filter (λ y, N.to_nat y ∈ ks) x)).
Proof.
  intros Hks. induction x as [|y x IH].
  { clear Hks. induction ks as [|k ks IHk]; [done|].
    rewrite fmap_cons, np_sum_cons, IHk. done. }
  rewrite filter_cons.
  transitivity ((if decide (N.to_nat y ∈ ks) then 1 else 0)
                + np_sum ((λ k, N.of_nat (count_of (N.of_nat k) x)) <$> ks)).
  2:{ rewrite IH. case_decide; simpl; lia. }
  clear IH. induction ks as [|k ks IHk].
  { rewrite decide_False by apply not_elem_of_nil. done. }
  apply NoDup_cons in Hks as [Hk Hks].
  rewrite !fmap_cons, !np_sum_cons, (IHk Hks), count_of_cons.
  destruct (decide (y = N.of_nat k)) as [->|Hy].
  - rewrite Nat2N.id.
    rewrite (decide_True (P := k ∈ k :: ks)) by (by left).
    rewrite (decide_False (P := k ∈ ks)) by done. lia.
  - destruct (decide (N.to_nat y ∈ ks)) as [Hin|Hin].
    + rewrite (decide_True (P := N.to_nat y ∈ k :: ks)) by (by right). lia.
    + rewrite (decide_False (P := N.to_nat y ∈ k :: ks)); [lia|].
      intros [He|?]%elem_of_cons; [|done]. apply Hy. lia.
Qed.

Lemma filter_all {A} (P : A → Prop) `{!∀ x, Decision (P x)} (l : list A) :
  (∀ x, x ∈ l → P x) → filter P l = l.
Proof.
  induction l as [|x l IH]; intros Hall; [done|].
  rewrite filter_cons_True by (apply Hall; by left).
  f_equal. apply IH. intros y Hy. apply Hall. by right.
Qed.

Lemma filter_none {A} (P : A → Prop) `{!∀ x, Decision (P x)} (l : list A) :
  (∀ x, x ∈ l → ¬ P x) → filter P l = [].
Proof.
  induction l as [|x l IH]; intros Hall; [done|].
  rewrite filter_cons_False by (apply Hall; by left).
  apply IH. intros y Hy. apply Hall. by right.
Qed.

(** The bins of [np.bincount] add up to the number of counted values. *)
Lemma np_sum_bincount x : np_sum (bincount x) = N.of_nat (length x).
Proof.
  unfold bincount. destruct (np_max x) as [m|] eqn:Hm.
  - rewrite np_sum_counts by apply NoDup_seq. f_equal.
    f_equal. apply filter_all. intros y Hy. apply elem_of_seq.
    pose proof (np_max_ge _ _ _ Hm Hy). lia.
  - destruct x; [done|discriminate].
Qed.

Lemma np_sum_astype_uint32 l : Forall (λ c, c < 2 ^ 32) l → np_sum (astype_uint32 l) = np_sum l.
Proof.
  unfold astype_uint32. induction 1 as [|c l Hc _ IH]; [done|].
  by rewrite fmap_cons, !np_sum_cons, IH, u32_small.
Qed.

Lemma length_astype_uint32 l : length (astype_uint32 l) = length l.
Proof. apply length_fmap. Qed.

Lemma count_nonzero_le l : (count_nonzero l ≤ length l)%nat.
Proof. apply length_filter. Qed.

Lemma length_rows_with n matrix : length (rows_with n matrix) = length matrix.
Proof. apply length_fmap. Qed.

Lemma length_rows_nonzero matrix : length (rows_nonzero matrix) = length matrix.
Proof. apply length_fmap. Qed.

(** ** The "same partner" scan and the pair histogram *)

Lemma same_scan (f : nat → N) M :
  ∃ h, for_each (λ same n, set_at same n (f n)) (zeros M) (seq 1 (M - 1)) = Some h ∧
       length h = M ∧
       ∀ k, bin h k = if decide (1 ≤ k < M)%nat then u32 (f k) else 0.
Proof.
  destruct (for_each_inv
    (λ done h, length h = M ∧
               ∀ k, bin h k = if decide (k ∈ done) then u32 (f k) else 0)
    (λ same n, set_at same n (f n)) (seq 1 (M - 1)) (zeros M)) as (h & Hh & Hl & Hb).
  - split; [apply length_replicate|]. intros k.
    rewrite decide_False by apply not_elem_of_nil. apply bin_replicate.
  - intros done a todo h Hseq [Hl Hb].
    assert (a ∈ seq 1 (M - 1)) as Ha.
    { rewrite Hseq. apply elem_of_app. right. by left. }
    apply elem_of_seq in Ha.
    rewrite set_at_Some by lia. eexists. split; [done|].
    rewrite length_insert. split; [done|]. intros k.
    rewrite bin_insert by lia. destruct (decide (k = a)) as [->|Hk].
    + rewrite decide_True; [done|]. apply elem_of_app. right. by left.
    + rewrite Hb. destruct (decide (k ∈ done)) as [Hin|Hin].
      * rewrite decide_True; [done|]. apply elem_of_app. by left.
      * rewrite decide_False; [done|].
        intros [?|?%list_elem_of_singleton]%elem_of_app; done.
  - exists h. split; [done|]. split; [done|]. intros k. rewrite Hb.
    destruct (decide (k ∈ seq 1 (M - 1))) as [Hin|Hin].
    + apply elem_of_seq in Hin. rewrite decide_True by lia. done.
    + rewrite decide_False; [done|]. intros ?. apply Hin, elem_of_seq. lia.
Qed.

(** The histogram that the scan of a non-empty matrix produces. *)
Lemma refres_same_Some n_res matrix :
  concat matrix ≠ [] →
  ∃ m h, np_max (concat matrix) = Some m ∧ refres_same n_res matrix = Some h ∧
    length h = (N.to_nat m + 1)%nat ∧
    bin h 0 = sub32 (u32 (N.of_nat n_res))
                (N.of_nat (count_nonzero (rows_nonzero matrix))) ∧
    ∀ k, (1 ≤ k)%nat →
      bin h k = if decide (k ≤ N.to_nat m)%nat
                then u32 (N.of_nat (count_nonzero (rows_with (N.of_nat k) matrix)))
                else 0.
Proof.
  intros Hne. destruct (np_max_Some _ Hne) as [m Hm]. unfold refres_same.
  rewrite Hm. cbn [mbind option_bind].
  destruct (same_scan
    (λ n, N.of_nat (count_nonzero (rows_with (N.of_nat n) matrix)))
    (N.to_nat m + 1)) as (h & Hh & Hl & Hb).
  rewrite Hh. cbn [mbind option_bind].
  rewrite set_at_Some by lia. cbn [mbind option_bind].
  rewrite list_lookup_insert_eq by lia. cbn [mbind option_bind].
  eexists m, _. split; [done|]. split; [done|].
  rewrite !length_insert. split; [done|]. split.
  - rewrite bin_insert by (rewrite length_insert; lia). by rewrite decide_True.
  - intros k Hk. rewrite !bin_insert by (rewrite ?length_insert; lia).
    rewrite !(decide_False (P := k = 0%nat)) by lia. rewrite Hb.
    destruct (decide (k ≤ N.to_nat m)%nat).
    + rewrite decide_True by lia. done.
    + rewrite decide_False by lia. done.
Qed.

Lemma refres_same_inv n_res matrix h :
  refres_same n_res matrix = Some h →
  ∃ m, np_max (concat matrix) = Some m ∧
    length h = (N.to_nat m + 1)%nat ∧
    bin h 0 = sub32 (u32 (N.of_nat n_res))
                (N.of_nat (count_nonzero (rows_nonzero matrix))) ∧
    ∀ k, (1 ≤ k)%nat →
      bin h k = if decide (k ≤ N.to_nat m)%nat
                then u32 (N.of_nat (count_nonzero (rows_with (N.of_nat k) matrix)))
                else 0.
Proof.
  intros H. assert (concat matrix ≠ []) as Hne.
  { intros Hc. unfold refres_same in H. by rewrite Hc in H. }
  destruct (refres_same_Some n_res matrix Hne) as (m & h' & Hm & Hh & Hrest).
  rewrite H in Hh. simplify_eq. by exists m.
Qed.

Lemma refres_pair_Some matrix :
  concat matrix ≠ [] →
  refres_pair matrix = Some (<[0%nat := 0]> (astype_uint32 (bincount (concat matrix)))).
Proof.
  intros Hne. unfold refres_pair. rewrite set_at_Some; [done|].
  rewrite length_astype_uint32. by apply bincount_nonempty.
Qed.

Lemma refres_pair_inv matrix h :
  refres_pair matrix = Some h →
  (0 < length h)%nat ∧ h = <[0%nat := 0]> (astype_uint32 (bincount (concat matrix))).
Proof.
  unfold refres_pair. intros [Hl ->]%set_at_inv. by rewrite length_insert.
Qed.

(** ** The statements after the loop *)

Lemma concat_nonempty {A} (matrix : list (list A)) n :
  (0 < length matrix)%nat → (0 < n)%nat → Forall (λ row, length row = n) matrix →
  concat matrix ≠ [].
Proof.
  intros Hm Hn Hrows. destruct matrix as [|row matrix]; [simpl in Hm; lia|].
  apply Forall_cons in Hrows as [Hrow _]. destruct row; [simpl in Hrow; lia|done].
Qed.

Lemma finish_inv ref st r :
  finish ref st = Some r →
  ∃ sa sr pa pr L,
    refres_same (n_residues ref) (s_refres_selatm_pair st) = Some sa ∧
    refres_same (n_residues ref) (s_refres_selres_pair st) = Some sr ∧
    refres_pair (s_refres_selatm_pair st) = Some pa ∧
    refres_pair (s_refres_selres_pair st) = Some pr ∧
    r = {| refatm_selatm := extend (s_refatm_selatm st) L;
           refatm_diff_selres := extend (s_refatm_diff_selres st) L;
           refatm_same_selres := extend (s_refatm_same_selres st) L;
           refres_diff_selatm :=
             extend (astype_uint32 (bincount (s_refres_diff_selatm st))) L;
           refres_same_selatm := extend sa L;
           refres_selatm_tot :=
             extend (astype_uint32 (bincount (s_refres_selatm_tot st))) L;
           refres_diff_selres :=
             extend (astype_uint32 (bincount (s_refres_diff_selres st))) L;
           refres_same_selres := extend sr L;
           refatm_selres_pair := extend (s_refatm_selres_pair st) L;
           refres_selatm_pair := extend pa L;
           refres_selres_pair := extend pr L |} ∧
    Forall (λ h, length h = L) (hists_list r) ∧ (0 < L)%nat.
Proof.
  unfold finish. intros H.
  repeat match type of H with
  | mbind _ ?x = Some _ =>
      let E := fresh "E" in destruct x eqn:E; cbn [mbind option_bind] in H; [|done]
  end.
  simplify_eq. eexists _, _, _, _, _. repeat (split; [reflexivity|]).
  match goal with E : refres_pair _ = Some ?pa |- _ =>
    pose proof (refres_pair_inv _ _ E) as [Hpos _] end.
  split; [|simpl; lia].
  unfold hists_list. cbn [refatm_selatm refatm_diff_selres refatm_same_selres
    refres_diff_selatm refres_same_selatm refres_selatm_tot refres_diff_selres
    refres_same_selres refatm_selres_pair refres_selatm_pair refres_selres_pair].
  repeat (apply Forall_cons; split; [rewrite length_extend; simpl; lia|]).
  apply Forall_nil_2.
Qed.

Lemma extend_lookup_bin a L k : (k < L)%nat → extend a L !! k = Some (bin a k).
Proof.
  intros Hk. rewrite <- (bin_extend a L k). apply lookup_bin.
  rewrite length_extend. lia.
Qed.

Section Run.
Context (in_range : Point → Point → Q → bool) (ref sel : AtomGroup) (cutoff : Q).
Context (emc : nat).

Local Abbreviation near a := (atoms_around_point in_range sel (position a) cutoff).
Local Abbreviation body :=
  (loop_body in_range sel cutoff (np_unique (resids ref)) (np_unique (resids sel))).
Local Abbreviation WF := (wf_state (n_residues ref) (n_atoms sel) (n_residues sel)).

Lemma finish_Some st :
  WF st → (0 < n_atoms ref)%nat → (0 < n_atoms sel)%nat → is_Some (finish ref st).
Proof.
  intros [] Href Hsel. unfold finish.
  pose proof (n_residues_pos _ Href). pose proof (n_residues_pos _ Hsel).
  assert (concat (s_refres_selatm_pair st) ≠ []) as Ha.
  { eapply (concat_nonempty _ (n_atoms sel)); [lia|done..]. }
  assert (concat (s_refres_selres_pair st) ≠ []) as Hr.
  { eapply (concat_nonempty _ (n_residues sel)); [lia|done..]. }
  destruct (refres_same_Some (n_residues ref) _ Ha) as (? & sa & _ & -> & _).
  destruct (refres_same_Some (n_residues ref) _ Hr) as (? & sr & _ & -> & _).
  cbn [mbind option_bind].
  rewrite (refres_pair_Some _ Ha), (refres_pair_Some _ Hr).
  cbn [mbind option_bind]. by eexists.
Qed.

(** The passes over atoms of the reference group raise no error and keep
    every invariant that each pass keeps. *)
Lemma loop_inv_on (I : list Atom → State → Prop) (atoms : list Atom) :
  (0 < emc)%nat →
  (∀ a, a ∈ atoms → a ∈ ref) →
  I [] (init_state ref sel emc) →
  (∀ done a todo st st', atoms = done ++ a :: todo → WF st → I done st →
     body st a = Some st' → I (done ++ [a]) st') →
  ∃ st, for_each body (init_state ref sel emc) atoms = Some st ∧ WF st ∧ I atoms st.
Proof.
  intros Hemc Hsub H0 Hstep.
  destruct (for_each_inv (λ done st, WF st ∧ I done st) body atoms
              (init_state ref sel emc)) as (st & Hst & Hwf & HI).
  - split; [by apply init_state_wf|done].
  - intros done a todo st Href [Hwf HI].
    destruct (loop_body_Some in_range ref sel cutoff st a Hwf) as (st' & Hb & Hwf').
    { apply Hsub. rewrite Href. apply elem_of_app. right. by left. }
    exists st'. split; [done|]. split; [done|].
    exact (Hstep done a todo st st' Href Hwf HI Hb).
  - by exists st.
Qed.

Lemma loop_inv (I : list Atom → State → Prop) :
  (0 < emc)%nat →
  I [] (init_state ref sel emc) →
  (∀ done a todo st st', ref = done ++ a :: todo → WF st → I done st →
     body st a = Some st' → I (done ++ [a]) st') →
  ∃ st, for_each body (init_state ref sel emc) ref = Some st ∧ WF st ∧ I ref st.
Proof. intros Hemc. by apply loop_inv_on. Qed.

Lemma loop_Some :
  (0 < emc)%nat →
  ∃ st, for_each body (init_state ref sel emc) ref = Some st ∧ WF st.
Proof.
  intros Hemc. destruct (loop_inv (λ _ _, True) Hemc) as (st & ? & ? & _); [done..|].
  by exists st.
Qed.
End Run.

(** The path of [contact_hist] through the loop. *)
Lemma contact_hist_normal in_range ref sel cutoff expected_max_contacts :
  n_atoms ref ≠ 0%nat → n_atoms sel ≠ 0%nat → Qle_bool cutoff 0 = false →
  contact_hist in_range ref sel cutoff expected_max_contacts =
    ([], st ← for_each
                (loop_body in_range sel cutoff (np_unique (resids ref))
                   (np_unique (resids sel)))
                (init_state ref sel
                   (Z.to_nat (if decide (expected_max_contacts ≤ 0)%Z then 16%Z
                              else expected_max_contacts))) ref;
         finish ref st).
Proof.
  intros Href Hsel Hcut. unfold contact_hist. rewrite Hcut.
  rewrite decide_False by done. rewrite bool_decide_eq_false_2 by done. done.
Qed.

Lemma expected_max_contacts_pos (expected_max_contacts : Z) :
  (0 < Z.to_nat (if decide (expected_max_contacts ≤ 0)%Z then 16%Z
                 else expected_max_contacts))%nat.
Proof. case_decide; lia. Qed.

(** [contact_hist] raises no error, whatever its arguments. *)
Lemma contact_hist_Some in_range ref sel cutoff expected_max_contacts :
  is_Some (contact_hist in_range ref sel cutoff expected_max_contacts).2.
Proof.
  unfold contact_hist.
  destruct (decide (n_atoms ref = 0%nat)) as [|Href]; [by eexists|].
  destruct (bool_decide (n_atoms sel = 0%nat)) eqn:Hsel; [by eexists|].
  destruct (Qle_bool cutoff 0) eqn:Hcut; [by eexists|]. simpl.
  apply bool_decide_eq_false in Hsel.
  destruct (loop_Some in_range ref sel cutoff _
              (expected_max_contacts_pos expected_max_contacts)) as (st & -> & Hwf).
  cbn [mbind option_bind]. apply (finish_Some ref sel); [done|lia..].
Qed.

(** * The claims of the specification *)

(** C6: when the cutoff is not positive or the selection group is empty,
    while the reference group is not empty, [contact_hist] raises no error:
    it returns the three atom-level histograms [[n_ref_atoms]], the five
    residue-level histograms [[n_ref_residues]] and the three pair
    histograms [[0]], and it has warned when the cutoff is not positive. *)
Theorem contact_hist_trivial_path in_range ref sel cutoff expected_max_contacts :
  n_atoms ref ≠ 0%nat →
  n_atoms sel = 0%nat ∨ (cutoff <= 0)%Q →
  ∃ warned r,
    contact_hist in_range ref sel cutoff expected_max_contacts = (warned, Some r) ∧
    ((cutoff <= 0)%Q → warned = [RuntimeWarning_cutoff cutoff]) ∧
    hists_list r = replicate 3 [N.of_nat (n_atoms ref)]
                   ++ replicate 5 [N.of_nat (n_residues ref)]
                   ++ replicate 3 [0].
Proof.
  intros Href Hsel. unfold contact_hist. rewrite decide_False by done.
  assert (bool_decide (n_atoms sel = 0%nat) || Qle_bool cutoff 0 = true) as ->.
  { destruct Hsel as [Hsel|Hcut].
    - by rewrite bool_decide_eq_true_2.
    - apply Qle_bool_iff in Hcut. rewrite Hcut. apply orb_true_r. }
  eexists _, _. split; [done|]. split; [|done].
  intros Hcut. apply Qle_bool_iff in Hcut. by rewrite Hcut.
Qed.

Lemma contact_hist_trivial_path_witness :
  (n_atoms example_ref ≠ 0%nat ∧ (n_atoms example_sel = 0%nat ∨ (0 <= 0)%Q)) ∧
  ∃ warned r,
    contact_hist euclid example_ref example_sel 0 16 = (warned, Some r) ∧
    ((0 <= 0)%Q → warned = [RuntimeWarning_cutoff 0]) ∧
    hists_list r = replicate 3 [N.of_nat (n_atoms example_ref)]
                   ++ replicate 5 [N.of_nat (n_residues example_ref)]
                   ++ replicate 3 [0].
Proof.
  assert (n_atoms example_ref ≠ 0%nat) as H1 by (simpl; lia).
  assert (n_atoms example_sel = 0%nat ∨ (0 <= 0)%Q) as H2.
  { right. apply Qle_bool_iff. reflexivity. }
  split; [split; [exact H1|exact H2]|].
  exact (contact_hist_trivial_path euclid example_ref example_sel 0 16 H1 H2).
Defined.

(** C4: whatever its arguments, [contact_hist] returns pair histograms
    whose bin 0 is 0: [refres_selatm_pair] and [refres_selres_pair] because
    the bin is overwritten, [refatm_selres_pair] because the multiplicities
    that index its increments are at least 1. *)
Theorem pair_histograms_bin0 in_range ref sel cutoff expected_max_contacts :
  ∃ r, (contact_hist in_range ref sel cutoff expected_max_contacts).2 = Some r ∧
    refatm_selres_pair r !! 0%nat = Some 0 ∧
    refres_selatm_pair r !! 0%nat = Some 0 ∧
    refres_selres_pair r !! 0%nat = Some 0.
Proof.
  destruct (decide (n_atoms ref = 0%nat)) as [Href|Href].
  { unfold contact_hist. rewrite decide_True by done. by eexists. }
  destruct (decide (n_atoms sel = 0%nat)) as [Hsel|Hsel].
  { unfold contact_hist. rewrite decide_False by done.
    rewrite bool_decide_eq_true_2 by done. by eexists. }
  destruct (Qle_bool cutoff 0) eqn:Hcut.
  { unfold contact_hist. rewrite decide_False by done.
    rewrite Hcut, orb_true_r. by eexists. }
  rewrite contact_hist_normal by done. simpl.
  destruct (loop_inv in_range ref sel cutoff _
              (λ _ st, bin (s_refatm_selres_pair st) 0 = 0)
              (expected_max_contacts_pos expected_max_contacts))
    as (st & Hst & Hwf & Hpair).
  { apply bin_replicate. }
  { intros done a todo st st' _ _ HI Hbody.
    apply loop_body_inv in Hbody as (_ & _ & Hsp & _).
    apply same_and_pair_inv in Hsp as (_ & _ & _ & Hp).
    rewrite Hp; [done|]. intros H0.
    pose proof (unique_counts_pos
      (resids (atoms_around_point in_range sel (position a) cutoff))) as Hpos.
    eapply Forall_forall in Hpos; [|exact H0]. lia. }
  rewrite Hst. cbn [mbind option_bind].
  destruct (finish_Some ref sel st Hwf) as [r Hr]; [lia..|].
  exists r. split; [done|].
  apply finish_inv in Hr as (sa & sr & pa & pr & L & _ & _ & Hpa & Hpr & -> & _ & HL).
  cbn [refatm_selres_pair refres_selatm_pair refres_selres_pair].
  apply refres_pair_inv in Hpa as [Hla ->]. apply refres_pair_inv in Hpr as [Hlr ->].
  rewrite length_insert in Hla, Hlr.
  split; [|split].
  - rewrite extend_lookup_bin by done. by rewrite Hpair.
  - apply extend_lookup. by apply list_lookup_insert_eq.
  - apply extend_lookup. by apply list_lookup_insert_eq.
Qed.

(** ** Sums of the histograms *)

Lemma bin_le_np_sum h k : bin h k ≤ np_sum h.
Proof.
  revert k. induction h as [|x h IH]; intros [|k]; unfold bin; simpl; try lia.
  specialize (IH k). unfold bin in IH. lia.
Qed.

(** Counting one more atom in bin [n] adds one to the sum, as long as the
    sum stays below [2^32]. *)
Lemma np_sum_count_in_bin h n h' :
  np_sum h + 1 < 2 ^ 32 →
  incr_at (extend h (n + 1)) n 1 = Some h' → np_sum h' = np_sum h + 1.
Proof.
  intros Hlt [Hn ->]%incr_at_inv.
  pose proof (np_sum_insert (extend h (n + 1)) n (bin (extend h (n + 1)) n)
                (u32 (bin (extend h (n + 1)) n + 1)) (lookup_bin _ _ Hn)) as Hs.
  rewrite np_sum_extend, bin_extend in Hs. rewrite bin_extend.
  pose proof (bin_le_np_sum h n). rewrite u32_small in Hs by lia.
  rewrite u32_small by lia. lia.
Qed.

Lemma np_sum_residue_hist arr L :
  N.of_nat (length arr) < 2 ^ 32 →
  np_sum (extend (astype_uint32 (bincount arr)) L) = N.of_nat (length arr).
Proof.
  intros Hlt. rewrite np_sum_extend, np_sum_astype_uint32; [apply np_sum_bincount|].
  eapply Forall_impl; [apply Forall_bincount|]. simpl. intros c Hc. lia.
Qed.

(** C3: the histograms that [contact_hist] returns for a frame add up to
    the number of reference units: [refatm_selatm] and [refatm_diff_selres]
    to the number of reference atoms; [refres_diff_selatm],
    [refres_selatm_tot] and [refres_diff_selres] to the number of reference
    residues. The number of reference atoms is one that a [uint32] counter
    holds. *)
Theorem histogram_sums in_range ref sel cutoff expected_max_contacts :
  N.of_nat (n_atoms ref) < 2 ^ 32 →
  ∃ r, (contact_hist in_range ref sel cutoff expected_max_contacts).2 = Some r ∧
    np_sum (refatm_selatm r) = N.of_nat (n_atoms ref) ∧
    np_sum (refatm_diff_selres r) = N.of_nat (n_atoms ref) ∧
    np_sum (refres_diff_selatm r) = N.of_nat (n_residues ref) ∧
    np_sum (refres_selatm_tot r) = N.of_nat (n_residues ref) ∧
    np_sum (refres_diff_selres r) = N.of_nat (n_residues ref).
Proof.
  intros Hrange.
  destruct (decide (n_atoms ref = 0%nat)) as [Href|Href].
  { unfold contact_hist. rewrite decide_True by done. eexists. split; [done|].
    assert (n_residues ref = 0%nat) as -> by (pose proof (n_residues_le ref); lia).
    by rewrite Href. }
  assert (∀ x : N, np_sum [x] = x) as Hone by (intros; simpl; lia).
  destruct (decide (n_atoms sel = 0%nat)) as [Hsel|Hsel].
  { unfold contact_hist. rewrite decide_False by done.
    rewrite bool_decide_eq_true_2 by done. eexists. split; [done|].
    unfold trivial_hists. cbn [refatm_selatm refatm_diff_selres refres_diff_selatm
      refres_selatm_tot refres_diff_selres]. by rewrite !Hone. }
  destruct (Qle_bool cutoff 0) eqn:Hcut.
  { unfold contact_hist. rewrite decide_False by done.
    rewrite Hcut, orb_true_r. eexists. split; [done|].
    unfold trivial_hists. cbn [refatm_selatm refatm_diff_selres refres_diff_selatm
      refres_selatm_tot refres_diff_selres]. by rewrite !Hone. }
  rewrite contact_hist_normal by done. simpl.
  destruct (loop_inv in_range ref sel cutoff _
              (λ done st, np_sum (s_refatm_selatm st) = N.of_nat (length done) ∧
                          np_sum (s_refatm_diff_selres st) = N.of_nat (length done))
              (expected_max_contacts_pos expected_max_contacts))
    as (st & Hst & Hwf & Hatm & Hres).
  { split; apply np_sum_replicate. }
  { intros done a todo st st' Hsplit _ [HI1 HI2] Hbody.
    apply loop_body_inv in Hbody as (H1 & H2 & _).
    assert (N.of_nat (length done) + 1 < 2 ^ 32) as Hlt.
    { unfold n_atoms in Hrange. rewrite Hsplit, length_app in Hrange.
      simpl in Hrange. lia. }
    rewrite length_app. simpl.
    rewrite (np_sum_count_in_bin _ _ _ ltac:(rewrite HI1; exact Hlt) H1).
    rewrite (np_sum_count_in_bin _ _ _ ltac:(rewrite HI2; exact Hlt) H2).
    lia. }
  rewrite Hst. cbn [mbind option_bind].
  destruct (finish_Some ref sel st Hwf) as [r Hr]; [lia..|].
  exists r. split; [done|].
  apply finish_inv in Hr as (sa & sr & pa & pr & L & _ & _ & _ & _ & -> & _).
  cbn [refatm_selatm refatm_diff_selres refres_diff_selatm refres_selatm_tot
       refres_diff_selres].
  destruct Hwf. pose proof (n_residues_le ref).
  rewrite !np_sum_residue_hist by lia. rewrite !np_sum_extend.
  rewrite Hatm, Hres, wf_diff_selatm0, wf_tot0, wf_diff_selres0. done.
Qed.

Lemma histogram_sums_witness :
  N.of_nat (n_atoms example_ref) < 2 ^ 32 ∧
  ∃ r, (contact_hist euclid example_ref example_sel 2 16).2 = Some r ∧
    np_sum (refatm_selatm r) = N.of_nat (n_atoms example_ref) ∧
    np_sum (refatm_diff_selres r) = N.of_nat (n_atoms example_ref) ∧
    np_sum (refres_diff_selatm r) = N.of_nat (n_residues example_ref) ∧
    np_sum (refres_selatm_tot r) = N.of_nat (n_residues example_ref) ∧
    np_sum (refres_diff_selres r) = N.of_nat (n_residues example_ref).
Proof.
  assert (N.of_nat (n_atoms example_ref) < 2 ^ 32) as H by (vm_compute; reflexivity).
  split; [exact H|].
  exact (histogram_sums euclid example_ref example_sel 2 16 H).
Defined.

(** ** Bounds on the "same partner" histograms *)

Lemma Forall_bins (P : N → Prop) h : (∀ k, P (bin h k)) → Forall P h.
Proof.
  intros H. apply Forall_lookup. intros i x Hi.
  rewrite <- (bin_lookup _ _ _ Hi). apply H.
Qed.

Lemma sub32_count_le n c : c ≤ n → sub32 (u32 n) c ≤ n.
Proof.
  intros Hc. destruct (decide (n < 2 ^ 32)) as [Hn|Hn].
  - rewrite u32_small by done. rewrite sub32_small by done. lia.
  - pose proof (sub32_lt (u32 n) c). lia.
Qed.

Lemma refres_same_bounded n_res matrix h k :
  length matrix = n_res → refres_same n_res matrix = Some h →
  bin h k ≤ N.of_nat n_res.
Proof.
  intros Hlen (m & _ & _ & H0 & Hk)%refres_same_inv.
  destruct k as [|k].
  - rewrite H0. apply sub32_count_le.
    pose proof (count_nonzero_le (rows_nonzero matrix)) as Hc.
    rewrite length_rows_nonzero in Hc. lia.
  - rewrite Hk by lia. case_decide; [|lia].
    pose proof (u32_le (N.of_nat (count_nonzero (rows_with (N.of_nat (S k)) matrix)))).
    pose proof (count_nonzero_le (rows_with (N.of_nat (S k)) matrix)) as Hc.
    rewrite length_rows_with in Hc. lia.
Qed.

(** The reference atoms seen so far bound every bin of
    [refatm_same_selres]. *)
Lemma same_selres_bounded in_range ref sel cutoff emc atoms :
  (0 < emc)%nat → (∀ a, a ∈ atoms → a ∈ ref) →
  ∃ st, for_each (loop_body in_range sel cutoff (np_unique (resids ref))
                    (np_unique (resids sel)))
          (init_state ref sel emc) atoms = Some st ∧
        wf_state (n_residues ref) (n_atoms sel) (n_residues sel) st ∧
        ∀ k, bin (s_refatm_same_selres st) k ≤ N.of_nat (n_atoms atoms).
Proof.
  intros Hemc Hsub.
  apply (loop_inv_on in_range ref sel cutoff emc
           (λ done st, ∀ k, bin (s_refatm_same_selres st) k ≤ N.of_nat (length done)));
    [done|done| |].
  - intros k. simpl. unfold zeros. rewrite bin_replicate. lia.
  - intros done a todo st st' _ _ HI Hbody k.
    apply loop_body_inv in Hbody as (_ & _ & Hsp & _).
    apply same_and_pair_inv in Hsp as (_ & _ & Hs & _).
    rewrite Hs, length_app. cbn [length]. specialize (HI k).
    pose proof (u32_le (bin (s_refatm_same_selres st) k + 1)).
    repeat case_decide; lia.
Qed.

(** C10: no bin of a "same partner" histogram exceeds the number of
    reference units of its granularity: the bins of [refatm_same_selres]
    are at most the number of reference atoms, those of
    [refres_same_selatm] and [refres_same_selres] at most the number of
    reference residues. *)
Theorem same_histograms_bounded in_range ref sel cutoff expected_max_contacts :
  ∃ r, (contact_hist in_range ref sel cutoff expected_max_contacts).2 = Some r ∧
    Forall (λ x, x ≤ N.of_nat (n_atoms ref)) (refatm_same_selres r) ∧
    Forall (λ x, x ≤ N.of_nat (n_residues ref)) (refres_same_selatm r) ∧
    Forall (λ x, x ≤ N.of_nat (n_residues ref)) (refres_same_selres r).
Proof.
  assert (∀ n : N, Forall (λ x, x ≤ n) [n]) as Hone.
  { intros n. apply Forall_cons. split; [lia|apply Forall_nil_2]. }
  destruct (decide (n_atoms ref = 0%nat)) as [Href|Href].
  { unfold contact_hist. rewrite decide_True by done. eexists. split; [done|].
    simpl. repeat split; apply Forall_cons; split; try lia; apply Forall_nil_2. }
  destruct (decide (n_atoms sel = 0%nat)) as [Hsel|Hsel].
  { unfold contact_hist. rewrite decide_False by done.
    rewrite bool_decide_eq_true_2 by done. eexists. split; [done|].
    repeat split; apply Hone. }
  destruct (Qle_bool cutoff 0) eqn:Hcut.
  { unfold contact_hist. rewrite decide_False by done.
    rewrite Hcut, orb_true_r. eexists. split; [done|]. repeat split; apply Hone. }
  rewrite contact_hist_normal by done. simpl.
  destruct (same_selres_bounded in_range ref sel cutoff _ ref
              (expected_max_contacts_pos expected_max_contacts))
    as (st & Hst & Hwf & Hsame); [done|].
  rewrite Hst. cbn [mbind option_bind].
  destruct (finish_Some ref sel st Hwf) as [r Hr]; [lia..|].
  exists r. split; [done|].
  apply finish_inv in Hr as (sa & sr & pa & pr & L & Hsa & Hsr & _ & _ & -> & _).
  cbn [refatm_same_selres refres_same_selatm refres_same_selres].
  destruct Hwf.
  split; [|split]; apply Forall_bins; intros k; rewrite bin_extend.
  - apply Hsame.
  - exact (refres_same_bounded _ _ _ k wf_atm_pair0 Hsa).
  - exact (refres_same_bounded _ _ _ k wf_res_pair0 Hsr).
Qed.

(** ** Multiplicities *)

Lemma count_of_resids sel_near_ref r :
  count_of r (resids sel_near_ref) = multiplicity sel_near_ref r.
Proof.
  unfold count_of, multiplicity, resids.
  induction sel_near_ref as [|b l IH]; [done|].
  rewrite fmap_cons. destruct (decide (resid b = r)) as [Hb|Hb].
  - rewrite (filter_cons_True (λ x, x = r)) by done.
    rewrite (filter_cons_True (λ b0, resid b0 = r)) by done.
    cbn [length]. by rewrite IH.
  - rewrite (filter_cons_False (λ x, x = r)) by done.
    rewrite (filter_cons_False (λ b0, resid b0 = r)) by done. done.
Qed.

Lemma elem_of_unique_counts_resids sel_near_ref m :
  m ∈ unique_counts (resids sel_near_ref) ↔
  ∃ b, b ∈ sel_near_ref ∧ multiplicity sel_near_ref (resid b) = m.
Proof.
  unfold unique_counts. rewrite list_elem_of_fmap. split.
  - intros (r & -> & Hr). apply (proj1 (elem_of_np_unique _ _)) in Hr.
    unfold resids in Hr. apply list_elem_of_fmap in Hr as (b & -> & Hb).
    exists b. split; [done|]. symmetry. apply count_of_resids.
  - intros (b & Hb & <-). exists (resid b). split.
    + symmetry. apply count_of_resids.
    + apply (proj2 (elem_of_np_unique _ _)). unfold resids.
      by apply list_elem_of_fmap_2.
Qed.

Lemma unique_counts_resids_nil sel_near_ref :
  length (unique_counts (resids sel_near_ref)) = 0%nat ↔ sel_near_ref = [].
Proof.
  rewrite length_unique_counts. split.
  - intros H. apply nil_length_inv, np_unique_nil_inv in H.
    unfold resids in H. by apply fmap_nil_inv in H.
  - by intros ->.
Qed.



(** ** The threshold scan *)

Lemma existsb_eqb_elem_of n row : existsb (N.eqb n) row = true ↔ n ∈ row.
Proof.
  rewrite existsb_exists. split.
  - intros (x & Hx & Heq). apply N.eqb_eq in Heq. subst. by apply list_elem_of_In.
  - intros Hn. exists n. split; [by apply list_elem_of_In|apply N.eqb_refl].
Qed.

Lemma existsb_nonzero_Exists row :
  existsb (λ x, negb (x =? 0)) row = true ↔ Exists (λ x, x ≠ 0) row.
Proof.
  rewrite existsb_exists, Exists_exists. split.
  - intros (x & Hx & Hne). exists x. split; [by apply list_elem_of_In|].
    apply negb_true_iff, N.eqb_neq in Hne. done.
  - intros (x & Hx & Hne). exists x. split; [by apply list_elem_of_In|].
    by apply negb_true_iff, N.eqb_neq.
Qed.

Lemma count_nonzero_fmap {A} (f : A → bool) (P : A → Prop) `{!∀ x, Decision (P x)}
    (l : list A) :
  (∀ x, f x = true ↔ P x) → count_nonzero (f <$> l) = length (filter P l).
Proof.
  intros Hf. unfold count_nonzero. induction l as [|x l IH]; [done|].
  rewrite fmap_cons. destruct (decide (P x)) as [HP|HP].
  - rewrite (filter_cons_True P) by done.
    rewrite (filter_cons_True (λ b : bool, b = true)) by (by apply Hf).
    cbn [length]. by rewrite IH.
  - rewrite (filter_cons_False P) by done.
    rewrite (filter_cons_False (λ b : bool, b = true)) by (by rewrite Hf).
    done.
Qed.

Lemma count_rows_with n matrix :
  count_nonzero (rows_with n matrix) = residues_with_partner_at n matrix.
Proof. apply count_nonzero_fmap. intros row. apply existsb_eqb_elem_of. Qed.

Lemma count_rows_nonzero matrix :
  count_nonzero (rows_nonzero matrix) = residues_in_contact matrix.
Proof. apply count_nonzero_fmap. intros row. apply existsb_nonzero_Exists. Qed.

(** The histogram that [refres_same] computes, padded, is the threshold
    scan of the matrix. *)
Lemma refres_same_threshold_scan n_res matrix same L :
  length matrix = n_res → N.of_nat n_res < 2 ^ 32 →
  refres_same n_res matrix = Some same →
  threshold_scan n_res matrix (extend same L).
Proof.
  intros Hlen Hrange (m & Hm & Hl & H0 & Hk)%refres_same_inv.
  exists m. split; [done|].
  assert (∀ n, residues_with_partner_at n matrix ≤ n_res)%nat as Hle1.
  { intros n. unfold residues_with_partner_at. rewrite <- Hlen. apply length_filter. }
  assert (residues_in_contact matrix ≤ n_res)%nat as Hle2.
  { unfold residues_in_contact. rewrite <- Hlen. apply length_filter. }
  split.
  - intros n Hn. apply extend_lookup. rewrite lookup_bin by lia. f_equal.
    rewrite Hk by lia. rewrite decide_True by lia.
    rewrite count_rows_with, u32_small; [done|]. specialize (Hle1 (N.of_nat n)). lia.
  - apply extend_lookup. rewrite lookup_bin by lia. f_equal.
    rewrite H0, count_rows_nonzero, u32_small by done.
    rewrite sub32_small by lia. lia.
Qed.

(** C5: on the path through the loop, [refres_same_selatm] and
    [refres_same_selres] are the threshold scans of the two pair-count
    matrices that the loop has filled. The number of reference atoms is one
    that a [uint32] counter holds. *)
Theorem same_histograms_threshold_scan in_range ref sel cutoff expected_max_contacts :
  n_atoms ref ≠ 0%nat → n_atoms sel ≠ 0%nat → ¬ (cutoff <= 0)%Q →
  N.of_nat (n_atoms ref) < 2 ^ 32 →
  ∃ st r,
    for_each (loop_body in_range sel cutoff (np_unique (resids ref))
                (np_unique (resids sel)))
      (init_state ref sel
         (Z.to_nat (if decide (expected_max_contacts ≤ 0)%Z then 16%Z
                    else expected_max_contacts))) ref = Some st ∧
    (contact_hist in_range ref sel cutoff expected_max_contacts).2 = Some r ∧
    threshold_scan (n_residues ref) (s_refres_selatm_pair st) (refres_same_selatm r) ∧
    threshold_scan (n_residues ref) (s_refres_selres_pair st) (refres_same_selres r).
Proof.
  intros Href Hsel Hcut Hrange.
  assert (Qle_bool cutoff 0 = false) as Hcut'.
  { destruct (Qle_bool cutoff 0) eqn:E; [|done]. by apply Qle_bool_iff in E. }
  rewrite contact_hist_normal by done. simpl.
  destruct (loop_Some in_range ref sel cutoff _
              (expected_max_contacts_pos expected_max_contacts)) as (st & Hst & Hwf).
  rewrite Hst. cbn [mbind option_bind].
  destruct (finish_Some ref sel st Hwf) as [r Hr]; [lia..|].
  exists st, r. split; [done|]. split; [done|].
  apply finish_inv in Hr as (sa & sr & pa & pr & L & Hsa & Hsr & _ & _ & -> & _).
  cbn [refres_same_selatm refres_same_selres].
  destruct Hwf. pose proof (n_residues_le ref).
  split; apply refres_same_threshold_scan; try done; lia.
Qed.

Lemma same_histograms_threshold_scan_witness :
  (n_atoms example_ref ≠ 0%nat ∧ n_atoms example_sel ≠ 0%nat ∧ ¬ (2 <= 0)%Q ∧
   N.of_nat (n_atoms example_ref) < 2 ^ 32) ∧
  ∃ st r,
    for_each (loop_body euclid example_sel 2 (np_unique (resids example_ref))
                (np_unique (resids example_sel)))
      (init_state example_ref example_sel
         (Z.to_nat (if decide (16 ≤ 0)%Z then 16%Z else 16%Z))) example_ref = Some st ∧
    (contact_hist euclid example_ref example_sel 2 16).2 = Some r ∧
    threshold_scan (n_residues example_ref) (s_refres_selatm_pair st)
      (refres_same_selatm r) ∧
    threshold_scan (n_residues example_ref) (s_refres_selres_pair st)
      (refres_same_selres r).
Proof.
  assert (n_atoms example_ref ≠ 0%nat) as H1 by (simpl; lia).
  assert (n_atoms example_sel ≠ 0%nat) as H2 by (simpl; lia).
  assert (¬ (2 <= 0)%Q) as H3 by (intros H; vm_compute in H; apply H; reflexivity).
  assert (N.of_nat (n_atoms example_ref) < 2 ^ 32) as H4 by (vm_compute; reflexivity).
  split; [split; [exact H1|split; [exact H2|split; [exact H3|exact H4]]]|].
  exact (same_histograms_threshold_scan euclid example_ref example_sel 2 16 H1 H2 H3 H4).
Defined.

(** ** Independence of the initial capacity *)

Lemma same_bins_refl h : same_bins h h.
Proof. by intros k. Qed.

Lemma same_bins_trans h1 h2 h3 : same_bins h1 h2 → same_bins h2 h3 → same_bins h1 h3.
Proof. intros H12 H23 k. by rewrite H12. Qed.

Lemma same_bins_sym h1 h2 : same_bins h1 h2 → same_bins h2 h1.
Proof. intros H k. by rewrite H. Qed.

Lemma same_bins_extend_both h1 h2 n1 n2 :
  same_bins h1 h2 → same_bins (extend h1 n1) (extend h2 n2).
Proof. intros H k. by rewrite !bin_extend. Qed.

Lemma same_bins_zeros n1 n2 : same_bins (zeros n1) (zeros n2).
Proof. intros k. unfold zeros. by rewrite !bin_replicate. Qed.

Lemma incr_at_same_bins a b i v a' b' :
  same_bins a b → incr_at a i v = Some a' → incr_at b i v = Some b' → same_bins a' b'.
Proof.
  intros Hab [Hi ->]%incr_at_inv [Hj ->]%incr_at_inv k.
  rewrite !bin_insert by done. case_decide; [|done]. by rewrite (Hab i).
Qed.

Lemma fancy_incr_same_bins a b idx a' b' :
  same_bins a b → fancy_incr a idx = Some a' → fancy_incr b idx = Some b' →
  same_bins a' b'.
Proof.
  intros Hab (_ & _ & Ha)%fancy_incr_inv (_ & _ & Hb)%fancy_incr_inv k.
  rewrite Ha, Hb. case_decide; [|done]. by rewrite (Hab k).
Qed.

Lemma same_and_pair_same_bins s1 p1 s2 p2 counts s1' p1' s2' p2' :
  same_bins s1 s2 → same_bins p1 p2 →
  same_and_pair s1 p1 counts = Some (s1', p1') →
  same_and_pair s2 p2 counts = Some (s2', p2') →
  same_bins s1' s2' ∧ same_bins p1' p2'.
Proof.
  unfold same_and_pair. intros Hs Hp H1 H2. case_decide.
  - destruct (incr_at s1 0 1) as [x1|] eqn:E1; simplify_eq/=.
    destruct (incr_at s2 0 1) as [x2|] eqn:E2; simplify_eq/=.
    split; [|done]. exact (incr_at_same_bins _ _ _ _ _ _ Hs E1 E2).
  - destruct (fancy_incr (extend s1 _) counts) as [x1|] eqn:E1; simplify_eq/=.
    destruct (add_at (extend p1 _) counts _) as [y1|] eqn:F1; simplify_eq/=.
    destruct (fancy_incr (extend s2 _) counts) as [x2|] eqn:E2; simplify_eq/=.
    destruct (add_at (extend p2 _) counts _) as [y2|] eqn:F2; simplify_eq/=.
    split.
    + eapply fancy_incr_same_bins; [|exact E1|exact E2].
      by apply same_bins_extend_both.
    + eapply add_at_same_bins; [|exact F1|exact F2].
      by apply same_bins_extend_both.
Qed.

(** A pass keeps two states in agreement. *)
Lemma loop_body_agree in_range ref sel cutoff s1 s2 a s1' s2' :
  agree s1 s2 →
  loop_body in_range sel cutoff (np_unique (resids ref)) (np_unique (resids sel)) s1 a
    = Some s1' →
  loop_body in_range sel cutoff (np_unique (resids ref)) (np_unique (resids sel)) s2 a
    = Some s2' →
  agree s1' s2'.
Proof.
  intros (A1 & A2 & A3 & A4 & A5 & A6 & A7 & A8 & A9 & A10 & A11) H1 H2.
  apply loop_body_inv in H1
    as (B1 & B2 & B3 & B4 & (c1 & B5 & B6) & (r1 & r1' & B7 & B8 & B9)
        & (d1 & B10 & B11) & (q1 & q1' & B12 & B13 & B14)).
  apply loop_body_inv in H2
    as (C1 & C2 & C3 & C4 & (c2 & C5 & C6) & (r2 & r2' & C7 & C8 & C9)
        & (d2 & C10 & C11) & (q2 & q2' & C12 & C13 & C14)).
  rewrite <- A5 in C6. rewrite <- A6 in C4. rewrite <- A7 in C11.
  rewrite <- A8 in C7, C9. rewrite <- A9 in C12, C14.
  rewrite <- A10 in C5. rewrite <- A11 in C10.
  destruct (same_and_pair_same_bins _ _ _ _ _ _ _ _ _ A3 A4 B3 C3) as [D3 D4].
  simplify_eq.
  repeat split; try done; try congruence.
  - eapply incr_at_same_bins; [|exact B1|exact C1]. by apply same_bins_extend_both.
  - eapply incr_at_same_bins; [|exact B2|exact C2]. by apply same_bins_extend_both.
Qed.

(** The statements after the loop keep the agreement, bin by bin. *)
Lemma finish_agree ref s1 s2 r1 r2 :
  agree s1 s2 → finish ref s1 = Some r1 → finish ref s2 = Some r2 →
  Forall2 same_bins (hists_list r1) (hists_list r2).
Proof.
  intros (A1 & A2 & A3 & A4 & A5 & A6 & A7 & A8 & A9 & _ & _) H1 H2.
  apply finish_inv in H1 as (sa1 & sr1 & pa1 & pr1 & L1 & B1 & B2 & B3 & B4 & -> & _).
  apply finish_inv in H2 as (sa2 & sr2 & pa2 & pr2 & L2 & C1 & C2 & C3 & C4 & -> & _).
  rewrite <- A8 in C1, C3. rewrite <- A9 in C2, C4. rewrite <- A5, <- A6, <- A7.
  simplify_eq. unfold hists_list.
  cbn [refatm_selatm refatm_diff_selres refatm_same_selres
    refres_diff_selatm refres_same_selatm refres_selatm_tot refres_diff_selres
    refres_same_selres refatm_selres_pair refres_selatm_pair refres_selres_pair].
  repeat (apply Forall2_cons; split;
          [apply same_bins_extend_both; (done || apply same_bins_refl)|]).
  apply Forall2_nil_2.
Qed.

(** Two runs that differ in the capacity hint only return histograms
    that agree bin by bin, and the same warnings. *)
Lemma contact_hist_hint_agree in_range ref sel cutoff e1 e2 :
  ∃ r1 r2,
    contact_hist in_range ref sel cutoff e1
      = ((contact_hist in_range ref sel cutoff e2).1, Some r1) ∧
    (contact_hist in_range ref sel cutoff e2).2 = Some r2 ∧
    Forall2 same_bins (hists_list r1) (hists_list r2).
Proof.
  assert (∀ r, Forall2 same_bins (hists_list r) (hists_list r)) as Hrefl.
  { intros r. apply Forall_Forall2_diag, Forall_forall. intros h _.
    apply same_bins_refl. }
  destruct (decide (n_atoms ref = 0%nat)) as [Href|Href].
  { unfold contact_hist. rewrite !(decide_True (P := n_atoms ref = 0%nat)) by done.
    simpl. eauto. }
  destruct (decide (n_atoms sel = 0%nat)) as [Hsel|Hsel].
  { unfold contact_hist. rewrite !(decide_False (P := n_atoms ref = 0%nat)) by done.
    rewrite !bool_decide_eq_true_2 by done. simpl. eauto. }
  destruct (Qle_bool cutoff 0) eqn:Hcut.
  { unfold contact_hist. rewrite !(decide_False (P := n_atoms ref = 0%nat)) by done.
    rewrite Hcut, !orb_true_r. simpl. eauto. }
  rewrite !contact_hist_normal by done. simpl.
  destruct (loop_Some in_range ref sel cutoff _ (expected_max_contacts_pos e1))
    as (s1 & Hs1 & Hwf1).
  destruct (loop_Some in_range ref sel cutoff _ (expected_max_contacts_pos e2))
    as (s2 & Hs2 & Hwf2).
  rewrite Hs1, Hs2. cbn [mbind option_bind].
  destruct (finish_Some ref sel s1 Hwf1) as [r1 Hr1]; [lia..|].
  destruct (finish_Some ref sel s2 Hwf2) as [r2 Hr2]; [lia..|].
  exists r1, r2. rewrite Hr1. split; [done|]. split; [done|].
  eapply finish_agree; [|exact Hr1|exact Hr2].
  eapply (for_each_rel agree); [| |exact Hs1|exact Hs2].
  - unfold agree, init_state. simpl. repeat split; try done; apply same_bins_zeros.
  - intros a t1 t2 t1' t2' _ Hag Hb1 Hb2. by eapply loop_body_agree.
Qed.

(** C8: the capacity hint does not change the result. A hint that is not
    positive gives what the default 16 gives; and for any two hints, each of
    the eleven histograms of one run holds, bin by bin, what the histogram of
    the other run holds, a bin beyond the end of an array counting as 0. *)
Theorem expected_max_contacts_irrelevant in_range ref sel cutoff :
  (∀ e, (e ≤ 0)%Z →
     contact_hist in_range ref sel cutoff e = contact_hist in_range ref sel cutoff 16) ∧
  (∀ e1 e2, ∃ r1 r2,
     contact_hist in_range ref sel cutoff e1
       = ((contact_hist in_range ref sel cutoff e2).1, Some r1) ∧
     (contact_hist in_range ref sel cutoff e2).2 = Some r2 ∧
     Forall2 same_bins (hists_list r1) (hists_list r2)).
Proof.
  split.
  - intros e He. unfold contact_hist.
    rewrite (decide_True (P := (e ≤ 0)%Z)) by done.
    rewrite (decide_False (P := (16 ≤ 0)%Z)) by lia. done.
  - intros e1 e2. apply contact_hist_hint_agree.
Qed.

Lemma expected_max_contacts_irrelevant_witness :
  ((0 ≤ 0)%Z ∧
   contact_hist euclid example_ref example_sel 2 0
   = contact_hist euclid example_ref example_sel 2 16) ∧
  ∃ r1 r2,
    contact_hist euclid example_ref example_sel 2 1
      = ((contact_hist euclid example_ref example_sel 2 40).1, Some r1) ∧
    (contact_hist euclid example_ref example_sel 2 40).2 = Some r2 ∧
    Forall2 same_bins (hists_list r1) (hists_list r2).
Proof.
  assert (0 ≤ 0)%Z as H by lia.
  split; [split; [exact H|]|].
  - exact (proj1 (expected_max_contacts_irrelevant euclid example_ref example_sel 2)
             0%Z H).
  - exact (proj2 (expected_max_contacts_irrelevant euclid example_ref example_sel 2)
             1%Z 40%Z).
Defined.

(** ** Reference residues of one atom each *)

Lemma same_bins_eq h1 h2 : length h1 = length h2 → same_bins h1 h2 → h1 = h2.
Proof.
  intros Hl Hb. apply list_eq. intros i.
  destruct (decide (i < length h1)%nat) as [Hi|Hi].
  - rewrite !lookup_bin by lia. by rewrite (Hb i).
  - rewrite !lookup_ge_None_2 by lia. done.
Qed.

Lemma count_of_fmap {A} (f : A → N) (v : N) (l : list A) :
  count_of v (f <$> l) = length (filter (λ x, f x = v) l).
Proof.
  unfold count_of. induction l as [|x l IH]; [done|].
  rewrite fmap_cons. destruct (decide (f x = v)) as [Hx|Hx].
  - rewrite (filter_cons_True (λ y, y = v)) by done.
    rewrite (filter_cons_True (λ y, f y = v)) by done.
    cbn [length]. by rewrite IH.
  - rewrite (filter_cons_False (λ y, y = v)) by done.
    rewrite (filter_cons_False (λ y, f y = v)) by done. done.
Qed.

Lemma count_of_Permutation v l1 l2 : l1 ≡ₚ l2 → count_of v l1 = count_of v l2.
Proof. intros H. unfold count_of. by rewrite H. Qed.

Lemma count_of_zero v l : (∀ x, x ∈ l → x ≠ v) → count_of v l = 0%nat.
Proof. intros H. unfold count_of. by rewrite filter_none. Qed.

(** Every bin of the histogram that [np.bincount] and the cast produce. *)
Lemma bin_bincount x k :
  bin (astype_uint32 (bincount x)) k = u32 (N.of_nat (count_of (N.of_nat k) x)).
Proof.
  unfold bincount. destruct (np_max x) as [m|] eqn:Hm.
  - destruct (decide (k ≤ N.to_nat m)%nat) as [Hk|Hk].
    + apply bin_lookup. unfold astype_uint32.
      rewrite !list_lookup_fmap, lookup_seq_lt by lia. done.
    + rewrite bin_ge.
      2:{ unfold astype_uint32. rewrite !length_fmap, length_seq. lia. }
      rewrite count_of_zero; [done|].
      intros y Hy ->. pose proof (np_max_ge _ _ _ Hm Hy). lia.
  - destruct x; [done|discriminate].
Qed.

(** An array read along a duplicate-free enumeration of its positions is
    a permutation of the array. *)
Lemma Permutation_by_index (arr : list N) (σ : list nat) :
  NoDup σ → Forall (λ i, (i < length arr)%nat) σ → length σ = length arr →
  arr ≡ₚ bin arr <$> σ.
Proof.
  intros Hnd Hlt Hlen.
  assert (σ ≡ₚ seq 0 (length arr)) as ->.
  { apply submseteq_length_Permutation.
    - apply NoDup_submseteq; [done|]. intros i Hi. apply elem_of_seq.
      eapply Forall_forall in Hlt; [|exact Hi]. simpl in Hlt. lia.
    - rewrite length_seq. lia. }
  assert (bin arr <$> seq 0 (length arr) = arr) as ->; [|done].
  apply list_eq. intros i. rewrite list_lookup_fmap.
  destruct (decide (i < length arr)%nat) as [Hi|Hi].
  - rewrite lookup_seq_lt by done. simpl. by rewrite lookup_bin.
  - rewrite lookup_seq_ge by lia. by rewrite lookup_ge_None_2 by lia.
Qed.

Lemma count_nonzero_all_true l : Forall (λ b, b = true) l → count_nonzero l = length l.
Proof. intros H. unfold count_nonzero. rewrite filter_all; [done|]. by apply Forall_forall. Qed.

Lemma take_idx_replicate {A} (x : A) n idx vals :
  take_idx (replicate n x) idx = Some vals → vals = replicate (length idx) x.
Proof.
  intros [_ H]%take_idx_inv. induction H as [|i y idx vals Hi _ IH]; [done|].
  apply lookup_replicate in Hi as [-> _]. simpl. by rewrite IH.
Qed.

Lemma credit_unused_inv unused refresid idx c unused' :
  credit_unused unused refresid idx = Some (c, unused') →
  ∃ row fresh row', unused !! refresid = Some row ∧ take_idx row idx = Some fresh ∧
    clear_idx row idx = Some row' ∧ c = count_nonzero fresh ∧
    unused' = <[refresid := row']> unused.
Proof.
  unfold credit_unused. intros H.
  destruct (unused !! refresid) as [row|] eqn:E1; simplify_eq/=.
  destruct (take_idx row idx) as [fresh|] eqn:E2; simplify_eq/=.
  destruct (clear_idx row idx) as [row'|] eqn:E3; simplify_eq/=.
  by eexists _, _, _.
Qed.

Section Singletons.
Context (in_range : Point → Point → Q → bool) (ref sel : AtomGroup) (cutoff : Q).
Context (emc : nat).
Hypothesis ref_singletons : NoDup (resids ref).
Hypothesis sel_unique : NoDup (ids sel).
Hypothesis ref_range : N.of_nat (n_atoms ref) < 2 ^ 32.
Hypothesis sel_range : N.of_nat (n_atoms sel) < 2 ^ 32.

Local Abbreviation near a := (atoms_around_point in_range sel (position a) cutoff).
Local Abbreviation body :=
  (loop_body in_range sel cutoff (np_unique (resids ref)) (np_unique (resids sel))).
Local Abbreviation refresid a := (searchsorted (np_unique (resids ref)) (resid a)).
Local Abbreviation WF := (wf_state (n_residues ref) (n_atoms sel) (n_residues sel)).

Lemma refresid_ne done a todo b :
  ref = done ++ a :: todo → b ∈ done ∨ b ∈ todo → refresid b ≠ refresid a.
Proof.
  intros Href Hb Heq.
  assert (resid b ∈ resids ref ∧ resid a ∈ resids ref ∧ resid b ≠ resid a)
    as (Hb' & Ha' & Hne).
  { pose proof ref_singletons as Hnd. rewrite Href in Hnd |- *. unfold resids in *.
    rewrite fmap_app, fmap_cons in Hnd |- *.
    apply NoDup_app in Hnd as (_ & Hdis & Hnd). apply NoDup_cons in Hnd as [Hnotin _].
    split; [|split].
    - destruct Hb as [Hb|Hb].
      + apply elem_of_app. left. by apply list_elem_of_fmap_2.
      + apply elem_of_app. right. right. by apply list_elem_of_fmap_2.
    - apply elem_of_app. right. by left.
    - destruct Hb as [Hb|Hb].
      + intros Hr. apply (Hdis (resid b)); [by apply list_elem_of_fmap_2|].
        rewrite Hr. by left.
      + intros Hr. apply Hnotin. rewrite <- Hr. by apply list_elem_of_fmap_2. }
  apply Hne. apply (searchsorted_inj (np_unique (resids ref))); [| |done];
    by apply (proj2 (elem_of_np_unique _ _)).
Qed.

Lemma n_atoms_selatmids a :
  length (intersect1d_indices (ids sel) (ids (near a))) = n_atoms (near a).
Proof.
  rewrite length_intersect1d_indices.
  - unfold ids, n_atoms. apply length_fmap.
  - done.
  - by apply atoms_around_point_NoDup_ids.
  - intros i. apply atoms_around_point_ids.
Qed.

Lemma n_atoms_near_le a : (n_atoms (near a) ≤ n_atoms sel)%nat.
Proof. unfold atoms_around_point, n_atoms. apply length_filter. Qed.

(** With one atom per reference residue, the loop leaves in the slot of
    each residue the number of neighbours of its atom. *)
Lemma singleton_loop :
  (0 < emc)%nat →
  ∃ st, for_each body (init_state ref sel emc) ref = Some st ∧ WF st ∧
    (∀ k, bin (s_refatm_selatm st) k
          = N.of_nat (length (filter (λ a, n_atoms (near a) = k) ref))) ∧
    (∀ a, a ∈ ref →
       bin (s_refres_diff_selatm st) (refresid a) = N.of_nat (n_atoms (near a)) ∧
       bin (s_refres_selatm_tot st) (refresid a) = N.of_nat (n_atoms (near a))).
Proof.
  intros Hemc.
  destruct (loop_inv in_range ref sel cutoff emc
    (λ done st, ∀ todo, ref = done ++ todo →
       (∀ k, bin (s_refatm_selatm st) k
             = N.of_nat (length (filter (λ a, n_atoms (near a) = k) done))) ∧
       (∀ a, a ∈ done →
          bin (s_refres_diff_selatm st) (refresid a) = N.of_nat (n_atoms (near a)) ∧
          bin (s_refres_selatm_tot st) (refresid a) = N.of_nat (n_atoms (near a))) ∧
       (∀ a, a ∈ todo →
          bin (s_refres_diff_selatm st) (refresid a) = 0 ∧
          bin (s_refres_selatm_tot st) (refresid a) = 0 ∧
          s_selatm_unused st !! refresid a = Some (replicate (n_atoms sel) true)))
    Hemc) as (st & Hst & Hwf & HI).
  - intros todo Htodo. simpl in Htodo. subst todo. simpl. unfold zeros.
    split; [intros k; apply bin_replicate|].
    split; [by intros a ?%elem_of_nil|].
    intros a Ha. rewrite !bin_replicate. split; [done|]. split; [done|].
    apply lookup_replicate_2. by apply refresid_lt.
  - intros done a todo st st' Href Hwf HI Hbody todo' Href'.
    assert (todo' = todo) as ->.
    { rewrite Href, <- app_assoc in Href'. apply app_inv_head in Href'.
      simpl in Href'. by injection Href'. }
    clear Href'. destruct (HI (a :: todo) Href) as (I1 & I2 & I3).
    destruct (I3 a) as (Ia1 & Ia2 & Ia3); [by left|].
    apply loop_body_inv in Hbody
      as (B1 & _ & _ & B4 & (c & B5 & B6) & _).
    apply incr_at_inv in B1 as [L1 E1]. apply incr_at_inv in B4 as [L4 E4].
    apply incr_at_inv in B6 as [L6 E6].
    apply credit_unused_inv in B5
      as (row & fresh & row' & R1 & R2 & R3 & -> & E5).
    rewrite Ia3 in R1. injection R1 as <-.
    apply take_idx_replicate in R2. subst fresh.
    rewrite count_nonzero_all_true in E6 by (by apply Forall_replicate).
    rewrite length_replicate, n_atoms_selatmids, Ia1 in E6. rewrite Ia2 in E4.
    pose proof (n_atoms_near_le a) as Hle.
    rewrite N.add_0_l, u32_small in E4, E6 by lia.
    assert (length done < n_atoms ref)%nat as Hdone.
    { unfold n_atoms. rewrite Href, length_app. simpl. lia. }
    split; [|split].
    + intros k. rewrite E1, bin_insert by done.
      rewrite filter_app, length_app.
      destruct (decide (k = n_atoms (near a))) as [->|Hk].
      * rewrite (filter_cons_True (λ b, n_atoms (near b) = n_atoms (near a))) by done.
        rewrite bin_extend, I1. cbn [filter list_filter length].
        pose proof (length_filter (λ b, n_atoms (near b) = n_atoms (near a)) done).
        rewrite u32_small; lia.
      * rewrite (filter_cons_False (λ b, n_atoms (near b) = k)) by done.
        rewrite bin_extend, I1. cbn [filter list_filter length]. f_equal. lia.
    + intros b [Hb|Hb%list_elem_of_singleton]%elem_of_app.
      * pose proof (refresid_ne done a todo b Href (or_introl Hb)) as Hne.
        rewrite E4, E6, !bin_insert by done.
        rewrite !decide_False by done. by apply I2.
      * subst b. rewrite E4, E6, !bin_insert by done.
        by rewrite !decide_True.
    + intros b Hb.
      pose proof (refresid_ne done a todo b Href (or_intror Hb)) as Hne.
      destruct (I3 b) as (Ib1 & Ib2 & Ib3); [by right|].
      rewrite E4, E6, !bin_insert by done. rewrite !decide_False by done.
      split; [done|]. split; [done|].
      rewrite E5, list_lookup_insert_ne by done. done.
  - exists st. split; [done|]. split; [done|].
    destruct (HI [] (eq_sym (app_nil_r ref))) as (I1 & I2 & _). done.
Qed.
End Singletons.

(** With one atom per reference residue, counting the slots of a
    per-residue array by value is counting the reference atoms. *)
Lemma bincount_by_residue ref (f : Atom → nat) arr :
  NoDup (resids ref) → N.of_nat (n_atoms ref) < 2 ^ 32 →
  length arr = n_residues ref →
  (∀ a, a ∈ ref →
     bin arr (searchsorted (np_unique (resids ref)) (resid a)) = N.of_nat (f a)) →
  ∀ k, bin (astype_uint32 (bincount arr)) k
       = N.of_nat (length (filter (λ a, f a = k) ref)).
Proof.
  intros Hnd Hrange Hlen Harr k. rewrite bin_bincount.
  assert (arr ≡ₚ (λ a, N.of_nat (f a)) <$> ref) as Hperm.
  { transitivity (bin arr <$> (searchsorted (np_unique (resids ref)) <$> resids ref)).
    - apply Permutation_by_index.
      + apply NoDup_fmap_2_strong; [|done]. intros v w Hv Hw.
        apply searchsorted_inj; by apply (proj2 (elem_of_np_unique _ _)).
      + apply Forall_fmap, Forall_forall. intros v Hv. simpl.
        rewrite Hlen, <- (length_np_unique_resids ref (resids_distinct_NoDup _ Hnd)).
        apply searchsorted_lt. by apply (proj2 (elem_of_np_unique _ _)).
      + unfold resids. rewrite !length_fmap, Hlen. symmetry.
        by apply n_residues_NoDup.
    - assert (bin arr <$> (searchsorted (np_unique (resids ref)) <$> resids ref)
              = (λ a, N.of_nat (f a)) <$> ref) as ->; [|done].
      unfold resids at 2. rewrite <- !list_fmap_compose.
      apply Forall_fmap_ext_1, Forall_forall.
      intros a Ha. simpl. by apply Harr. }
  rewrite (count_of_Permutation _ _ _ Hperm), count_of_fmap.
  rewrite (list_filter_iff _ (λ a, f a = k) ref) by (intros a; lia).
  apply u32_small. unfold n_atoms in Hrange.
  assert (∀ n m : nat, (n ≤ m)%nat → N.of_nat m < 2 ^ 32 → N.of_nat n < 2 ^ 32)
    as Hmono by (intros; lia).
  eapply Hmono; [|exact Hrange]. apply length_filter.
Qed.

(** X30: when the reference atoms have pairwise distinct resids (every
    reference residue then holds one atom and has a slot of its own),
    [refres_diff_selatm] and [refres_selatm_tot], as returned, are equal to
    [refatm_selatm], element by element: what lines 716-723 of the debug
    branch check. The atoms of the selection group are distinct, and the
    numbers of reference and selection atoms are ones that a [uint32]
    counter holds. *)
Theorem singleton_residues_collapse in_range ref sel cutoff expected_max_contacts :
  NoDup (resids ref) → NoDup (ids sel) →
  N.of_nat (n_atoms ref) < 2 ^ 32 → N.of_nat (n_atoms sel) < 2 ^ 32 →
  ∃ r, (contact_hist in_range ref sel cutoff expected_max_contacts).2 = Some r ∧
    refres_diff_selatm r = refatm_selatm r ∧
    refres_selatm_tot r = refatm_selatm r.
Proof.
  intros Hsingle Hids Href_range Hsel_range.
  destruct (decide (n_atoms ref = 0%nat)) as [Href|Href].
  { unfold contact_hist. rewrite decide_True by done. by eexists. }
  destruct (decide (n_atoms sel = 0%nat)) as [Hsel|Hsel].
  { unfold contact_hist. rewrite decide_False by done.
    rewrite bool_decide_eq_true_2 by done. eexists. split; [done|].
    simpl. by rewrite (n_residues_NoDup _ Hsingle). }
  destruct (Qle_bool cutoff 0) eqn:Hcut.
  { unfold contact_hist. rewrite decide_False by done.
    rewrite Hcut, orb_true_r. eexists. split; [done|].
    simpl. by rewrite (n_residues_NoDup _ Hsingle). }
  rewrite contact_hist_normal by done. simpl.
  destruct (singleton_loop in_range ref sel cutoff _ Hsingle Hids Href_range Hsel_range
              (expected_max_contacts_pos expected_max_contacts))
    as (st & Hst & Hwf & Hatm & Hres).
  rewrite Hst. cbn [mbind option_bind].
  destruct (finish_Some ref sel st Hwf) as [r Hr]; [lia..|].
  exists r. split; [done|].
  apply finish_inv in Hr as (sa & sr & pa & pr & L & _ & _ & _ & _ & -> & Hlen & _).
  unfold hists_list in Hlen.
  cbn [refatm_selatm refatm_diff_selres refatm_same_selres
    refres_diff_selatm refres_same_selatm refres_selatm_tot refres_diff_selres
    refres_same_selres refatm_selres_pair refres_selatm_pair refres_selres_pair] in *.
  apply Forall_cons in Hlen as [Hl1 Hlen]. apply Forall_cons in Hlen as [_ Hlen].
  apply Forall_cons in Hlen as [_ Hlen]. apply Forall_cons in Hlen as [Hl4 Hlen].
  apply Forall_cons in Hlen as [_ Hlen]. apply Forall_cons in Hlen as [Hl6 _].
  destruct Hwf.
  split; apply same_bins_eq; try congruence; intros k; rewrite !bin_extend, Hatm.
  - apply (bincount_by_residue ref
             (λ a, n_atoms (atoms_around_point in_range sel (position a) cutoff)));
      try done. intros a Ha. by apply Hres.
  - apply (bincount_by_residue ref
             (λ a, n_atoms (atoms_around_point in_range sel (position a) cutoff)));
      try done. intros a Ha. by apply Hres.
Qed.

Lemma singleton_residues_collapse_witness :
  (NoDup (resids example_ref) ∧ NoDup (ids example_sel) ∧
   N.of_nat (n_atoms example_ref) < 2 ^ 32 ∧ N.of_nat (n_atoms example_sel) < 2 ^ 32) ∧
  ∃ r, (contact_hist euclid example_ref example_sel 2 16).2 = Some r ∧
    refres_diff_selatm r = refatm_selatm r ∧
    refres_selatm_tot r = refatm_selatm r.
Proof.
  assert (NoDup (resids example_ref)) as H1 by (apply (bool_decide_unpack _); vm_compute; exact I).
  assert (NoDup (ids example_sel)) as H2 by (apply (bool_decide_unpack _); vm_compute; exact I).
  assert (N.of_nat (n_atoms example_ref) < 2 ^ 32) as H3 by (vm_compute; reflexivity).
  assert (N.of_nat (n_atoms example_sel) < 2 ^ 32) as H4 by (vm_compute; reflexivity).
  split; [split; [exact H1|split; [exact H2|split; [exact H3|exact H4]]]|].
  exact (singleton_residues_collapse euclid example_ref example_sel 2 16 H1 H2 H3 H4).
Defined.

(** C7, which the code does not satisfy. The two atoms of
    [example_ref_shared_resid] are the only atoms of their residues, so that
    the guard of the debug checks (lines 700-702) holds, and the two
    residues have one resid. [atom1] has two selection atoms within the
    cutoff and [atom3] one: [refatm_selatm] is [[0,1,1]]. The loop finds the
    slot of a residue by its resid (lines 462 and 491): both atoms are
    credited to slot 0 and slot 1 is never written, so that
    [refres_diff_selatm] and [refres_selatm_tot] are [[1,0,0,1]], one residue
    without contact and one with three, and not [refatm_selatm]; the checks
    of lines 716-723 raise. *)
Theorem singleton_residues_shared_resid :
  NoDup (resindices example_ref_shared_resid) ∧
  n_residues example_ref_shared_resid = n_atoms example_ref_shared_resid ∧
  NoDup (ids example_sel) ∧
  ∃ r, contact_hist euclid example_ref_shared_resid example_sel 2 16 = ([], Some r) ∧
    refatm_selatm r = extend [0; 1; 1] 16 ∧
    refres_diff_selatm r = extend [1; 0; 0; 1] 16 ∧
    refres_selatm_tot r = extend [1; 0; 0; 1] 16 ∧
    refres_diff_selatm r ≠ refatm_selatm r ∧
    refres_selatm_tot r ≠ refatm_selatm r.
Proof.
  split; [apply (bool_decide_unpack _); vm_compute; exact I|].
  split; [vm_compute; reflexivity|].
  split; [apply (bool_decide_unpack _); vm_compute; exact I|].
  eexists. split; [vm_compute; reflexivity|].
  cbn [refatm_selatm refres_diff_selatm refres_selatm_tot].
  repeat split; try (vm_compute; reflexivity); vm_compute; discriminate.
Qed.

(** ** The end-to-end example *)

(** The frame is the one the specification describes: [atom1] is in
    contact with [atom_a] and [atom_b], which share a residue, and [atom2]
    with no atom; the reference residues hold one atom each. *)
Lemma example_frame :
  atoms_around_point euclid example_sel (position atom1) 2 = [atom_a; atom_b] ∧
  atoms_around_point euclid example_sel (position atom2) 2 = [] ∧
  residue atom_a = residue atom_b ∧ residue atom_c ≠ residue atom_a ∧
  n_residues example_ref = 2%nat ∧ n_residues example_sel = 2%nat.
Proof. vm_compute. repeat split; discriminate. Qed.

Lemma remove_dups_pair `{EqDecision A} (r : A) : remove_dups [r; r] = [r].
Proof.
  cbn [remove_dups].
  destruct (decide_rel elem_of r []) as [H|H]; [by apply elem_of_nil in H|].
  destruct (decide_rel elem_of r [r]) as [H'|H']; [done|].
  exfalso. apply H'. by left.
Qed.

Lemma unique_counts_pair (r : N) : unique_counts [r; r] = [2%nat].
Proof.
  unfold unique_counts, np_unique. rewrite remove_dups_pair.
  change (merge_sort N.le [r]) with [r]. cbn [fmap list_fmap]. f_equal.
  unfold count_of. by rewrite !(filter_cons_True (λ x, x = r)) by done.
Qed.

Lemma bin_count_in_bin h n h' k :
  incr_at (extend h (n + 1)) n 1 = Some h' →
  bin h' k = if decide (k = n) then u32 (bin h n + 1) else bin h k.
Proof.
  intros [Hn ->]%incr_at_inv. rewrite bin_insert by done.
  case_decide; by rewrite bin_extend.
Qed.

Lemma same_and_pair_single same pair m same' pair' :
  same_and_pair same pair [m] = Some (same', pair') →
  (∀ k, bin same' k = if decide (k = m) then u32 (bin same k + 1) else bin same k) ∧
  (∀ k, bin pair' k = if decide (k = m) then u32 (bin pair k + 1) else bin pair k).
Proof.
  unfold same_and_pair. rewrite decide_False by done. intros H.
  destruct (fancy_incr _ [m]) as [s|] eqn:E1; simplify_eq/=.
  destruct (incr_at _ m 1) as [p|] eqn:E2; simplify_eq/=.
  apply fancy_incr_inv in E1 as (_ & _ & Hs). apply incr_at_inv in E2 as [Hm ->].
  split; intros k.
  - rewrite Hs, bin_extend. destruct (decide (k = m)) as [->|Hk].
    + by rewrite decide_True by (by left).
    + rewrite decide_False; [done|]. by intros ?%list_elem_of_singleton.
  - rewrite bin_insert by done. case_decide; subst; by rewrite bin_extend.
Qed.

Lemma same_and_pair_nil same pair same' pair' :
  same_and_pair same pair [] = Some (same', pair') →
  (∀ k, bin same' k = if decide (k = 0%nat) then u32 (bin same k + 1) else bin same k) ∧
  pair' = pair.
Proof.
  unfold same_and_pair. rewrite decide_True by done. intros H.
  destruct (incr_at same 0 1) as [s|] eqn:E; simplify_eq/=.
  apply incr_at_inv in E as [H0 ->]. split; [|done]. intros k.
  rewrite bin_insert by done. by case_decide; subst.
Qed.

(** C1, as the code has it: for the end-to-end example of the
    specification, that is for every frame in which the first of two
    reference atoms is in contact with two selection atoms of one residue and
    the second with no atom, and whatever the capacity hint, [contact_hist]
    returns [refatm_selatm = [1,0,1]], [refatm_diff_selres = [1,1,0]],
    [refatm_same_selres = [1,0,1]], and [refatm_selres_pair] with 1 in bin 2
    and 0 in every other bin, up to zero padding on the right. *)
Theorem end_to_end_example in_range cutoff expected_max_contacts a1 a2 sa sb sc :
  ¬ (cutoff <= 0)%Q →
  residue sa = residue sb →
  atoms_around_point in_range [sa; sb; sc] (position a1) cutoff = [sa; sb] →
  atoms_around_point in_range [sa; sb; sc] (position a2) cutoff = [] →
  ∃ r, contact_hist in_range [a1; a2] [sa; sb; sc] cutoff expected_max_contacts
       = ([], Some r) ∧
    same_bins (refatm_selatm r) [1; 0; 1] ∧
    same_bins (refatm_diff_selres r) [1; 1; 0] ∧
    same_bins (refatm_same_selres r) [1; 0; 1] ∧
    same_bins (refatm_selres_pair r) [0; 0; 1].
Proof.
  intros Hcut Hresidue Hnear1 Hnear2.
  assert (resid sa = resid sb) as Hres by (by injection Hresidue).
  assert (Qle_bool cutoff 0 = false) as Hcut'.
  { destruct (Qle_bool cutoff 0) eqn:E; [|done]. by apply Qle_bool_iff in E. }
  rewrite contact_hist_normal by done.
  destruct (loop_Some in_range [a1; a2] [sa; sb; sc] cutoff _
              (expected_max_contacts_pos expected_max_contacts)) as (st & Hst & Hwf).
  rewrite Hst. cbn [mbind option_bind].
  destruct (finish_Some [a1; a2] [sa; sb; sc] st Hwf) as [r Hr]; [simpl; lia..|].
  exists r. rewrite Hr. split; [done|].
  apply finish_inv in Hr as (? & ? & ? & ? & L & _ & _ & _ & _ & -> & _).
  cbn [refatm_selatm refatm_diff_selres refatm_same_selres refatm_selres_pair].
  cbn [for_each] in Hst.
  destruct (loop_body _ _ _ _ _ _ a1) as [s1|] eqn:Hb1; [|done].
  cbn [mbind option_bind] in Hst.
  destruct (loop_body _ _ _ _ _ _ a2) as [s2|] eqn:Hb2; [|done].
  cbn [mbind option_bind] in Hst. injection Hst as ->.
  apply loop_body_inv in Hb1 as (A1 & A2 & A3 & _).
  apply loop_body_inv in Hb2 as (B1 & B2 & B3 & _).
  rewrite Hnear1 in A1, A2, A3. rewrite Hnear2 in B1, B2, B3.
  assert (n_residues [sa; sb] = 1%nat) as Hn1.
  { unfold n_residues. cbn [fmap list_fmap]. by rewrite Hresidue, remove_dups_pair. }
  assert (unique_counts (resids [sa; sb]) = [2%nat]) as Hc1.
  { unfold resids. cbn [fmap list_fmap]. rewrite Hres. apply unique_counts_pair. }
  rewrite Hn1 in A2. rewrite Hc1 in A3.
  change (n_atoms [sa; sb]) with 2%nat in A1.
  change (n_atoms []) with 0%nat in B1.
  change (n_residues []) with 0%nat in B2.
  change (unique_counts (resids [])) with (@nil nat) in B3.
  apply same_and_pair_single in A3 as [A3 A4].
  apply same_and_pair_nil in B3 as [B3 B4].
  assert (∀ k, bin (zeros (Z.to_nat
            (if decide (expected_max_contacts ≤ 0)%Z then 16%Z
             else expected_max_contacts))) k = 0) as Hz
    by (intros; apply bin_replicate).
  cbn [init_state s_refatm_selatm s_refatm_diff_selres s_refatm_same_selres
       s_refatm_selres_pair] in A1, A2, A3, A4.
  repeat split; intros k; rewrite bin_extend.
  - rewrite (bin_count_in_bin _ _ _ k B1), !(bin_count_in_bin _ _ _ _ A1), !Hz.
    destruct k as [|[|[|k]]]; done.
  - rewrite (bin_count_in_bin _ _ _ k B2), !(bin_count_in_bin _ _ _ _ A2), !Hz.
    destruct k as [|[|[|k]]]; done.
  - rewrite B3, !A3, !Hz. destruct k as [|[|[|k]]]; done.
  - rewrite B4, A4, Hz. destruct k as [|[|[|k]]]; done.
Qed.

Lemma end_to_end_example_witness :
  (¬ (2 <= 0)%Q ∧ residue atom_a = residue atom_b ∧
   atoms_around_point euclid [atom_a; atom_b; atom_c] (position atom1) 2
     = [atom_a; atom_b] ∧
   atoms_around_point euclid [atom_a; atom_b; atom_c] (position atom2) 2 = []) ∧
  ∃ r, contact_hist euclid [atom1; atom2] [atom_a; atom_b; atom_c] 2 16 = ([], Some r) ∧
    same_bins (refatm_selatm r) [1; 0; 1] ∧
    same_bins (refatm_diff_selres r) [1; 1; 0] ∧
    same_bins (refatm_same_selres r) [1; 0; 1] ∧
    same_bins (refatm_selres_pair r) [0; 0; 1].
Proof.
  assert (¬ (2 <= 0)%Q) as H1 by (intros H; vm_compute in H; apply H; reflexivity).
  assert (residue atom_a = residue atom_b) as H2 by reflexivity.
  assert (atoms_around_point euclid [atom_a; atom_b; atom_c] (position atom1) 2
          = [atom_a; atom_b]) as H3 by (vm_compute; reflexivity).
  assert (atoms_around_point euclid [atom_a; atom_b; atom_c] (position atom2) 2 = [])
    as H4 by (vm_compute; reflexivity).
  split; [split; [exact H1|split; [exact H2|split; [exact H3|exact H4]]]|].
  exact (end_to_end_example euclid 2 16 atom1 atom2 atom_a atom_b atom_c H1 H2 H3 H4).
Defined.

(** C1, as the specification words it, does not hold: [refatm_selatm] is
    not [[1,0,2]] (one reference atom has two contacts, not two atoms), and
    [refatm_same_selres] is not [[1,1,0]] (the touched residue has
    multiplicity 2, which is bin 2). *)
Lemma end_to_end_example_not_as_stated :
  ¬ ∃ r, (contact_hist euclid example_ref example_sel 2 16).2 = Some r ∧
      same_bins (refatm_selatm r) [1; 0; 2] ∧
      same_bins (refatm_diff_selres r) [1; 1; 0] ∧
      same_bins (refatm_same_selres r) [1; 1; 0] ∧
      same_bins (refatm_selres_pair r) [0; 0; 1].
Proof.
  intros (r & Hr & H1 & _). vm_compute in Hr. injection Hr as <-.
  specialize (H1 2%nat). vm_compute in H1. discriminate.
Qed.

(** ** The bound average without bound units *)

Lemma f64_div_by_zero x s : non_finite (f64_div x (S754_zero s)).
Proof.
  unfold non_finite, f64_div. destruct x as [sx|sx| |sx mx ex]; simpl; eauto.
Qed.

(** C9: when no reference unit is bound, that is when [P(0)] is 1, the
    bound average is the quotient by [1 - 1 = 0]: it is computed without an
    error and is a NaN or an infinity, whatever the average it divides. *)
Theorem bound_average_no_bound_unit np_sum_f hist :
  hist !! 0%nat = Some (f64_of_Z 1) →
  ∃ x, bound_average np_sum_f hist = Some x ∧ non_finite x.
Proof.
  intros H0. unfold bound_average. rewrite H0. cbn [mbind option_bind].
  eexists. split; [done|].
  assert (f64_sub (f64_of_Z 1) (f64_of_Z 1) = S754_zero false) as ->
    by (vm_compute; reflexivity).
  apply f64_div_by_zero.
Qed.

Lemma bound_average_no_bound_unit_witness :
  probabilities [5; 0; 0] 5 !! 0%nat = Some (f64_of_Z 1) ∧
  ∃ x, bound_average sum_left (probabilities [5; 0; 0] 5) = Some x ∧ non_finite x.
Proof.
  assert (probabilities [5; 0; 0] 5 !! 0%nat = Some (f64_of_Z 1)) as H
    by (vm_compute; reflexivity).
  split; [exact H|].
  exact (bound_average_no_bound_unit sum_left (probabilities [5; 0; 0] 5) H).
Defined.

(** * Further properties of [contact_hist] *)

(** ** The paths of [contact_hist] *)

(** A property of the result holds on every path when it holds for the two
    early returns and for whatever the loop and the statements after it
    produce. *)
Lemma contact_hist_cases in_range ref sel cutoff expected_max_contacts (P : Hists → Prop) :
  (n_atoms ref = 0%nat → P empty_hists) →
  (n_atoms ref ≠ 0%nat → n_atoms sel = 0%nat ∨ Qle_bool cutoff 0 = true →
     P (trivial_hists ref)) →
  (n_atoms ref ≠ 0%nat → n_atoms sel ≠ 0%nat → Qle_bool cutoff 0 = false →
     ∀ st r,
       for_each (loop_body in_range sel cutoff (np_unique (resids ref))
                   (np_unique (resids sel)))
         (init_state ref sel
            (Z.to_nat (if decide (expected_max_contacts ≤ 0)%Z then 16%Z
                       else expected_max_contacts))) ref = Some st →
       wf_state (n_residues ref) (n_atoms sel) (n_residues sel) st →
       finish ref st = Some r → P r) →
  ∃ r, (contact_hist in_range ref sel cutoff expected_max_contacts).2 = Some r ∧ P r.
Proof.
  intros Hempty Htrivial Hnormal.
  destruct (decide (n_atoms ref = 0%nat)) as [Href|Href].
  { unfold contact_hist. rewrite decide_True by done. eexists. split; [done|]. auto. }
  destruct (decide (n_atoms sel = 0%nat)) as [Hsel|Hsel].
  { unfold contact_hist. rewrite decide_False by done.
    rewrite bool_decide_eq_true_2 by done. eexists. split; [done|]. auto. }
  destruct (Qle_bool cutoff 0) eqn:Hcut.
  { unfold contact_hist. rewrite decide_False by done.
    rewrite Hcut, orb_true_r. eexists. split; [done|]. auto. }
  rewrite contact_hist_normal by done. simpl.
  destruct (loop_Some in_range ref sel cutoff _
              (expected_max_contacts_pos expected_max_contacts)) as (st & Hst & Hwf).
  rewrite Hst. cbn [mbind option_bind].
  destruct (finish_Some ref sel st Hwf) as [r Hr]; [lia..|].
  exists r. split; [done|]. by apply (Hnormal Href Hsel eq_refl st r).
Qed.


Lemma u32_add_l x y : u32 (u32 x + y) = u32 (x + y).
Proof. unfold u32. by rewrite N.Div0.add_mod_idemp_l. Qed.

Lemma length_filter_snoc {A} (P : A → Prop) `{!∀ x, Decision (P x)} (l : list A) (a : A) :
  length (filter P (l ++ [a])) = (length (filter P l) + if decide (P a) then 1 else 0)%nat.
Proof.
  rewrite filter_app, length_app. f_equal.
  destruct (decide (P a)).
  - by rewrite filter_cons_True.
  - by rewrite filter_cons_False.
Qed.

(** Counting one more element in the bin that [f] gives it keeps a tally
    a tally. *)
Lemma tally_step {A} (f : A → nat) (h h' : list N) (done : list A) (a : A) :
  (∀ k, bin h k = u32 (N.of_nat (length (filter (λ x, f x = k) done)))) →
  incr_at (extend h (f a + 1)) (f a) 1 = Some h' →
  ∀ k, bin h' k = u32 (N.of_nat (length (filter (λ x, f x = k) (done ++ [a])))).
Proof.
  intros HI Hincr k. rewrite (bin_count_in_bin _ _ _ _ Hincr), length_filter_snoc.
  rewrite !HI. destruct (decide (k = f a)) as [->|Hk].
  - rewrite decide_True by done. rewrite u32_add_l. f_equal. lia.
  - rewrite decide_False by done. f_equal. lia.
Qed.

Lemma counts_in_same_bin_marks s m :
  counts_in_same_bin s m ↔
  m ∈ (if decide (length (unique_counts (resids s)) = 0%nat) then [0%nat]
       else unique_counts (resids s)).
Proof.
  unfold counts_in_same_bin. case_decide as Hc.
  - apply unique_counts_resids_nil in Hc. subst s. rewrite list_elem_of_singleton.
    split; [intros [[_ ?]|H]; [done|by apply Exists_nil in H]|]. intros ->. by left.
  - rewrite elem_of_unique_counts_resids, Exists_exists. split.
    + intros [[Hs _]|H]; [|done]. destruct s; [|done]. by destruct Hc.
    + intros H. by right.
Qed.

Section Tally.
Context (in_range : Point → Point → Q → bool) (ref sel : AtomGroup) (cutoff : Q).
Context (emc : nat).

Local Abbreviation near a := (atoms_around_point in_range sel (position a) cutoff).
Local Abbreviation body :=
  (loop_body in_range sel cutoff (np_unique (resids ref)) (np_unique (resids sel))).
Local Abbreviation WF := (wf_state (n_residues ref) (n_atoms sel) (n_residues sel)).

(** What the loop leaves in the bins of [refatm_selatm],
    [refatm_diff_selres] and [refatm_same_selres]: the numbers of reference
    atoms, as a [uint32] holds them. *)
Lemma loop_atom_tallies :
  (0 < emc)%nat →
  ∃ st, for_each body (init_state ref sel emc) ref = Some st ∧ WF st ∧
    (∀ k, bin (s_refatm_selatm st) k
          = u32 (N.of_nat (length (filter (λ a, n_atoms (near a) = k) ref)))) ∧
    (∀ k, bin (s_refatm_diff_selres st) k
          = u32 (N.of_nat (length (filter (λ a, n_residues (near a) = k) ref)))) ∧
    (∀ k, bin (s_refatm_same_selres st) k
          = u32 (N.of_nat (length (filter (λ a, counts_in_same_bin (near a) k) ref)))).
Proof.
  intros Hemc.
  apply (loop_inv in_range ref sel cutoff emc
    (λ done st,
       (∀ k, bin (s_refatm_selatm st) k
             = u32 (N.of_nat (length (filter (λ a, n_atoms (near a) = k) done)))) ∧
       (∀ k, bin (s_refatm_diff_selres st) k
             = u32 (N.of_nat (length (filter (λ a, n_residues (near a) = k) done)))) ∧
       (∀ k, bin (s_refatm_same_selres st) k
             = u32 (N.of_nat (length (filter (λ a, counts_in_same_bin (near a) k) done)))))
    Hemc).
  - simpl. unfold zeros. repeat split; intros k; by rewrite bin_replicate.
  - intros done a todo st st' _ _ (I1 & I2 & I3) Hbody.
    apply loop_body_inv in Hbody as (B1 & B2 & B3 & _).
    split; [|split].
    + exact (tally_step (λ a, n_atoms (near a)) _ _ _ _ I1 B1).
    + exact (tally_step (λ a, n_residues (near a)) _ _ _ _ I2 B2).
    + intros k. apply same_and_pair_inv in B3 as (_ & _ & Hs & _).
      rewrite Hs, length_filter_snoc, I3.
      destruct (decide (counts_in_same_bin (near a) k)) as [Hk|Hk].
      * rewrite decide_True by (by apply counts_in_same_bin_marks).
        rewrite u32_add_l. f_equal. lia.
      * rewrite decide_False by (by rewrite <- counts_in_same_bin_marks).
        f_equal. lia.
Qed.

End Tally.

Lemma n_residues_zero ag : n_residues ag = 0%nat ↔ n_atoms ag = 0%nat.
Proof.
  pose proof (n_residues_le ag). pose proof (n_residues_pos ag). lia.
Qed.

Lemma multiplicity_pos s b : b ∈ s → (0 < multiplicity s (resid b))%nat.
Proof.
  intros Hb. rewrite <- count_of_resids. apply count_of_pos.
  unfold resids. by apply list_elem_of_fmap_2.
Qed.

Lemma counts_in_same_bin_0 s : counts_in_same_bin s 0 ↔ n_atoms s = 0%nat.
Proof.
  split; [|by left]. intros [[? _]|H]; [done|].
  apply Exists_exists in H as (b & Hb & Hm).
  pose proof (multiplicity_pos s b Hb). lia.
Qed.

Lemma length_filter_le_range {A} (P : A → Prop) `{!∀ x, Decision (P x)} (l : list A) :
  N.of_nat (length l) < 2 ^ 32 → u32 (N.of_nat (length (filter P l))) = N.of_nat (length (filter P l)).
Proof.
  intros Hl. apply u32_small. pose proof (length_filter P l). lia.
Qed.

(** The same bins when the number of reference atoms is one that a
    [uint32] holds. *)
Lemma loop_atom_counts in_range ref sel cutoff emc :
  (0 < emc)%nat → N.of_nat (n_atoms ref) < 2 ^ 32 →
  ∃ st, for_each (loop_body in_range sel cutoff (np_unique (resids ref))
                    (np_unique (resids sel)))
          (init_state ref sel emc) ref = Some st ∧
    (∀ k, bin (s_refatm_selatm st) k
          = N.of_nat (length (filter
              (λ a, n_atoms (atoms_around_point in_range sel (position a) cutoff) = k)
              ref))) ∧
    (∀ k, bin (s_refatm_diff_selres st) k
          = N.of_nat (length (filter
              (λ a, n_residues (atoms_around_point in_range sel (position a) cutoff) = k)
              ref))) ∧
    (∀ k, bin (s_refatm_same_selres st) k
          = N.of_nat (length (filter
              (λ a, counts_in_same_bin
                      (atoms_around_point in_range sel (position a) cutoff) k)
              ref))).
Proof.
  intros Hemc Hrange.
  destruct (loop_atom_tallies in_range ref sel cutoff emc Hemc)
    as (st & Hst & _ & H1 & H2 & H3).
  exists st. split; [done|].
  repeat split; intros k; rewrite ?H1, ?H2, ?H3; by apply length_filter_le_range.
Qed.

Lemma atoms_around_point_nil in_range p c : atoms_around_point in_range [] p c = [].
Proof. done. Qed.

Lemma n_atoms_nil_inv (ag : AtomGroup) : n_atoms ag = 0%nat → ag = [].
Proof. by destruct ag. Qed.

Lemma bin_singleton (x : N) k : bin [x] k = if decide (k = 0%nat) then x else 0.
Proof. by destruct k as [|[|k]]. Qed.

(** X2: the bins of the three atom-level histograms count reference atoms.
    Bin [k] of [refatm_selatm] is the number of reference atoms with exactly
    [k] selection atoms within the cutoff; bin [k] of [refatm_diff_selres]
    the number of those whose neighbours belong to exactly [k] selection
    residues ([sel_near_ref.n_residues], line 475); bin [k] of
    [refatm_same_selres] the number of those for which some resid occurs
    exactly [k] times among the resids of the neighbours
    ([np.unique(sel_near_ref.resids, return_counts=True)], line 478), and
    for [k = 0] of those without neighbour. The count of a resid is the
    number of contacts with a selection residue when no two selection
    residues share a resid. The cutoff is positive and the number of
    reference atoms is one that a [uint32] counter holds. *)
Theorem atom_histograms_tally in_range ref sel cutoff expected_max_contacts :
  N.of_nat (n_atoms ref) < 2 ^ 32 → ¬ (cutoff <= 0)%Q →
  ∃ r, (contact_hist in_range ref sel cutoff expected_max_contacts).2 = Some r ∧
    ∀ k,
      bin (refatm_selatm r) k
      = N.of_nat (length (filter
          (λ a, n_atoms (atoms_around_point in_range sel (position a) cutoff) = k) ref)) ∧
      bin (refatm_diff_selres r) k
      = N.of_nat (length (filter
          (λ a, n_residues (atoms_around_point in_range sel (position a) cutoff) = k)
          ref)) ∧
      bin (refatm_same_selres r) k
      = N.of_nat (length (filter
          (λ a, counts_in_same_bin (atoms_around_point in_range sel (position a) cutoff) k)
          ref)).
Proof.
  intros Hrange Hcut. apply contact_hist_cases.
  - intros ->%n_atoms_nil_inv k. by destruct k.
  - intros _ [->%n_atoms_nil_inv|Hle]; [|by apply Qle_bool_iff in Hle].
    intros k. unfold trivial_hists.
    cbn [refatm_selatm refatm_diff_selres refatm_same_selres].
    rewrite bin_singleton. case_decide as Hk.
    + subst k. unfold n_atoms at 1 3 5.
      repeat split; f_equal; symmetry; f_equal; apply filter_all; intros a _;
        [done|done|by left].
    + repeat split; symmetry; apply (f_equal N.of_nat (y := 0%nat)), (f_equal length (y := [])),
        filter_none; intros a _; cbn; [lia|lia|].
      intros [[_ ?]|H%Exists_nil]; done.
  - intros _ _ _ st r Hst _
      (sa & sr & pa & pr & L & _ & _ & _ & _ & -> & _)%finish_inv.
    destruct (loop_atom_counts in_range ref sel cutoff _
                (expected_max_contacts_pos expected_max_contacts) Hrange)
      as (st' & Hst' & H1 & H2 & H3).
    rewrite Hst in Hst'. injection Hst' as <-.
    intros k. cbn [refatm_selatm refatm_diff_selres refatm_same_selres].
    by rewrite !bin_extend, H1, H2, H3.
Qed.

Lemma atom_histograms_tally_witness :
  (N.of_nat (n_atoms example_ref) < 2 ^ 32 ∧ ¬ (2 <= 0)%Q) ∧
  ∃ r, (contact_hist euclid example_ref example_sel 2 16).2 = Some r ∧
    ∀ k,
      bin (refatm_selatm r) k
      = N.of_nat (length (filter
          (λ a, n_atoms (atoms_around_point euclid example_sel (position a) 2) = k)
          example_ref)) ∧
      bin (refatm_diff_selres r) k
      = N.of_nat (length (filter
          (λ a, n_residues (atoms_around_point euclid example_sel (position a) 2) = k)
          example_ref)) ∧
      bin (refatm_same_selres r) k
      = N.of_nat (length (filter
          (λ a, counts_in_same_bin (atoms_around_point euclid example_sel (position a) 2) k)
          example_ref)).
Proof.
  assert (N.of_nat (n_atoms example_ref) < 2 ^ 32) as H1 by (vm_compute; reflexivity).
  assert (¬ (2 <= 0)%Q) as H2 by (intros H; vm_compute in H; apply H; reflexivity).
  split; [split; [exact H1|exact H2]|].
  exact (atom_histograms_tally euclid example_ref example_sel 2 16 H1 H2).
Defined.

(** X3: the three atom-level histograms agree on bin 0, the number of
    reference atoms without contact, whatever the arguments of
    [contact_hist] (the checks of lines 642-655 of the debug branch). *)
Theorem no_contact_bins_agree in_range ref sel cutoff expected_max_contacts :
  ∃ r x, (contact_hist in_range ref sel cutoff expected_max_contacts).2 = Some r ∧
    refatm_selatm r !! 0%nat = Some x ∧
    refatm_diff_selres r !! 0%nat = Some x ∧
    refatm_same_selres r !! 0%nat = Some x.
Proof.
  destruct (contact_hist_cases in_range ref sel cutoff expected_max_contacts
    (λ r, ∃ x, refatm_selatm r !! 0%nat = Some x ∧
               refatm_diff_selres r !! 0%nat = Some x ∧
               refatm_same_selres r !! 0%nat = Some x)) as (r & Hr & x & Hx).
  - intros _. by exists 0.
  - intros _ _. by eexists.
  - intros _ _ _ st r Hst _
      (sa & sr & pa & pr & L & _ & _ & _ & _ & -> & _ & HL)%finish_inv.
    destruct (loop_atom_tallies in_range ref sel cutoff _
                (expected_max_contacts_pos expected_max_contacts))
      as (st' & Hst' & _ & H1 & H2 & H3).
    rewrite Hst in Hst'. injection Hst' as <-.
    eexists. cbn [refatm_selatm refatm_diff_selres refatm_same_selres].
    rewrite !extend_lookup_bin by done. rewrite H1, H2, H3.
    split; [done|].
    split; do 4 f_equal; apply list_filter_iff; intros a.
    + apply n_residues_zero.
    + apply counts_in_same_bin_0.
  - by exists r, x.
Qed.

(** ** Selection residues of one atom each *)

Lemma atoms_around_point_NoDup_resids in_range ag p c :
  NoDup (resids ag) → NoDup (resids (atoms_around_point in_range ag p c)).
Proof.
  intros H. eapply sublist_NoDup; [exact H|].
  unfold resids. apply fmap_sublist, atoms_around_point_sublist.
Qed.

Lemma multiplicity_NoDup s b : NoDup (resids s) → b ∈ s → multiplicity s (resid b) = 1%nat.
Proof.
  intros Hnd Hb. rewrite <- count_of_resids. unfold count_of.
  assert (resid b ∈ resids s) as Hr by (by apply list_elem_of_fmap_2).
  revert Hnd Hr. generalize (resids s) (resid b). clear.
  intros l v. induction l as [|x l IH]; intros Hnd Hv; [by apply elem_of_nil in Hv|].
  apply NoDup_cons in Hnd as [Hx Hnd].
  destruct (decide (x = v)) as [->|Hne].
  - rewrite filter_cons_True by done. rewrite filter_none; [done|].
    intros y Hy ->. done.
  - rewrite filter_cons_False by done. apply IH; [done|].
    apply elem_of_cons in Hv as [->|]; done.
Qed.

Lemma counts_in_same_bin_NoDup s m :
  NoDup (resids s) →
  counts_in_same_bin s m ↔ (n_atoms s = 0%nat ∧ m = 0%nat) ∨ (n_atoms s ≠ 0%nat ∧ m = 1%nat).
Proof.
  intros Hnd. unfold counts_in_same_bin. split.
  - intros [?|H]; [by left|]. right.
    apply Exists_exists in H as (b & Hb & Hm).
    rewrite multiplicity_NoDup in Hm by done. split; [|done].
    destruct s; [by apply elem_of_nil in Hb|done].
  - intros [?|[Hs ->]]; [by left|]. right.
    destruct s as [|b s]; [done|]. apply Exists_exists. exists b.
    split; [by left|]. apply multiplicity_NoDup; [done|by left].
Qed.

(** X5: when the atoms of the selection group have pairwise distinct
    resids, so that no two of them share a residue, [refatm_diff_selres] is
    equal to [refatm_selatm], element by element (the check of lines
    773-776), whatever the other arguments. *)
Theorem singleton_selection_residues_collapse in_range ref sel cutoff expected_max_contacts :
  NoDup (resids sel) →
  ∃ r, (contact_hist in_range ref sel cutoff expected_max_contacts).2 = Some r ∧
    refatm_diff_selres r = refatm_selatm r.
Proof.
  intros Hnd. apply contact_hist_cases; [done..|].
  intros _ _ _ st r Hst _
    (sa & sr & pa & pr & L & _ & _ & _ & _ & -> & Hlen & _)%finish_inv.
  destruct (loop_atom_tallies in_range ref sel cutoff _
              (expected_max_contacts_pos expected_max_contacts))
    as (st' & Hst' & _ & H1 & H2 & _).
  rewrite Hst in Hst'. injection Hst' as <-.
  unfold hists_list in Hlen. cbn [refatm_selatm refatm_diff_selres] in *.
  apply Forall_cons in Hlen as [Hl1 Hlen]. apply Forall_cons in Hlen as [Hl2 _].
  apply same_bins_eq; [congruence|]. intros k. rewrite !bin_extend, (H1 k), (H2 k).
  do 3 f_equal. apply list_filter_iff. intros a.
  rewrite (n_residues_NoDup _
    (atoms_around_point_NoDup_resids in_range sel (position a) cutoff Hnd)).
  reflexivity.
Qed.

Lemma singleton_selection_residues_collapse_witness :
  NoDup (resids example_sel_singletons) ∧
  ∃ r, (contact_hist euclid example_ref example_sel_singletons 2 16).2 = Some r ∧
    refatm_diff_selres r = refatm_selatm r.
Proof.
  assert (NoDup (resids example_sel_singletons)) as H1
    by (apply (bool_decide_unpack _); vm_compute; exact I).
  split; [exact H1|].
  exact (singleton_selection_residues_collapse euclid example_ref example_sel_singletons
           2 16 H1).
Defined.

Lemma bin_cons_0 x h : bin (x :: h) 0 = x.
Proof. done. Qed.

Lemma bin_cons_S x h k : bin (x :: h) (S k) = bin h k.
Proof. done. Qed.

Lemma np_sum_zero h : (∀ k, bin h k = 0) → np_sum h = 0.
Proof.
  induction h as [|x h IH]; intros Hz; [done|]. rewrite np_sum_cons.
  pose proof (Hz 0%nat) as H0. rewrite bin_cons_0 in H0.
  rewrite IH; [lia|]. intros k. apply (Hz (S k)).
Qed.

Lemma np_sum_two_bins h : (∀ k, (2 ≤ k)%nat → bin h k = 0) → np_sum h = bin h 0 + bin h 1.
Proof.
  intros H. destruct h as [|x0 [|x1 h]]; [done|simpl; unfold bin; simpl; lia|].
  rewrite !np_sum_cons, bin_cons_0, bin_cons_S, bin_cons_0.
  rewrite (np_sum_zero h); [lia|]. intros k. apply (H (S (S k))). lia.
Qed.

Lemma length_filter_complement {A} (P : A → Prop) `{!∀ x, Decision (P x)} (l : list A) :
  (length (filter P l) + length (filter (λ x, ¬ P x) l) = length l)%nat.
Proof.
  induction l as [|x l IH]; [done|]. destruct (decide (P x)).
  - rewrite filter_cons_True by done.
    rewrite (filter_cons_False (λ x, ¬ P x)) by tauto. simpl. lia.
  - rewrite filter_cons_False by done.
    rewrite (filter_cons_True (λ x, ¬ P x)) by done. simpl. lia.
Qed.

(** X6: when the atoms of the selection group have pairwise distinct
    resids (every selection residue then holds one atom and has a resid of
    its own), [refatm_same_selres] is [[x, n - x]] followed by zeros, with
    [x] the number of reference atoms without contact ([refatm_selatm[0]])
    and [n] the number of reference atoms, so that it adds up to [n]: what
    lines 777-789 check. The guard of these checks (lines 756-758) compares
    residue indices and also admits one-atom residues that share a resid,
    which the statement leaves out. The number of reference atoms is one
    that a [uint32] counter holds. *)
Theorem singleton_selection_same_selres in_range ref sel cutoff expected_max_contacts :
  NoDup (resids sel) → N.of_nat (n_atoms ref) < 2 ^ 32 →
  ∃ r x, (contact_hist in_range ref sel cutoff expected_max_contacts).2 = Some r ∧
    refatm_selatm r !! 0%nat = Some x ∧
    bin (refatm_same_selres r) 0 = x ∧
    bin (refatm_same_selres r) 1 = N.of_nat (n_atoms ref) - x ∧
    (∀ k, (2 ≤ k)%nat → bin (refatm_same_selres r) k = 0) ∧
    np_sum (refatm_same_selres r) = N.of_nat (n_atoms ref).
Proof.
  intros Hnd Hrange.
  destruct (contact_hist_cases in_range ref sel cutoff expected_max_contacts
    (λ r, ∃ x, refatm_selatm r !! 0%nat = Some x ∧ x ≤ N.of_nat (n_atoms ref) ∧
       bin (refatm_same_selres r) 0 = x ∧
       bin (refatm_same_selres r) 1 = N.of_nat (n_atoms ref) - x ∧
       (∀ k, (2 ≤ k)%nat → bin (refatm_same_selres r) k = 0)))
    as (r & Hr & x & H0 & Hx & Hs0 & Hs1 & Hs2).
  - intros ->. exists 0. repeat split; try done. by intros [|[|k]] ?.
  - intros _ _. exists (N.of_nat (n_atoms ref)). unfold trivial_hists.
    cbn [refatm_selatm refatm_same_selres]. repeat split; try done.
    + rewrite bin_singleton. simpl. lia.
    + intros k Hk. rewrite bin_singleton. by rewrite decide_False by lia.
  - intros _ _ _ st r Hst _
      (sa & sr & pa & pr & L & _ & _ & _ & _ & -> & _ & HL)%finish_inv.
    destruct (loop_atom_counts in_range ref sel cutoff _
                (expected_max_contacts_pos expected_max_contacts) Hrange)
      as (st' & Hst' & H1 & _ & H3).
    rewrite Hst in Hst'. injection Hst' as <-.
    eexists. cbn [refatm_selatm refatm_same_selres].
    rewrite extend_lookup_bin by done. rewrite H1. split; [done|].
    rewrite !bin_extend, !H3. unfold AtomGroup in *.
    pose proof (length_filter_complement
      (λ a, n_atoms (atoms_around_point in_range sel (position a) cutoff) = 0%nat) ref)
      as Hc.
    assert (∀ k (P : Atom → Prop) `{!∀ a, Decision (P a)},
      (∀ a, counts_in_same_bin (atoms_around_point in_range sel (position a) cutoff) k
            ↔ P a) →
      length (filter (λ a, counts_in_same_bin
                       (atoms_around_point in_range sel (position a) cutoff) k) ref)
      = length (filter P ref)) as Hfil.
    { intros k P ? HP. f_equal. by apply list_filter_iff. }
    split; [|split; [|split]].
    + pose proof (length_filter
        (λ a, n_atoms (atoms_around_point in_range sel (position a) cutoff) = 0%nat) ref).
      unfold n_atoms, AtomGroup in *. lia.
    + f_equal. apply Hfil. intros a.
      rewrite counts_in_same_bin_NoDup by (by apply atoms_around_point_NoDup_resids).
      intuition lia.
    + rewrite (Hfil 1%nat (λ a, ¬ n_atoms (atoms_around_point in_range sel (position a) cutoff)
                               = 0%nat) _).
      * unfold n_atoms, AtomGroup in *. lia.
      * intros a.
        rewrite counts_in_same_bin_NoDup by (by apply atoms_around_point_NoDup_resids).
        intuition lia.
    + intros k Hk. rewrite bin_extend, H3. unfold AtomGroup.
      rewrite (Hfil k (λ _, False) _).
      * rewrite filter_none; [done|]. tauto.
      * intros a.
        rewrite counts_in_same_bin_NoDup by (by apply atoms_around_point_NoDup_resids).
        intuition lia.
  - exists r, x. repeat split; try done.
    rewrite np_sum_two_bins by done. rewrite Hs0, Hs1. lia.
Qed.

Lemma singleton_selection_same_selres_witness :
  (NoDup (resids example_sel_singletons) ∧ N.of_nat (n_atoms example_ref) < 2 ^ 32) ∧
  ∃ r x, (contact_hist euclid example_ref example_sel_singletons 2 16).2 = Some r ∧
    refatm_selatm r !! 0%nat = Some x ∧
    bin (refatm_same_selres r) 0 = x ∧
    bin (refatm_same_selres r) 1 = N.of_nat (n_atoms example_ref) - x ∧
    (∀ k, (2 ≤ k)%nat → bin (refatm_same_selres r) k = 0) ∧
    np_sum (refatm_same_selres r) = N.of_nat (n_atoms example_ref).
Proof.
  assert (NoDup (resids example_sel_singletons)) as H1
    by (apply (bool_decide_unpack _); vm_compute; exact I).
  assert (N.of_nat (n_atoms example_ref) < 2 ^ 32) as H2 by (vm_compute; reflexivity).
  split; [split; [exact H1|exact H2]|].
  exact (singleton_selection_same_selres euclid example_ref example_sel_singletons
           2 16 H1 H2).
Defined.

(** ** The sum of [refatm_same_selres] *)

Lemma np_sum_le h h' : (∀ k, bin h k ≤ bin h' k) → np_sum h ≤ np_sum h'.
Proof.
  revert h'. induction h as [|x h IH]; intros h' Hle; [simpl; lia|].
  destruct h' as [|y h'].
  - pose proof (Hle 0%nat) as H0. rewrite bin_cons_0 in H0.
    rewrite np_sum_cons. rewrite (np_sum_zero h); [simpl; unfold bin in H0; simpl in H0; lia|].
    intros k. specialize (Hle (S k)). rewrite bin_cons_S in Hle.
    unfold bin in Hle at 2. simpl in Hle. lia.
  - rewrite !np_sum_cons. pose proof (Hle 0%nat) as H0. rewrite !bin_cons_0 in H0.
    specialize (IH h'). 
    assert (np_sum h ≤ np_sum h'); [|lia].
    apply IH. intros k. apply (Hle (S k)).
Qed.

Lemma np_sum_lt h h' k0 :
  (∀ k, bin h k ≤ bin h' k) → bin h k0 < bin h' k0 → np_sum h < np_sum h'.
Proof.
  revert h' k0. induction h as [|x h IH]; intros h' k0 Hle Hlt.
  - pose proof (bin_le_np_sum h' k0). simpl. unfold bin in Hlt at 1. simpl in Hlt. lia.
  - destruct h' as [|y h'].
    { unfold bin in Hlt at 2. rewrite lookup_nil in Hlt. simpl in Hlt. lia. }
    rewrite !np_sum_cons. pose proof (Hle 0%nat) as H0. rewrite !bin_cons_0 in H0.
    assert (∀ k, bin h k ≤ bin h' k) as Hle' by (intros k; apply (Hle (S k))).
    destruct k0 as [|k0].
    + rewrite !bin_cons_0 in Hlt. pose proof (np_sum_le h h' Hle'). lia.
    + rewrite !bin_cons_S in Hlt. pose proof (IH h' k0 Hle' Hlt). lia.
Qed.

Lemma counts_in_same_bin_ex s : ∃ m, counts_in_same_bin s m.
Proof.
  destruct s as [|b s].
  - exists 0%nat. by left.
  - exists (multiplicity (b :: s) (resid b)). right. apply Exists_cons. by left.
Qed.

(** The reference atoms seen so far are counted at least once each in
    [refatm_same_selres]. *)
Lemma same_selres_sum_ge in_range ref sel cutoff emc :
  (0 < emc)%nat → N.of_nat (n_atoms ref) < 2 ^ 32 →
  ∃ st, for_each (loop_body in_range sel cutoff (np_unique (resids ref))
                    (np_unique (resids sel)))
          (init_state ref sel emc) ref = Some st ∧
        N.of_nat (n_atoms ref) ≤ np_sum (s_refatm_same_selres st).
Proof.
  intros Hemc Hrange.
  destruct (loop_inv in_range ref sel cutoff emc
    (λ done st, (∀ k, bin (s_refatm_same_selres st) k ≤ N.of_nat (length done)) ∧
                N.of_nat (length done) ≤ np_sum (s_refatm_same_selres st)) Hemc)
    as (st & Hst & _ & _ & Hsum).
  - split; [|simpl; lia]. intros k. simpl. unfold zeros. rewrite bin_replicate. lia.
  - intros done a todo st st' Href _ [Hb Hs] Hbody.
    apply loop_body_inv in Hbody as (_ & _ & Hsp & _).
    apply same_and_pair_inv in Hsp as (_ & _ & Hbin & _).
    assert (N.of_nat (length done) + 1 < 2 ^ 32) as Hlt.
    { unfold n_atoms in Hrange. rewrite Href, length_app in Hrange.
      simpl in Hrange. lia. }
    assert (∀ k, bin (s_refatm_same_selres st') k =
                 if decide (counts_in_same_bin
                      (atoms_around_point in_range sel (position a) cutoff) k)
                 then bin (s_refatm_same_selres st) k + 1
                 else bin (s_refatm_same_selres st) k) as Hbin'.
    { intros k. rewrite Hbin. specialize (Hb k).
      destruct (decide (counts_in_same_bin _ k)) as [Hk|Hk].
      - rewrite decide_True by (by apply counts_in_same_bin_marks).
        apply u32_small. lia.
      - by rewrite decide_False by (by rewrite <- counts_in_same_bin_marks). }
    rewrite length_app. cbn [length]. split.
    + intros k. rewrite Hbin'. specialize (Hb k).
      destruct (decide (counts_in_same_bin _ k)); lia.
    + destruct (counts_in_same_bin_ex
                  (atoms_around_point in_range sel (position a) cutoff)) as [m Hm].
      pose proof (np_sum_lt (s_refatm_same_selres st) (s_refatm_same_selres st') m) as Hlt'.
      assert (np_sum (s_refatm_same_selres st) < np_sum (s_refatm_same_selres st')); [|lia].
      apply Hlt'.
      * intros k. rewrite Hbin'. destruct (decide (counts_in_same_bin _ k)); lia.
      * rewrite Hbin'. rewrite decide_True by done. lia.
  - by exists st.
Qed.

(** X4: the bins of [refatm_same_selres] add up to at least the number of
    reference atoms, every reference atom being counted in one bin or more
    (the check of lines 591-595). The number of reference atoms is one that a
    [uint32] counter holds. *)
Theorem same_selres_sum_lower_bound in_range ref sel cutoff expected_max_contacts :
  N.of_nat (n_atoms ref) < 2 ^ 32 →
  ∃ r, (contact_hist in_range ref sel cutoff expected_max_contacts).2 = Some r ∧
    N.of_nat (n_atoms ref) ≤ np_sum (refatm_same_selres r).
Proof.
  intros Hrange. apply contact_hist_cases.
  - intros ->. simpl. lia.
  - intros _ _. simpl. lia.
  - intros _ _ _ st r Hst _
      (sa & sr & pa & pr & L & _ & _ & _ & _ & -> & _)%finish_inv.
    destruct (same_selres_sum_ge in_range ref sel cutoff _
                (expected_max_contacts_pos expected_max_contacts) Hrange)
      as (st' & Hst' & Hsum).
    rewrite Hst in Hst'. injection Hst' as <-.
    cbn [refatm_same_selres]. by rewrite np_sum_extend.
Qed.

Lemma same_selres_sum_lower_bound_witness :
  N.of_nat (n_atoms example_ref) < 2 ^ 32 ∧
  ∃ r, (contact_hist euclid example_ref example_sel 2 16).2 = Some r ∧
    N.of_nat (n_atoms example_ref) ≤ np_sum (refatm_same_selres r).
Proof.
  assert (N.of_nat (n_atoms example_ref) < 2 ^ 32) as H1 by (vm_compute; reflexivity).
  split; [exact H1|].
  exact (same_selres_sum_lower_bound euclid example_ref example_sel 2 16 H1).
Defined.

(** ** Weighted sums *)

Lemma np_sum_fmap_add {A} (f g : A → N) (l : list A) :
  np_sum ((λ x, f x + g x) <$> l) = np_sum (f <$> l) + np_sum (g <$> l).
Proof. induction l as [|x l IH]; [done|]. rewrite !fmap_cons, !np_sum_cons, IH. lia. Qed.

Lemma np_sum_fmap_ext {A} (f g : A → N) (l : list A) :
  (∀ x, x ∈ l → f x = g x) → np_sum (f <$> l) = np_sum (g <$> l).
Proof.
  intros H. f_equal. apply Forall_fmap_ext_1, Forall_forall. exact H.
Qed.

Lemma np_sum_fmap_zero {A} (f : A → N) (l : list A) :
  (∀ x, x ∈ l → f x = 0) → np_sum (f <$> l) = 0.
Proof.
  induction l as [|x l IH]; intros H; [done|]. rewrite fmap_cons, np_sum_cons.
  rewrite H by (by left). rewrite IH; [done|]. intros y Hy. apply H. by right.
Qed.

Lemma tot_contacts_weighted_sum h : tot_contacts h = weighted_sum (bin h) (length h).
Proof.
  unfold tot_contacts, weighted_sum. f_equal. apply list_eq. intros i.
  rewrite lookup_zip_with, !list_lookup_fmap.
  destruct (decide (i < length h)%nat) as [Hi|Hi].
  - rewrite lookup_bin, lookup_seq_lt by done. done.
  - rewrite (lookup_ge_None_2 h i) by lia. rewrite lookup_seq_ge by lia. done.
Qed.

Lemma weighted_sum_ext f g L :
  (∀ k, (k < L)%nat → f k = g k) → weighted_sum f L = weighted_sum g L.
Proof.
  intros H. apply np_sum_fmap_ext. intros k [_ Hk]%elem_of_seq. rewrite H; [done|lia].
Qed.

Lemma weighted_sum_add f g L :
  weighted_sum (λ k, f k + g k) L = weighted_sum f L + weighted_sum g L.
Proof.
  unfold weighted_sum. rewrite <- np_sum_fmap_add. apply np_sum_fmap_ext.
  intros k _. lia.
Qed.

Lemma weighted_sum_grow f L L' :
  (L ≤ L')%nat → (∀ k, (L ≤ k)%nat → f k = 0) → weighted_sum f L' = weighted_sum f L.
Proof.
  intros Hle Hz. unfold weighted_sum.
  replace L' with (L + (L' - L))%nat by lia.
  rewrite seq_app, fmap_app, np_sum_app.
  rewrite (np_sum_fmap_zero _ (seq (0 + L) _)); [lia|].
  intros k [Hk _]%elem_of_seq. rewrite Hz; lia.
Qed.

(** The weighted sum of the bin [k0] alone. *)
Lemma weighted_sum_single k0 L :
  (k0 < L)%nat →
  weighted_sum (λ k, if decide (k0 = k) then 1 else 0) L = N.of_nat k0.
Proof.
  intros Hk. unfold weighted_sum.
  replace L with (k0 + (1 + (L - k0 - 1)))%nat by lia.
  rewrite !seq_app, !fmap_app, !np_sum_app.
  rewrite (np_sum_fmap_zero _ (seq 0 k0)).
  2:{ intros k [_ ?]%elem_of_seq. rewrite decide_False by lia. lia. }
  rewrite (np_sum_fmap_zero _ (seq (0 + k0 + 1) _)).
  2:{ intros k [? _]%elem_of_seq. rewrite decide_False by lia. lia. }
  simpl. rewrite decide_True by done. lia.
Qed.

(** Double counting: a tally of the values of [g] weighs as much as the
    values add up to. *)
Lemma weighted_sum_tally {A} (g : A → nat) (l : list A) (L : nat) :
  (∀ x, x ∈ l → (g x < L)%nat) →
  weighted_sum (λ k, N.of_nat (length (filter (λ x, g x = k) l))) L
  = N.of_nat (sum_list (g <$> l)).
Proof.
  induction l as [|x l IH]; intros Hlt.
  - simpl. apply np_sum_fmap_zero. intros k _. simpl. lia.
  - rewrite fmap_cons. cbn [sum_list sum_list_with]. change (Datatypes.id (g x)) with (g x).
    rewrite Nat2N.inj_add, <- IH by (intros y Hy; apply Hlt; by right).
    rewrite <- (weighted_sum_single (g x) L) by (apply Hlt; by left).
    rewrite <- weighted_sum_add. apply weighted_sum_ext. intros k _.
    destruct (decide (g x = k)) as [Hk|Hk].
    + rewrite filter_cons_True by done. cbn [length]. lia.
    + rewrite filter_cons_False by done. lia.
Qed.

(** The first moment of a histogram that tallies the values of [g]. *)
Lemma tot_contacts_tally {A} (g : A → nat) (l : list A) (h : list N) :
  (∀ k, bin h k = N.of_nat (length (filter (λ x, g x = k) l))) →
  tot_contacts h = N.of_nat (sum_list (g <$> l)).
Proof.
  intros Hbin. rewrite tot_contacts_weighted_sum.
  rewrite (weighted_sum_ext _ (λ k, N.of_nat (length (filter (λ x, g x = k) l))))
    by (intros k _; apply Hbin).
  apply weighted_sum_tally. intros x Hx.
  destruct (decide (g x < length h)%nat) as [|Hge]; [done|].
  pose proof (Hbin (g x)) as Hg. rewrite bin_ge in Hg by lia.
  assert (x ∈ filter (λ y, g y = g x) l) as Hin by (by apply list_elem_of_filter).
  destruct (filter (λ y, g y = g x) l); [by apply elem_of_nil in Hin|].
  simpl in Hg. lia.
Qed.

Lemma tot_contacts_extend h L : tot_contacts (extend h L) = tot_contacts h.
Proof.
  rewrite !tot_contacts_weighted_sum, length_extend.
  rewrite (weighted_sum_ext _ (bin h)) by (intros k _; apply bin_extend).
  apply weighted_sum_grow; [lia|]. intros k Hk. by apply bin_ge.
Qed.

(** ** The pairs of a reference atom and a selection residue *)

(** [np.add.at(a, idx, 1)] adds to every bin the number of times [idx]
    lists it. *)
Lemma add_at_ones_tally a idx a' k X :
  add_at a idx (replicate (length idx) 1) = Some a' → bin a k = u32 X →
  bin a' k = u32 (X + N.of_nat (length (filter (λ i, i = k) idx))).
Proof.
  revert a X. induction idx as [|i idx IH]; intros a X Hadd HX.
  - simpl in Hadd. injection Hadd as <-. rewrite HX. f_equal. simpl. lia.
  - cbn [length replicate add_at] in Hadd.
    destruct (incr_at a i 1) as [a1|] eqn:Hincr; [|done]. cbn in Hadd.
    apply incr_at_inv in Hincr as [Hi ->].
    destruct (decide (i = k)) as [->|Hik].
    + rewrite filter_cons_True by done. cbn [length].
      rewrite (IH _ (X + 1) Hadd).
      * f_equal. lia.
      * rewrite bin_insert by done. rewrite decide_True by done.
        rewrite HX. apply u32_add_l.
    + rewrite filter_cons_False by done. apply (IH _ X Hadd).
      rewrite bin_insert by done. by rewrite decide_False by done.
Qed.

(** What one reference atom adds to [refatm_selres_pair]: one to the bin
    of every multiplicity, as often as the multiplicity occurs. *)
Lemma same_and_pair_tally same pair counts same' pair' k X :
  same_and_pair same pair counts = Some (same', pair') → bin pair k = u32 X →
  bin pair' k = u32 (X + N.of_nat (length (filter (λ c, c = k) counts))).
Proof.
  unfold same_and_pair. intros H HX. case_decide as Hc.
  - destruct (incr_at same 0 1); [|done]. cbn in H. injection H as _ <-.
    destruct counts; [|done]. rewrite HX. f_equal. simpl. lia.
  - destruct (fancy_incr _ _); [|done]. cbn in H.
    destruct (add_at _ _ _) as [p|] eqn:Hadd; [|done]. cbn in H. injection H as _ <-.
    apply (add_at_ones_tally _ _ _ _ _ Hadd). by rewrite bin_extend.
Qed.

Lemma length_filter_fmap {A B} (f : A → B) (P : B → Prop) `{!∀ y, Decision (P y)}
    (l : list A) :
  length (filter P (f <$> l)) = length (filter (λ x, P (f x)) l).
Proof.
  induction l as [|x l IH]; [done|]. rewrite fmap_cons.
  destruct (decide (P (f x))).
  - rewrite filter_cons_True by done.
    rewrite (filter_cons_True (λ x, P (f x))) by done. simpl. by rewrite IH.
  - rewrite filter_cons_False by done.
    rewrite (filter_cons_False (λ x, P (f x))) by done. done.
Qed.

(** The multiplicities that occur [k] times among the residues of a
    neighbour set. *)
Lemma unique_counts_tally sel_near_ref k :
  length (filter (λ c, c = k) (unique_counts (resids sel_near_ref)))
  = length (filter (λ r, multiplicity sel_near_ref r = k)
              (remove_dups (resids sel_near_ref))).
Proof.
  unfold unique_counts. rewrite length_filter_fmap.
  rewrite (np_unique_Permutation (resids sel_near_ref)).
  f_equal. apply list_filter_iff. intros r. by rewrite count_of_resids.
Qed.

Lemma refatm_selres_pairs_snoc in_range done a sel cutoff :
  refatm_selres_pairs in_range (done ++ [a]) sel cutoff
  = refatm_selres_pairs in_range done sel cutoff
    ++ ((λ r, (a, r)) <$>
          remove_dups (resids (atoms_around_point in_range sel (position a) cutoff))).
Proof.
  unfold refatm_selres_pairs. rewrite bind_app. f_equal. simpl. apply app_nil_r.
Qed.

Lemma length_refatm_selres_pairs in_range ref sel cutoff :
  length (refatm_selres_pairs in_range ref sel cutoff)
  = sum_list ((λ a, length (remove_dups
                              (resids (atoms_around_point in_range sel (position a) cutoff))))
                <$> ref).
Proof.
  unfold refatm_selres_pairs. induction ref as [|a ref IH]; [done|].
  cbn [mbind list_bind]. rewrite length_app, length_fmap, IH. done.
Qed.

Lemma n_contacts_le in_range ref sel cutoff :
  (n_contacts in_range ref sel cutoff ≤ n_atoms ref * n_atoms sel)%nat.
Proof.
  unfold n_contacts. induction ref as [|a ref IH]; [done|].
  rewrite fmap_cons. cbn [sum_list sum_list_with].
  change (Datatypes.id ?x) with x.
  pose proof (length_filter (λ b, in_range (position a) (position b) cutoff = true) sel).
  unfold atoms_around_point, n_atoms, AtomGroup in *. simpl. lia.
Qed.

Lemma n_pairs_le_n_contacts in_range ref sel cutoff :
  (length (refatm_selres_pairs in_range ref sel cutoff)
   ≤ n_contacts in_range ref sel cutoff)%nat.
Proof.
  rewrite length_refatm_selres_pairs. unfold n_contacts.
  induction ref as [|a ref IH]; [done|].
  rewrite !fmap_cons. cbn [sum_list sum_list_with]. change (Datatypes.id ?x) with x.
  pose proof (n_residues_le (atoms_around_point in_range sel (position a) cutoff)).
  pose proof (n_unique_resids_le (atoms_around_point in_range sel (position a) cutoff))
    as Hle.
  rewrite np_unique_Permutation in Hle. lia.
Qed.

(** What the loop leaves in the bins of [refatm_selres_pair]: the numbers
    of pairs, as a [uint32] holds them. *)
Lemma loop_pair_tally in_range ref sel cutoff emc :
  (0 < emc)%nat →
  ∃ st, for_each (loop_body in_range sel cutoff (np_unique (resids ref))
                    (np_unique (resids sel)))
          (init_state ref sel emc) ref = Some st ∧
    ∀ k, bin (s_refatm_selres_pair st) k
         = u32 (N.of_nat (length (filter (λ p, bonds in_range sel cutoff p = k)
                                    (refatm_selres_pairs in_range ref sel cutoff)))).
Proof.
  intros Hemc.
  destruct (loop_inv in_range ref sel cutoff emc
    (λ done st, ∀ k, bin (s_refatm_selres_pair st) k
         = u32 (N.of_nat (length (filter (λ p, bonds in_range sel cutoff p = k)
                                    (refatm_selres_pairs in_range done sel cutoff)))))
    Hemc) as (st & Hst & _ & HI).
  - intros k. simpl. unfold zeros. by rewrite bin_replicate.
  - intros done a todo st st' _ _ HI Hbody k.
    apply loop_body_inv in Hbody as (_ & _ & Hsp & _).
    rewrite (same_and_pair_tally _ _ _ _ _ k _ Hsp (HI k)).
    rewrite refatm_selres_pairs_snoc, filter_app, length_app, length_filter_fmap.
    rewrite unique_counts_tally, <- Nat2N.inj_add. reflexivity.
  - by exists st.
Qed.

Lemma refatm_selres_pairs_no_sel in_range ref cutoff :
  refatm_selres_pairs in_range ref [] cutoff = [].
Proof. unfold refatm_selres_pairs. induction ref as [|a ref IH]; [done|]. simpl. done. Qed.

(** X7: bin [k] of [refatm_selres_pair] is the number of pairs of a
    reference atom and a selection residue that are connected by exactly [k]
    contacts, the selection residues being told by their resids as in
    lines 478-489. The cutoff is positive and the product of the
    numbers of reference and selection atoms is one that a [uint32] counter
    holds. *)
Theorem refatm_selres_pair_tally in_range ref sel cutoff expected_max_contacts :
  ¬ (cutoff <= 0)%Q → N.of_nat (n_atoms ref * n_atoms sel) < 2 ^ 32 →
  ∃ r, (contact_hist in_range ref sel cutoff expected_max_contacts).2 = Some r ∧
    ∀ k, bin (refatm_selres_pair r) k
         = N.of_nat (length (filter (λ p, bonds in_range sel cutoff p = k)
                               (refatm_selres_pairs in_range ref sel cutoff))).
Proof.
  intros Hcut Hrange. apply contact_hist_cases.
  - intros ->%n_atoms_nil_inv k. by destruct k.
  - intros _ [->%n_atoms_nil_inv|Hle]; [|by apply Qle_bool_iff in Hle].
    intros k. rewrite refatm_selres_pairs_no_sel. by destruct k as [|[|k]].
  - intros _ _ _ st r Hst _
      (sa & sr & pa & pr & L & _ & _ & _ & _ & -> & _)%finish_inv.
    destruct (loop_pair_tally in_range ref sel cutoff _
                (expected_max_contacts_pos expected_max_contacts))
      as (st' & Hst' & Hp).
    rewrite Hst in Hst'. injection Hst' as <-.
    intros k. cbn [refatm_selres_pair]. rewrite bin_extend, Hp.
    apply u32_small.
    pose proof (length_filter (λ p, bonds in_range sel cutoff p = k)
                  (refatm_selres_pairs in_range ref sel cutoff)).
    pose proof (n_pairs_le_n_contacts in_range ref sel cutoff).
    pose proof (n_contacts_le in_range ref sel cutoff). lia.
Qed.

Lemma refatm_selres_pair_tally_witness :
  (¬ (2 <= 0)%Q ∧ N.of_nat (n_atoms example_ref * n_atoms example_sel) < 2 ^ 32) ∧
  ∃ r, (contact_hist euclid example_ref example_sel 2 16).2 = Some r ∧
    ∀ k, bin (refatm_selres_pair r) k
         = N.of_nat (length (filter (λ p, bonds euclid example_sel 2 p = k)
                               (refatm_selres_pairs euclid example_ref example_sel 2))).
Proof.
  assert (¬ (2 <= 0)%Q) as H1 by (intros H; vm_compute in H; apply H; reflexivity).
  assert (N.of_nat (n_atoms example_ref * n_atoms example_sel) < 2 ^ 32) as H2
    by (vm_compute; reflexivity).
  split; [split; [exact H1|exact H2]|].
  exact (refatm_selres_pair_tally euclid example_ref example_sel 2 16 H1 H2).
Defined.

(** ** The number of contacts *)

Lemma sum_list_fmap_add {A} (f g : A → nat) (l : list A) :
  sum_list ((λ x, f x + g x)%nat <$> l) = (sum_list (f <$> l) + sum_list (g <$> l))%nat.
Proof.
  induction l as [|x l IH]; [done|]. rewrite !fmap_cons.
  cbn [sum_list sum_list_with]. change (Datatypes.id ?x) with x.
  fold (sum_list ((λ x, f x + g x)%nat <$> l)). fold (sum_list (f <$> l)).
  fold (sum_list (g <$> l)). lia.
Qed.

Lemma sum_list_indicator {A} `{EqDecision A} (x : A) (l : list A) :
  NoDup l → x ∈ l → sum_list ((λ y, if decide (x = y) then 1 else 0)%nat <$> l) = 1%nat.
Proof.
  induction l as [|y l IH]; intros Hnd Hx; [by apply elem_of_nil in Hx|].
  apply NoDup_cons in Hnd as [Hy Hnd]. rewrite fmap_cons.
  cbn [sum_list sum_list_with]. change (Datatypes.id ?x) with x.
  fold (sum_list ((λ y, if decide (x = y) then 1 else 0)%nat <$> l)).
  destruct (decide (x = y)) as [->|Hne].
  - assert (sum_list ((λ y0, if decide (y = y0) then 1 else 0)%nat <$> l) = 0%nat) as ->;
      [|done].
    clear IH Hx Hnd. induction l as [|z l IH]; [done|].
    rewrite fmap_cons. cbn [sum_list sum_list_with]. change (Datatypes.id ?x) with x.
    fold (sum_list ((λ y0, if decide (y = y0) then 1 else 0)%nat <$> l)).
    rewrite decide_False by (intros ->; apply Hy; by left).
    rewrite IH; [done|]. intros Hin. apply Hy. by right.
  - rewrite IH; [done|done|]. apply elem_of_cons in Hx as [?|?]; done.
Qed.

(** The occurrences of the distinct values of a list add up to its
    length. *)
Lemma sum_count_of (rs l : list N) :
  NoDup rs → (∀ x, x ∈ l → x ∈ rs) →
  sum_list ((λ r, count_of r l) <$> rs) = length l.
Proof.
  intros Hnd. induction l as [|x l IH]; intros Hsub.
  - induction rs as [|r rs IHrs]; [done|]. rewrite fmap_cons.
    cbn [sum_list sum_list_with]. change (Datatypes.id ?x) with x.
    fold (sum_list ((λ r, count_of r []) <$> rs)).
    apply NoDup_cons in Hnd as [_ Hnd]. rewrite IHrs; [done|done|].
    intros y Hy. by apply elem_of_nil in Hy.
  - transitivity (sum_list ((λ r, (if decide (x = r) then 1 else 0)
                                  + count_of r l)%nat <$> rs)).
    { f_equal. apply Forall_fmap_ext_1, Forall_forall. intros r _. apply count_of_cons. }
    rewrite sum_list_fmap_add, sum_list_indicator, IH; [done| |done|].
    + intros y Hy. apply Hsub. by right.
    + apply Hsub. by left.
Qed.

Lemma sum_multiplicities sel_near_ref :
  sum_list ((λ r, multiplicity sel_near_ref r) <$> remove_dups (resids sel_near_ref))
  = n_atoms sel_near_ref.
Proof.
  transitivity (sum_list ((λ r, count_of r (resids sel_near_ref))
                            <$> remove_dups (resids sel_near_ref))).
  { f_equal. apply Forall_fmap_ext_1, Forall_forall. intros r _.
    symmetry. apply count_of_resids. }
  rewrite sum_count_of.
  - unfold resids, n_atoms. apply length_fmap.
  - apply NoDup_remove_dups.
  - intros x. apply elem_of_remove_dups.
Qed.

Lemma sum_list_app' (l1 l2 : list nat) :
  sum_list (l1 ++ l2) = (sum_list l1 + sum_list l2)%nat.
Proof. apply sum_list_with_app. Qed.

(** The bonds of the pairs of a frame add up to its contacts. *)
Lemma sum_bonds in_range ref sel cutoff :
  sum_list (bonds in_range sel cutoff <$> refatm_selres_pairs in_range ref sel cutoff)
  = n_contacts in_range ref sel cutoff.
Proof.
  unfold refatm_selres_pairs, n_contacts. induction ref as [|a ref IH]; [done|].
  cbn [mbind list_bind]. rewrite fmap_app, sum_list_app', IH, fmap_cons.
  cbn [sum_list sum_list_with]. change (Datatypes.id ?x) with x.
  f_equal. rewrite <- list_fmap_compose.
  apply (sum_multiplicities (atoms_around_point in_range sel (position a) cutoff)).
Qed.

Lemma n_contacts_no_sel in_range ref cutoff : n_contacts in_range ref [] cutoff = 0%nat.
Proof. unfold n_contacts. induction ref as [|a ref IH]; [done|]. simpl. done. Qed.

(** X8: [refatm_selatm] and [refatm_selres_pair] stand for the same number
    of contacts: for each of them the sum over the bins of the bin times its
    index is the number of pairs of a reference atom and a selection atom
    within the cutoff (lines 59-61 of the docstring; the sum is the one of
    lines 697-699). The cutoff is positive and the product of the numbers of
    reference and selection atoms is one that a [uint32] counter holds. *)
Theorem atom_histograms_total_contacts in_range ref sel cutoff expected_max_contacts :
  ¬ (cutoff <= 0)%Q → N.of_nat (n_atoms ref * n_atoms sel) < 2 ^ 32 →
  ∃ r, (contact_hist in_range ref sel cutoff expected_max_contacts).2 = Some r ∧
    tot_contacts (refatm_selatm r) = N.of_nat (n_contacts in_range ref sel cutoff) ∧
    tot_contacts (refatm_selres_pair r) = N.of_nat (n_contacts in_range ref sel cutoff).
Proof.
  intros Hcut Hrange. apply contact_hist_cases.
  - intros ->%n_atoms_nil_inv. done.
  - intros _ [->%n_atoms_nil_inv|Hle]; [|by apply Qle_bool_iff in Hle].
    rewrite n_contacts_no_sel. unfold trivial_hists, tot_contacts. simpl.
    split; [lia|done].
  - intros _ Hsel _ st r Hst _
      (sa & sr & pa & pr & L & _ & _ & _ & _ & -> & _)%finish_inv.
    assert (N.of_nat (n_atoms ref) < 2 ^ 32) as Href by nia.
    destruct (loop_atom_counts in_range ref sel cutoff _
                (expected_max_contacts_pos expected_max_contacts) Href)
      as (st' & Hst' & H1 & _).
    rewrite Hst in Hst'. injection Hst' as <-.
    destruct (loop_pair_tally in_range ref sel cutoff _
                (expected_max_contacts_pos expected_max_contacts))
      as (st' & Hst' & Hp).
    rewrite Hst in Hst'. injection Hst' as <-.
    cbn [refatm_selatm refatm_selres_pair]. rewrite !tot_contacts_extend. split.
    + exact (tot_contacts_tally _ ref _ H1).
    + rewrite <- sum_bonds. apply tot_contacts_tally. intros k. rewrite Hp.
      apply u32_small.
      pose proof (length_filter (λ p, bonds in_range sel cutoff p = k)
                    (refatm_selres_pairs in_range ref sel cutoff)).
      pose proof (n_pairs_le_n_contacts in_range ref sel cutoff).
      pose proof (n_contacts_le in_range ref sel cutoff). lia.
Qed.

Lemma atom_histograms_total_contacts_witness :
  (¬ (2 <= 0)%Q ∧ N.of_nat (n_atoms example_ref * n_atoms example_sel) < 2 ^ 32) ∧
  ∃ r, (contact_hist euclid example_ref example_sel 2 16).2 = Some r ∧
    tot_contacts (refatm_selatm r) = N.of_nat (n_contacts euclid example_ref example_sel 2) ∧
    tot_contacts (refatm_selres_pair r)
    = N.of_nat (n_contacts euclid example_ref example_sel 2).
Proof.
  assert (¬ (2 <= 0)%Q) as H1 by (intros H; vm_compute in H; apply H; reflexivity).
  assert (N.of_nat (n_atoms example_ref * n_atoms example_sel) < 2 ^ 32) as H2
    by (vm_compute; reflexivity).
  split; [split; [exact H1|exact H2]|].
  exact (atom_histograms_total_contacts euclid example_ref example_sel 2 16 H1 H2).
Defined.

(** ** The contacts in the residue-level arrays *)

Lemma fmap_bin_seq h : bin h <$> seq 0 (length h) = h.
Proof.
  apply list_eq. intros i. rewrite list_lookup_fmap.
  destruct (decide (i < length h)%nat) as [Hi|Hi].
  - rewrite lookup_seq_lt by done. simpl. by rewrite lookup_bin.
  - rewrite lookup_seq_ge by lia. by rewrite lookup_ge_None_2 by lia.
Qed.

Lemma np_sum_of_nat (l : list nat) : np_sum (N.of_nat <$> l) = N.of_nat (sum_list l).
Proof.
  induction l as [|x l IH]; [done|]. rewrite fmap_cons, np_sum_cons, IH.
  cbn [sum_list sum_list_with]. change (Datatypes.id ?x) with x.
  fold (sum_list l). lia.
Qed.

Lemma np_sum_to_nat (l : list N) : np_sum l = N.of_nat (sum_list (N.to_nat <$> l)).
Proof.
  rewrite <- np_sum_of_nat, <- list_fmap_compose. rewrite <- (list_fmap_id l) at 1.
  f_equal. apply Forall_fmap_ext_1, Forall_forall. intros x _. simpl. lia.
Qed.

(** The first moment of [np.bincount(x)] is the sum of [x]. *)
Lemma tot_contacts_bincount x :
  N.of_nat (length x) < 2 ^ 32 → tot_contacts (astype_uint32 (bincount x)) = np_sum x.
Proof.
  intros Hlen. rewrite np_sum_to_nat. apply tot_contacts_tally. intros k.
  rewrite bin_bincount. pose proof (count_of_le (N.of_nat k) x).
  rewrite u32_small by lia. f_equal. unfold count_of. f_equal.
  apply list_filter_iff. intros y. lia.
Qed.

Lemma tot_contacts_clear_0 h : tot_contacts (<[0%nat := 0]> h) = tot_contacts h.
Proof.
  rewrite !tot_contacts_weighted_sum, length_insert.
  apply np_sum_fmap_ext. intros k [_ Hk]%elem_of_seq.
  destruct k as [|k]; [simpl; lia|]. f_equal.
  rewrite bin_insert by lia. by rewrite decide_False by lia.
Qed.

Lemma length_concat_rows {A} (matrix : list (list A)) n :
  Forall (λ row, length row = n) matrix → length (concat matrix) = (length matrix * n)%nat.
Proof.
  induction 1 as [|row matrix Hrow _ IH]; [done|].
  simpl. rewrite length_app, IH, Hrow. lia.
Qed.

(** Replacing a row of a matrix replaces its part of the sum. *)
Lemma np_sum_concat_insert (matrix : list (list N)) i row row' :
  matrix !! i = Some row →
  np_sum (concat (<[i := row']> matrix)) + np_sum row
  = np_sum (concat matrix) + np_sum row'.
Proof.
  revert i. induction matrix as [|r matrix IH]; intros [|i] Hi; try done.
  - simpl in Hi. injection Hi as ->. simpl. rewrite !np_sum_app. lia.
  - simpl in Hi. simpl. rewrite !np_sum_app. specialize (IH i Hi). lia.
Qed.

Lemma np_sum_row_le (matrix : list (list N)) i row :
  matrix !! i = Some row → np_sum row ≤ np_sum (concat matrix).
Proof.
  intros (m1 & m2 & ->)%list_elem_of_lookup_2%list_elem_of_split.
  rewrite concat_app, np_sum_app. simpl. rewrite np_sum_app. lia.
Qed.

(** An array holds the sum of [1] over the positions that a duplicate-free
    index array lists as often as the index array is long. *)
Lemma np_sum_indicator (idx : list nat) n :
  NoDup idx → Forall (λ i, (i < n)%nat) idx →
  np_sum ((λ k, if decide (k ∈ idx) then 1 else 0) <$> seq 0 n) = N.of_nat (length idx).
Proof.
  intros Hnd Hlt.
  assert (∀ l : list nat,
    np_sum ((λ k, if decide (k ∈ idx) then 1 else 0) <$> l)
    = N.of_nat (length (filter (λ k, k ∈ idx) l))) as ->.
  { induction l as [|k l IH]; [done|]. rewrite fmap_cons, np_sum_cons, IH.
    destruct (decide (k ∈ idx)).
    - rewrite filter_cons_True by done. simpl. lia.
    - rewrite filter_cons_False by done. lia. }
  f_equal. apply Permutation_length. apply NoDup_Permutation.
  - apply NoDup_filter, NoDup_seq.
  - done.
  - intros k. rewrite list_elem_of_filter, elem_of_seq. split; [tauto|].
    intros Hk. split; [done|]. eapply Forall_forall in Hlt; [|exact Hk]. simpl in Hlt. lia.
Qed.

(** [a[idx] += 1] with a duplicate-free index array adds the length of the
    index array to the sum. *)
Lemma fancy_incr_np_sum a idx a' :
  NoDup idx → fancy_incr a idx = Some a' →
  np_sum a + N.of_nat (length idx) < 2 ^ 32 →
  np_sum a' = np_sum a + N.of_nat (length idx).
Proof.
  intros Hnd (Hlt & Hlen & Hbin)%fancy_incr_inv Hrange.
  rewrite <- (fmap_bin_seq a'), <- (fmap_bin_seq a) at 1.
  rewrite Hlen, <- (np_sum_indicator idx (length a)) by done.
  rewrite <- np_sum_fmap_add. apply np_sum_fmap_ext. intros k _.
  rewrite Hbin. pose proof (bin_le_np_sum a k).
  destruct (decide (k ∈ idx)) as [Hin|]; [|lia].
  apply u32_small. destruct idx; [by apply elem_of_nil in Hin|].
  cbn [length] in Hrange. lia.
Qed.

(** [np.add.at] adds the sum of the added values to the sum. *)
Lemma add_at_np_sum a idx vals a' :
  add_at a idx vals = Some a' → np_sum a + np_sum vals < 2 ^ 32 →
  np_sum a' = np_sum a + np_sum vals.
Proof.
  revert a vals. induction idx as [|i idx IH]; intros a [|v vals] Hadd Hrange; try done.
  - simpl in Hadd. injection Hadd as <-. simpl. lia.
  - cbn [add_at] in Hadd. destruct (incr_at a i v) as [a1|] eqn:Hincr; [|done].
    cbn in Hadd. apply incr_at_inv in Hincr as [Hi ->].
    rewrite np_sum_cons in Hrange |- *.
    pose proof (bin_le_np_sum a i).
    assert (u32 (bin a i + v) = bin a i + v) as Hu by (apply u32_small; lia).
    rewrite Hu in Hadd.
    pose proof (np_sum_insert a i (bin a i) (bin a i + v) (lookup_bin _ _ Hi)) as Hs.
    rewrite (IH _ _ Hadd); lia.
Qed.

Lemma np_sum_unique_counts l : np_sum (N.of_nat <$> unique_counts l) = N.of_nat (length l).
Proof.
  rewrite np_sum_of_nat. f_equal. unfold unique_counts. apply sum_count_of.
  - apply NoDup_np_unique.
  - intros x. apply elem_of_np_unique.
Qed.

Lemma n_contacts_snoc in_range done a sel cutoff :
  n_contacts in_range (done ++ [a]) sel cutoff
  = (n_contacts in_range done sel cutoff
     + n_atoms (atoms_around_point in_range sel (position a) cutoff))%nat.
Proof.
  unfold n_contacts. rewrite fmap_app, sum_list_app'. simpl. lia.
Qed.

(** The three residue-level arrays that count contacts hold, in total,
    the contacts of the reference atoms seen. *)
Lemma loop_residue_contacts in_range ref sel cutoff emc :
  (0 < emc)%nat → NoDup (ids sel) → N.of_nat (n_atoms ref * n_atoms sel) < 2 ^ 32 →
  ∃ st, for_each (loop_body in_range sel cutoff (np_unique (resids ref))
                    (np_unique (resids sel)))
          (init_state ref sel emc) ref = Some st ∧
    wf_state (n_residues ref) (n_atoms sel) (n_residues sel) st ∧
    np_sum (s_refres_selatm_tot st) = N.of_nat (n_contacts in_range ref sel cutoff) ∧
    np_sum (concat (s_refres_selatm_pair st))
      = N.of_nat (n_contacts in_range ref sel cutoff) ∧
    np_sum (concat (s_refres_selres_pair st))
      = N.of_nat (n_contacts in_range ref sel cutoff).
Proof.
  intros Hemc Hids Hrange.
  apply (loop_inv in_range ref sel cutoff emc
    (λ done st,
       np_sum (s_refres_selatm_tot st) = N.of_nat (n_contacts in_range done sel cutoff) ∧
       np_sum (concat (s_refres_selatm_pair st))
         = N.of_nat (n_contacts in_range done sel cutoff) ∧
       np_sum (concat (s_refres_selres_pair st))
         = N.of_nat (n_contacts in_range done sel cutoff)) Hemc).
  - simpl. unfold zeros. rewrite np_sum_replicate. split; [done|].
    assert (∀ n m, np_sum (concat (replicate n (replicate m 0))) = 0) as Hz.
    { intros n m. induction n as [|n IH]; [done|]. simpl.
      by rewrite np_sum_app, np_sum_replicate, IH. }
    by rewrite !Hz.
  - intros done a todo st st' Href _ (I1 & I2 & I3) Hbody.
    set (near := atoms_around_point in_range sel (position a) cutoff).
    assert (N.of_nat (n_contacts in_range done sel cutoff) + N.of_nat (n_atoms near)
            < 2 ^ 32) as Hlt.
    { pose proof (n_contacts_le in_range (done ++ [a]) sel cutoff) as Hle.
      rewrite n_contacts_snoc in Hle. fold near in Hle.
      unfold n_atoms in Hrange, Hle. rewrite Href, length_app in Hrange.
      rewrite length_app in Hle. simpl in Hrange, Hle. unfold n_atoms. nia. }
    apply loop_body_inv in Hbody
      as (_ & _ & _ & B4 & _ & (row & row' & R1 & R2 & R3) & _ & (rrow & rrow' & S1 & S2 & S3)).
    fold near in B4, R2, S2.
    rewrite n_contacts_snoc. fold near. rewrite Nat2N.inj_add.
    split; [|split].
    + apply incr_at_inv in B4 as [Hi ->].
      pose proof (bin_le_np_sum (s_refres_selatm_tot st)
                    (searchsorted (np_unique (resids ref)) (resid a))).
      rewrite u32_small by lia.
      pose proof (np_sum_insert _ _ _
                    (bin (s_refres_selatm_tot st)
                       (searchsorted (np_unique (resids ref)) (resid a))
                     + N.of_nat (n_atoms near))
                    (lookup_bin _ _ Hi)) as Hs.
      lia.
    + rewrite R3.
      pose proof (np_sum_concat_insert _ _ _ row' R1) as Hs.
      pose proof (np_sum_row_le _ _ _ R1) as Hrow.
      assert (length (intersect1d_indices (ids sel) (ids near)) = n_atoms near) as Hlen.
      { rewrite length_intersect1d_indices.
        - unfold ids, n_atoms. apply length_fmap.
        - done.
        - by apply atoms_around_point_NoDup_ids.
        - intros i. apply atoms_around_point_ids. }
      rewrite (fancy_incr_np_sum _ _ _ (NoDup_intersect1d_indices _ _) R2) in Hs.
      * rewrite Hlen in Hs. lia.
      * rewrite Hlen. lia.
    + rewrite S3.
      pose proof (np_sum_concat_insert _ _ _ rrow' S1) as Hs.
      pose proof (np_sum_row_le _ _ _ S1) as Hrow.
      assert (np_sum (N.of_nat <$> unique_counts (resids near)) = N.of_nat (n_atoms near))
        as Hc.
      { rewrite np_sum_unique_counts. unfold resids, n_atoms. by rewrite length_fmap. }
      rewrite (add_at_np_sum _ _ _ _ S2) in Hs; rewrite Hc in *; lia.
Qed.

(** X9: the residue-level histograms that count every contact,
    [refres_selatm_tot], [refres_selatm_pair] and [refres_selres_pair],
    stand for the number of contacts of the frame as well: the sum over the
    bins of the bin times its index is the number of pairs of a reference
    atom and a selection atom within the cutoff. The atoms of the selection
    group are distinct, the cutoff is positive and the product of the numbers
    of reference and selection atoms is one that a [uint32] counter holds. *)
Theorem residue_histograms_total_contacts in_range ref sel cutoff expected_max_contacts :
  NoDup (ids sel) → ¬ (cutoff <= 0)%Q → N.of_nat (n_atoms ref * n_atoms sel) < 2 ^ 32 →
  ∃ r, (contact_hist in_range ref sel cutoff expected_max_contacts).2 = Some r ∧
    tot_contacts (refres_selatm_tot r) = N.of_nat (n_contacts in_range ref sel cutoff) ∧
    tot_contacts (refres_selatm_pair r) = N.of_nat (n_contacts in_range ref sel cutoff) ∧
    tot_contacts (refres_selres_pair r) = N.of_nat (n_contacts in_range ref sel cutoff).
Proof.
  intros Hids Hcut Hrange. apply contact_hist_cases.
  - intros ->%n_atoms_nil_inv. done.
  - intros _ [->%n_atoms_nil_inv|Hle]; [|by apply Qle_bool_iff in Hle].
    rewrite n_contacts_no_sel. unfold trivial_hists, tot_contacts. simpl.
    split; [lia|done].
  - intros Href Hsel _ st r Hst _
      (sa & sr & pa & pr & L & _ & _ & Hpa & Hpr & -> & _)%finish_inv.
    destruct (loop_residue_contacts in_range ref sel cutoff _
                (expected_max_contacts_pos expected_max_contacts) Hids Hrange)
      as (st' & Hst' & Hwf & H1 & H2 & H3).
    rewrite Hst in Hst'. injection Hst' as <-.
    apply refres_pair_inv in Hpa as [_ ->]. apply refres_pair_inv in Hpr as [_ ->].
    pose proof (n_residues_le ref). pose proof (n_residues_le sel).
    cbn [refres_selatm_tot refres_selatm_pair refres_selres_pair].
    rewrite !tot_contacts_extend, !tot_contacts_clear_0.
    rewrite !tot_contacts_bincount.
    + done.
    + rewrite (length_concat_rows _ _ (wf_res_rows _ _ _ _ Hwf)).
      rewrite (wf_res_pair _ _ _ _ Hwf). nia.
    + rewrite (length_concat_rows _ _ (wf_atm_rows _ _ _ _ Hwf)).
      rewrite (wf_atm_pair _ _ _ _ Hwf). nia.
    + rewrite (wf_tot _ _ _ _ Hwf). nia.
Qed.

Lemma residue_histograms_total_contacts_witness :
  (NoDup (ids example_sel) ∧ ¬ (2 <= 0)%Q ∧
   N.of_nat (n_atoms example_ref * n_atoms example_sel) < 2 ^ 32) ∧
  ∃ r, (contact_hist euclid example_ref example_sel 2 16).2 = Some r ∧
    tot_contacts (refres_selatm_tot r)
    = N.of_nat (n_contacts euclid example_ref example_sel 2) ∧
    tot_contacts (refres_selatm_pair r)
    = N.of_nat (n_contacts euclid example_ref example_sel 2) ∧
    tot_contacts (refres_selres_pair r)
    = N.of_nat (n_contacts euclid example_ref example_sel 2).
Proof.
  assert (NoDup (ids example_sel)) as H0
    by (apply (bool_decide_unpack _); vm_compute; exact I).
  assert (¬ (2 <= 0)%Q) as H1 by (intros H; vm_compute in H; apply H; reflexivity).
  assert (N.of_nat (n_atoms example_ref * n_atoms example_sel) < 2 ^ 32) as H2
    by (vm_compute; reflexivity).
  split; [split; [exact H0|split; [exact H1|exact H2]]|].
  exact (residue_histograms_total_contacts euclid example_ref example_sel 2 16 H0 H1 H2).
Defined.

Lemma elem_of_refatm_selres_pairs in_range ref sel cutoff p :
  p ∈ refatm_selres_pairs in_range ref sel cutoff →
  ∃ b, b ∈ atoms_around_point in_range sel (position p.1) cutoff ∧ resid b = p.2.
Proof.
  unfold refatm_selres_pairs. intros (a & Hp & _)%list_elem_of_bind.
  apply list_elem_of_fmap in Hp as (r & -> & Hr). cbn [fst snd].
  apply (proj1 (elem_of_remove_dups _ _)) in Hr. unfold resids in Hr.
  apply list_elem_of_fmap in Hr as (b & -> & Hb). by exists b.
Qed.

(** With one atom per selection residue every pair has one bond. *)
Lemma bonds_NoDup in_range ref sel cutoff p :
  NoDup (resids sel) → p ∈ refatm_selres_pairs in_range ref sel cutoff →
  bonds in_range sel cutoff p = 1%nat.
Proof.
  intros Hnd (b & Hb & Heq)%elem_of_refatm_selres_pairs. unfold bonds. rewrite <- Heq.
  apply multiplicity_NoDup; [|done]. by apply atoms_around_point_NoDup_resids.
Qed.

Lemma n_pairs_NoDup in_range ref sel cutoff :
  NoDup (resids sel) →
  length (refatm_selres_pairs in_range ref sel cutoff) = n_contacts in_range ref sel cutoff.
Proof.
  intros Hnd. rewrite length_refatm_selres_pairs. unfold n_contacts. f_equal.
  apply Forall_fmap_ext_1, Forall_forall. intros a _.
  apply n_resids_NoDup. by apply atoms_around_point_NoDup_resids.
Qed.

(** X10: when the atoms of the selection group have pairwise distinct
    resids (every selection residue then holds one atom and has a resid of
    its own), [refatm_selres_pair] is [[0, y]] followed by zeros, with [y]
    the number of contacts that [refatm_selatm] stands for,
    [np.sum(refatm_selatm * np.arange(len(refatm_selatm)))]: what lines
    798-803 check. The guard of these checks (lines 756-758) compares
    residue indices and also admits one-atom residues that share a resid,
    which the statement leaves out. The product of the numbers of reference
    and selection atoms is one that a [uint32] counter holds. *)
Theorem singleton_selection_pair in_range ref sel cutoff expected_max_contacts :
  NoDup (resids sel) → N.of_nat (n_atoms ref * n_atoms sel) < 2 ^ 32 →
  ∃ r, (contact_hist in_range ref sel cutoff expected_max_contacts).2 = Some r ∧
    bin (refatm_selres_pair r) 1 = tot_contacts (refatm_selatm r) ∧
    ∀ k, k ≠ 1%nat → bin (refatm_selres_pair r) k = 0.
Proof.
  intros Hnd Hrange. apply contact_hist_cases.
  - intros _. split; [done|]. by intros [|[|k]] ?.
  - intros _ _. unfold trivial_hists, tot_contacts. simpl. split; [|by intros [|[|k]] ?].
    unfold bin. simpl. lia.
  - intros _ Hsel _ st r Hst _
      (sa & sr & pa & pr & L & _ & _ & _ & _ & -> & _)%finish_inv.
    assert (N.of_nat (n_atoms ref) < 2 ^ 32) as Href by nia.
    destruct (loop_atom_counts in_range ref sel cutoff _
                (expected_max_contacts_pos expected_max_contacts) Href)
      as (st' & Hst' & H1 & _).
    rewrite Hst in Hst'. injection Hst' as <-.
    destruct (loop_pair_tally in_range ref sel cutoff _
                (expected_max_contacts_pos expected_max_contacts))
      as (st' & Hst' & Hp).
    rewrite Hst in Hst'. injection Hst' as <-.
    cbn [refatm_selatm refatm_selres_pair]. rewrite tot_contacts_extend.
    rewrite (tot_contacts_tally _ ref _ H1).
    fold (n_contacts in_range ref sel cutoff).
    pose proof (n_contacts_le in_range ref sel cutoff) as Hle.
    split.
    + rewrite bin_extend, Hp, filter_all by (intros p Hp'; by eapply bonds_NoDup).
      rewrite n_pairs_NoDup by done. apply u32_small. lia.
    + intros k Hk. rewrite bin_extend, Hp, filter_none; [done|].
      intros p Hp'. erewrite bonds_NoDup by done. congruence.
Qed.

Lemma singleton_selection_pair_witness :
  (NoDup (resids example_sel_singletons) ∧
   N.of_nat (n_atoms example_ref * n_atoms example_sel_singletons) < 2 ^ 32) ∧
  ∃ r, (contact_hist euclid example_ref example_sel_singletons 2 16).2 = Some r ∧
    bin (refatm_selres_pair r) 1 = tot_contacts (refatm_selatm r) ∧
    ∀ k, k ≠ 1%nat → bin (refatm_selres_pair r) k = 0.
Proof.
  assert (NoDup (resids example_sel_singletons)) as H1
    by (apply (bool_decide_unpack _); vm_compute; exact I).
  assert (N.of_nat (n_atoms example_ref * n_atoms example_sel_singletons) < 2 ^ 32) as H2
    by (vm_compute; reflexivity).
  split; [split; [exact H1|exact H2]|].
  exact (singleton_selection_pair euclid example_ref example_sel_singletons 2 16 H1 H2).
Defined.

(** * The loop over the frames *)

(** What the script reads off the result of one frame: eleven rows of one
    length, and the sums of the rows that count every reference unit once. *)
Lemma frame_result in_range ref sel cutoff expected_max_contacts :
  N.of_nat (n_atoms ref) < 2 ^ 32 →
  ∃ r L, (contact_hist in_range ref sel cutoff expected_max_contacts).2 = Some r ∧
    (0 < L)%nat ∧ Forall (λ h, length h = L) (hists_list r) ∧
    np_sum (refatm_selatm r) = N.of_nat (n_atoms ref) ∧
    np_sum (refatm_diff_selres r) = N.of_nat (n_atoms ref) ∧
    np_sum (refres_diff_selatm r) = N.of_nat (n_residues ref) ∧
    np_sum (refres_selatm_tot r) = N.of_nat (n_residues ref) ∧
    np_sum (refres_diff_selres r) = N.of_nat (n_residues ref).
Proof.
  intros Hrange.
  destruct (contact_hist_cases in_range ref sel cutoff expected_max_contacts
    (λ r, ∃ L, (0 < L)%nat ∧ Forall (λ h, length h = L) (hists_list r) ∧
       np_sum (refatm_selatm r) = N.of_nat (n_atoms ref) ∧
       np_sum (refatm_diff_selres r) = N.of_nat (n_atoms ref) ∧
       np_sum (refres_diff_selatm r) = N.of_nat (n_residues ref) ∧
       np_sum (refres_selatm_tot r) = N.of_nat (n_residues ref) ∧
       np_sum (refres_diff_selres r) = N.of_nat (n_residues ref)))
    as (r & Hr & L & H); [| | |by exists r, L].
  - intros Href. exists 1%nat. split; [lia|]. split; [by repeat constructor|].
    assert (n_residues ref = 0%nat) as -> by (pose proof (n_residues_le ref); lia).
    by rewrite Href.
  - intros _ _. exists 1%nat. split; [lia|]. split; [by repeat constructor|].
    unfold trivial_hists. simpl. repeat split; lia.
  - intros _ _ _ st r Hst Hwf Hfin.
    destruct (loop_inv in_range ref sel cutoff _
                (λ done st, np_sum (s_refatm_selatm st) = N.of_nat (length done) ∧
                            np_sum (s_refatm_diff_selres st) = N.of_nat (length done))
                (expected_max_contacts_pos expected_max_contacts))
      as (st' & Hst' & _ & Hatm & Hres).
    { split; apply np_sum_replicate. }
    { intros done a todo s s' Hsplit _ [HI1 HI2] Hbody.
      apply loop_body_inv in Hbody as (H1 & H2 & _).
      assert (N.of_nat (length done) + 1 < 2 ^ 32) as Hlt.
      { unfold n_atoms in Hrange. rewrite Hsplit, length_app in Hrange.
        simpl in Hrange. lia. }
      rewrite length_app. simpl.
      rewrite (np_sum_count_in_bin _ _ _ ltac:(rewrite HI1; exact Hlt) H1).
      rewrite (np_sum_count_in_bin _ _ _ ltac:(rewrite HI2; exact Hlt) H2).
      lia. }
    rewrite Hst in Hst'. injection Hst' as <-.
    apply finish_inv in Hfin as (sa & sr & pa & pr & L & _ & _ & _ & _ & -> & Hlen & HL).
    exists L. split; [done|]. split; [done|].
    cbn [refatm_selatm refatm_diff_selres refres_diff_selatm refres_selatm_tot
         refres_diff_selres].
    pose proof (n_residues_le ref).
    rewrite !np_sum_residue_hist
      by (rewrite ?(wf_diff_selatm _ _ _ _ Hwf), ?(wf_tot _ _ _ _ Hwf),
            ?(wf_diff_selres _ _ _ _ Hwf); lia).
    rewrite !np_sum_extend, Hatm, Hres.
    rewrite (wf_diff_selatm _ _ _ _ Hwf), (wf_tot _ _ _ _ Hwf),
      (wf_diff_selres _ _ _ _ Hwf). done.
Qed.

Lemma length_iadd a b : length a = length b → length (iadd a b) = length a.
Proof. intros H. unfold iadd. rewrite length_zip_with. lia. Qed.

(** Adding two arrays adds their sums, as long as the sum stays below
    [2^32]. *)
Lemma np_sum_iadd a b :
  length a = length b → np_sum a + np_sum b < 2 ^ 32 →
  np_sum (iadd a b) = np_sum a + np_sum b.
Proof.
  revert b. induction a as [|x a IH]; intros [|y b] Hlen Hlt; try done.
  unfold iadd in *. cbn [zip_with]. rewrite !np_sum_cons in *.
  injection Hlen as Hlen. rewrite IH by (done || lia).
  rewrite u32_small by lia. lia.
Qed.

Lemma row_fmap (f : list N → list N) a i :
  (i < length a)%nat → row (f <$> a) i = f (row a i).
Proof.
  intros Hi. unfold row. rewrite list_lookup_fmap.
  destruct (lookup_lt_is_Some_2 a i Hi) as [x ->]. done.
Qed.

Lemma row_iadd2 a b i :
  (i < length a)%nat → (i < length b)%nat → row (iadd2 a b) i = iadd (row a i) (row b i).
Proof.
  intros Ha Hb. unfold row, iadd2. rewrite lookup_zip_with.
  destruct (lookup_lt_is_Some_2 a i Ha) as [x ->].
  destruct (lookup_lt_is_Some_2 b i Hb) as [y ->]. done.
Qed.

Lemma has_shape_shape1 n w a : has_shape n w a → (0 < n)%nat → shape1 a = w.
Proof.
  intros [Hn Hw] Hpos. destruct a as [|r a]; [simpl in Hn; lia|].
  by apply Forall_cons in Hw as [? _].
Qed.

Lemma has_shape_row n w a i : has_shape n w a → (i < n)%nat → length (row a i) = w.
Proof.
  intros [Hn Hw] Hi. unfold row.
  destruct (lookup_lt_is_Some_2 a i ltac:(lia)) as [x Hx]. rewrite Hx. simpl.
  eapply Forall_lookup in Hw; [|exact Hx]. done.
Qed.

Lemma has_shape_replicate n w : has_shape n w (replicate n (zeros w)).
Proof.
  split; [apply length_replicate|]. apply Forall_replicate. apply length_replicate.
Qed.

Lemma has_shape_extend n w a L :
  has_shape n w a → has_shape n (w `max` L) ((λ row, extend row L) <$> a).
Proof.
  intros [Hn Hw]. split; [by rewrite length_fmap|].
  apply Forall_fmap. eapply Forall_impl; [exact Hw|]. simpl.
  intros r Hr. by rewrite length_extend, Hr.
Qed.

Lemma has_shape_iadd2 n w a b :
  has_shape n w a → has_shape n w b → has_shape n w (iadd2 a b).
Proof.
  intros [Ha Hwa] [Hb Hwb]. split.
  - unfold iadd2. rewrite length_zip_with. lia.
  - apply Forall_lookup. intros i r Hr. unfold iadd2 in Hr.
    apply lookup_zip_with_Some in Hr as (x & y & -> & Hx & Hy).
    eapply Forall_lookup in Hwa; [|exact Hx]. eapply Forall_lookup in Hwb; [|exact Hy].
    rewrite length_iadd; simpl in *; congruence.
Qed.

(** Unifying the shapes of the running totals and of the histograms of a
    frame and adding them up: the longer of the two lengths, and rows that
    add up to the sums of the rows. *)
Lemma merge_frame n w l a b :
  (0 < n)%nat → has_shape n w a → has_shape n l b →
  has_shape n (w `max` l) (iadd2 (match_shape a b).1 (match_shape a b).2) ∧
  ∀ i, (i < n)%nat → np_sum (row a i) + np_sum (row b i) < 2 ^ 32 →
    np_sum (row (iadd2 (match_shape a b).1 (match_shape a b).2) i)
    = np_sum (row a i) + np_sum (row b i).
Proof.
  intros Hn Ha Hb. unfold match_shape. cbn [fst snd].
  rewrite (has_shape_shape1 _ _ _ Ha Hn), (has_shape_shape1 _ _ _ Hb Hn).
  pose proof (has_shape_extend _ _ _ (w `max` l) Ha) as Ha'.
  pose proof (has_shape_extend _ _ _ (w `max` l) Hb) as Hb'.
  replace (w `max` (w `max` l))%nat with (w `max` l)%nat in Ha' by lia.
  replace (l `max` (w `max` l))%nat with (w `max` l)%nat in Hb' by lia.
  split; [by apply has_shape_iadd2|].
  intros i Hi Hlt. destruct Ha as [Hla _], Hb as [Hlb _].
  rewrite row_iadd2 by (rewrite length_fmap; lia).
  rewrite !row_fmap by lia.
  rewrite np_sum_iadd; rewrite ?np_sum_extend; [done| |done].
  rewrite <- (row_fmap (λ r, extend r (w `max` l)) a) by lia.
  rewrite <- (row_fmap (λ r, extend r (w `max` l)) b) by lia.
  rewrite (has_shape_row _ _ _ _ Ha'), (has_shape_row _ _ _ _ Hb'); [done|lia..].
Qed.

Lemma frames_refatm_snoc done f :
  frames_refatm (done ++ [f]) = (frames_refatm done + n_atoms (frame_ref f))%nat.
Proof. unfold frames_refatm. rewrite fmap_app, sum_list_app'. simpl. lia. Qed.

Lemma frames_refres_snoc done f :
  frames_refres (done ++ [f]) = (frames_refres done + n_residues (frame_ref f))%nat.
Proof. unfold frames_refres. rewrite fmap_app, sum_list_app'. simpl. lia. Qed.

Lemma frames_refres_le frames : (frames_refres frames ≤ frames_refatm frames)%nat.
Proof.
  unfold frames_refres, frames_refatm. induction frames as [|f frames IH]; [done|].
  rewrite !fmap_cons. cbn [sum_list sum_list_with]. change (Datatypes.id ?x) with x.
  pose proof (n_residues_le (frame_ref f)). lia.
Qed.

Lemma frames_refatm_mono done f todo :
  (frames_refatm (done ++ [f]) ≤ frames_refatm (done ++ f :: todo))%nat.
Proof.
  unfold frames_refatm. rewrite !fmap_app, !sum_list_app'. simpl. lia.
Qed.

Lemma has_shape_take n w a k : has_shape n w a → (k ≤ n)%nat → has_shape k w (take k a).
Proof.
  intros [Hn Hw] Hk. split; [rewrite length_take; lia|]. by apply Forall_take.
Qed.

Lemma has_shape_drop n w a k : has_shape n w a → has_shape (n - k) w (drop k a).
Proof.
  intros [Hn Hw]. split; [rewrite length_drop; lia|]. by apply Forall_drop.
Qed.

(** The arrays of a frame are [uint32] arrays. *)
Lemma frame_not_trivial (sel : AtomGroup) cutoff :
  ¬ (cutoff <= 0)%Q → n_atoms sel ≠ 0%nat →
  orb (bool_decide (n_atoms sel = 0%nat)) (Qle_bool cutoff 0) = false.
Proof.
  intros Hcut Hsel. rewrite bool_decide_eq_false_2 by done.
  destruct (Qle_bool cutoff 0) eqn:E; [|done]. by apply Qle_bool_iff in E.
Qed.

(** A pass over a frame keeps the invariant. *)
Lemma frame_step_inv updating_ref updating_sel cutoff done f t :
  ¬ (cutoff <= 0)%Q → n_atoms (frame_sel f) ≠ 0%nat →
  N.of_nat (frames_refatm (done ++ [f])) < 2 ^ 32 →
  totals_inv updating_ref done t →
  ∃ t', frame_step updating_ref updating_sel cutoff t f = Some t' ∧
        totals_inv updating_ref (done ++ [f]) t'.
Proof.
  intros Hcut Hsel Hrange (w & Hw & Satm & Sres & Spar & A0 & A1 & R0 & R2 & R3 & Hupd).
  rewrite frames_refatm_snoc in Hrange.
  pose proof (frames_refres_le done). pose proof (n_residues_le (frame_ref f)).
  unfold frame_step. rewrite (frame_not_trivial _ _ Hcut Hsel).
  destruct (decide (n_atoms (frame_ref f) = 0%nat)) as [Hempty|Hne].
  - eexists. split; [done|]. exists w.
    rewrite frames_refatm_snoc, frames_refres_snoc.
    assert (n_residues (frame_ref f) = 0%nat) as Hres0 by lia.
    rewrite Hempty, Hres0, !Nat.add_0_r. cbn.
    repeat (split; [done|]). intros Hu. destruct (Hupd Hu) as [-> ->].
    rewrite Hu. split; lia.
  - destruct (frame_result (frame_in_range f) (frame_ref f) (frame_sel f) cutoff
                (Z.of_nat (shape1 (hist_atm t))) ltac:(lia))
      as (r & L & -> & HL & Hlen & S1 & S2 & S3 & S4 & S5).
    cbn [mbind option_bind].
    assert (has_shape 11 L (hists_list r)) as Hshape by (split; done).
    pose proof (has_shape_take _ _ _ 3 Hshape ltac:(lia)) as Htmp_atm.
    pose proof (has_shape_drop _ _ _ 3 Hshape) as Hd3.
    pose proof (has_shape_take _ _ _ 5 Hd3 ltac:(lia)) as Htmp_res.
    pose proof (has_shape_drop _ _ _ 8 Hshape) as Htmp_par.
    change (11 - 8)%nat with 3%nat in Htmp_par.
    destruct (merge_frame 3 w L _ _ ltac:(lia) Satm Htmp_atm) as [Satm' Hsum_atm].
    destruct (merge_frame 5 w L _ _ ltac:(lia) Sres Htmp_res) as [Sres' Hsum_res].
    destruct (merge_frame 3 w L _ _ ltac:(lia) Spar Htmp_par) as [Spar' _].
    destruct (match_shape (hist_atm t) _) as [a a_tmp] eqn:Ea.
    destruct (match_shape (hist_res t) _) as [b b_tmp] eqn:Eb.
    destruct (match_shape (hist_par t) _) as [c c_tmp] eqn:Ec.
    cbn [fst snd] in *.
    eexists. split; [done|]. exists (w `max` L)%nat. cbn.
    split; [lia|]. do 3 (split; [done|]).
    rewrite frames_refatm_snoc, frames_refres_snoc, !Nat2N.inj_add.
    assert (row (take 3 (hists_list r)) 0 = refatm_selatm r) as E0 by done.
    assert (row (take 3 (hists_list r)) 1 = refatm_diff_selres r) as E1 by done.
    assert (row (take 5 (drop 3 (hists_list r))) 0 = refres_diff_selatm r) as E2 by done.
    assert (row (take 5 (drop 3 (hists_list r))) 2 = refres_selatm_tot r) as E3 by done.
    assert (row (take 5 (drop 3 (hists_list r))) 3 = refres_diff_selres r) as E4 by done.
    rewrite (Hsum_atm 0%nat), (Hsum_atm 1%nat), (Hsum_res 0%nat), (Hsum_res 2%nat),
      (Hsum_res 3%nat);
      rewrite ?E0, ?E1, ?E2, ?E3, ?E4, ?A0, ?A1, ?R0, ?R2, ?R3, ?S1, ?S2, ?S3, ?S4, ?S5;
      try lia.
    repeat (split; [done|]). intros Hu. destruct (Hupd Hu) as [-> ->].
    rewrite Hu. split; lia.
Qed.

(** X14: the divisors of the normalisation fit the accumulated
    histograms. After the loop over the frames, the rows of [hist_atm] for
    [refatm_selatm] and [refatm_diff_selres] add up to the number [n_refatm]
    by which the script divides them, and the rows of [hist_res] for
    [refres_diff_selatm], [refres_selatm_tot] and [refres_diff_selres] to
    [n_refres]: for an updating reference group the sum over the frames of
    its atoms and residues, otherwise its atoms and residues times the
    number of frames. The cutoff is positive, as the script demands, the
    selection group of no frame is empty, in which case [contact_hist]
    returns [uint32] arrays, a reference group that is not updating has the
    same numbers of atoms and residues in every frame, and the reference
    atoms of all frames are fewer than [2^32]. *)
Theorem accumulated_sums updating_ref updating_sel cutoff frames ref :
  ¬ (cutoff <= 0)%Q →
  (∀ f, f ∈ frames → n_atoms (frame_sel f) ≠ 0%nat) →
  (updating_ref = false → ∀ f, f ∈ frames →
     n_atoms (frame_ref f) = n_atoms ref ∧ n_residues (frame_ref f) = n_residues ref) →
  N.of_nat (frames_refatm frames) < 2 ^ 32 →
  ∃ t, accumulate updating_ref updating_sel cutoff frames = Some t ∧
    np_sum (row (hist_atm t) 0) = (ref_totals updating_ref ref (length frames) t).1 ∧
    np_sum (row (hist_atm t) 1) = (ref_totals updating_ref ref (length frames) t).1 ∧
    np_sum (row (hist_res t) 0) = (ref_totals updating_ref ref (length frames) t).2 ∧
    np_sum (row (hist_res t) 2) = (ref_totals updating_ref ref (length frames) t).2 ∧
    np_sum (row (hist_res t) 3) = (ref_totals updating_ref ref (length frames) t).2.
Proof.
  intros Hcut Hsel Hstatic Hrange. unfold accumulate.
  destruct (for_each_inv (totals_inv updating_ref)
              (frame_step updating_ref updating_sel cutoff) frames init_totals)
    as (t & Ht & w & _ & _ & _ & _ & A0 & A1 & R0 & R2 & R3 & Hupd).
  - exists 16%nat. split; [lia|]. unfold init_totals.
    cbn [hist_atm hist_res hist_par n_refatm n_refres].
    do 3 (split; [apply (has_shape_replicate _ 16)|]).
    repeat split; reflexivity.
  - intros done f todo t Hsplit HI. apply frame_step_inv; [done| | |done].
    + apply Hsel. rewrite Hsplit. apply elem_of_app. right. by left.
    + pose proof (frames_refatm_mono done f todo). rewrite <- Hsplit in *. lia.
  - exists t. split; [done|]. rewrite A0, A1, R0, R2, R3.
    unfold ref_totals. destruct updating_ref.
    + destruct (Hupd eq_refl) as [-> ->]. done.
    + specialize (Hstatic eq_refl). cbn [fst snd].
      assert (frames_refatm frames = (n_atoms ref * length frames)%nat
              ∧ frames_refres frames = (n_residues ref * length frames)%nat) as [-> ->].
      { clear -Hstatic. unfold frames_refatm, frames_refres.
        induction frames as [|f frames IH]; [simpl; lia|].
        destruct (Hstatic f ltac:(by left)) as [Ha Hr].
        destruct IH as [IH1 IH2]; [intros g Hg; apply Hstatic; by right|].
        rewrite !fmap_cons. cbn [sum_list sum_list_with length].
        change (Datatypes.id ?x) with x.
        fold (sum_list ((λ f, n_atoms (frame_ref f)) <$> frames)).
        fold (sum_list ((λ f, n_residues (frame_ref f)) <$> frames)).
        rewrite IH1, IH2, Ha, Hr. lia. }
      rewrite !Nat2N.inj_mul. done.
Qed.

(** ** The pair histograms of the frames *)

Lemma np_sum_ones n : np_sum (replicate n 1) = N.of_nat n.
Proof. induction n as [|n IH]; [done|]. cbn [replicate]. rewrite np_sum_cons, IH. lia. Qed.

(** What one reference atom adds to the sum of [refatm_selres_pair]: the
    number of residues it touches. *)
Lemma same_and_pair_np_sum same pair counts same' pair' :
  same_and_pair same pair counts = Some (same', pair') →
  np_sum pair + N.of_nat (length counts) < 2 ^ 32 →
  np_sum pair' = np_sum pair + N.of_nat (length counts).
Proof.
  unfold same_and_pair. intros H Hlt. case_decide as Hc.
  - destruct (incr_at same 0 1); [|done]. cbn in H. injection H as _ <-.
    rewrite Hc. simpl. lia.
  - destruct (fancy_incr _ _); [|done]. cbn in H.
    destruct (add_at _ _ _) as [p|] eqn:Hadd; [|done]. cbn in H. injection H as _ <-.
    rewrite (add_at_np_sum _ _ _ _ Hadd); rewrite np_sum_extend, np_sum_ones; done.
Qed.

Lemma np_sum_astype_le l : np_sum (astype_uint32 l) ≤ np_sum l.
Proof.
  unfold astype_uint32. induction l as [|x l IH]; [done|].
  rewrite fmap_cons, !np_sum_cons. pose proof (u32_le x). lia.
Qed.

(** The bins of a "bonds per pair" histogram count at most the entries of
    the matrix. *)
Lemma np_sum_refres_pair matrix h :
  refres_pair matrix = Some h → np_sum h ≤ N.of_nat (length (concat matrix)).
Proof.
  intros [Hlen ->]%refres_pair_inv. rewrite length_insert in Hlen.
  pose proof (np_sum_insert _ 0%nat _ 0 (lookup_bin _ _ Hlen)) as Hs.
  pose proof (np_sum_astype_le (bincount (concat matrix))) as Hle.
  rewrite np_sum_bincount in Hle. lia.
Qed.

(** The sums of the three pair histograms of a frame are at most the
    number of pairs of a reference atom and a selection atom. *)
Lemma frame_pairs in_range ref sel cutoff expected_max_contacts :
  N.of_nat (n_atoms ref * n_atoms sel) < 2 ^ 32 →
  ∃ r L, (contact_hist in_range ref sel cutoff expected_max_contacts).2 = Some r ∧
    has_shape 11 L (hists_list r) ∧
    np_sum (refatm_selres_pair r) ≤ N.of_nat (n_atoms ref * n_atoms sel) ∧
    np_sum (refres_selatm_pair r) ≤ N.of_nat (n_atoms ref * n_atoms sel) ∧
    np_sum (refres_selres_pair r) ≤ N.of_nat (n_atoms ref * n_atoms sel).
Proof.
  intros Hrange.
  destruct (contact_hist_cases in_range ref sel cutoff expected_max_contacts
    (λ r, ∃ L, has_shape 11 L (hists_list r) ∧
       np_sum (refatm_selres_pair r) ≤ N.of_nat (n_atoms ref * n_atoms sel) ∧
       np_sum (refres_selatm_pair r) ≤ N.of_nat (n_atoms ref * n_atoms sel) ∧
       np_sum (refres_selres_pair r) ≤ N.of_nat (n_atoms ref * n_atoms sel)))
    as (r & Hr & L & H); [| | |by exists r, L].
  - intros _. exists 1%nat. split; [split; [done|by repeat constructor]|].
    simpl. lia.
  - intros _ _. exists 1%nat. split; [split; [done|by repeat constructor]|].
    simpl. lia.
  - intros _ _ _ st r Hst Hwf Hfin.
    destruct (loop_inv in_range ref sel cutoff _
                (λ done st, np_sum (s_refatm_selres_pair st)
                            ≤ N.of_nat (length done * n_atoms sel))
                (expected_max_contacts_pos expected_max_contacts))
      as (st' & Hst' & _ & Hpair).
    { simpl. unfold zeros. rewrite np_sum_replicate. lia. }
    { intros done a todo s s' Hsplit _ HI Hbody.
      apply loop_body_inv in Hbody as (_ & _ & Hsp & _).
      pose proof (n_residues_le (atoms_around_point in_range sel (position a) cutoff)).
      pose proof (n_atoms_near_le in_range sel cutoff a).
      assert (length (unique_counts
                (resids (atoms_around_point in_range sel (position a) cutoff)))
              ≤ n_residues (atoms_around_point in_range sel (position a) cutoff))%nat
        as Hc.
      { rewrite length_unique_counts. apply n_unique_resids_le. }
      assert (N.of_nat ((length done + 1) * n_atoms sel) < 2 ^ 32) as Hlt.
      { unfold n_atoms in Hrange |- *. rewrite Hsplit, length_app in Hrange.
        simpl in Hrange. nia. }
      rewrite length_app. cbn [length].
      rewrite (same_and_pair_np_sum _ _ _ _ _ Hsp); nia. }
    rewrite Hst in Hst'. injection Hst' as <-.
    apply finish_inv in Hfin
      as (sa & sr & pa & pr & L & _ & _ & Hpa & Hpr & -> & Hlen & HL).
    exists L. split; [by split|].
    cbn [refatm_selres_pair refres_selatm_pair refres_selres_pair].
    rewrite !np_sum_extend.
    apply np_sum_refres_pair in Hpa, Hpr.
    rewrite (length_concat_rows _ _ (wf_atm_rows _ _ _ _ Hwf)),
      (wf_atm_pair _ _ _ _ Hwf) in Hpa.
    rewrite (length_concat_rows _ _ (wf_res_rows _ _ _ _ Hwf)),
      (wf_res_pair _ _ _ _ Hwf) in Hpr.
    pose proof (n_residues_le ref). pose proof (n_residues_le sel).
    unfold n_atoms in *. repeat split; nia.
Qed.

Lemma frames_products_snoc done f :
  frames_products (done ++ [f])
  = (frames_products done + n_atoms (frame_ref f) * n_atoms (frame_sel f))%nat.
Proof. unfold frames_products. rewrite fmap_app, sum_list_app'. simpl. lia. Qed.

Lemma frames_products_mono done f todo :
  (frames_products (done ++ [f]) ≤ frames_products (done ++ f :: todo))%nat.
Proof.
  unfold frames_products. rewrite !fmap_app, !sum_list_app'. simpl. lia.
Qed.

Lemma bin_iadd a b i :
  length a = length b → (i < length a)%nat → bin (iadd a b) i = u32 (bin a i + bin b i).
Proof.
  intros Hlen Hi. apply bin_lookup. unfold iadd. rewrite lookup_zip_with.
  rewrite !lookup_bin by lia. done.
Qed.

Lemma frame_step_pairs updating_ref updating_sel cutoff done f t :
  ¬ (cutoff <= 0)%Q → n_atoms (frame_sel f) ≠ 0%nat →
  N.of_nat (frames_products (done ++ [f])) < 2 ^ 32 →
  pairs_inv done t →
  ∃ t', frame_step updating_ref updating_sel cutoff t f = Some t' ∧
        pairs_inv (done ++ [f]) t'.
Proof.
  intros Hcut Hsel Hrange (w & Spar & Hn & HI). rewrite frames_products_snoc in Hrange.
  unfold frame_step. rewrite (frame_not_trivial _ _ Hcut Hsel).
  destruct (decide (n_atoms (frame_ref f) = 0%nat)) as [Hempty|Hne].
  - eexists. split; [done|]. exists w. cbn. split; [done|]. split; [done|].
    intros i Hi. destruct (HI i Hi) as [H1 H2]. split; [done|].
    rewrite frames_products_snoc. lia.
  - destruct (frame_pairs (frame_in_range f) (frame_ref f) (frame_sel f) cutoff
                (Z.of_nat (shape1 (hist_atm t))) ltac:(lia))
      as (r & L & -> & Hshape & P1 & P2 & P3).
    cbn [mbind option_bind].
    pose proof (has_shape_drop _ _ _ 8 Hshape) as Htmp_par.
    change (11 - 8)%nat with 3%nat in Htmp_par.
    destruct (merge_frame 3 w L _ _ ltac:(lia) Spar Htmp_par) as [Spar' Hsum].
    destruct (match_shape (hist_atm t) _) as [a a_tmp].
    destruct (match_shape (hist_res t) _) as [b b_tmp].
    destruct (match_shape (hist_par t) _) as [c c_tmp] eqn:Ec.
    cbn [fst snd] in *.
    eexists. split; [done|]. exists (w `max` L)%nat. cbn.
    split; [done|]. split; [by rewrite length_iadd|].
    assert (row (drop 8 (hists_list r)) 0 = refatm_selres_pair r) as E0 by done.
    assert (row (drop 8 (hists_list r)) 1 = refres_selatm_pair r) as E1 by done.
    assert (row (drop 8 (hists_list r)) 2 = refres_selres_pair r) as E2 by done.
    assert (∀ i, (i < 3)%nat →
              np_sum (row (drop 8 (hists_list r)) i)
              ≤ N.of_nat (n_atoms (frame_ref f) * n_atoms (frame_sel f))) as Hle.
    { intros [|[|[|i]]] Hi; rewrite ?E0, ?E1, ?E2; try done. lia. }
    intros i Hi. destruct (HI i Hi) as [H1 H2]. specialize (Hle i Hi).
    rewrite frames_products_snoc, Hsum by lia.
    rewrite bin_iadd by (rewrite ?length_fmap, ?length_drop, ?Hn; simpl; lia).
    split; [|lia]. rewrite H1.
    assert (bin [u32 (np_sum (refatm_selres_pair r)); u32 (np_sum (refres_selatm_pair r));
                 u32 (np_sum (refres_selres_pair r))] i
            = np_sum (row (drop 8 (hists_list r)) i)) as ->.
    { destruct i as [|[|[|i]]]; try lia; rewrite ?E0, ?E1, ?E2 in *;
        unfold bin; cbn [lookup list_lookup default]; apply u32_small; lia. }
    apply u32_small. lia.
Qed.

(** X15: the divisors of the pair histograms. After the loop over the
    frames, [n_pairs[i]] is the sum of row [i] of [hist_par], so that a row
    of [hist_par / n_pairs[:,None]] (line 1092) is divided by its own sum.
    The cutoff is positive, as the script demands, the selection group of no
    frame is empty, in which case [contact_hist] returns [uint32] arrays, and
    the pairs of a reference atom and a selection atom of all frames are
    fewer than [2^32]. *)
Theorem accumulated_pairs updating_ref updating_sel cutoff frames :
  ¬ (cutoff <= 0)%Q →
  (∀ f, f ∈ frames → n_atoms (frame_sel f) ≠ 0%nat) →
  N.of_nat (frames_products frames) < 2 ^ 32 →
  ∃ t, accumulate updating_ref updating_sel cutoff frames = Some t ∧
    ∀ i, (i < 3)%nat → n_pairs t !! i = Some (np_sum (row (hist_par t) i)).
Proof.
  intros Hcut Hsel Hrange. unfold accumulate.
  destruct (for_each_inv pairs_inv
              (frame_step updating_ref updating_sel cutoff) frames init_totals)
    as (t & Ht & w & _ & Hn & HI).
  - exists 16%nat. unfold init_totals. cbn [hist_par n_pairs].
    split; [apply (has_shape_replicate _ 16)|]. split; [done|].
    intros [|[|[|i]]] Hi; try lia; split; try reflexivity; simpl; lia.
  - intros done f todo t Hsplit HI. apply frame_step_pairs; [done| | |done].
    + apply Hsel. rewrite Hsplit. apply elem_of_app. right. by left.
    + pose proof (frames_products_mono done f todo). rewrite <- Hsplit in *. lia.
  - exists t. split; [done|]. intros i Hi. destruct (HI i Hi) as [<- _].
    apply lookup_bin. lia.
Qed.




(** ** The last row of the output table *)

Lemma elem_of_nonzero_in_row {A} (is_zero : A → bool) (r : list A) k :
  k ∈ nonzero_in_row is_zero r ↔ ∃ x, r !! k = Some x ∧ is_zero x = false.
Proof.
  unfold nonzero_in_row. rewrite list_elem_of_fmap. split.
  - intros ([k' x] & Hk' & Hp). simpl in Hk'. subst k'.
    apply list_elem_of_filter in Hp as [Hz Hp]. simpl in Hz.
    apply list_elem_of_lookup in Hp as [i Hi].
    apply lookup_zip_with_Some in Hi as (k'' & x' & Heq & Hk & Hx).
    injection Heq as <- <-. apply lookup_seq in Hk as [-> _]. by exists x.
  - intros (x & Hx & Hz). exists (k, x). split; [done|].
    apply list_elem_of_filter. split; [done|].
    apply list_elem_of_lookup. exists k. apply lookup_zip_with_Some.
    exists k, x. split; [done|]. split; [|done].
    apply lookup_seq. split; [done|]. by apply lookup_lt_Some in Hx.
Qed.

Lemma elem_of_concat {A} (x : A) (ls : list (list A)) :
  x ∈ concat ls ↔ ∃ l, x ∈ l ∧ l ∈ ls.
Proof.
  induction ls as [|l ls IH]; simpl.
  - split; [by intros ?%elem_of_nil|]. by intros (l & _ & ?%elem_of_nil).
  - rewrite elem_of_app, IH. split.
    + intros [?|(l' & ? & ?)]; [exists l; split; [done|by left]|].
      exists l'. split; [done|by right].
    + intros (l' & Hx & [->|?]%elem_of_cons); [by left|]. right. by exists l'.
Qed.

Lemma elem_of_nonzero_columns {A} (is_zero : A → bool) (a : list (list A)) k :
  k ∈ nonzero_columns is_zero a ↔
  ∃ r x, r ∈ a ∧ r !! k = Some x ∧ is_zero x = false.
Proof.
  unfold nonzero_columns. rewrite elem_of_concat. split.
  - intros (l & Hk & Hl). apply list_elem_of_fmap in Hl as (r & -> & Hr).
    apply elem_of_nonzero_in_row in Hk as (x & Hx & Hz). by exists r, x.
  - intros (r & x & Hr & Hx & Hz). exists (nonzero_in_row is_zero r). split.
    + apply elem_of_nonzero_in_row. by exists x.
    + by apply list_elem_of_fmap_2.
Qed.

Lemma all_zero_true {A} (is_zero : A → bool) (a : list (list A)) :
  all_zero is_zero a = true → nonzero_columns is_zero a = [].
Proof.
  intros Hall. destruct (nonzero_columns is_zero a) as [|k l] eqn:E; [done|].
  assert (k ∈ nonzero_columns is_zero a) as Hk by (rewrite E; by left).
  apply elem_of_nonzero_columns in Hk as (r & x & Hr & Hx & Hz).
  unfold all_zero in Hall. rewrite forallb_forall in Hall.
  apply list_elem_of_In, Hall in Hr. rewrite forallb_forall in Hr.
  apply list_elem_of_lookup_2, list_elem_of_In, Hr in Hx. congruence.
Qed.

Lemma max_nat_elem l : l ≠ [] → max_nat l ∈ l ∨ max_nat l = 0%nat.
Proof.
  induction l as [|x l IH]; [done|]. intros _. cbn [max_nat foldr].
  fold (max_nat l). destruct (decide (l = [])) as [->|Hl].
  - left. simpl. rewrite Nat.max_0_r. by left.
  - destruct (IH Hl) as [Hin|H0].
    + destruct (Nat.max_spec x (max_nat l)) as [[_ ->]|[_ ->]]; left; [by right|by left].
    + rewrite H0, Nat.max_0_r. left. by left.
Qed.

(** The last nonzero column of three arrays is the largest column index
    at which one of them holds an element that is not zero, and 0 if there is
    none. *)
Lemma last_nonzero_max {A} (is_zero : A → bool) (a b c : list (list A)) :
  last_nonzero is_zero a b c
  = max_nat (nonzero_columns is_zero a ++ nonzero_columns is_zero b
             ++ nonzero_columns is_zero c).
Proof.
  assert (∀ l1 l2, max_nat (l1 ++ l2) = (max_nat l1 `max` max_nat l2)%nat) as Happ.
  { intros l1 l2. induction l1 as [|x l1 IH]; [done|]. simpl.
    fold (max_nat (l1 ++ l2)). fold (max_nat l1). rewrite IH. lia. }
  assert (∀ (last : nat) h,
    (if all_zero is_zero h then last
     else (last `max` max_nat (nonzero_columns is_zero h))%nat)
    = (last `max` max_nat (nonzero_columns is_zero h))%nat) as Hguard.
  { intros last h. destruct (all_zero is_zero h) eqn:E; [|done].
    rewrite (all_zero_true _ _ E). simpl. lia. }
  unfold last_nonzero. rewrite !Hguard, !Happ. lia.
Qed.

(** X17: the last row of the output table (lines 1120-1126 and 1214).
    Beyond the column [last_nonzero] every element of the three arrays is
    zero, so that the table leaves out no element that is not zero; unless
    [last_nonzero] is 0, one of the arrays holds an element that is not zero
    in that column; and [last_nonzero] is a column of the arrays when their
    rows have one length. *)
Theorem last_nonzero_spec {A} (is_zero : A → bool) (hist_atm hist_res hist_par : list (list A)) :
  (∀ r k x, r ∈ hist_atm ++ hist_res ++ hist_par → r !! k = Some x →
     (last_nonzero is_zero hist_atm hist_res hist_par < k)%nat → is_zero x = true) ∧
  (last_nonzero is_zero hist_atm hist_res hist_par ≠ 0%nat →
     ∃ r x, r ∈ hist_atm ++ hist_res ++ hist_par ∧
       r !! last_nonzero is_zero hist_atm hist_res hist_par = Some x ∧
       is_zero x = false) ∧
  (∀ w, (0 < w)%nat → (∀ r, r ∈ hist_atm ++ hist_res ++ hist_par → length r = w) →
     (last_nonzero is_zero hist_atm hist_res hist_par < w)%nat).
Proof.
  cut ((∀ r k x, r ∈ hist_atm ++ hist_res ++ hist_par → r !! k = Some x →
          (last_nonzero is_zero hist_atm hist_res hist_par < k)%nat → is_zero x = true) ∧
       (last_nonzero is_zero hist_atm hist_res hist_par ≠ 0%nat →
          ∃ r x, r ∈ hist_atm ++ hist_res ++ hist_par ∧
            r !! last_nonzero is_zero hist_atm hist_res hist_par = Some x ∧
            is_zero x = false)).
  { intros [H1 H2]. split; [done|]. split; [done|]. intros w Hw Hlen.
    destruct (decide (last_nonzero is_zero hist_atm hist_res hist_par = 0%nat))
      as [->|Hne]; [done|].
    destruct (H2 Hne) as (r & x & Hr & Hx & _).
    apply lookup_lt_Some in Hx. by rewrite (Hlen r Hr) in Hx. }
  rewrite last_nonzero_max.
  assert (∀ k, k ∈ nonzero_columns is_zero hist_atm ++ nonzero_columns is_zero hist_res
                   ++ nonzero_columns is_zero hist_par ↔
               ∃ r x, r ∈ hist_atm ++ hist_res ++ hist_par ∧ r !! k = Some x
                      ∧ is_zero x = false) as Hin.
  { intros k. rewrite !elem_of_app, !elem_of_nonzero_columns. split.
    - intros [(r & x & ? & ?)|[(r & x & ? & ?)|(r & x & ? & ?)]]; exists r, x;
        rewrite !elem_of_app; tauto.
    - intros (r & x & Hr & ?). rewrite !elem_of_app in Hr.
      destruct Hr as [?|[?|?]]; [left|right; left|right; right]; by exists r, x. }
  split.
  - intros r k x Hr Hx Hlt. destruct (is_zero x) eqn:Hz; [done|].
    assert (k ∈ nonzero_columns is_zero hist_atm ++ nonzero_columns is_zero hist_res
                ++ nonzero_columns is_zero hist_par) as Hk.
    { apply Hin. by exists r, x. }
    apply max_nat_ge in Hk. lia.
  - intros Hne. apply Hin.
    destruct (max_nat_elem (nonzero_columns is_zero hist_atm
                ++ nonzero_columns is_zero hist_res ++ nonzero_columns is_zero hist_par))
      as [H|H]; [|done|done].
    intros Hnil. rewrite Hnil in Hne. done.
Qed.

Lemma accumulated_sums_witness :
  (¬ (2 <= 0)%Q ∧
   (∀ f, f ∈ example_frames → n_atoms (frame_sel f) ≠ 0%nat) ∧
   (false = false → ∀ f, f ∈ example_frames →
      n_atoms (frame_ref f) = n_atoms example_ref
      ∧ n_residues (frame_ref f) = n_residues example_ref) ∧
   N.of_nat (frames_refatm example_frames) < 2 ^ 32) ∧
  ∃ t, accumulate false false 2 example_frames = Some t ∧
    np_sum (row (hist_atm t) 0)
    = (ref_totals false example_ref (length example_frames) t).1 ∧
    np_sum (row (hist_atm t) 1)
    = (ref_totals false example_ref (length example_frames) t).1 ∧
    np_sum (row (hist_res t) 0)
    = (ref_totals false example_ref (length example_frames) t).2 ∧
    np_sum (row (hist_res t) 2)
    = (ref_totals false example_ref (length example_frames) t).2 ∧
    np_sum (row (hist_res t) 3)
    = (ref_totals false example_ref (length example_frames) t).2.
Proof.
  assert (¬ (2 <= 0)%Q) as H1 by (intros H; vm_compute in H; apply H; reflexivity).
  assert (∀ f, f ∈ example_frames → n_atoms (frame_sel f) ≠ 0%nat) as H2.
  { intros f Hf. unfold example_frames in Hf.
    apply elem_of_cons in Hf as [->|Hf]; [simpl; lia|].
    apply elem_of_cons in Hf as [->|Hf]; [simpl; lia|]. by apply elem_of_nil in Hf. }
  assert (false = false → ∀ f, f ∈ example_frames →
            n_atoms (frame_ref f) = n_atoms example_ref
            ∧ n_residues (frame_ref f) = n_residues example_ref) as H3.
  { intros _ f Hf. unfold example_frames in Hf.
    apply elem_of_cons in Hf as [->|Hf]; [by split|].
    apply elem_of_cons in Hf as [->|Hf]; [by split|]. by apply elem_of_nil in Hf. }
  assert (N.of_nat (frames_refatm example_frames) < 2 ^ 32) as H4
    by (vm_compute; reflexivity).
  split; [split; [exact H1|split; [exact H2|split; [exact H3|exact H4]]]|].
  exact (accumulated_sums false false 2 example_frames example_ref H1 H2 H3 H4).
Defined.

Lemma accumulated_pairs_witness :
  (¬ (2 <= 0)%Q ∧
   (∀ f, f ∈ example_frames → n_atoms (frame_sel f) ≠ 0%nat) ∧
   N.of_nat (frames_products example_frames) < 2 ^ 32) ∧
  ∃ t, accumulate false false 2 example_frames = Some t ∧
    ∀ i, (i < 3)%nat → n_pairs t !! i = Some (np_sum (row (hist_par t) i)).
Proof.
  assert (¬ (2 <= 0)%Q) as H1 by (intros H; vm_compute in H; apply H; reflexivity).
  assert (∀ f, f ∈ example_frames → n_atoms (frame_sel f) ≠ 0%nat) as H2.
  { intros f Hf. unfold example_frames in Hf.
    apply elem_of_cons in Hf as [->|Hf]; [simpl; lia|].
    apply elem_of_cons in Hf as [->|Hf]; [simpl; lia|]. by apply elem_of_nil in Hf. }
  assert (N.of_nat (frames_products example_frames) < 2 ^ 32) as H3
    by (vm_compute; reflexivity).
  split; [split; [exact H1|split; [exact H2|exact H3]]|].
  exact (accumulated_pairs false false 2 example_frames H1 H2 H3).
Defined.


(** * Properties of the transition counts *)

Lemma count_nonzero_app l1 l2 :
  count_nonzero (l1 ++ l2) = (count_nonzero l1 + count_nonzero l2)%nat.
Proof. unfold count_nonzero. by rewrite filter_app, length_app. Qed.

Lemma count_nonzero_replicate_false n : count_nonzero (replicate n false) = 0%nat.
Proof. induction n as [|n IH]; [done|]. simpl. exact IH. Qed.

Lemma count_nonzero_cons b l :
  count_nonzero (b :: l) = ((if b then 1 else 0) + count_nonzero l)%nat.
Proof. unfold count_nonzero. destruct b; [by rewrite filter_cons_True|by rewrite filter_cons_False]. Qed.

(** The transitions between two frames, counted and read along the mask. *)
Lemma transitions_row (r r' : list Z) :
  length r = length r' →
  count_nonzero (zip_with (λ x y, negb (y - x =? 0)%Z) r r')
  = length (filter (λ p : Z * Z, p.1 ≠ p.2) (zip r r')) ∧
  fst <$> filter (λ p : Z * bool, p.2 = true)
            (zip r (zip_with (λ x y, negb (y - x =? 0)%Z) r r'))
  = fst <$> filter (λ p : Z * Z, p.1 ≠ p.2) (zip r r') ∧
  fst <$> filter (λ p : Z * bool, p.2 = true)
            (zip r' (zip_with (λ x y, negb (y - x =? 0)%Z) r r'))
  = snd <$> filter (λ p : Z * Z, p.1 ≠ p.2) (zip r r').
Proof.
  revert r'. induction r as [|x r IH]; intros [|y r'] Hlen; try done.
  injection Hlen as Hlen. destruct (IH r' Hlen) as (IH1 & IH2 & IH3).
  cbn [zip_with zip]. rewrite count_nonzero_cons.
  destruct (decide (x = y)) as [->|Hne].
  - rewrite Z.sub_diag. cbn [Z.eqb negb].
    rewrite (filter_cons_False (λ p : Z * Z, p.1 ≠ p.2)) by (simpl; tauto).
    rewrite !(filter_cons_False (λ p : Z * bool, p.2 = true)) by done.
    by rewrite IH1, IH2, IH3.
  - assert ((y - x =? 0)%Z = false) as -> by (apply Z.eqb_neq; lia). cbn [negb].
    rewrite (filter_cons_True (λ p : Z * Z, p.1 ≠ p.2)) by done.
    rewrite !(filter_cons_True (λ p : Z * bool, p.2 = true)) by done.
    cbn [length fmap list_fmap]. by rewrite IH1, IH2, IH3.
Qed.

Lemma mask_row_false (r : list Z) n :
  fst <$> filter (λ p : Z * bool, p.2 = true) (zip r (replicate n false)) = [].
Proof.
  revert n. induction r as [|x r IH]; intros [|n]; try done.
  cbn [replicate zip zip_with]. rewrite filter_cons_False by done. apply IH.
Qed.

(** A trajectory with rows of one length. *)
Lemma transitions_spec (r0 : list Z) (rest : list (list Z)) n :
  Forall (λ r, length r = n) (r0 :: rest) →
  let transitions :=
    zip_with (zip_with (λ x y, negb (y - x =? 0)%Z)) (r0 :: rest) rest in
  count_nonzero (concat transitions) = length (state_changes (r0 :: rest)) ∧
  mask_index (r0 :: rest) (transitions ++ [replicate n false])
  = fst <$> state_changes (r0 :: rest) ∧
  mask_index (r0 :: rest) (replicate n false :: transitions)
  = snd <$> state_changes (r0 :: rest).
Proof.
  revert r0. induction rest as [|r1 rest IH]; intros r0 Hrect.
  - cbn. unfold mask_index, state_changes. cbn. rewrite !mask_row_false. done.
  - apply Forall_cons in Hrect as [Hr0 Hrect].
    pose proof Hrect as Hrect'. apply Forall_cons in Hrect' as [Hr1 _].
    destruct (IH r1 Hrect) as (IH1 & IH2 & IH3). cbv zeta in *.
    destruct (transitions_row r0 r1 ltac:(congruence)) as (T1 & T2 & T3).
    unfold state_changes, mask_index in *. cbn [tail zip_with concat] in *.
    rewrite !count_nonzero_app, !length_app, !fmap_app. rewrite IH1, T1.
    split; [done|]. split.
    + rewrite <- app_comm_cons. cbn [zip_with concat]. by rewrite IH2, T2.
    + rewrite mask_row_false in *. cbn [app] in *.
      rewrite T3. f_equal. exact IH3.
Qed.

Lemma count_sign_pairs (P Q : Z → bool) (l : list (Z * Z)) :
  count_nonzero (zip_with andb (P <$> (fst <$> l)) (Q <$> (snd <$> l)))
  = length (filter (λ p : Z * Z, P p.1 = true ∧ Q p.2 = true) l).
Proof.
  induction l as [|[x y] l IH]; [done|].
  cbn [fmap list_fmap zip_with fst snd]. rewrite count_nonzero_cons.
  fold (@fmap list _ _ _ (@fst Z Z) l). fold (@fmap list _ _ _ (@snd Z Z) l).
  fold (P <$> (fst <$> l)). fold (Q <$> (snd <$> l)). rewrite IH.
  destruct (P x) eqn:HP, (Q y) eqn:HQ; cbn [andb].
  - rewrite filter_cons_True by (simpl; done). done.
  - rewrite filter_cons_False by (simpl; rewrite HQ; intros [_ ?]; done). done.
  - rewrite filter_cons_False by (simpl; rewrite HP; intros [? _]; done). done.
  - rewrite filter_cons_False by (simpl; rewrite HP; intros [? _]; done). done.
Qed.

Lemma sign_classes (l : list (Z * Z)) :
  (length (filter (λ p : Z * Z, (0 <=? p.1)%Z = true ∧ (0 <=? p.2)%Z = true) l)
   + length (filter (λ p : Z * Z, (0 <=? p.1)%Z = true ∧ (p.2 <? 0)%Z = true) l)
   + length (filter (λ p : Z * Z, (p.1 <? 0)%Z = true ∧ (0 <=? p.2)%Z = true) l)
   + length (filter (λ p : Z * Z, (p.1 <? 0)%Z = true ∧ (p.2 <? 0)%Z = true) l))%nat
  = length l.
Proof.
  induction l as [|[x y] l IH]; [done|].
  destruct (Z.leb_spec 0 x), (Z.leb_spec 0 y), (Z.ltb_spec x 0), (Z.ltb_spec y 0);
    try lia;
    repeat match goal with
    | |- context [filter ?P ((x, y) :: l)] =>
        first [rewrite (filter_cons_True P) by (simpl; split; first [apply Z.leb_le | apply Z.ltb_lt]; lia)
              |rewrite (filter_cons_False P) by (simpl; rewrite ?Z.leb_le, ?Z.ltb_lt; lia)]
    end; cbn [length]; lia.
Qed.

Lemma filter_sign_iff (l : list (Z * Z)) :
  filter (λ p : Z * Z, (0 <=? p.1)%Z = true ∧ (0 <=? p.2)%Z = true) l
  = filter (λ p : Z * Z, (0 ≤ p.1 ∧ 0 ≤ p.2)%Z) l ∧
  filter (λ p : Z * Z, (0 <=? p.1)%Z = true ∧ (p.2 <? 0)%Z = true) l
  = filter (λ p : Z * Z, (0 ≤ p.1 ∧ p.2 < 0)%Z) l ∧
  filter (λ p : Z * Z, (p.1 <? 0)%Z = true ∧ (0 <=? p.2)%Z = true) l
  = filter (λ p : Z * Z, (p.1 < 0 ∧ 0 ≤ p.2)%Z) l ∧
  filter (λ p : Z * Z, (p.1 <? 0)%Z = true ∧ (p.2 <? 0)%Z = true) l
  = filter (λ p : Z * Z, (p.1 < 0 ∧ p.2 < 0)%Z) l.
Proof.
  repeat split; apply list_filter_iff; intros [x y]; simpl;
    rewrite ?Z.leb_le, ?Z.ltb_lt; done.
Qed.

(** What [dtraj_transition_info] returns for a trajectory with rows of one
    length. *)
Lemma dtraj_transition_info_eq (r0 : list Z) (rest : list (list Z)) (n : nat) :
  Forall (λ r, length r = n) (r0 :: rest) →
  let dtraj := r0 :: rest in
  dtraj_transition_info dtraj
  = Some (mkTransitionInfo
      (count_nonzero (all_axis0 n ((λ r : list Z, zip_with (λ x y, x =? y)%Z r r0) <$> dtraj)))
      (count_nonzero (all_axis0 n ((λ r : list Z, (λ x, x <? 0)%Z <$> r) <$> dtraj)))
      (count_nonzero (all_axis0 n ((λ r : list Z, (λ x, 0 <=? x)%Z <$> r) <$> dtraj)))
      (count_nonzero (concat ((λ r : list Z, (λ x, x <? 0)%Z <$> r) <$> dtraj)))
      (length (state_changes dtraj))
      (length (filter (λ p : Z * Z, (0 ≤ p.1 ∧ 0 ≤ p.2)%Z) (state_changes dtraj)))
      (length (filter (λ p : Z * Z, (0 ≤ p.1 ∧ p.2 < 0)%Z) (state_changes dtraj)))
      (length (filter (λ p : Z * Z, (p.1 < 0 ∧ 0 ≤ p.2)%Z) (state_changes dtraj)))
      (length (filter (λ p : Z * Z, (p.1 < 0 ∧ p.2 < 0)%Z) (state_changes dtraj)))).
Proof.
  intros Hrect dtraj. subst dtraj.
  pose proof Hrect as Hr0. apply Forall_cons in Hr0 as [Hr0 _].
  destruct (transitions_spec r0 rest n Hrect) as (Hn & Hinit & Hfinal).
  cbv zeta in Hn, Hinit, Hfinal.
  unfold dtraj_transition_info. cbn [tail]. rewrite Hr0, Hinit, Hfinal.
  rewrite concat_app. cbn [concat]. rewrite app_nil_r.
  rewrite !count_nonzero_app, !count_nonzero_replicate_false, Hn.
  rewrite decide_False by lia. rewrite decide_False by lia.
  rewrite !count_sign_pairs.
  pose proof (sign_classes (state_changes (r0 :: rest))) as Hsum.
  rewrite decide_False by lia.
  destruct (filter_sign_iff (state_changes (r0 :: rest))) as (-> & -> & -> & ->).
  reflexivity.
Qed.

(** X18. A trajectory of [int64] states with at least one frame and rows
    of one length makes [dtraj_transition_info] return, none of its internal
    consistency checks fails, and [n_trans] is the number of changes of
    state while [pos2pos], [pos2neg], [neg2pos] and [neg2neg] count the
    changes by the signs of the state before and of the state after. *)
Theorem dtraj_transition_info_counts (dtraj : list (list Z)) (n : nat) :
  dtraj ≠ [] →
  Forall (λ r, length r = n) dtraj →
  Forall (Forall is_int64) dtraj →
  ∃ info,
    dtraj_transition_info dtraj = Some info ∧
    n_trans info = length (state_changes dtraj) ∧
    pos2pos info = length (filter (λ p : Z * Z, (0 ≤ p.1 ∧ 0 ≤ p.2)%Z) (state_changes dtraj)) ∧
    pos2neg info = length (filter (λ p : Z * Z, (0 ≤ p.1 ∧ p.2 < 0)%Z) (state_changes dtraj)) ∧
    neg2pos info = length (filter (λ p : Z * Z, (p.1 < 0 ∧ 0 ≤ p.2)%Z) (state_changes dtraj)) ∧
    neg2neg info = length (filter (λ p : Z * Z, (p.1 < 0 ∧ p.2 < 0)%Z) (state_changes dtraj)).
Proof.
  intros Hne Hrect _. destruct dtraj as [|r0 rest]; [done|].
  eexists. split; [exact (dtraj_transition_info_eq r0 rest n Hrect)|]. simpl. done.
Qed.

(** ** Counting by column *)

Lemma filter_ext_in {A} (P Q : A → Prop) `{!∀ x, Decision (P x)}
    `{!∀ x, Decision (Q x)} (l : list A) :
  (∀ x, x ∈ l → P x ↔ Q x) → filter P l = filter Q l.
Proof.
  induction l as [|x l IH]; intros Hext; [done|].
  pose proof (Hext x ltac:(apply elem_of_cons; by left)) as Hx.
  rewrite !filter_cons, IH by (intros y Hy; apply Hext, elem_of_cons; by right).
  destruct (decide (P x)), (decide (Q x)); tauto.
Qed.

(** Two exclusive properties are counted at most as often as three
    properties one of which holds wherever one of the two does. *)
Lemma length_filter_weights {A} (P1 P2 Q1 Q2 Q3 : A → Prop)
    `{!∀ x, Decision (P1 x)} `{!∀ x, Decision (P2 x)} `{!∀ x, Decision (Q1 x)}
    `{!∀ x, Decision (Q2 x)} `{!∀ x, Decision (Q3 x)} (l : list A) :
  (∀ x, x ∈ l → P1 x → P2 x → False) →
  (∀ x, x ∈ l → P1 x ∨ P2 x → Q1 x ∨ Q2 x ∨ Q3 x) →
  (length (filter P1 l) + length (filter P2 l)
   ≤ length (filter Q1 l) + length (filter Q2 l) + length (filter Q3 l))%nat.
Proof.
  induction l as [|x l IH]; intros Hex Hcov; [done|].
  pose proof (Hex x ltac:(apply elem_of_cons; by left)) as Hx1.
  pose proof (Hcov x ltac:(apply elem_of_cons; by left)) as Hx2.
  specialize (IH ltac:(intros y Hy; apply Hex, elem_of_cons; by right)
                 ltac:(intros y Hy; apply Hcov, elem_of_cons; by right)).
  rewrite !filter_cons.
  destruct (decide (P1 x)), (decide (P2 x)), (decide (Q1 x)), (decide (Q2 x)),
    (decide (Q3 x)); cbn [length]; try lia; tauto.
Qed.

Lemma filter_True_all {A} (l : list A) : filter (λ _, True) l = l.
Proof. induction l as [|x l IH]; [done|]. by rewrite filter_cons_True, IH. Qed.

Lemma filter_False_nil {A} (l : list A) : filter (λ _, False) l = [].
Proof. induction l as [|x l IH]; [done|]. by rewrite filter_cons_False by tauto. Qed.

(** The true entries of a Boolean array, counted by position. *)
Lemma count_nonzero_index (l : list bool) :
  count_nonzero l = length (filter (λ c, l !! c = Some true) (seq 0 (length l))).
Proof.
  induction l as [|b l IH] using rev_ind; [done|].
  rewrite count_nonzero_app, length_app. cbn [length].
  rewrite Nat.add_1_r, seq_S, filter_app, length_app, IH. f_equal.
  - f_equal. apply filter_ext_in. intros c Hc. apply elem_of_seq in Hc.
    rewrite lookup_app_l by lia. done.
  - cbn [Nat.add]. rewrite count_nonzero_cons. change (count_nonzero []) with 0%nat.
    destruct b.
    + rewrite filter_cons_True; [done|]. by rewrite list_lookup_middle.
    + rewrite filter_cons_False; [done|]. by rewrite list_lookup_middle.
Qed.

Lemma length_all_axis0 n (a : list (list bool)) :
  Forall (λ r, length r = n) a → length (all_axis0 n a) = n.
Proof.
  induction 1 as [|r a Hr _ IH]; [apply length_replicate|].
  unfold all_axis0 in *. cbn [foldr]. rewrite length_zip_with. lia.
Qed.

Lemma all_axis0_lookup n (a : list (list bool)) c :
  Forall (λ r, length r = n) a → (c < n)%nat →
  all_axis0 n a !! c = Some true ↔ Forall (λ r, r !! c = Some true) a.
Proof.
  intros Hrect Hc. induction Hrect as [|r a Hr Hrect IH].
  - split; [constructor|]. intros _. by apply lookup_replicate_2.
  - pose proof (length_all_axis0 n a Hrect) as Hlen.
    unfold all_axis0 in *. cbn [foldr]. rewrite lookup_zip_with, Forall_cons, <- IH.
    destruct (lookup_lt_is_Some_2 r c ltac:(lia)) as [x ->].
    destruct (lookup_lt_is_Some_2 (foldr (zip_with andb) (replicate n true) a) c
                ltac:(lia)) as [y ->].
    simpl. destruct x, y; simpl; split; try done; intros [? ?]; done.
Qed.

(** [count_nonzero(np.all(..., axis=0))]: the columns in which the property
    holds in every frame. *)
Lemma all_axis0_count (g : list Z → list bool) (dtraj : list (list Z)) n :
  Forall (λ r, length (g r) = n) dtraj →
  count_nonzero (all_axis0 n (g <$> dtraj))
  = length (filter (λ c, Forall (λ r, g r !! c = Some true) dtraj) (seq 0 n)).
Proof.
  intros Hrect. assert (Forall (λ r, length r = n) (g <$> dtraj)) as Hrect'.
  { apply Forall_fmap. exact Hrect. }
  rewrite count_nonzero_index, length_all_axis0 by done. f_equal.
  apply filter_ext_in. intros c Hc. apply elem_of_seq in Hc.
  rewrite all_axis0_lookup by (done || lia). apply Forall_fmap.
Qed.

(** The pairs of states of two frames with a property, counted by column. *)
Lemma length_filter_zip (P : Z * Z → Prop) `{!∀ p, Decision (P p)} (r r' : list Z) n :
  length r = n → length r' = n →
  length (filter P (zip r r'))
  = length (filter (λ c, ((λ p, bool_decide (P p)) <$> zip r r') !! c = Some true) (seq 0 n)).
Proof.
  intros Hr Hr'.
  transitivity (count_nonzero ((λ p, bool_decide (P p)) <$> zip r r')).
  - clear Hr Hr'. generalize (zip r r') as l. intros l.
    induction l as [|p l IH]; [done|]. rewrite fmap_cons, count_nonzero_cons, filter_cons.
    destruct (decide (P p)).
    + rewrite bool_decide_eq_true_2 by done. cbn [length]. by rewrite IH.
    + rewrite bool_decide_eq_false_2 by done. by rewrite IH.
  - rewrite count_nonzero_index, length_fmap, length_zip_with. do 3 f_equal. lia.
Qed.

Lemma zip_index (P : Z * Z → Prop) `{!∀ p, Decision (P p)} (r r' : list Z) c :
  ((λ p, bool_decide (P p)) <$> zip r r') !! c = Some true
  ↔ ∃ x y, r !! c = Some x ∧ r' !! c = Some y ∧ P (x, y).
Proof.
  rewrite list_lookup_fmap_Some. split.
  - intros ([x y] & Hb & Hl). apply lookup_zip_with_Some in Hl as (x' & y' & Heq & Hx & Hy).
    injection Heq as <- <-. exists x, y. repeat split; try done.
    symmetry in Hb. by apply bool_decide_eq_true_1 in Hb.
  - intros (x & y & Hx & Hy & HP). exists (x, y). split.
    + by rewrite bool_decide_eq_true_2.
    + apply lookup_zip_with_Some. by exists x, y.
Qed.

(** ** Classes of states *)

Section Classes.
Context {K : Type} `{EqDecision K} (k : Z → K).

Lemma class_changes_cons (r0 r1 : list Z) (rest : list (list Z)) :
  class_changes k (r0 :: r1 :: rest)
  = filter (λ p : Z * Z, k p.1 ≠ k p.2) (zip r0 r1) ++ class_changes k (r1 :: rest).
Proof. reflexivity. Qed.

(** A column whose class changes between two frames has a change there. *)
Lemma class_constant_or_change (r0 r1 : list Z) (rest : list (list Z)) n c :
  length r0 = n → length r1 = n → (c < n)%nat →
  class_constant k r1 (r1 :: rest) c →
  class_constant k r0 (r0 :: r1 :: rest) c ∨
  ((λ p : Z * Z, bool_decide (k p.1 ≠ k p.2)) <$> zip r0 r1) !! c = Some true.
Proof.
  intros Hr0 Hr1 Hc Hconst.
  destruct (lookup_lt_is_Some_2 r0 c ltac:(lia)) as [x Hx].
  destruct (lookup_lt_is_Some_2 r1 c ltac:(lia)) as [y Hy].
  destruct (decide (k x = k y)) as [Heq|Hne].
  - left. unfold class_constant in *. apply Forall_cons. split; [done|].
    eapply Forall_impl; [exact Hconst|]. intros r Hr. cbv beta in Hr.
    rewrite Hr, Hx, Hy. simpl. by rewrite Heq.
  - right. apply (zip_index (λ p : Z * Z, k p.1 ≠ k p.2)). by exists x, y.
Qed.

Lemma class_change_not_constant (ref r0 r1 : list Z) c :
  k <$> r0 !! c = k <$> ref !! c → k <$> r1 !! c = k <$> ref !! c →
  ((λ p : Z * Z, bool_decide (k p.1 ≠ k p.2)) <$> zip r0 r1) !! c = Some true → False.
Proof.
  intros H0 H1 (x & y & Hx & Hy & Hne)%(zip_index (λ p : Z * Z, k p.1 ≠ k p.2)).
  rewrite Hx, <- H1, Hy in H0. simpl in *. congruence.
Qed.

(** Every column is of one class throughout, or has a change of class. *)
Lemma class_changes_lower (rest : list (list Z)) (r0 : list Z) n :
  Forall (λ r, length r = n) (r0 :: rest) →
  (n ≤ length (filter (class_constant k r0 (r0 :: rest)) (seq 0 n))
       + length (class_changes k (r0 :: rest)))%nat.
Proof.
  revert r0. induction rest as [|r1 rest IH]; intros r0 Hrect.
  - rewrite (filter_ext_in _ (λ _, True)), filter_True_all, length_seq; [lia|].
    intros c _. split; [done|]. intros _. by apply Forall_cons.
  - apply Forall_cons in Hrect as [Hr0 Hrect].
    pose proof Hrect as Hr1. apply Forall_cons in Hr1 as [Hr1 _].
    specialize (IH r1 Hrect).
    rewrite class_changes_cons, length_app.
    rewrite (length_filter_zip (λ p : Z * Z, k p.1 ≠ k p.2) r0 r1 n Hr0 Hr1).
    pose proof (length_filter_weights
      (class_constant k r1 (r1 :: rest)) (λ _, False)
      (class_constant k r0 (r0 :: r1 :: rest))
      (λ c, ((λ p : Z * Z, bool_decide (k p.1 ≠ k p.2)) <$> zip r0 r1) !! c = Some true)
      (λ _, False) (seq 0 n)) as Hw.
    rewrite !filter_False_nil in Hw. cbn [length] in Hw.
    enough (length (filter (class_constant k r1 (r1 :: rest)) (seq 0 n)) + 0
      ≤ length (filter (class_constant k r0 (r0 :: r1 :: rest)) (seq 0 n))
        + length (filter (λ c, ((λ p : Z * Z, bool_decide (k p.1 ≠ k p.2)) <$> zip r0 r1) !! c
                               = Some true) (seq 0 n)) + 0)%nat by lia.
    apply Hw; [tauto|]. intros c Hc [Hconst|[]]. apply elem_of_seq in Hc.
    destruct (class_constant_or_change r0 r1 rest n c Hr0 Hr1 ltac:(lia) Hconst); tauto.
Qed.

(** A column of one class throughout has no change of class. *)
Lemma class_changes_upper (St : nat → Prop) `{!∀ c, Decision (St c)}
    (ref : list Z) (rows : list (list Z)) (r : list Z) n :
  Forall (λ r, length r = n) (r :: rows) →
  (∀ c, St c → Forall (λ r' : list Z, k <$> r' !! c = k <$> ref !! c) (r :: rows)) →
  (length (class_changes k (r :: rows)) + length rows * length (filter St (seq 0 n))
   ≤ length rows * n)%nat.
Proof.
  revert r. induction rows as [|r1 rows IH]; intros r Hrect HSt; [simpl; lia|].
  apply Forall_cons in Hrect as [Hr Hrect].
  pose proof Hrect as Hr1. apply Forall_cons in Hr1 as [Hr1 _].
  specialize (IH r1 Hrect ltac:(intros c Hc; by eapply Forall_cons_1, HSt)).
  rewrite class_changes_cons, length_app.
  rewrite (length_filter_zip (λ p : Z * Z, k p.1 ≠ k p.2) r r1 n Hr Hr1).
  pose proof (length_filter_weights
    (λ c, ((λ p : Z * Z, bool_decide (k p.1 ≠ k p.2)) <$> zip r r1) !! c = Some true)
    St (λ _, True) (λ _, False) (λ _, False) (seq 0 n)) as Hw.
  rewrite !filter_False_nil, filter_True_all, length_seq in Hw. cbn [length] in *.
  assert (length (filter (λ c, ((λ p : Z * Z, bool_decide (k p.1 ≠ k p.2)) <$> zip r r1) !! c
                               = Some true) (seq 0 n))
          + length (filter St (seq 0 n)) ≤ n + 0 + 0)%nat as Hle.
  { apply Hw; [|tauto]. intros c _ Hch Hc. specialize (HSt c Hc).
    apply Forall_cons in HSt as [H0 HSt]. apply Forall_cons in HSt as [H1 _].
    exact (class_change_not_constant ref r r1 c H0 H1 Hch). }
  lia.
Qed.

End Classes.

(** ** Staying compounds *)

Lemma state_changes_class (dtraj : list (list Z)) :
  class_changes (λ x : Z, x) dtraj = state_changes dtraj.
Proof. reflexivity. Qed.

Lemma eq_row_lookup (r r0 : list Z) c :
  zip_with (λ x y, x =? y)%Z r r0 !! c = Some true
  ↔ ∃ x, r !! c = Some x ∧ r0 !! c = Some x.
Proof.
  rewrite lookup_zip_with_Some. split.
  - intros (x & y & Heq & Hx & Hy). symmetry in Heq. apply Z.eqb_eq in Heq as ->.
    by exists y.
  - intros (x & Hx & Hy). exists x, x. by rewrite Z.eqb_refl.
Qed.

Lemma n_stay_columns (r0 : list Z) (dtraj : list (list Z)) n :
  length r0 = n → Forall (λ r, length r = n) dtraj →
  count_nonzero (all_axis0 n ((λ r : list Z, zip_with (λ x y, x =? y)%Z r r0) <$> dtraj))
  = length (filter (class_constant (λ x : Z, x) r0 dtraj) (seq 0 n)).
Proof.
  intros Hr0 Hrect. rewrite all_axis0_count.
  2:{ eapply Forall_impl; [exact Hrect|]. intros r Hr. cbv beta in *.
      rewrite length_zip_with. lia. }
  apply f_equal, filter_ext_in. intros c Hc. apply elem_of_seq in Hc.
  unfold class_constant. rewrite !Forall_forall. split; intros Hall r Hr.
  - apply Hall, eq_row_lookup in Hr as (x & -> & ->). done.
  - apply eq_row_lookup. specialize (Hall r Hr).
    rewrite Forall_forall in Hrect. specialize (Hrect r Hr).
    destruct (lookup_lt_is_Some_2 r c ltac:(lia)) as [x Hx].
    destruct (lookup_lt_is_Some_2 r0 c ltac:(lia)) as [y Hy].
    rewrite Hx, Hy in Hall. simpl in Hall. exists x. split; congruence.
Qed.

(** X19. The compounds that change state are at most as many as the changes
    of state, and each of them changes at most once between any two
    consecutive frames: with [n] compounds,
    [n - n_stay <= n_trans <= (n_frames - 1) * (n - n_stay)]. *)
Theorem stay_and_transitions (dtraj : list (list Z)) (n : nat) (info : TransitionInfo) :
  Forall (λ r, length r = n) dtraj →
  dtraj_transition_info dtraj = Some info →
  (n_stay info ≤ n ∧
   n - n_stay info ≤ n_trans info ∧
   n_trans info ≤ (length dtraj - 1) * (n - n_stay info))%nat.
Proof.
  intros Hrect Hinfo. destruct dtraj as [|r0 rest]; [done|].
  assert (n_stay info
          = count_nonzero (all_axis0 n
              ((λ r : list Z, zip_with (λ x y, x =? y)%Z r r0) <$> r0 :: rest)) ∧
          n_trans info = length (state_changes (r0 :: rest))) as [-> ->].
  { rewrite (dtraj_transition_info_eq r0 rest n Hrect) in Hinfo.
    by injection Hinfo as <-. }
  cbn [length]. pose proof Hrect as Hr0. apply Forall_cons in Hr0 as [Hr0 _].
  rewrite (n_stay_columns r0 (r0 :: rest) n Hr0 Hrect), <- state_changes_class.
  pose proof (class_changes_lower (λ x : Z, x) rest r0 n Hrect) as Hlow.
  pose proof (class_changes_upper (λ x : Z, x)
    (class_constant (λ x : Z, x) r0 (r0 :: rest)) r0 rest r0 n Hrect
    ltac:(intros c Hc; exact Hc)) as Hup.
  pose proof (length_filter (class_constant (λ x : Z, x) r0 (r0 :: rest)) (seq 0 n)) as Hle.
  rewrite length_seq in Hle. nia.
Qed.

(** ** Negative states *)

Lemma sign_lookup (f : Z → bool) (r : list Z) c :
  (f <$> r) !! c = Some true ↔ ∃ x, r !! c = Some x ∧ f x = true.
Proof.
  rewrite list_lookup_fmap_Some. split; intros (x & ? & ?); exists x; done.
Qed.

Lemma always_neg_columns (dtraj : list (list Z)) (f : Z → bool) n :
  Forall (λ r, length r = n) dtraj →
  count_nonzero (all_axis0 n ((λ r : list Z, f <$> r) <$> dtraj))
  = length (filter (λ c, Forall (λ r : list Z, (f <$> r) !! c = Some true) dtraj) (seq 0 n)).
Proof.
  intros Hrect. apply all_axis0_count.
  eapply Forall_impl; [exact Hrect|]. intros r Hr. cbv beta. by rewrite length_fmap.
Qed.

(** The compounds of one sign throughout are those that are always, and
    those that are never, in a negative state. *)
Lemma sign_constant_columns (r0 : list Z) (rest : list (list Z)) n :
  Forall (λ r, length r = n) (r0 :: rest) →
  let dtraj := r0 :: rest in
  (count_nonzero (all_axis0 n ((λ r : list Z, (λ x, x <? 0)%Z <$> r) <$> dtraj))
   + count_nonzero (all_axis0 n ((λ r : list Z, (λ x, 0 <=? x)%Z <$> r) <$> dtraj)))%nat
  = length (filter (class_constant (λ x : Z, bool_decide (x < 0)%Z) r0 dtraj) (seq 0 n)).
Proof.
  intros Hrect dtraj. subst dtraj.
  rewrite !always_neg_columns by done.
  pose proof Hrect as Hr0. apply Forall_cons in Hr0 as [Hr0 _].
  set (Neg := λ c, Forall (λ r : list Z, ((λ x, x <? 0)%Z <$> r) !! c = Some true) (r0 :: rest)).
  set (Pos := λ c, Forall (λ r : list Z, ((λ x, 0 <=? x)%Z <$> r) !! c = Some true) (r0 :: rest)).
  set (Const := class_constant (λ x : Z, bool_decide (x < 0)%Z) r0 (r0 :: rest)).
  assert (∀ c, Neg c → Pos c → False) as Hex.
  { intros c HN HP. apply Forall_cons in HN as [HN _]. apply Forall_cons in HP as [HP _].
    apply sign_lookup in HN as (x & Hx & HN). apply sign_lookup in HP as (y & Hy & HP).
    assert (x = y) as -> by congruence. lia. }
  assert (∀ c, Neg c ∨ Pos c → Const c) as H1.
  { intros c HNP. unfold Const, class_constant. apply Forall_forall. intros r Hr.
    destruct HNP as [HN|HP].
    - unfold Neg in HN. rewrite Forall_forall in HN.
      pose proof (HN r Hr) as (x & -> & Hx)%sign_lookup.
      pose proof (HN r0 ltac:(apply elem_of_cons; by left)) as (y & -> & Hy)%sign_lookup.
      simpl. rewrite !bool_decide_eq_true_2 by lia. done.
    - unfold Pos in HP. rewrite Forall_forall in HP.
      pose proof (HP r Hr) as (x & -> & Hx)%sign_lookup.
      pose proof (HP r0 ltac:(apply elem_of_cons; by left)) as (y & -> & Hy)%sign_lookup.
      simpl. rewrite !bool_decide_eq_false_2 by lia. done. }
  assert (∀ c, (c < n)%nat → Const c → Neg c ∨ Pos c) as H2.
  { intros c Hc HC. unfold Const, class_constant in HC. rewrite Forall_forall in HC.
    destruct (lookup_lt_is_Some_2 r0 c ltac:(lia)) as [y Hy].
    destruct (decide (y < 0)%Z) as [Hneg|Hpos]; [left|right];
      apply Forall_forall; intros r Hr; specialize (HC r Hr);
      rewrite Forall_forall in Hrect; specialize (Hrect r Hr);
      destruct (lookup_lt_is_Some_2 r c ltac:(lia)) as [x Hx];
      rewrite Hx, Hy in HC; simpl in HC; apply sign_lookup; exists x; (split; [done|]).
    - rewrite (bool_decide_eq_true_2 (y < 0)%Z) in HC by done.
      injection HC as HC. apply bool_decide_eq_true_1 in HC. lia.
    - rewrite (bool_decide_eq_false_2 (y < 0)%Z) in HC by done.
      injection HC as HC. apply bool_decide_eq_false_1 in HC. lia. }
  pose proof (length_filter_weights Neg Pos Const (λ _, False) (λ _, False) (seq 0 n)
    ltac:(intros c _; apply Hex) ltac:(intros c _ HNP; left; by apply H1)) as Hle.
  pose proof (length_filter_weights Const (λ _, False) Neg Pos (λ _, False) (seq 0 n)
    ltac:(tauto)
    ltac:(intros c Hc%elem_of_seq [HC|[]];
          destruct (H2 c ltac:(lia) HC); tauto)) as Hge.
  rewrite !filter_False_nil in Hle, Hge. cbn [length] in Hle, Hge. lia.
Qed.

(** The changes of sign are the changes from a positive to a negative state
    and those from a negative to a positive state. *)
Lemma sign_changes_pairs (l : list (Z * Z)) :
  length (filter (λ p : Z * Z, bool_decide (p.1 < 0)%Z ≠ bool_decide (p.2 < 0)%Z) l)
  = (length (filter (λ p : Z * Z, (0 ≤ p.1 ∧ p.2 < 0)%Z) (filter (λ p : Z * Z, p.1 ≠ p.2) l))
     + length (filter (λ p : Z * Z, (p.1 < 0 ∧ 0 ≤ p.2)%Z) (filter (λ p : Z * Z, p.1 ≠ p.2) l)))%nat.
Proof.
  induction l as [|[x y] l IH]; [done|].
  rewrite (filter_cons (λ p : Z * Z, bool_decide (p.1 < 0)%Z ≠ bool_decide (p.2 < 0)%Z)).
  rewrite (filter_cons (λ p : Z * Z, p.1 ≠ p.2)).
  destruct (decide (x = y)) as [->|Hne].
  - rewrite decide_False by (simpl; congruence).
    rewrite decide_False by (simpl; congruence). exact IH.
  - rewrite (decide_True (P := (x, y).1 ≠ (x, y).2)) by done.
    rewrite !filter_cons. cbn [fst snd].
    destruct (decide (x < 0)%Z), (decide (y < 0)%Z);
      rewrite ?(bool_decide_eq_true_2 (x < 0)%Z), ?(bool_decide_eq_false_2 (x < 0)%Z),
        ?(bool_decide_eq_true_2 (y < 0)%Z), ?(bool_decide_eq_false_2 (y < 0)%Z) by done;
      repeat case_decide; cbn [length]; try lia; try congruence.
Qed.

Lemma sign_changes_count (rest : list (list Z)) (r0 : list Z) :
  length (class_changes (λ x : Z, bool_decide (x < 0)%Z) (r0 :: rest))
  = (length (filter (λ p : Z * Z, (0 ≤ p.1 ∧ p.2 < 0)%Z) (state_changes (r0 :: rest)))
     + length (filter (λ p : Z * Z, (p.1 < 0 ∧ 0 ≤ p.2)%Z) (state_changes (r0 :: rest))))%nat.
Proof.
  revert r0. induction rest as [|r1 rest IH]; intros r0; [done|].
  rewrite class_changes_cons, <- state_changes_class, class_changes_cons.
  rewrite state_changes_class, !filter_app, !length_app, IH, sign_changes_pairs. lia.
Qed.

(** The frames in a negative state, frame by frame: a column that is
    negative in every frame counts in each, a column that is never negative
    in none. *)
Lemma frames_neg_bounds (A P : nat → Prop) `{!∀ c, Decision (A c)}
    `{!∀ c, Decision (P c)} (rows : list (list Z)) n :
  Forall (λ r, length r = n) rows →
  (∀ c, A c → Forall (λ r : list Z, ((λ x, x <? 0)%Z <$> r) !! c = Some true) rows) →
  (∀ c, P c → Forall (λ r : list Z, ((λ x, 0 <=? x)%Z <$> r) !! c = Some true) rows) →
  (length rows * length (filter A (seq 0 n))
   ≤ count_nonzero (concat ((λ r : list Z, (λ x, x <? 0)%Z <$> r) <$> rows)) ∧
   count_nonzero (concat ((λ r : list Z, (λ x, x <? 0)%Z <$> r) <$> rows))
   + length rows * length (filter P (seq 0 n)) ≤ length rows * n)%nat.
Proof.
  induction rows as [|r rows IH]; intros Hrect HA HP; [simpl; lia|].
  apply Forall_cons in Hrect as [Hr Hrect].
  assert (∀ c, A c → ((λ x, x <? 0)%Z <$> r) !! c = Some true ∧
            Forall (λ r : list Z, ((λ x, x <? 0)%Z <$> r) !! c = Some true) rows) as HA'.
  { intros c Hc. pose proof (HA c Hc) as Hall. by apply Forall_cons in Hall. }
  assert (∀ c, P c → ((λ x, 0 <=? x)%Z <$> r) !! c = Some true ∧
            Forall (λ r : list Z, ((λ x, 0 <=? x)%Z <$> r) !! c = Some true) rows) as HP'.
  { intros c Hc. pose proof (HP c Hc) as Hall. by apply Forall_cons in Hall. }
  destruct (IH Hrect (λ c Hc, proj2 (HA' c Hc)) (λ c Hc, proj2 (HP' c Hc))) as [IH1 IH2].
  rewrite fmap_cons. cbn [concat length]. rewrite count_nonzero_app.
  rewrite (count_nonzero_index ((λ x, x <? 0)%Z <$> r)), length_fmap, Hr.
  pose proof (length_filter_weights A (λ _, False)
    (λ c, ((λ x, x <? 0)%Z <$> r) !! c = Some true) (λ _, False) (λ _, False) (seq 0 n)
    ltac:(tauto)
    ltac:(intros c _ [Hc|[]]; left; exact (proj1 (HA' c Hc)))) as H1.
  pose proof (length_filter_weights P
    (λ c, ((λ x, x <? 0)%Z <$> r) !! c = Some true) (λ _, True) (λ _, False) (λ _, False)
    (seq 0 n)) as H2.
  rewrite !filter_False_nil in H1. rewrite !filter_False_nil, filter_True_all, length_seq in H2.
  cbn [length] in H1, H2.
  assert (length (filter P (seq 0 n))
          + length (filter (λ c, ((λ x, x <? 0)%Z <$> r) !! c = Some true) (seq 0 n))
          ≤ n + 0 + 0)%nat as H2'.
  { apply H2; [|tauto]. intros c _ Hc Hneg. apply HP' in Hc as [Hc _].
    apply sign_lookup in Hc as (x & Hx & Hc). apply sign_lookup in Hneg as (y & Hy & Hneg).
    assert (x = y) as -> by congruence. lia. }
  lia.
Qed.

(** X20. A compound that is always in a negative state is in one in every
    frame, and a compound that is never in one is in none: with [n]
    compounds, [n_frames * always_neg <= n_frames_neg <= n_frames * (n -
    never_neg)]. *)
Theorem frames_neg_between (dtraj : list (list Z)) (n : nat) (info : TransitionInfo) :
  Forall (λ r, length r = n) dtraj →
  dtraj_transition_info dtraj = Some info →
  (length dtraj * always_neg info ≤ n_frames_neg info ∧
   n_frames_neg info + length dtraj * never_neg info ≤ length dtraj * n)%nat.
Proof.
  intros Hrect Hinfo. destruct dtraj as [|r0 rest]; [done|].
  assert (always_neg info
          = length (filter (λ c, Forall (λ r : list Z, ((λ x, x <? 0)%Z <$> r) !! c = Some true)
                                   (r0 :: rest)) (seq 0 n)) ∧
          never_neg info
          = length (filter (λ c, Forall (λ r : list Z, ((λ x, 0 <=? x)%Z <$> r) !! c = Some true)
                                   (r0 :: rest)) (seq 0 n)) ∧
          n_frames_neg info
          = count_nonzero (concat ((λ r : list Z, (λ x, x <? 0)%Z <$> r) <$> r0 :: rest)))
    as (-> & -> & ->).
  { rewrite (dtraj_transition_info_eq r0 rest n Hrect) in Hinfo.
    injection Hinfo as <-. rewrite <- !always_neg_columns by done. done. }
  apply frames_neg_bounds; [done| |]; intros c Hc; exact Hc.
Qed.

(** X21. A compound that is neither always nor never in a negative state
    goes at least once from a positive to a negative state or back, and a
    compound that is always or never in one goes never: with [n] compounds
    and [m = n - always_neg - never_neg],
    [m <= pos2neg + neg2pos <= (n_frames - 1) * m]. *)
Theorem sign_transitions_bounds (dtraj : list (list Z)) (n : nat) (info : TransitionInfo) :
  Forall (λ r, length r = n) dtraj →
  dtraj_transition_info dtraj = Some info →
  (always_neg info + never_neg info ≤ n ∧
   n - (always_neg info + never_neg info) ≤ pos2neg info + neg2pos info ∧
   pos2neg info + neg2pos info
   ≤ (length dtraj - 1) * (n - (always_neg info + never_neg info)))%nat.
Proof.
  intros Hrect Hinfo. destruct dtraj as [|r0 rest]; [done|].
  pose proof (sign_constant_columns r0 rest n Hrect) as Hconst. cbv zeta in Hconst.
  pose proof (sign_changes_count rest r0) as Hsign.
  assert ((always_neg info + never_neg info)%nat
          = length (filter (class_constant (λ x : Z, bool_decide (x < 0)%Z) r0 (r0 :: rest))
                      (seq 0 n)) ∧
          (pos2neg info + neg2pos info)%nat
          = length (class_changes (λ x : Z, bool_decide (x < 0)%Z) (r0 :: rest))) as [-> ->].
  { rewrite (dtraj_transition_info_eq r0 rest n Hrect) in Hinfo.
    injection Hinfo as <-. by rewrite <- Hconst, Hsign. }
  cbn [length].
  pose proof (class_changes_lower (λ x : Z, bool_decide (x < 0)%Z) rest r0 n Hrect) as Hlow.
  pose proof (class_changes_upper (λ x : Z, bool_decide (x < 0)%Z)
    (class_constant (λ x : Z, bool_decide (x < 0)%Z) r0 (r0 :: rest)) r0 rest r0 n Hrect
    ltac:(intros c Hc; exact Hc)) as Hup.
  pose proof (length_filter (class_constant (λ x : Z, bool_decide (x < 0)%Z) r0 (r0 :: rest))
                (seq 0 n)) as Hle.
  rewrite length_seq in Hle. nia.
Qed.

Lemma dtraj_transition_info_counts_witness :
  ∃ info,
    dtraj_transition_info example_dtraj = Some info ∧
    n_trans info = length (state_changes example_dtraj) ∧
    pos2pos info = length (filter (λ p : Z * Z, (0 ≤ p.1 ∧ 0 ≤ p.2)%Z) (state_changes example_dtraj)) ∧
    pos2neg info = length (filter (λ p : Z * Z, (0 ≤ p.1 ∧ p.2 < 0)%Z) (state_changes example_dtraj)) ∧
    neg2pos info = length (filter (λ p : Z * Z, (p.1 < 0 ∧ 0 ≤ p.2)%Z) (state_changes example_dtraj)) ∧
    neg2neg info = length (filter (λ p : Z * Z, (p.1 < 0 ∧ p.2 < 0)%Z) (state_changes example_dtraj)).
Proof.
  apply (dtraj_transition_info_counts example_dtraj 3); [done| |].
  - repeat constructor.
  - apply (bool_decide_unpack _). vm_compute. exact I.
Defined.

Lemma stay_and_transitions_witness :
  (n_stay example_info ≤ 3 ∧
   3 - n_stay example_info ≤ n_trans example_info ∧
   n_trans example_info ≤ (length example_dtraj - 1) * (3 - n_stay example_info))%nat.
Proof.
  apply (stay_and_transitions example_dtraj 3 example_info); [|reflexivity].
  repeat constructor.
Defined.

Lemma frames_neg_between_witness :
  (length example_dtraj * always_neg example_info ≤ n_frames_neg example_info ∧
   n_frames_neg example_info + length example_dtraj * never_neg example_info
   ≤ length example_dtraj * 3)%nat.
Proof.
  apply (frames_neg_between example_dtraj 3 example_info); [|reflexivity].
  repeat constructor.
Defined.

Lemma sign_transitions_bounds_witness :
  (always_neg example_info + never_neg example_info ≤ 3 ∧
   3 - (always_neg example_info + never_neg example_info)
   ≤ pos2neg example_info + neg2pos example_info ∧
   pos2neg example_info + neg2pos example_info
   ≤ (length example_dtraj - 1) * (3 - (always_neg example_info + never_neg example_info)))%nat.
Proof.
  apply (sign_transitions_bounds example_dtraj 3 example_info); [|reflexivity].
  repeat constructor.
Defined.

(** * The reference residues without contact *)

(** ** Masks of unused partners *)

Lemma count_false_insert (u : list bool) i :
  (i < length u)%nat →
  length (filter (λ b, b = false) (<[i := false]> u))
  = (length (filter (λ b, b = false) u)
     + if decide (u !! i = Some true) then 1 else 0)%nat.
Proof.
  revert i. induction u as [|b u IH]; intros i Hi; [simpl in Hi; lia|].
  destruct i as [|i].
  - change (<[0%nat := false]> (b :: u)) with (false :: u).
    change ((b :: u) !! 0%nat) with (Some b).
    rewrite !filter_cons. destruct b.
    + rewrite decide_True by done. rewrite (decide_False (P := true = false)) by done.
      rewrite (decide_True (P := Some true = Some true)) by done. simpl. lia.
    + rewrite decide_True by done.
      rewrite (decide_False (P := Some false = Some true)) by done. simpl. lia.
  - simpl in Hi. specialize (IH i ltac:(lia)).
    change (<[S i := false]> (b :: u)) with (b :: <[i := false]> u).
    change ((b :: u) !! S i) with (u !! i).
    rewrite !filter_cons. destruct (decide (b = false)); cbn [length]; rewrite IH; lia.
Qed.

Lemma put_idx_false_count (idx : list nat) (u : list bool) :
  Forall (λ i, (i < length u)%nat) idx → NoDup idx →
  length (filter (λ b, b = false) (put_idx u idx (replicate (length idx) false)))
  = (length (filter (λ b, b = false) u)
     + length (filter (λ i, u !! i = Some true) idx))%nat.
Proof.
  revert u. induction idx as [|i idx IH]; intros u Hlt Hnd; [simpl; lia|].
  apply Forall_cons in Hlt as [Hi Hlt]. apply NoDup_cons in Hnd as [Hni Hnd].
  cbn [length replicate put_idx].
  rewrite IH; [|by rewrite length_insert|done].
  rewrite count_false_insert by done.
  rewrite (filter_ext_in (λ j, <[i := false]> u !! j = Some true)
             (λ j, u !! j = Some true) idx).
  2:{ intros j Hj. rewrite list_lookup_insert_ne; [done|]. by intros ->. }
  rewrite (filter_cons (λ j, u !! j = Some true)).
  destruct (decide (u !! i = Some true)); simpl; lia.
Qed.

Lemma take_idx_count (u : list bool) idx fresh :
  take_idx u idx = Some fresh →
  count_nonzero fresh = length (filter (λ i, u !! i = Some true) idx).
Proof.
  intros [_ H]%take_idx_inv. induction H as [|i b idx fresh Hi _ IH]; [done|].
  rewrite count_nonzero_cons, IH, filter_cons.
  destruct b.
  - rewrite decide_True by done. done.
  - rewrite decide_False by (rewrite Hi; congruence). done.
Qed.

Lemma clear_idx_count (u : list bool) idx u' fresh :
  clear_idx u idx = Some u' → take_idx u idx = Some fresh → NoDup idx →
  length (filter (λ b, b = false) u')
  = (length (filter (λ b, b = false) u) + count_nonzero fresh)%nat.
Proof.
  intros Hclear Htake Hnd. rewrite (take_idx_count _ _ _ Htake).
  pose proof Htake as [Hlt _]%take_idx_inv.
  unfold clear_idx in Hclear. rewrite Htake in Hclear. simpl in Hclear.
  injection Hclear as <-. by apply put_idx_false_count.
Qed.

Lemma take_idx_all_true (u : list bool) idx fresh :
  length (filter (λ b, b = false) u) = 0%nat → take_idx u idx = Some fresh →
  count_nonzero fresh = length idx.
Proof.
  intros Hall Htake. rewrite (take_idx_count _ _ _ Htake).
  pose proof Htake as [Hlt _]%take_idx_inv.
  rewrite filter_all; [done|]. intros i Hi.
  eapply Forall_forall in Hlt; [|exact Hi]. simpl in Hlt.
  destruct (lookup_lt_is_Some_2 u i Hlt) as [b Hb]. rewrite Hb. f_equal.
  destruct b; [done|]. exfalso.
  assert (false ∈ filter (λ b, b = false) u) as Hin.
  { apply list_elem_of_filter. split; [done|]. by eapply list_elem_of_lookup_2. }
  destruct (filter (λ b, b = false) u); [by apply elem_of_nil in Hin|done].
Qed.

Lemma row_insert (matrix : list (list N)) i j (r : list N) :
  (j < length matrix)%nat →
  row (<[j := r]> matrix) i = if decide (i = j) then r else row matrix i.
Proof.
  intros Hj. unfold row. destruct (decide (i = j)) as [->|Hne].
  - by rewrite list_lookup_insert_eq.
  - by rewrite list_lookup_insert_ne.
Qed.

(** ** The slots of a reference residue *)

Section Slots.
Context (in_range : Point → Point → Q → bool) (ref sel : AtomGroup) (cutoff : Q).
Context (emc : nat).
Hypothesis sel_unique : NoDup (ids sel).
Hypothesis range : N.of_nat (n_atoms ref * n_atoms sel) < 2 ^ 32.

Local Abbreviation near a := (atoms_around_point in_range sel (position a) cutoff).
Local Abbreviation body :=
  (loop_body in_range sel cutoff (np_unique (resids ref)) (np_unique (resids sel))).
Local Abbreviation refresid a := (searchsorted (np_unique (resids ref)) (resid a)).
Local Abbreviation WF := (wf_state (n_residues ref) (n_atoms sel) (n_residues sel)).
Local Abbreviation n_false u := (length (filter (λ b : bool, b = false) u)).

(** The partners credited to a residue: the slot of the counter holds the
    number of partners marked as used, and none is marked exactly when the
    residue has no contact. *)
Lemma credit_step (unused unused' : list (list bool)) (diff diff' : list N)
    (i0 : nat) (idx : list nat) (c : nat) (t n_near : N) (width : nat) :
  credit_unused unused i0 idx = Some (c, unused') →
  incr_at diff i0 (N.of_nat c) = Some diff' →
  NoDup idx → (length idx = 0%nat ↔ n_near = 0) →
  Forall (λ u, length u = width) unused → N.of_nat width < 2 ^ 32 →
  (∃ u, unused !! i0 = Some u ∧ bin diff i0 = N.of_nat (n_false u) ∧
        (n_false u = 0%nat ↔ t = 0)) →
  ∃ u, unused' !! i0 = Some u ∧ bin diff' i0 = N.of_nat (n_false u) ∧
       (n_false u = 0%nat ↔ t + n_near = 0).
Proof.
  intros (u & fresh & u' & X1 & X2 & X3 & -> & ->)%credit_unused_inv
    [Hi ->]%incr_at_inv Hnd Hidx Hwidth Hrange (u0 & U & D & F).
  rewrite X1 in U. injection U as <-.
  pose proof (clear_idx_count u idx u' fresh X3 X2 Hnd) as Hcount.
  pose proof (length_filter (λ b : bool, b = false) u') as Hle.
  pose proof X3 as [Hlen _]%clear_idx_inv.
  eapply Forall_lookup_1 in Hwidth; [|exact X1]. cbv beta in Hwidth.
  exists u'. split; [apply list_lookup_insert_eq; by eapply lookup_lt_Some|].
  split.
  - rewrite bin_insert by done. rewrite decide_True by done.
    rewrite D, u32_small by lia. lia.
  - split.
    + intros Hz. assert (n_false u = 0%nat) as Hu by lia.
      pose proof (take_idx_all_true u idx fresh Hu X2). lia.
    + intros Hz. assert (n_false u = 0%nat) as Hu by (apply F; lia).
      pose proof (take_idx_all_true u idx fresh Hu X2). lia.
Qed.

Lemma loop_residue_slots :
  (0 < emc)%nat →
  ∃ st, for_each body (init_state ref sel emc) ref = Some st ∧ WF st ∧
    ∀ i, (i < n_residues ref)%nat →
      (bin (s_refres_selatm_tot st) i = 0
       ↔ Forall (λ a, refresid a = i → n_atoms (near a) = 0%nat) ref) ∧
      np_sum (row (s_refres_selatm_pair st) i) = bin (s_refres_selatm_tot st) i ∧
      np_sum (row (s_refres_selres_pair st) i) = bin (s_refres_selatm_tot st) i ∧
      (bin (s_refres_diff_selatm st) i = 0 ↔ bin (s_refres_selatm_tot st) i = 0) ∧
      (bin (s_refres_diff_selres st) i = 0 ↔ bin (s_refres_selatm_tot st) i = 0).
Proof.
  intros Hemc.
  destruct (loop_inv in_range ref sel cutoff emc
    (λ done st,
       np_sum (s_refres_selatm_tot st) = N.of_nat (n_contacts in_range done sel cutoff) ∧
       ∀ i, (i < n_residues ref)%nat →
         (bin (s_refres_selatm_tot st) i = 0
          ↔ Forall (λ a, refresid a = i → n_atoms (near a) = 0%nat) done) ∧
         np_sum (row (s_refres_selatm_pair st) i) = bin (s_refres_selatm_tot st) i ∧
         np_sum (row (s_refres_selres_pair st) i) = bin (s_refres_selatm_tot st) i ∧
         (∃ u, s_selatm_unused st !! i = Some u ∧
               bin (s_refres_diff_selatm st) i = N.of_nat (n_false u) ∧
               (n_false u = 0%nat ↔ bin (s_refres_selatm_tot st) i = 0)) ∧
         (∃ u, s_selres_unused st !! i = Some u ∧
               bin (s_refres_diff_selres st) i = N.of_nat (n_false u) ∧
               (n_false u = 0%nat ↔ bin (s_refres_selatm_tot st) i = 0)))
    Hemc) as (st & Hst & Hwf & _ & HI).
  - simpl. unfold zeros. rewrite np_sum_replicate. split; [done|]. intros i Hi.
    rewrite !bin_replicate. unfold row.
    rewrite !lookup_replicate_2 by done. simpl. rewrite !np_sum_replicate.
    split; [split; [constructor|done]|]. split; [done|]. split; [done|].
    split; eexists; (split; [reflexivity|]);
      rewrite filter_none by (by intros b ->%elem_of_replicate_inv); done.
  - intros done a todo st st' Href Hwf' (Isum & Islots) Hbody.
    set (nr := atoms_around_point in_range sel (position a) cutoff).
    assert (a ∈ ref) as Ha.
    { rewrite Href. apply elem_of_app. right. by left. }
    pose proof (refresid_lt ref a Ha) as Hi0.
    assert (N.of_nat (n_contacts in_range done sel cutoff) + N.of_nat (n_atoms nr)
            < 2 ^ 32) as Hlt.
    { pose proof (n_contacts_le in_range (done ++ [a]) sel cutoff) as Hle.
      rewrite n_contacts_snoc in Hle. fold nr in Hle.
      pose proof range as Hrange.
      unfold n_atoms in Hrange, Hle. rewrite Href, length_app in Hrange.
      rewrite length_app in Hle. simpl in Hrange, Hle. unfold n_atoms. nia. }
    assert (N.of_nat (n_atoms sel) < 2 ^ 32) as Hsel.
    { pose proof range as Hrange. unfold n_atoms in Hrange |- *.
      rewrite Href, length_app in Hrange. simpl in Hrange. nia. }
    pose proof (n_residues_le sel) as Hselres.
    apply loop_body_inv in Hbody
      as (_ & _ & _ & B4 & (c1 & B5 & B6) & (row1 & row1' & R1 & R2 & R3)
          & (c2 & B7 & B8) & (row2 & row2' & S1 & S2 & S3)).
    fold nr in B4, B5, R2, B7, S2.
    pose proof B4 as [L4 E4]%incr_at_inv.
    pose proof (bin_le_np_sum (s_refres_selatm_tot st)
                  (searchsorted (np_unique (resids ref)) (resid a))) as Hbin.
    assert (length (intersect1d_indices (ids sel) (ids nr)) = n_atoms nr) as Hlen1.
    { apply n_atoms_selatmids. exact sel_unique. }
    assert (length (intersect1d_indices (np_unique (resids sel)) (np_unique (resids nr)))
            = length (np_unique (resids nr))) as Hlen2.
    { unfold nr. by rewrite length_selresids_idx, length_unique_counts. }
    pose proof (n_unique_resids_zero nr) as Hzero.
    split.
    { rewrite n_contacts_snoc. fold nr. rewrite Nat2N.inj_add, E4.
      pose proof (np_sum_insert _ _ _
                    (bin (s_refres_selatm_tot st)
                       (searchsorted (np_unique (resids ref)) (resid a))
                     + N.of_nat (n_atoms nr))
                    (lookup_bin _ _ L4)) as Hs.
      rewrite u32_small by lia. lia. }
    intros i Hi. destruct (Islots i Hi) as (Z0 & A1 & A2 & U1 & U2).
    destruct (decide (i = searchsorted (np_unique (resids ref)) (resid a))) as [->|Hne].
    + assert (bin (s_refres_selatm_tot st')
                (searchsorted (np_unique (resids ref)) (resid a))
              = bin (s_refres_selatm_tot st)
                  (searchsorted (np_unique (resids ref)) (resid a))
                + N.of_nat (n_atoms nr)) as Htot.
      { rewrite E4, bin_insert by done. rewrite decide_True by done.
        apply u32_small. lia. }
      rewrite Htot, R3, S3.
      rewrite !row_insert by (by eapply lookup_lt_Some).
      rewrite !decide_True by done.
      assert (row (s_refres_selatm_pair st)
                (searchsorted (np_unique (resids ref)) (resid a)) = row1) as Hr1.
      { unfold row. by rewrite R1. }
      assert (row (s_refres_selres_pair st)
                (searchsorted (np_unique (resids ref)) (resid a)) = row2) as Hr2.
      { unfold row. by rewrite S1. }
      rewrite Hr1 in A1. rewrite Hr2 in A2.
      split; [|split; [|split; [|split]]].
      * rewrite Forall_app, Forall_singleton, <- Z0. fold nr. lia.
      * rewrite (fancy_incr_np_sum _ _ _ (NoDup_intersect1d_indices _ _) R2);
          rewrite Hlen1, A1; [done|lia].
      * assert (np_sum (N.of_nat <$> unique_counts (resids nr)) = N.of_nat (n_atoms nr))
          as Hc.
        { rewrite np_sum_unique_counts. unfold resids, n_atoms. by rewrite length_fmap. }
        rewrite (add_at_np_sum _ _ _ _ S2); rewrite Hc, A2; [done|lia].
      * apply (credit_step (s_selatm_unused st) _ (s_refres_diff_selatm st) _ _
                 (intersect1d_indices (ids sel) (ids nr)) c1 _ _ (n_atoms sel));
          try done.
        -- apply NoDup_intersect1d_indices.
        -- rewrite Hlen1. lia.
        -- apply (wf_atm_unused_rows _ _ _ _ Hwf').
      * apply (credit_step (s_selres_unused st) _ (s_refres_diff_selres st) _ _
                 (intersect1d_indices (np_unique (resids sel)) (np_unique (resids nr)))
                 c2 _ _ (n_residues sel)); try done.
        -- apply NoDup_intersect1d_indices.
        -- rewrite Hlen2. lia.
        -- apply (wf_res_unused_rows _ _ _ _ Hwf').
        -- lia.
    + apply incr_at_inv in B6 as [L6 E6]. apply incr_at_inv in B8 as [L8 E8].
      apply credit_unused_inv in B5 as (? & ? & ? & X1 & _ & _ & _ & E5).
      apply credit_unused_inv in B7 as (? & ? & ? & Y1 & _ & _ & _ & E7).
      rewrite E4, E6, E8, R3, S3, E5, E7.
      rewrite !bin_insert by done. rewrite !decide_False by done.
      rewrite !row_insert by (by eapply lookup_lt_Some).
      rewrite !decide_False by done.
      rewrite !list_lookup_insert_ne by done.
      split; [|done].
      rewrite Forall_app, Forall_singleton, <- Z0. split; [|tauto].
      intros Hz. split; [done|]. intros Heq. by destruct Hne.
  - exists st. split; [done|]. split; [done|]. intros i Hi.
    destruct (HI i Hi) as (Z0 & A1 & A2 & (u1 & _ & D1 & F1) & (u2 & _ & D2 & F2)).
    split; [done|]. split; [done|]. split; [done|]. split.
    + rewrite D1, <- F1. lia.
    + rewrite D2, <- F2. lia.
Qed.

End Slots.

(** ** Counting the residues without contact *)

Lemma count_of_zero_iff (l1 l2 : list N) :
  length l1 = length l2 →
  (∀ i, (i < length l1)%nat → bin l1 i = 0 ↔ bin l2 i = 0) →
  count_of 0 l1 = count_of 0 l2.
Proof.
  revert l2. induction l1 as [|x l1 IH]; intros [|y l2] Hlen Hz; try done.
  rewrite !count_of_cons. injection Hlen as Hlen.
  rewrite (IH l2 Hlen).
  2:{ intros i Hi. specialize (Hz (S i) ltac:(simpl; lia)).
      by rewrite !bin_cons_S in Hz. }
  specialize (Hz 0%nat ltac:(simpl; lia)). rewrite !bin_cons_0 in Hz.
  destruct (decide (x = 0)), (decide (y = 0)); tauto || lia.
Qed.

Lemma np_sum_eq_0 (r : list N) : np_sum r = 0 ↔ ¬ Exists (λ x, x ≠ 0) r.
Proof.
  induction r as [|x r IH]; [split; [by intros _ ?%Exists_nil|done]|].
  rewrite np_sum_cons, Exists_cons. split.
  - intros Hs [Hx|Hr]; [lia|]. apply IH; [lia|done].
  - intros Hn. destruct (decide (x = 0)) as [->|Hx]; [|tauto].
    rewrite N.add_0_l. apply IH. tauto.
Qed.

(** The rows without a nonzero entry are as many as the empty slots of an
    array that holds the sums of the rows. *)
Lemma zero_rows_count (matrix : list (list N)) (tot : list N) :
  length matrix = length tot →
  (∀ i, (i < length matrix)%nat → np_sum (row matrix i) = bin tot i) →
  (length matrix - residues_in_contact matrix)%nat = count_of 0 tot.
Proof.
  revert tot. induction matrix as [|r matrix IH]; intros [|t tot] Hlen Hrow; try done.
  injection Hlen as Hlen. rewrite count_of_cons.
  specialize (IH tot Hlen ltac:(intros i Hi; exact (Hrow (S i) ltac:(simpl; lia)))).
  specialize (Hrow 0%nat ltac:(simpl; lia)). unfold row in Hrow. simpl in Hrow.
  rewrite bin_cons_0 in Hrow.
  unfold residues_in_contact in *. rewrite filter_cons.
  pose proof (length_filter (λ row, Exists (λ x, x ≠ 0) row) matrix) as Hle.
  pose proof (np_sum_eq_0 r) as Hz.
  destruct (decide (Exists (λ x, x ≠ 0) r)), (decide (t = 0)); cbn [length];
    try lia; exfalso; subst; tauto.
Qed.

(** The slots of a per-residue array: one for every resid of the
    reference group, and the slots that are left unused when residues share
    a resid. *)
Lemma slots_by_resid (ref : AtomGroup) :
  seq 0 (n_residues ref)
  ≡ₚ (searchsorted (np_unique (resids ref)) <$> np_unique (resids ref))
     ++ seq (length (np_unique (resids ref))) (unused_slots ref).
Proof.
  pose proof (n_unique_resids_le ref) as Hle. unfold unused_slots.
  assert (searchsorted (np_unique (resids ref)) <$> np_unique (resids ref)
          ≡ₚ seq 0 (length (np_unique (resids ref)))) as ->.
  { apply submseteq_length_Permutation.
    - apply NoDup_submseteq.
      + apply NoDup_fmap_2_strong; [|apply NoDup_np_unique]. intros v w Hv Hw.
        by apply searchsorted_inj.
      + intros i (v & -> & Hv)%list_elem_of_fmap. apply elem_of_seq.
        pose proof (searchsorted_lt _ _ Hv) as Hlt. lia.
    - by rewrite length_seq, length_fmap. }
  replace (n_residues ref)
    with (length (np_unique (resids ref))
          + (n_residues ref - length (np_unique (resids ref))))%nat at 1 by lia.
  by rewrite seq_app.
Qed.

(** The empty slots of a per-residue array, enumerated by the resids of
    the reference group; the unused slots are empty. *)
Lemma count_slots_by_residue (ref : AtomGroup) (tot : list N) (P : Atom → Prop)
    `{!∀ a, Decision (P a)} :
  length tot = n_residues ref →
  (∀ i, (i < n_residues ref)%nat →
     bin tot i = 0
     ↔ Forall (λ a, searchsorted (np_unique (resids ref)) (resid a) = i → P a) ref) →
  count_of 0 tot
  = (length (filter (λ r, Forall (λ a, resid a = r → P a) ref) (remove_dups (resids ref)))
     + unused_slots ref)%nat.
Proof.
  intros Hlen Hslot. unfold count_of.
  rewrite <- (fmap_bin_seq tot) at 1. rewrite length_filter_fmap, Hlen.
  rewrite (filter_ext_in _
    (λ i, Forall (λ a, searchsorted (np_unique (resids ref)) (resid a) = i → P a) ref)).
  2:{ intros i Hi%elem_of_seq. apply Hslot. lia. }
  rewrite (slots_by_resid ref), filter_app, length_app. f_equal.
  - rewrite length_filter_fmap, <- np_unique_Permutation.
    f_equal. apply filter_ext_in. intros r Hr. rewrite !Forall_forall.
    split; intros Hall a Ha Heq; apply Hall; try done.
    + by rewrite Heq.
    + apply (searchsorted_inj (np_unique (resids ref))); [|done|done].
      apply elem_of_np_unique. unfold resids. by apply list_elem_of_fmap_2.
  - rewrite filter_all; [by rewrite length_seq|].
    intros i Hi%elem_of_seq. apply Forall_forall. intros a Ha Heq. exfalso.
    assert (searchsorted (np_unique (resids ref)) (resid a)
            < length (np_unique (resids ref)))%nat as Hlt.
    { apply searchsorted_lt, elem_of_np_unique. unfold resids.
      by apply list_elem_of_fmap_2. }
    lia.
Qed.

(** X22. For a positive cutoff, distinct selection atoms and
    [n_ref_atoms * n_sel_atoms < 2^32], the five residue-level histograms
    [refres_diff_selatm], [refres_same_selatm], [refres_selatm_tot],
    [refres_diff_selres] and [refres_same_selres] have the same bin 0, which
    is what lines 656-683 of the debug branch check: the number of resids of
    the reference group none of whose atoms has a selection atom within the
    cutoff, plus the number of slots that the loop leaves unused. The loop
    finds the slot of a residue by its resid (lines 462 and 491). For a
    reference group no two residues of which share a resid, no slot is
    unused and bin 0 is the number of reference residues without contact;
    residues that share a resid share a slot, and bin 0 counts the slots
    they leave unused as residues without contact. *)
Theorem residue_no_contact_bins in_range ref sel cutoff expected_max_contacts :
  ¬ (cutoff <= 0)%Q → NoDup (ids sel) →
  N.of_nat (n_atoms ref * n_atoms sel) < 2 ^ 32 →
  ∃ r, (contact_hist in_range ref sel cutoff expected_max_contacts).2 = Some r ∧
    bin (refres_diff_selatm r) 0
    = N.of_nat (residues_without_contact in_range ref sel cutoff + unused_slots ref) ∧
    bin (refres_same_selatm r) 0
    = N.of_nat (residues_without_contact in_range ref sel cutoff + unused_slots ref) ∧
    bin (refres_selatm_tot r) 0
    = N.of_nat (residues_without_contact in_range ref sel cutoff + unused_slots ref) ∧
    bin (refres_diff_selres r) 0
    = N.of_nat (residues_without_contact in_range ref sel cutoff + unused_slots ref) ∧
    bin (refres_same_selres r) 0
    = N.of_nat (residues_without_contact in_range ref sel cutoff + unused_slots ref).
Proof.
  intros Hcut Hids Hrange. apply contact_hist_cases.
  - intros ->%n_atoms_nil_inv. done.
  - intros _ [->%n_atoms_nil_inv|Hle]; [|by apply Qle_bool_iff in Hle].
    unfold trivial_hists, residues_without_contact, unused_slots.
    cbn [refres_diff_selatm refres_same_selatm refres_selatm_tot refres_diff_selres
           refres_same_selres].
    pose proof (n_unique_resids_le ref) as Hle.
    rewrite np_unique_Permutation in Hle |- *.
    rewrite bin_cons_0, filter_all.
    + replace (length (remove_dups (resids ref))
               + (n_residues ref - length (remove_dups (resids ref))))%nat
        with (n_residues ref) by lia.
      done.
    + intros r _. apply Forall_forall. intros a _ _. by rewrite atoms_around_point_nil.
  - intros Href Hsel _ st r Hst Hwf Hfin.
    destruct (loop_residue_slots in_range ref sel cutoff _ Hids Hrange
                (expected_max_contacts_pos expected_max_contacts))
      as (st' & Hst' & _ & Hslots).
    rewrite Hst in Hst'. injection Hst' as <-.
    apply finish_inv in Hfin
      as (sa & sr & pa & pr & L & Hsa & Hsr & _ & _ & -> & _).
    cbn [refres_diff_selatm refres_same_selatm refres_selatm_tot refres_diff_selres
           refres_same_selres].
    rewrite !bin_extend, !bin_bincount. change (N.of_nat 0) with 0.
    assert (N.of_nat (n_residues ref) < 2 ^ 32) as Hres.
    { pose proof (n_residues_le ref). unfold n_atoms in *. nia. }
    set (empty := (residues_without_contact in_range ref sel cutoff + unused_slots ref)%nat).
    assert (count_of 0 (s_refres_selatm_tot st) = empty) as Htot.
    { apply (count_slots_by_residue ref _
               (λ a, n_atoms (atoms_around_point in_range sel (position a) cutoff) = 0%nat)).
      - apply (wf_tot _ _ _ _ Hwf).
      - intros i Hi. apply Hslots, Hi. }
    assert (empty ≤ n_residues ref)%nat as Hle.
    { rewrite <- Htot, <- (wf_tot _ _ _ _ Hwf). apply count_of_le. }
    assert (∀ matrix same, length matrix = n_residues ref →
              (∀ i, (i < n_residues ref)%nat →
                 np_sum (row matrix i) = bin (s_refres_selatm_tot st) i) →
              refres_same (n_residues ref) matrix = Some same →
              bin same 0 = N.of_nat empty)
      as Hsame.
    { intros matrix same Hlen Hrows (m & _ & _ & H0 & _)%refres_same_inv.
      rewrite H0, count_rows_nonzero, u32_small by done.
      pose proof (zero_rows_count matrix (s_refres_selatm_tot st)) as Hz.
      rewrite Hlen, (wf_tot _ _ _ _ Hwf), Htot in Hz.
      specialize (Hz eq_refl Hrows).
      assert (residues_in_contact matrix ≤ n_residues ref)%nat.
      { unfold residues_in_contact. rewrite <- Hlen. apply length_filter. }
      rewrite sub32_small by lia. lia. }
    assert (∀ diff, length diff = n_residues ref →
              (∀ i, (i < n_residues ref)%nat →
                 bin diff i = 0 ↔ bin (s_refres_selatm_tot st) i = 0) →
              count_of 0 diff = empty)
      as Hdiff.
    { intros diff Hlen Hz. rewrite <- Htot. apply count_of_zero_iff.
      - by rewrite Hlen, (wf_tot _ _ _ _ Hwf).
      - intros i Hi. apply Hz. lia. }
    rewrite Htot.
    rewrite (Hdiff (s_refres_diff_selatm st) (wf_diff_selatm _ _ _ _ Hwf))
      by (intros i Hi; apply Hslots, Hi).
    rewrite (Hdiff (s_refres_diff_selres st) (wf_diff_selres _ _ _ _ Hwf))
      by (intros i Hi; apply Hslots, Hi).
    rewrite (Hsame _ sa (wf_atm_pair _ _ _ _ Hwf)
               ltac:(intros i Hi; apply Hslots, Hi) Hsa).
    rewrite (Hsame _ sr (wf_res_pair _ _ _ _ Hwf)
               ltac:(intros i Hi; apply Hslots, Hi) Hsr).
    rewrite u32_small by lia. done.
Qed.

Lemma residue_no_contact_bins_witness :
  (¬ (2 <= 0)%Q ∧ NoDup (ids example_sel) ∧
   N.of_nat (n_atoms example_ref_shared_resid * n_atoms example_sel) < 2 ^ 32) ∧
  ∃ r, (contact_hist euclid example_ref_shared_resid example_sel 2 16).2 = Some r ∧
    bin (refres_diff_selatm r) 0
    = N.of_nat (residues_without_contact euclid example_ref_shared_resid example_sel 2
                + unused_slots example_ref_shared_resid) ∧
    bin (refres_same_selatm r) 0
    = N.of_nat (residues_without_contact euclid example_ref_shared_resid example_sel 2
                + unused_slots example_ref_shared_resid) ∧
    bin (refres_selatm_tot r) 0
    = N.of_nat (residues_without_contact euclid example_ref_shared_resid example_sel 2
                + unused_slots example_ref_shared_resid) ∧
    bin (refres_diff_selres r) 0
    = N.of_nat (residues_without_contact euclid example_ref_shared_resid example_sel 2
                + unused_slots example_ref_shared_resid) ∧
    bin (refres_same_selres r) 0
    = N.of_nat (residues_without_contact euclid example_ref_shared_resid example_sel 2
                + unused_slots example_ref_shared_resid).
Proof.
  assert (¬ (2 <= 0)%Q) as H1 by (intros H; vm_compute in H; apply H; reflexivity).
  assert (NoDup (ids example_sel)) as H0
    by (apply (bool_decide_unpack _); vm_compute; exact I).
  assert (N.of_nat (n_atoms example_ref_shared_resid * n_atoms example_sel) < 2 ^ 32) as H2
    by (vm_compute; reflexivity).
  split; [split; [exact H1|split; [exact H0|exact H2]]|].
  exact (residue_no_contact_bins euclid example_ref_shared_resid example_sel 2 16 H1 H0 H2).
Defined.

(** ** The sums of the residue-level "same partner" histograms *)

Lemma np_sum_ge_elem {A} (f : A → N) (l : list A) (x : A) :
  x ∈ l → f x ≤ np_sum (f <$> l).
Proof.
  induction l as [|y l IH]; intros Hx; [by apply elem_of_nil in Hx|].
  rewrite fmap_cons, np_sum_cons. apply elem_of_cons in Hx as [->|Hx]; [lia|].
  specialize (IH Hx). lia.
Qed.

(** Every row with a nonzero entry is found by the scan at the value of
    that entry. *)
Lemma scan_covers (matrix : list (list N)) (m : nat) :
  (∀ x, x ∈ concat matrix → x ≤ N.of_nat m) →
  N.of_nat (residues_in_contact matrix)
  ≤ np_sum ((λ n, N.of_nat (residues_with_partner_at (N.of_nat n) matrix)) <$> seq 1 m).
Proof.
  induction matrix as [|r matrix IH]; intros Hmax.
  - unfold residues_in_contact. simpl. lia.
  - specialize (IH ltac:(intros x Hx; apply Hmax; simpl; apply elem_of_app; by right)).
    unfold residues_in_contact, residues_with_partner_at in *.
    rewrite (np_sum_fmap_ext _
      (λ n, (if decide (N.of_nat n ∈ r) then 1 else 0)
            + N.of_nat (length (filter (λ row, N.of_nat n ∈ row) matrix)))).
    2:{ intros n _. rewrite filter_cons. destruct (decide (N.of_nat n ∈ r)); simpl; lia. }
    rewrite np_sum_fmap_add, filter_cons.
    destruct (decide (Exists (λ x, x ≠ 0) r)) as [Hex|Hex]; [|lia].
    apply Exists_exists in Hex as (x & Hx & Hne).
    pose proof (Hmax x ltac:(simpl; apply elem_of_app; by left)) as Hle.
    pose proof (np_sum_ge_elem (λ n, if decide (N.of_nat n ∈ r) then 1 else 0)
                  (seq 1 m) (N.to_nat x) ltac:(apply elem_of_seq; lia)) as Hge.
    cbv beta in Hge. rewrite N2Nat.id, decide_True in Hge by done.
    cbn [length]. lia.
Qed.

Lemma refres_same_sum_ge (n_res : nat) (matrix : list (list N)) (h : list N) :
  length matrix = n_res → N.of_nat n_res < 2 ^ 32 →
  refres_same n_res matrix = Some h → N.of_nat n_res ≤ np_sum h.
Proof.
  intros Hlen Hrange (m & Hm & Hl & H0 & Hk)%refres_same_inv.
  assert (∀ n, residues_with_partner_at n matrix ≤ n_res)%nat as Hle1.
  { intros n. unfold residues_with_partner_at. rewrite <- Hlen. apply length_filter. }
  assert (residues_in_contact matrix ≤ n_res)%nat as Hle2.
  { unfold residues_in_contact. rewrite <- Hlen. apply length_filter. }
  rewrite <- (fmap_bin_seq h), Hl, Nat.add_1_r. cbn [seq fmap list_fmap].
  fold (@fmap list _ _ _ (bin h) (seq 1 (N.to_nat m))). rewrite np_sum_cons.
  rewrite H0, count_rows_nonzero, u32_small by done. rewrite sub32_small by lia.
  rewrite (np_sum_fmap_ext _
    (λ n, N.of_nat (residues_with_partner_at (N.of_nat n) matrix))).
  2:{ intros n Hn%elem_of_seq. rewrite Hk by lia. rewrite decide_True by lia.
      rewrite count_rows_with. apply u32_small. specialize (Hle1 (N.of_nat n)). lia. }
  pose proof (scan_covers matrix (N.to_nat m)
    ltac:(intros x Hx; pose proof (np_max_ge _ _ _ Hm Hx); lia)) as Hcov.
  lia.
Qed.

(** X23. With fewer than [2^32] reference atoms, the bins of
    [refres_same_selatm] and of [refres_same_selres] add up to at least the
    number of reference residues: every residue is counted in bin 0 or in
    the bin of one of its pair counts (the checks of lines 607-612 and
    630-635 of the debug branch). *)
Theorem residue_same_sums_lower_bound in_range ref sel cutoff expected_max_contacts :
  N.of_nat (n_atoms ref) < 2 ^ 32 →
  ∃ r, (contact_hist in_range ref sel cutoff expected_max_contacts).2 = Some r ∧
    N.of_nat (n_residues ref) ≤ np_sum (refres_same_selatm r) ∧
    N.of_nat (n_residues ref) ≤ np_sum (refres_same_selres r).
Proof.
  intros Hrange. apply contact_hist_cases.
  - intros Href. apply n_residues_zero in Href. rewrite Href. simpl. lia.
  - intros _ _. simpl. lia.
  - intros _ _ _ st r _ Hwf
      (sa & sr & pa & pr & L & Hsa & Hsr & _ & _ & -> & _)%finish_inv.
    cbn [refres_same_selatm refres_same_selres]. rewrite !np_sum_extend.
    assert (N.of_nat (n_residues ref) < 2 ^ 32) as Hres.
    { pose proof (n_residues_le ref). lia. }
    split.
    + exact (refres_same_sum_ge _ _ _ (wf_atm_pair _ _ _ _ Hwf) Hres Hsa).
    + exact (refres_same_sum_ge _ _ _ (wf_res_pair _ _ _ _ Hwf) Hres Hsr).
Qed.

Lemma residue_same_sums_lower_bound_witness :
  N.of_nat (n_atoms example_ref) < 2 ^ 32 ∧
  ∃ r, (contact_hist euclid example_ref example_sel 2 16).2 = Some r ∧
    N.of_nat (n_residues example_ref) ≤ np_sum (refres_same_selatm r) ∧
    N.of_nat (n_residues example_ref) ≤ np_sum (refres_same_selres r).
Proof.
  assert (N.of_nat (n_atoms example_ref) < 2 ^ 32) as H by (vm_compute; reflexivity).
  split; [exact H|].
  exact (residue_same_sums_lower_bound euclid example_ref example_sel 2 16 H).
Defined.

(** * Reference residues of one atom *)

(** ** Rows filled once *)

Lemma count_of_insert (a : list N) i x k :
  (i < length a)%nat →
  (count_of k (<[i := x]> a) + (if decide (bin a i = k) then 1 else 0)
   = count_of k a + (if decide (x = k) then 1 else 0))%nat.
Proof.
  revert i. induction a as [|y a IH]; intros i Hi; [simpl in Hi; lia|].
  destruct i as [|i].
  - change (<[0%nat := x]> (y :: a)) with (x :: a).
    rewrite bin_cons_0, !count_of_cons. lia.
  - change (<[S i := x]> (y :: a)) with (y :: <[i := x]> a).
    rewrite bin_cons_S, !count_of_cons. simpl in Hi. specialize (IH i ltac:(lia)). lia.
Qed.

Lemma count_of_zeros n k : k ≠ 0 → count_of k (zeros n) = 0%nat.
Proof.
  intros Hk. apply count_of_zero. intros x Hx%elem_of_replicate_inv. congruence.
Qed.

(** [np.add.at] on positions that hold zero and are listed once puts the
    values there. *)
Lemma add_at_count (a : list N) idx vals a' k :
  add_at a idx vals = Some a' → NoDup idx → (∀ i, i ∈ idx → bin a i = 0) →
  Forall (λ v, v < 2 ^ 32) vals → k ≠ 0 →
  count_of k a' = (count_of k a + count_of k vals)%nat.
Proof.
  revert a vals. induction idx as [|i idx IH]; intros a [|v vals] Hadd Hnd Hz Hv Hk;
    try done.
  - simpl in Hadd. injection Hadd as <-. unfold count_of at 3. simpl. lia.
  - cbn [add_at] in Hadd. destruct (incr_at a i v) as [a1|] eqn:Hincr; [|done].
    cbn in Hadd. apply incr_at_inv in Hincr as [Hi ->].
    apply NoDup_cons in Hnd as [Hni Hnd]. apply Forall_cons in Hv as [Hv1 Hv].
    rewrite (IH _ _ Hadd Hnd); [| |done|done].
    2:{ intros j Hj. rewrite bin_insert by done.
        rewrite decide_False by (by intros ->). apply Hz. by right. }
    pose proof (count_of_insert a i (u32 (bin a i + v)) k Hi) as Hc.
    rewrite (Hz i ltac:(by left)) in Hc |- *. rewrite N.add_0_l in Hc |- *.
    rewrite u32_small in Hc |- * by done. rewrite count_of_cons.
    rewrite (decide_False (P := 0 = k)) in Hc by done. lia.
Qed.

(** [a[idx] += 1] on an array of zeros leaves no entry above 1. *)
Lemma fancy_incr_zeros_le n idx row :
  fancy_incr (zeros n) idx = Some row → Forall (λ x, x ≤ 1) row.
Proof.
  intros (_ & _ & Hbin)%fancy_incr_inv. apply Forall_bins. intros k.
  rewrite Hbin. unfold zeros. rewrite bin_replicate.
  destruct (decide (k ∈ idx)); [|lia]. rewrite u32_small; lia.
Qed.

(** ** Sums over the rows of a matrix *)

Lemma sum_list_cons_fmap {A} (f : A → nat) x (l : list A) :
  sum_list (f <$> x :: l) = (f x + sum_list (f <$> l))%nat.
Proof. reflexivity. Qed.

Lemma sum_list_insert {A} (f : A → nat) (matrix : list A) i row row' :
  matrix !! i = Some row →
  (sum_list (f <$> <[i := row']> matrix) + f row
   = sum_list (f <$> matrix) + f row')%nat.
Proof.
  revert i. induction matrix as [|r matrix IH]; intros i Hi; [done|].
  destruct i as [|i].
  - injection Hi as ->. change (<[0%nat := row']> (row :: matrix)) with (row' :: matrix).
    rewrite !sum_list_cons_fmap. lia.
  - change (<[S i := row']> (r :: matrix)) with (r :: <[i := row']> matrix).
    rewrite !sum_list_cons_fmap. specialize (IH i Hi). lia.
Qed.

Lemma residues_with_partner_at_sum k (matrix : list (list N)) :
  residues_with_partner_at k matrix
  = sum_list ((λ row : list N, if decide (k ∈ row) then 1%nat else 0%nat) <$> matrix).
Proof.
  unfold residues_with_partner_at. induction matrix as [|r matrix IH]; [done|].
  rewrite sum_list_cons_fmap, filter_cons, <- IH. destruct (decide (k ∈ r)); simpl; lia.
Qed.

Lemma residues_in_contact_sum (matrix : list (list N)) :
  residues_in_contact matrix
  = sum_list ((λ row : list N, if decide (Exists (λ x, x ≠ 0) row) then 1%nat else 0%nat)
               <$> matrix).
Proof.
  unfold residues_in_contact. induction matrix as [|r matrix IH]; [done|].
  rewrite sum_list_cons_fmap, filter_cons, <- IH.
  destruct (decide (Exists (λ x, x ≠ 0) r)); simpl; lia.
Qed.

Lemma count_of_app k (l1 l2 : list N) :
  count_of k (l1 ++ l2) = (count_of k l1 + count_of k l2)%nat.
Proof. unfold count_of. by rewrite filter_app, length_app. Qed.

Lemma count_of_concat k (matrix : list (list N)) :
  count_of k (concat matrix) = sum_list (count_of k <$> matrix).
Proof.
  induction matrix as [|r matrix IH]; [done|].
  rewrite sum_list_cons_fmap, <- IH. simpl. apply count_of_app.
Qed.

Lemma count_of_elem k (l : list N) : k ∈ l ↔ (0 < count_of k l)%nat.
Proof.
  split; [apply count_of_pos|]. intros Hc. unfold count_of in Hc.
  destruct (filter (λ x, x = k) l) as [|y l'] eqn:E; [simpl in Hc; lia|].
  assert (y ∈ filter (λ x, x = k) l) as Hy by (rewrite E; by left).
  apply list_elem_of_filter in Hy as [-> Hy]. done.
Qed.

Lemma zeros_not_Exists n : ¬ Exists (λ x, x ≠ 0) (zeros n).
Proof. intros (x & Hx%elem_of_replicate_inv & Hne)%Exists_exists. done. Qed.

(** ** The loop when every reference residue holds one atom *)

Section RefSingletons.
Context (in_range : Point → Point → Q → bool) (ref sel : AtomGroup) (cutoff : Q).
Context (emc : nat).
Hypothesis ref_singletons : NoDup (resids ref).
Hypothesis sel_unique : NoDup (ids sel).
Hypothesis range : N.of_nat (n_atoms ref * n_atoms sel) < 2 ^ 32.

Local Abbreviation near a := (atoms_around_point in_range sel (position a) cutoff).
Local Abbreviation body :=
  (loop_body in_range sel cutoff (np_unique (resids ref)) (np_unique (resids sel))).
Local Abbreviation refresid a := (searchsorted (np_unique (resids ref)) (resid a)).
Local Abbreviation WF := (wf_state (n_residues ref) (n_atoms sel) (n_residues sel)).

(** The multiplicities of the residues that an atom touches, as stored. *)
Lemma counts_range a :
  (0 < n_atoms ref)%nat →
  Forall (λ v, v < 2 ^ 32) (N.of_nat <$> unique_counts (resids (near a))).
Proof.
  intros Href. apply Forall_forall. intros v Hv.
  pose proof (np_sum_ge_elem (λ v : N, v) _ v Hv) as Hle.
  rewrite list_fmap_id in Hle. rewrite np_sum_unique_counts in Hle.
  pose proof (n_atoms_near_le in_range sel cutoff a) as Hnear.
  pose proof range as Hrange. unfold resids, n_atoms in *.
  rewrite length_fmap in Hle. nia.
Qed.

Lemma counts_elem a k :
  k ≠ 0%nat →
  N.of_nat k ∈ (N.of_nat <$> unique_counts (resids (near a)))
  ↔ counts_in_same_bin (near a) k.
Proof.
  intros Hk. rewrite counts_in_same_bin_marks. split.
  - intros (c & Heq & Hc)%list_elem_of_fmap. apply Nat2N.inj in Heq as <-.
    case_decide as Hlen; [|done].
    destruct (unique_counts (resids (near a))); [by apply elem_of_nil in Hc|done].
  - case_decide as Hlen; [by intros ->%list_elem_of_singleton|].
    intros Hc. by apply list_elem_of_fmap_2.
Qed.

Lemma counts_tally a k :
  count_of (N.of_nat k) (N.of_nat <$> unique_counts (resids (near a)))
  = length (filter (λ p, bonds in_range sel cutoff p = k)
              ((λ r, (a, r)) <$> remove_dups (resids (near a)))).
Proof.
  rewrite count_of_fmap, length_filter_fmap.
  rewrite (list_filter_iff _ (λ c, c = k)) by (intros c; lia).
  apply unique_counts_tally.
Qed.

Lemma ref_singleton_loop :
  (0 < emc)%nat →
  ∃ st, for_each body (init_state ref sel emc) ref = Some st ∧ WF st ∧
    Forall (Forall (λ x, x ≤ 1)) (s_refres_selatm_pair st) ∧
    residues_in_contact (s_refres_selatm_pair st)
    = length (filter (λ a, n_atoms (near a) ≠ 0%nat) ref) ∧
    residues_in_contact (s_refres_selres_pair st)
    = length (filter (λ a, n_atoms (near a) ≠ 0%nat) ref) ∧
    (∀ k, k ≠ 0%nat →
       residues_with_partner_at (N.of_nat k) (s_refres_selres_pair st)
       = length (filter (λ a, counts_in_same_bin (near a) k) ref)) ∧
    (∀ k, k ≠ 0%nat →
       count_of (N.of_nat k) (concat (s_refres_selres_pair st))
       = length (filter (λ p, bonds in_range sel cutoff p = k)
                   (refatm_selres_pairs in_range ref sel cutoff))) ∧
    (∀ a, a ∈ ref →
       bin (s_refres_diff_selres st) (refresid a) = N.of_nat (length (np_unique (resids (near a))))).
Proof.
  intros Hemc.
  destruct (loop_inv in_range ref sel cutoff emc
    (λ done st, ∀ todo, ref = done ++ todo →
       (∀ b, b ∈ todo →
          s_refres_selatm_pair st !! refresid b = Some (zeros (n_atoms sel)) ∧
          s_refres_selres_pair st !! refresid b = Some (zeros (n_residues sel)) ∧
          s_selres_unused st !! refresid b = Some (replicate (n_residues sel) true) ∧
          bin (s_refres_diff_selres st) (refresid b) = 0) ∧
       Forall (Forall (λ x, x ≤ 1)) (s_refres_selatm_pair st) ∧
       residues_in_contact (s_refres_selatm_pair st)
       = length (filter (λ a, n_atoms (near a) ≠ 0%nat) done) ∧
       residues_in_contact (s_refres_selres_pair st)
       = length (filter (λ a, n_atoms (near a) ≠ 0%nat) done) ∧
       (∀ k, k ≠ 0%nat →
          residues_with_partner_at (N.of_nat k) (s_refres_selres_pair st)
          = length (filter (λ a, counts_in_same_bin (near a) k) done)) ∧
       (∀ k, k ≠ 0%nat →
          count_of (N.of_nat k) (concat (s_refres_selres_pair st))
          = length (filter (λ p, bonds in_range sel cutoff p = k)
                      (refatm_selres_pairs in_range done sel cutoff))) ∧
       (∀ a, a ∈ done →
          bin (s_refres_diff_selres st) (refresid a) = N.of_nat (length (np_unique (resids (near a))))))
    Hemc) as (st & Hst & Hwf & HI).
  - intros todo Htodo. simpl in Htodo. subst todo. simpl.
    split; [|split; [|split; [|split; [|split; [|split]]]]].
    + intros b Hb. pose proof (refresid_lt ref b Hb) as Hlt.
      rewrite !lookup_replicate_2 by done. unfold zeros. by rewrite bin_replicate.
    + apply Forall_replicate, Forall_replicate. lia.
    + rewrite residues_in_contact_sum.
      induction (n_residues ref) as [|n IH]; [done|]. simpl replicate.
      rewrite sum_list_cons_fmap, IH.
      rewrite decide_False by apply zeros_not_Exists. done.
    + rewrite residues_in_contact_sum.
      induction (n_residues ref) as [|n IH]; [done|]. simpl replicate.
      rewrite sum_list_cons_fmap, IH.
      rewrite decide_False by apply zeros_not_Exists. done.
    + intros k Hk. rewrite residues_with_partner_at_sum.
      induction (n_residues ref) as [|n IH]; [done|]. simpl replicate.
      rewrite sum_list_cons_fmap, IH. rewrite decide_False; [done|].
      intros Hin%elem_of_replicate_inv. lia.
    + intros k Hk. rewrite count_of_concat.
      induction (n_residues ref) as [|n IH]; [done|]. simpl replicate.
      rewrite sum_list_cons_fmap, IH, count_of_zeros by lia. done.
    + by intros a ?%elem_of_nil.
  - intros done a todo st st' Href Hwf' HI Hbody todo' Href'.
    assert (todo' = todo) as ->.
    { rewrite Href, <- app_assoc in Href'. apply app_inv_head in Href'.
      simpl in Href'. by injection Href'. }
    clear Href'. destruct (HI (a :: todo) Href) as (U & E1 & J2 & J5 & J4 & J6 & J7).
    destruct (U a ltac:(by left)) as (R1z & S1z & Xz & Dz).
    set (nr := atoms_around_point in_range sel (position a) cutoff) in *.
    assert (0 < n_atoms ref)%nat as Hpos.
    { unfold n_atoms. rewrite Href, length_app. simpl. lia. }
    assert (N.of_nat (n_atoms sel) < 2 ^ 32) as Hsel.
    { pose proof range as Hrange. nia. }
    pose proof (n_atoms_near_le in_range sel cutoff a) as Hnear. fold nr in Hnear.
    pose proof (n_residues_le nr) as Hnres.
    pose proof (n_unique_resids_le nr) as Hnuniq.
    apply loop_body_inv in Hbody
      as (_ & _ & _ & _ & _ & (row1 & row1' & R1 & R2 & R3)
          & (c2 & B7 & B8) & (row2 & row2' & S1 & S2 & S3)).
    fold nr in R2, B7, S2.
    rewrite R1z in R1. injection R1 as <-. rewrite S1z in S1. injection S1 as <-.
    assert (np_sum row1' = N.of_nat (n_atoms nr)) as Hsum1.
    { assert (length (intersect1d_indices (ids sel) (ids nr)) = n_atoms nr) as Hlen1.
      { apply n_atoms_selatmids. exact sel_unique. }
      rewrite (fancy_incr_np_sum _ _ _ (NoDup_intersect1d_indices _ _) R2);
        unfold zeros; rewrite np_sum_replicate, Hlen1; lia. }
    assert (np_sum (N.of_nat <$> unique_counts (resids nr)) = N.of_nat (n_atoms nr))
      as Hvals.
    { rewrite np_sum_unique_counts. unfold resids, n_atoms. by rewrite length_fmap. }
    assert (np_sum row2' = N.of_nat (n_atoms nr)) as Hsum2.
    { rewrite (add_at_np_sum _ _ _ _ S2); unfold zeros; rewrite np_sum_replicate, Hvals;
        lia. }
    assert (∀ k, k ≠ 0%nat →
              count_of (N.of_nat k) row2'
              = count_of (N.of_nat k) (N.of_nat <$> unique_counts (resids nr))) as Hrow2.
    { intros k Hk.
      rewrite (add_at_count _ _ _ _ (N.of_nat k) S2 (NoDup_intersect1d_indices _ _));
        [rewrite count_of_zeros by lia; done| |by apply counts_range|lia].
      intros i _. unfold zeros. apply bin_replicate. }
    split; [|split; [|split; [|split; [|split; [|split]]]]].
    + intros b Hb.
      pose proof (refresid_ne ref ref_singletons done a todo b Href (or_intror Hb)) as Hne.
      destruct (U b ltac:(by right)) as (Rb & Sb & Xb & Db).
      apply incr_at_inv in B8 as [L8 ->].
      apply credit_unused_inv in B7 as (? & ? & ? & _ & _ & _ & _ & ->).
      rewrite R3, S3, !list_lookup_insert_ne by done.
      rewrite bin_insert by done. rewrite decide_False by done. done.
    + rewrite R3. apply Forall_insert; [done|]. by eapply fancy_incr_zeros_le.
    + rewrite R3, length_filter_snoc. fold nr.
      pose proof (sum_list_insert
        (λ row : list N, if decide (Exists (λ x, x ≠ 0) row) then 1%nat else 0%nat)
        _ _ _ row1' R1z) as Hs. cbv beta in Hs.
      rewrite <- !residues_in_contact_sum, J2 in Hs.
      rewrite (decide_False (P := Exists _ (zeros _))) in Hs by apply zeros_not_Exists.
      pose proof (np_sum_eq_0 row1') as Hz. rewrite Hsum1 in Hz.
      destruct (decide (Exists (λ x, x ≠ 0) row1')), (decide (n_atoms nr ≠ 0%nat));
        try lia; exfalso; [apply Hz; [lia|done]|].
      assert (N.of_nat (n_atoms nr) ≠ 0) as Hnz by lia. tauto.
    + rewrite S3, length_filter_snoc. fold nr.
      pose proof (sum_list_insert
        (λ row : list N, if decide (Exists (λ x, x ≠ 0) row) then 1%nat else 0%nat)
        _ _ _ row2' S1z) as Hs. cbv beta in Hs.
      rewrite <- !residues_in_contact_sum, J5 in Hs.
      rewrite (decide_False (P := Exists _ (zeros _))) in Hs by apply zeros_not_Exists.
      pose proof (np_sum_eq_0 row2') as Hz. rewrite Hsum2 in Hz.
      destruct (decide (Exists (λ x, x ≠ 0) row2')), (decide (n_atoms nr ≠ 0%nat));
        try lia; exfalso; [apply Hz; [lia|done]|].
      assert (N.of_nat (n_atoms nr) ≠ 0) as Hnz by lia. tauto.
    + intros k Hk. rewrite S3, length_filter_snoc. fold nr.
      pose proof (sum_list_insert
        (λ row : list N, if decide (N.of_nat k ∈ row) then 1%nat else 0%nat)
        _ _ _ row2' S1z) as Hs. cbv beta in Hs.
      rewrite <- !residues_with_partner_at_sum, (J4 k Hk) in Hs.
      rewrite (decide_False (P := _ ∈ zeros _)) in Hs
        by (intros Hin%elem_of_replicate_inv; lia).
      pose proof (counts_elem a k Hk) as Hc. fold nr in Hc.
      rewrite !count_of_elem, <- (Hrow2 k Hk), <- count_of_elem in Hc.
      destruct (decide (N.of_nat k ∈ row2')), (decide (counts_in_same_bin nr k));
        try lia; tauto.
    + intros k Hk. rewrite S3, refatm_selres_pairs_snoc.
      rewrite filter_app, length_app. fold nr.
      pose proof (sum_list_insert (count_of (N.of_nat k)) _ _ _ row2' S1z) as Hs.
      rewrite <- !count_of_concat, (J6 k Hk), count_of_zeros in Hs by lia.
      rewrite (Hrow2 k Hk) in Hs. pose proof (counts_tally a k) as Ht. fold nr in Ht.
      lia.
    + intros b [Hb|Hb%list_elem_of_singleton]%elem_of_app.
      * pose proof (refresid_ne ref ref_singletons done a todo b Href (or_introl Hb))
          as Hne.
        apply incr_at_inv in B8 as [L8 ->]. rewrite bin_insert by done.
        rewrite decide_False by done. by apply J7.
      * subst b. apply incr_at_inv in B8 as [L8 ->].
        apply credit_unused_inv in B7 as (u & fresh & u' & X1 & X2 & _ & -> & _).
        rewrite Xz in X1. injection X1 as <-.
        apply take_idx_replicate in X2. subst fresh.
        rewrite count_nonzero_all_true by (by apply Forall_replicate).
        assert (length (intersect1d_indices (np_unique (resids sel))
                          (np_unique (resids nr))) = length (np_unique (resids nr)))
          as Hlen2.
        { unfold nr. by rewrite length_selresids_idx, length_unique_counts. }
        rewrite length_replicate, Hlen2.
        rewrite bin_insert by done. rewrite decide_True by done.
        fold nr. rewrite Dz, N.add_0_l. apply u32_small. lia.
  - exists st. split; [done|]. split; [done|].
    destruct (HI [] (eq_sym (app_nil_r ref))) as (_ & E1 & J2 & J5 & J4 & J6 & J7).
    done.
Qed.

End RefSingletons.

(** ** The histograms of the scan, bin by bin *)

Lemma refres_same_bins (n_res : nat) (matrix : list (list N)) (h : list N) :
  refres_same n_res matrix = Some h → length matrix = n_res → N.of_nat n_res < 2 ^ 32 →
  bin h 0 = N.of_nat (n_res - residues_in_contact matrix) ∧
  ∀ k, (1 ≤ k)%nat → bin h k = N.of_nat (residues_with_partner_at (N.of_nat k) matrix).
Proof.
  intros (m & Hm & Hl & H0 & Hk)%refres_same_inv Hlen Hrange.
  assert (∀ n, residues_with_partner_at n matrix ≤ n_res)%nat as Hle1.
  { intros n. unfold residues_with_partner_at. rewrite <- Hlen. apply length_filter. }
  assert (residues_in_contact matrix ≤ n_res)%nat as Hle2.
  { unfold residues_in_contact. rewrite <- Hlen. apply length_filter. }
  split.
  - rewrite H0, count_rows_nonzero, u32_small by done. rewrite sub32_small by lia. lia.
  - intros k Hk1. rewrite (Hk k Hk1). case_decide as Hkm.
    + rewrite count_rows_with. apply u32_small. specialize (Hle1 (N.of_nat k)). lia.
    + unfold residues_with_partner_at. rewrite filter_none; [done|].
      intros row Hrow Hin.
      assert (N.of_nat k ∈ concat matrix) as Hc by (apply elem_of_concat; eauto).
      pose proof (np_max_ge _ _ _ Hm Hc). lia.
Qed.

Lemma count_ones (l : list N) :
  Forall (λ x, x ≤ 1) l →
  N.of_nat (count_of 1 l) = np_sum l ∧ ∀ k, 1 < k → count_of k l = 0%nat.
Proof.
  induction 1 as [|x l Hx _ [IH1 IH2]]; [done|]. split.
  - rewrite count_of_cons, np_sum_cons. destruct (decide (x = 1)); lia.
  - intros k Hk. rewrite count_of_cons, (IH2 k Hk). rewrite decide_False; [done|]. lia.
Qed.

Lemma Forall_concat_rows {A} (P : A → Prop) (matrix : list (list A)) :
  Forall (Forall P) matrix → Forall P (concat matrix).
Proof.
  induction 1 as [|row matrix Hrow _ IH]; [constructor|]. simpl. by apply Forall_app.
Qed.

(** In a matrix without an entry above 1 the rows with an entry 1 are the
    rows with a nonzero entry. *)
Lemma scan_ones (matrix : list (list N)) :
  Forall (Forall (λ x, x ≤ 1)) matrix →
  residues_with_partner_at 1 matrix = residues_in_contact matrix ∧
  ∀ k, 1 < k → residues_with_partner_at k matrix = 0%nat.
Proof.
  intros Hle. unfold residues_with_partner_at, residues_in_contact. split.
  - f_equal. apply filter_ext_in. intros row Hrow.
    eapply Forall_forall in Hle; [|exact Hrow]. rewrite Exists_exists. split.
    + intros H1. by exists 1.
    + intros (x & Hx & Hne). eapply Forall_forall in Hle; [|exact Hx].
      cbv beta in Hle. by replace 1 with x by lia.
  - intros k Hk. rewrite filter_none; [done|]. intros row Hrow Hin.
    eapply Forall_forall in Hle; [|exact Hrow].
    eapply Forall_forall in Hle; [|exact Hin]. cbv beta in Hle. lia.
Qed.

(** X24. When the reference atoms have pairwise distinct resids (every
    reference residue then holds one atom and has a slot of its own), for
    distinct selection atoms and [n_ref_atoms * n_sel_atoms < 2^32],
    [refres_same_selatm] is [[x, n - x]] followed by zeros, with [x] the
    number of reference atoms without contact ([refatm_selatm[0]]) and [n]
    the number of reference atoms, so that it adds up to [n]: what lines
    724-735 of the debug branch check. The guard of these checks (lines
    700-702) compares residue indices and also admits one-atom residues
    that share a resid, which the statement leaves out. *)
Theorem singleton_reference_same_selatm in_range ref sel cutoff expected_max_contacts :
  NoDup (resids ref) → NoDup (ids sel) →
  N.of_nat (n_atoms ref * n_atoms sel) < 2 ^ 32 →
  ∃ r x, (contact_hist in_range ref sel cutoff expected_max_contacts).2 = Some r ∧
    refatm_selatm r !! 0%nat = Some x ∧
    bin (refres_same_selatm r) 0 = x ∧
    bin (refres_same_selatm r) 1 = N.of_nat (n_atoms ref) - x ∧
    (∀ k, (2 ≤ k)%nat → bin (refres_same_selatm r) k = 0) ∧
    np_sum (refres_same_selatm r) = N.of_nat (n_atoms ref).
Proof.
  intros Hsingle Hids Hrange.
  destruct (contact_hist_cases in_range ref sel cutoff expected_max_contacts
    (λ r, ∃ x, refatm_selatm r !! 0%nat = Some x ∧ x ≤ N.of_nat (n_atoms ref) ∧
       bin (refres_same_selatm r) 0 = x ∧
       bin (refres_same_selatm r) 1 = N.of_nat (n_atoms ref) - x ∧
       (∀ k, (2 ≤ k)%nat → bin (refres_same_selatm r) k = 0)))
    as (r & Hr & x & H0 & Hx & Hs0 & Hs1 & Hs2).
  - intros ->. exists 0. repeat split; try done. by intros [|[|k]] ?.
  - intros _ _. exists (N.of_nat (n_atoms ref)). unfold trivial_hists.
    cbn [refatm_selatm refres_same_selatm].
    rewrite (n_residues_NoDup _ Hsingle). repeat split; try done.
    + rewrite bin_singleton. simpl. lia.
    + intros k Hk. rewrite bin_singleton. by rewrite decide_False by lia.
  - intros Href Hsel _ st r Hst Hwf
      (sa & sr & pa & pr & L & Hsa & _ & _ & _ & -> & _ & HL)%finish_inv.
    assert (N.of_nat (n_atoms ref) < 2 ^ 32) as Hrange' by nia.
    destruct (loop_atom_counts in_range ref sel cutoff _
                (expected_max_contacts_pos expected_max_contacts) Hrange')
      as (st' & Hst' & H1 & _).
    rewrite Hst in Hst'. injection Hst' as <-.
    destruct (ref_singleton_loop in_range ref sel cutoff _ Hsingle Hids Hrange
                (expected_max_contacts_pos expected_max_contacts))
      as (st' & Hst' & _ & E1 & J2 & _).
    rewrite Hst in Hst'. injection Hst' as <-.
    pose proof (n_residues_NoDup _ Hsingle) as Hres.
    destruct (refres_same_bins _ _ _ Hsa (wf_atm_pair _ _ _ _ Hwf)
                ltac:(rewrite Hres; exact Hrange')) as [B0 Bk].
    destruct (scan_ones _ E1) as [S1 Sk].
    pose proof (length_filter_complement
      (λ a, n_atoms (atoms_around_point in_range sel (position a) cutoff) = 0%nat) ref)
      as Hc.
    eexists. cbn [refatm_selatm refres_same_selatm].
    rewrite extend_lookup_bin by done. rewrite H1. split; [done|].
    rewrite !bin_extend, B0, (Bk 1%nat) by lia. change (N.of_nat 1) with 1.
    rewrite S1, J2, Hres. unfold n_atoms, AtomGroup in *.
    split; [|split; [|split]]; try lia.
    intros k Hk. rewrite bin_extend, (Bk k) by lia. rewrite Sk; [done|lia].
  - exists r, x. repeat split; try done.
    rewrite np_sum_two_bins by done. rewrite Hs0, Hs1. lia.
Qed.

Lemma singleton_reference_same_selatm_witness :
  (NoDup (resids example_ref) ∧ NoDup (ids example_sel) ∧
   N.of_nat (n_atoms example_ref * n_atoms example_sel) < 2 ^ 32) ∧
  ∃ r x, (contact_hist euclid example_ref example_sel 2 16).2 = Some r ∧
    refatm_selatm r !! 0%nat = Some x ∧
    bin (refres_same_selatm r) 0 = x ∧
    bin (refres_same_selatm r) 1 = N.of_nat (n_atoms example_ref) - x ∧
    (∀ k, (2 ≤ k)%nat → bin (refres_same_selatm r) k = 0) ∧
    np_sum (refres_same_selatm r) = N.of_nat (n_atoms example_ref).
Proof.
  assert (NoDup (resids example_ref)) as H0
    by (apply (bool_decide_unpack _); vm_compute; exact I).
  assert (NoDup (ids example_sel)) as H1
    by (apply (bool_decide_unpack _); vm_compute; exact I).
  assert (N.of_nat (n_atoms example_ref * n_atoms example_sel) < 2 ^ 32) as H2
    by (vm_compute; reflexivity).
  split; [split; [exact H0|split; [exact H1|exact H2]]|].
  exact (singleton_reference_same_selatm euclid example_ref example_sel 2 16 H0 H1 H2).
Defined.

(** X25. When the reference atoms have pairwise distinct resids and no two
    residues of the selection group share a resid, for distinct selection
    atoms and [n_ref_atoms * n_sel_atoms < 2^32], the residue-level
    histograms over the selection residues are the atom-level ones, element
    by element: [refres_diff_selres] is [refatm_diff_selres] and
    [refres_same_selres] is [refatm_same_selres]: what lines 736-743 of the
    debug branch check. The guard of these checks (lines 700-702) compares
    residue indices and also admits one-atom residues that share a resid,
    which the statement leaves out. *)
Theorem singleton_reference_selres in_range ref sel cutoff expected_max_contacts :
  NoDup (resids ref) → resids_distinct sel → NoDup (ids sel) →
  N.of_nat (n_atoms ref * n_atoms sel) < 2 ^ 32 →
  ∃ r, (contact_hist in_range ref sel cutoff expected_max_contacts).2 = Some r ∧
    refres_diff_selres r = refatm_diff_selres r ∧
    refres_same_selres r = refatm_same_selres r.
Proof.
  intros Hsingle Hdistinct Hids Hrange. apply contact_hist_cases.
  - done.
  - intros _ _. unfold trivial_hists. simpl. by rewrite (n_residues_NoDup _ Hsingle).
  - intros Href Hsel _ st r Hst Hwf Hfin. pose proof Hfin as Hfin'.
    apply finish_inv in Hfin'
      as (sa & sr & pa & pr & L & _ & Hsr & _ & _ & -> & Hlen & HL).
    assert (N.of_nat (n_atoms ref) < 2 ^ 32) as Hrange' by nia.
    destruct (loop_atom_counts in_range ref sel cutoff _
                (expected_max_contacts_pos expected_max_contacts) Hrange')
      as (st' & Hst' & _ & H2 & H3).
    rewrite Hst in Hst'. injection Hst' as <-.
    destruct (ref_singleton_loop in_range ref sel cutoff _ Hsingle Hids Hrange
                (expected_max_contacts_pos expected_max_contacts))
      as (st' & Hst' & _ & _ & _ & J5 & J4 & _ & J7).
    rewrite Hst in Hst'. injection Hst' as <-.
    pose proof (n_residues_NoDup _ Hsingle) as Hres.
    destruct (refres_same_bins _ _ _ Hsr (wf_res_pair _ _ _ _ Hwf)
                ltac:(rewrite Hres; exact Hrange')) as [B0 Bk].
    unfold hists_list in Hlen.
    cbn [refatm_selatm refatm_diff_selres refatm_same_selres
      refres_diff_selatm refres_same_selatm refres_selatm_tot refres_diff_selres
      refres_same_selres refatm_selres_pair refres_selatm_pair refres_selres_pair] in *.
    apply Forall_cons in Hlen as [_ Hlen]. apply Forall_cons in Hlen as [Hl2 Hlen].
    apply Forall_cons in Hlen as [Hl3 Hlen]. apply Forall_cons in Hlen as [_ Hlen].
    apply Forall_cons in Hlen as [_ Hlen]. apply Forall_cons in Hlen as [_ Hlen].
    apply Forall_cons in Hlen as [Hl7 Hlen]. apply Forall_cons in Hlen as [Hl8 _].
    split; apply same_bins_eq; try congruence; intros k; rewrite !bin_extend.
    + rewrite H2.
      apply (bincount_by_residue ref
               (λ a, n_residues (atoms_around_point in_range sel (position a) cutoff)));
        try done; [apply (wf_diff_selres _ _ _ _ Hwf)|].
      intros a Ha. rewrite (J7 a Ha). f_equal.
      by apply length_np_unique_resids, atoms_around_point_resids_distinct.
    + rewrite H3. destruct k as [|k].
      * rewrite B0, J5, Hres. f_equal.
        pose proof (length_filter_complement
          (λ a, n_atoms (atoms_around_point in_range sel (position a) cutoff) = 0%nat) ref)
          as Hc.
        rewrite (list_filter_iff
          (λ a, counts_in_same_bin (atoms_around_point in_range sel (position a) cutoff) 0)
          (λ a, n_atoms (atoms_around_point in_range sel (position a) cutoff) = 0%nat))
          by (intros a; apply counts_in_same_bin_0).
        unfold n_atoms, AtomGroup in *. lia.
      * rewrite (Bk (S k)) by lia. f_equal. apply J4. done.
Qed.

Lemma singleton_reference_selres_witness :
  (NoDup (resids example_ref) ∧ resids_distinct example_sel ∧ NoDup (ids example_sel) ∧
   N.of_nat (n_atoms example_ref * n_atoms example_sel) < 2 ^ 32) ∧
  ∃ r, (contact_hist euclid example_ref example_sel 2 16).2 = Some r ∧
    refres_diff_selres r = refatm_diff_selres r ∧
    refres_same_selres r = refatm_same_selres r.
Proof.
  assert (NoDup (resids example_ref)) as H0
    by (apply (bool_decide_unpack _); vm_compute; exact I).
  assert (NoDup (ids example_sel)) as H1
    by (apply (bool_decide_unpack _); vm_compute; exact I).
  assert (N.of_nat (n_atoms example_ref * n_atoms example_sel) < 2 ^ 32) as H2
    by (vm_compute; reflexivity).
  assert (resids_distinct example_sel) as H3
    by (apply (bool_decide_unpack _); vm_compute; exact I).
  split; [split; [exact H0|split; [exact H3|split; [exact H1|exact H2]]]|].
  exact (singleton_reference_selres euclid example_ref example_sel 2 16 H0 H3 H1 H2).
Defined.

Lemma bonds_pos in_range ref sel cutoff p :
  p ∈ refatm_selres_pairs in_range ref sel cutoff → bonds in_range sel cutoff p ≠ 0%nat.
Proof.
  intros (b & Hb & Heq)%elem_of_refatm_selres_pairs. unfold bonds. rewrite <- Heq.
  pose proof (multiplicity_pos _ _ Hb). lia.
Qed.

(** X26. When the reference atoms have pairwise distinct resids, for
    distinct selection atoms and [n_ref_atoms * n_sel_atoms < 2^32],
    [refres_selatm_pair] is [[0, y]] followed by zeros, with [y] the number
    of contacts that [refatm_selatm] stands for,
    [np.sum(refatm_selatm * np.arange(len(refatm_selatm)))], and
    [refres_selres_pair] is [refatm_selres_pair], element by element: what
    lines 744-754 of the debug branch check. The guard of these checks
    (lines 700-702) compares residue indices and also admits one-atom
    residues that share a resid, which the statement leaves out. *)
Theorem singleton_reference_pairs in_range ref sel cutoff expected_max_contacts :
  NoDup (resids ref) → NoDup (ids sel) →
  N.of_nat (n_atoms ref * n_atoms sel) < 2 ^ 32 →
  ∃ r, (contact_hist in_range ref sel cutoff expected_max_contacts).2 = Some r ∧
    bin (refres_selatm_pair r) 1 = tot_contacts (refatm_selatm r) ∧
    (∀ k, k ≠ 1%nat → bin (refres_selatm_pair r) k = 0) ∧
    refres_selres_pair r = refatm_selres_pair r.
Proof.
  intros Hsingle Hids Hrange. apply contact_hist_cases.
  - intros _. split; [done|]. split; [|done]. by intros [|[|k]] ?.
  - intros _ _. unfold trivial_hists, tot_contacts. simpl.
    split; [unfold bin; simpl; lia|]. split; [|done]. by intros [|[|k]] ?.
  - intros Href Hsel _ st r Hst Hwf Hfin. pose proof Hfin as Hfin'.
    apply finish_inv in Hfin'
      as (sa & sr & pa & pr & L & _ & _ & Hpa & Hpr & -> & Hlen & HL).
    assert (N.of_nat (n_atoms ref) < 2 ^ 32) as Hrange' by nia.
    destruct (loop_atom_counts in_range ref sel cutoff _
                (expected_max_contacts_pos expected_max_contacts) Hrange')
      as (st' & Hst' & H1 & _).
    rewrite Hst in Hst'. injection Hst' as <-.
    destruct (ref_singleton_loop in_range ref sel cutoff _ Hsingle Hids Hrange
                (expected_max_contacts_pos expected_max_contacts))
      as (st' & Hst' & _ & E1 & _ & _ & _ & J6 & _).
    rewrite Hst in Hst'. injection Hst' as <-.
    destruct (loop_residue_contacts in_range ref sel cutoff _
                (expected_max_contacts_pos expected_max_contacts) Hids Hrange)
      as (st' & Hst' & _ & _ & Hsum & _).
    rewrite Hst in Hst'. injection Hst' as <-.
    destruct (loop_pair_tally in_range ref sel cutoff _
                (expected_max_contacts_pos expected_max_contacts))
      as (st' & Hst' & Hp).
    rewrite Hst in Hst'. injection Hst' as <-.
    apply refres_pair_inv in Hpa as [Lpa ->]. apply refres_pair_inv in Hpr as [Lpr ->].
    rewrite length_insert in Lpa, Lpr.
    destruct (count_ones _ (Forall_concat_rows _ _ E1)) as [C1 Ck].
    pose proof (n_contacts_le in_range ref sel cutoff) as Hcont.
    unfold hists_list in Hlen.
    cbn [refatm_selatm refatm_diff_selres refatm_same_selres
      refres_diff_selatm refres_same_selatm refres_selatm_tot refres_diff_selres
      refres_same_selres refatm_selres_pair refres_selatm_pair refres_selres_pair] in *.
    split; [|split].
    + rewrite bin_extend, bin_insert by done. rewrite decide_False by done.
      rewrite bin_bincount. change (N.of_nat 1) with 1.
      rewrite C1, Hsum, tot_contacts_extend, (tot_contacts_tally _ ref _ H1).
      apply u32_small. unfold n_contacts in *. lia.
    + intros k Hk. rewrite bin_extend, bin_insert by done.
      destruct k as [|k]; [by rewrite decide_True|]. rewrite decide_False by done.
      rewrite bin_bincount, Ck; [done|lia].
    + do 8 (apply Forall_cons in Hlen as [_ Hlen]).
      apply Forall_cons in Hlen as [Hl9 Hlen]. apply Forall_cons in Hlen as [_ Hlen].
      apply Forall_cons in Hlen as [Hl11 _].
      apply same_bins_eq; [congruence|]. intros k. rewrite !bin_extend, Hp.
      rewrite bin_insert by done. destruct k as [|k].
      * rewrite decide_True by done. rewrite filter_none; [done|].
        intros p Hp0. by apply (bonds_pos in_range ref).
      * rewrite decide_False by done. rewrite bin_bincount. by rewrite J6.
Qed.

Lemma singleton_reference_pairs_witness :
  (NoDup (resids example_ref) ∧ NoDup (ids example_sel) ∧
   N.of_nat (n_atoms example_ref * n_atoms example_sel) < 2 ^ 32) ∧
  ∃ r, (contact_hist euclid example_ref example_sel 2 16).2 = Some r ∧
    bin (refres_selatm_pair r) 1 = tot_contacts (refatm_selatm r) ∧
    (∀ k, k ≠ 1%nat → bin (refres_selatm_pair r) k = 0) ∧
    refres_selres_pair r = refatm_selres_pair r.
Proof.
  assert (NoDup (resids example_ref)) as H0
    by (apply (bool_decide_unpack _); vm_compute; exact I).
  assert (NoDup (ids example_sel)) as H1
    by (apply (bool_decide_unpack _); vm_compute; exact I).
  assert (N.of_nat (n_atoms example_ref * n_atoms example_sel) < 2 ^ 32) as H2
    by (vm_compute; reflexivity).
  split; [split; [exact H0|split; [exact H1|exact H2]]|].
  exact (singleton_reference_pairs euclid example_ref example_sel 2 16 H0 H1 H2).
Defined.

(** * What the residue-level histograms count *)

(** ** The positions that [np.intersect1d] returns *)

Lemma elem_of_intersect1d_indices (ar1 ar2 : list N) (j : nat) :
  j ∈ intersect1d_indices ar1 ar2 ↔ ∃ v, ar1 !! j = Some v ∧ v ∈ ar2.
Proof.
  rewrite intersect1d_indices_Permutation, list_elem_of_fmap. split.
  - intros ([v i] & -> & [Hv Hin]%list_elem_of_filter). simpl in *.
    apply elem_of_lookup_zip_with in Hin as (k & x & y & Heq & Hx & Hy).
    injection Heq as -> ->. apply lookup_seq in Hy as [-> _]. simpl. by exists x.
  - intros (v & Hj & Hv). exists (v, j). split; [done|].
    apply list_elem_of_filter. split; [done|].
    apply elem_of_lookup_zip_with. exists j, v, j. split; [done|]. split; [done|].
    apply lookup_seq. split; [done|]. by eapply lookup_lt_Some.
Qed.

Lemma by_value_total : Total by_value.
Proof. intros [x i] [y j]. unfold by_value. simpl. lia. Qed.

(** The positions come in the order of the values they hold: the [k]-th
    position is the place in [ar1] of the [k]-th value of the sorted
    [ar2]. *)
Lemma intersect1d_indices_aligned (ar1 : list N) (w : list N) :
  NoDup ar1 → (∀ x, x ∈ w → x ∈ ar1) →
  Forall2 (λ v j, ar1 !! j = Some v) (np_unique w) (intersect1d_indices ar1 (np_unique w)).
Proof.
  intros Hnd Hsub. unfold intersect1d_indices.
  set (S := merge_sort by_value
              (filter (λ p : N * nat, p.1 ∈ np_unique w) (zip ar1 (seq 0 (length ar1))))).
  assert (Forall (λ p : N * nat, ar1 !! p.2 = Some p.1) S) as Hall.
  { apply Forall_forall. intros [v i] Hin. unfold S in Hin.
    rewrite merge_sort_Permutation in Hin.
    apply list_elem_of_filter in Hin as [_ Hin].
    apply elem_of_lookup_zip_with in Hin as (k & x & y & Heq & Hx & Hy).
    injection Heq as -> ->. apply lookup_seq in Hy as [-> _]. done. }
  assert (S.*1 = np_unique w) as Hfst.
  { apply (Sorted_unique N.le).
    - apply (Sorted_fmap _ by_value); [by intros [] []|].
      apply (@Sorted_merge_sort _ by_value _ by_value_total).
    - apply Sorted_merge_sort. apply _.
    - unfold S. rewrite merge_sort_Permutation.
      pose proof (fst_filter_zip_seq (λ x, x ∈ np_unique w) ar1 0) as Hfst.
      cbv beta in Hfst. rewrite Hfst.
      apply NoDup_Permutation.
      + by apply NoDup_filter.
      + apply NoDup_np_unique.
      + intros x. rewrite list_elem_of_filter. split; [tauto|].
        intros Hx. split; [done|]. by apply Hsub, elem_of_np_unique. }
  rewrite <- Hfst. clear Hfst. induction Hall as [|[v i] S' Hp _ IH]; constructor; done.
Qed.

(** [np.add.at] with positions aligned with distinct values: the slot of
    every value of the list grows by what is listed for the value, the
    other slots stay. *)
Lemma add_at_aligned (ar1 vs : list N) (idx : list nat) (f : N → N) (a a' : list N) :
  NoDup ar1 → Forall2 (λ v j, ar1 !! j = Some v) vs idx → NoDup vs →
  add_at a idx (f <$> vs) = Some a' →
  ∀ j q, ar1 !! j = Some q →
    bin a' j = if decide (q ∈ vs) then u32 (bin a j + f q) else bin a j.
Proof.
  intros Har Hal. revert a.
  induction Hal as [|v i vs idx Hv Hal IH]; intros a Hnd Hadd j q Hq.
  - simpl in Hadd. injection Hadd as <-. by rewrite decide_False by apply not_elem_of_nil.
  - apply NoDup_cons in Hnd as [Hni Hnd]. cbn [fmap list_fmap add_at] in Hadd.
    destruct (incr_at a i (f v)) as [a1|] eqn:Hincr; [|done]. cbn in Hadd.
    apply incr_at_inv in Hincr as [Hi ->].
    rewrite (IH _ Hnd Hadd j q Hq), bin_insert by done.
    destruct (decide (q = v)) as [->|Hne].
    + assert (j = i) as -> by exact (NoDup_lookup ar1 j i v Har Hq Hv).
      rewrite decide_False by done. rewrite decide_True by done.
      by rewrite decide_True by (by left).
    + assert (j ≠ i) as Hji by (intros ->; congruence).
      rewrite (decide_False (P := j = i)) by done.
      destruct (decide (q ∈ vs)) as [Hin|Hin].
      * by rewrite decide_True by (by right).
      * by rewrite decide_False by (intros [?|?]%elem_of_cons; done).
Qed.

(** ** Contacts of the atoms done so far *)

Lemma atom_contacts_snoc in_range done a cutoff rs b :
  atom_contacts in_range (done ++ [a]) cutoff rs b
  = (atom_contacts in_range done cutoff rs b
     + if decide (resid a = rs ∧ in_range (position a) (position b) cutoff = true)
       then 1 else 0)%nat.
Proof. unfold atom_contacts, AtomGroup. by rewrite length_filter_snoc. Qed.

Lemma atom_contacts_le in_range done cutoff rs b :
  (atom_contacts in_range done cutoff rs b ≤ length done)%nat.
Proof. unfold atom_contacts, AtomGroup. apply length_filter. Qed.

Lemma filter_snoc {A} (P : A → Prop) `{!∀ x, Decision (P x)} (l : list A) (a : A) :
  filter P (l ++ [a]) = filter P l ++ if decide (P a) then [a] else [].
Proof.
  rewrite filter_app, (filter_cons P a []). by destruct (decide (P a)).
Qed.

Lemma residue_contacts_snoc in_range done a sel cutoff rs q :
  residue_contacts in_range (done ++ [a]) sel cutoff rs q
  = (residue_contacts in_range done sel cutoff rs q
     + if decide (resid a = rs)
       then multiplicity (atoms_around_point in_range sel (position a) cutoff) q
       else 0)%nat.
Proof.
  unfold residue_contacts, AtomGroup. rewrite filter_snoc, fmap_app, sum_list_app'.
  destruct (decide (resid a = rs)); simpl; lia.
Qed.

Lemma residue_n_contacts_snoc in_range done a sel cutoff rs :
  n_contacts in_range (filter (λ a, resid a = rs) (done ++ [a])) sel cutoff
  = (n_contacts in_range (filter (λ a, resid a = rs) done) sel cutoff
     + if decide (resid a = rs)
       then n_atoms (atoms_around_point in_range sel (position a) cutoff) else 0)%nat.
Proof.
  unfold AtomGroup. rewrite filter_snoc. destruct (decide (resid a = rs)).
  - apply n_contacts_snoc.
  - by rewrite app_nil_r, Nat.add_0_r.
Qed.

Lemma multiplicity_le s q : (multiplicity s q ≤ n_atoms s)%nat.
Proof. unfold multiplicity, n_atoms. apply length_filter. Qed.

Lemma residue_contacts_le in_range done sel cutoff rs q :
  (residue_contacts in_range done sel cutoff rs q
   ≤ n_contacts in_range (filter (λ a, resid a = rs) done) sel cutoff)%nat.
Proof.
  unfold residue_contacts, n_contacts.
  assert (∀ l : list Atom,
    sum_list ((λ a, multiplicity (atoms_around_point in_range sel (position a) cutoff) q)
                <$> l)
    ≤ sum_list ((λ a, n_atoms (atoms_around_point in_range sel (position a) cutoff))
                  <$> l))%nat as Hle; [|apply Hle].
  induction l as [|a l IH]; [simpl; lia|].
  rewrite !sum_list_cons_fmap.
  pose proof (multiplicity_le (atoms_around_point in_range sel (position a) cutoff) q).
  lia.
Qed.

Lemma residue_n_contacts_le in_range done sel cutoff rs :
  (n_contacts in_range (filter (λ a, resid a = rs) done) sel cutoff
   ≤ length done * n_atoms sel)%nat.
Proof.
  pose proof (n_contacts_le in_range (filter (λ a, resid a = rs) done) sel cutoff) as H.
  pose proof (length_filter (λ a, resid a = rs) done) as Hl.
  unfold n_atoms, AtomGroup in *. nia.
Qed.

(** ** One pass of the loop, slot by slot *)

(** The mask of unused partners and the row of pair counts change
    together: a partner is marked as used exactly when its count is not
    zero, and the counter of the residue holds the number of marks. *)
Lemma mask_step (unused unused' : list (list bool)) (diff diff' : list N)
    (i0 : nat) (idx : list nat) (c : nat) (r r' : list N) (width : nat) :
  credit_unused unused i0 idx = Some (c, unused') →
  incr_at diff i0 (N.of_nat c) = Some diff' →
  NoDup idx →
  Forall (λ u, length u = width) unused → N.of_nat width < 2 ^ 32 →
  (∀ j, (j < width)%nat → bin r' j ≠ 0 ↔ j ∈ idx ∨ bin r j ≠ 0) →
  (∃ u, unused !! i0 = Some u ∧
        bin diff i0 = N.of_nat (length (filter (λ b : bool, b = false) u)) ∧
        ∀ j, (j < width)%nat → u !! j = Some false ↔ bin r j ≠ 0) →
  ∃ u, unused' !! i0 = Some u ∧
       bin diff' i0 = N.of_nat (length (filter (λ b : bool, b = false) u)) ∧
       ∀ j, (j < width)%nat → u !! j = Some false ↔ bin r' j ≠ 0.
Proof.
  intros (u & fresh & u' & X1 & X2 & X3 & -> & ->)%credit_unused_inv
    [Hi ->]%incr_at_inv Hnd Hwidth Hrange Hrow (u0 & U & D & F).
  rewrite X1 in U. injection U as <-.
  pose proof (clear_idx_count u idx u' fresh X3 X2 Hnd) as Hcount.
  pose proof (length_filter (λ b : bool, b = false) u') as Hle.
  pose proof X3 as [Hlen Hmask]%clear_idx_inv.
  eapply Forall_lookup_1 in Hwidth; [|exact X1]. cbv beta in Hwidth.
  exists u'. split; [apply list_lookup_insert_eq; by eapply lookup_lt_Some|].
  split.
  - rewrite bin_insert by done. rewrite decide_True by done.
    rewrite D, u32_small by lia. lia.
  - intros j Hj. rewrite (Hrow j Hj), Hmask, <- (F j Hj).
    destruct (decide (j ∈ idx)); [tauto|]. tauto.
Qed.

Section ResidueTallies.
Context (in_range : Point → Point → Q → bool) (ref sel : AtomGroup) (cutoff : Q).
Context (emc : nat).
Hypothesis sel_unique : NoDup (ids sel).
Hypothesis range : N.of_nat (n_atoms ref * n_atoms sel) < 2 ^ 32.

Local Abbreviation near a := (atoms_around_point in_range sel (position a) cutoff).
Local Abbreviation body :=
  (loop_body in_range sel cutoff (np_unique (resids ref)) (np_unique (resids sel))).
Local Abbreviation slot rs := (searchsorted (np_unique (resids ref)) rs).
Local Abbreviation WF := (wf_state (n_residues ref) (n_atoms sel) (n_residues sel)).
Local Abbreviation n_false u := (length (filter (λ b : bool, b = false) u)).

(** The positions of the neighbours of an atom in the selection group. *)
Lemma selatmids_elem a j b :
  sel !! j = Some b →
  j ∈ intersect1d_indices (ids sel) (ids (near a))
  ↔ in_range (position a) (position b) cutoff = true.
Proof.
  intros Hj. rewrite elem_of_intersect1d_indices. unfold ids at 1.
  unfold AtomGroup in *. rewrite list_lookup_fmap, Hj. simpl. split.
  - intros (v & [= <-] & (c & Hid & Hc)%list_elem_of_fmap).
    unfold atoms_around_point in Hc. apply list_elem_of_filter in Hc as [Hin Hc].
    apply list_elem_of_lookup in Hc as [j' Hj'].
    assert (j' = j) as ->.
    { apply (NoDup_lookup (ids sel) j' j (id b) sel_unique); unfold ids;
        rewrite list_lookup_fmap; [rewrite Hj'|rewrite Hj]; simpl; congruence. }
    congruence.
  - intros Hin. exists (id b). split; [done|]. unfold ids. apply list_elem_of_fmap_2.
    unfold atoms_around_point. apply list_elem_of_filter. split; [done|].
    by eapply list_elem_of_lookup_2.
Qed.

(** The row of a residue in the matrix of residue pairs after one atom. *)
Lemma selres_row_step a (r r' : list N) j q :
  add_at r (intersect1d_indices (np_unique (resids sel)) (np_unique (resids (near a))))
    (N.of_nat <$> unique_counts (resids (near a))) = Some r' →
  np_unique (resids sel) !! j = Some q →
  bin r j + N.of_nat (multiplicity (near a) q) < 2 ^ 32 →
  bin r' j = bin r j + N.of_nat (multiplicity (near a) q) ∧
  (j ∈ intersect1d_indices (np_unique (resids sel)) (np_unique (resids (near a)))
   ↔ multiplicity (near a) q ≠ 0%nat).
Proof.
  intros Hadd Hq Hrange.
  assert (N.of_nat <$> unique_counts (resids (near a))
          = (λ v, N.of_nat (count_of v (resids (near a)))) <$> np_unique (resids (near a)))
    as Hvals.
  { unfold unique_counts. by rewrite <- list_fmap_compose. }
  rewrite Hvals in Hadd.
  pose proof (add_at_aligned (np_unique (resids sel)) _ _ _ _ _
    (NoDup_np_unique _)
    (intersect1d_indices_aligned (np_unique (resids sel)) (resids (near a))
       (NoDup_np_unique _)
       ltac:(intros x Hx; apply elem_of_np_unique;
             by eapply atoms_around_point_resids))
    (NoDup_np_unique _) Hadd j q Hq) as Hbin.
  cbv beta in Hbin. rewrite count_of_resids in Hbin.
  assert (q ∈ np_unique (resids (near a)) ↔ multiplicity (near a) q ≠ 0%nat) as Hmult.
  { rewrite elem_of_np_unique, <- count_of_resids. split.
    - intros Hin%count_of_pos. lia.
    - intros Hne. destruct (decide (q ∈ resids (near a))) as [|Hni]; [done|].
      rewrite count_of_zero in Hne; [done|]. intros x Hx ->. done. }
  split.
  - rewrite Hbin. destruct (decide (q ∈ np_unique (resids (near a)))) as [Hin|Hin].
    + by apply u32_small.
    + assert (multiplicity (near a) q = 0%nat) as -> by (apply dec_stable; tauto).
      simpl. lia.
  - rewrite elem_of_intersect1d_indices, <- Hmult. split.
    + intros (v & Hv & Hin). congruence.
    + intros Hin. by exists q.
Qed.

(** After the loop, the slots of every reference residue hold its
    contacts: in total, with every selection atom, and with every selection
    residue; and the two counters of distinct partners hold the numbers of
    partners with a contact. *)
Lemma loop_residue_tallies :
  (0 < emc)%nat →
  ∃ st, for_each body (init_state ref sel emc) ref = Some st ∧ WF st ∧
    ∀ rs, rs ∈ resids ref →
      bin (s_refres_selatm_tot st) (slot rs)
      = N.of_nat (n_contacts in_range (filter (λ a, resid a = rs) ref) sel cutoff) ∧
      (∀ j b, sel !! j = Some b →
         bin (row (s_refres_selatm_pair st) (slot rs)) j
         = N.of_nat (atom_contacts in_range ref cutoff rs b)) ∧
      (∀ j q, np_unique (resids sel) !! j = Some q →
         bin (row (s_refres_selres_pair st) (slot rs)) j
         = N.of_nat (residue_contacts in_range ref sel cutoff rs q)) ∧
      (∃ u, s_selatm_unused st !! slot rs = Some u ∧
            bin (s_refres_diff_selatm st) (slot rs) = N.of_nat (n_false u) ∧
            ∀ j, (j < n_atoms sel)%nat →
              u !! j = Some false ↔ bin (row (s_refres_selatm_pair st) (slot rs)) j ≠ 0) ∧
      (∃ u, s_selres_unused st !! slot rs = Some u ∧
            bin (s_refres_diff_selres st) (slot rs) = N.of_nat (n_false u) ∧
            ∀ j, (j < n_residues sel)%nat →
              u !! j = Some false ↔ bin (row (s_refres_selres_pair st) (slot rs)) j ≠ 0).
Proof.
  intros Hemc.
  apply (loop_inv in_range ref sel cutoff emc
    (λ done st, ∀ rs, rs ∈ resids ref →
      bin (s_refres_selatm_tot st) (slot rs)
      = N.of_nat (n_contacts in_range (filter (λ a, resid a = rs) done) sel cutoff) ∧
      (∀ j b, sel !! j = Some b →
         bin (row (s_refres_selatm_pair st) (slot rs)) j
         = N.of_nat (atom_contacts in_range done cutoff rs b)) ∧
      (∀ j q, np_unique (resids sel) !! j = Some q →
         bin (row (s_refres_selres_pair st) (slot rs)) j
         = N.of_nat (residue_contacts in_range done sel cutoff rs q)) ∧
      (∃ u, s_selatm_unused st !! slot rs = Some u ∧
            bin (s_refres_diff_selatm st) (slot rs) = N.of_nat (n_false u) ∧
            ∀ j, (j < n_atoms sel)%nat →
              u !! j = Some false ↔ bin (row (s_refres_selatm_pair st) (slot rs)) j ≠ 0) ∧
      (∃ u, s_selres_unused st !! slot rs = Some u ∧
            bin (s_refres_diff_selres st) (slot rs) = N.of_nat (n_false u) ∧
            ∀ j, (j < n_residues sel)%nat →
              u !! j = Some false ↔ bin (row (s_refres_selres_pair st) (slot rs)) j ≠ 0))
    Hemc).
  - intros rs Hrs.
    assert (slot rs < n_residues ref)%nat as Hslot.
    { eapply Nat.lt_le_trans; [|apply n_unique_resids_le]. apply searchsorted_lt.
      by apply elem_of_np_unique. }
    simpl. unfold zeros, row. rewrite !lookup_replicate_2 by done. simpl.
    rewrite !bin_replicate. split; [done|]. split; [by intros; rewrite bin_replicate|].
    split; [by intros; rewrite bin_replicate|].
    split; eexists; (split; [reflexivity|]);
      (split; [by rewrite filter_none by (by intros b ->%elem_of_replicate_inv)|]);
      intros j Hj; rewrite bin_replicate, lookup_replicate_2 by done; split; done.
  - intros done a todo st st' Href Hwf' HI Hbody rs Hrs.
    destruct (HI rs Hrs) as (K5 & K1 & K2 & K3 & K4).
    set (nr := atoms_around_point in_range sel (position a) cutoff) in *.
    assert (a ∈ ref) as Ha.
    { rewrite Href. apply elem_of_app. right. by left. }
    pose proof (refresid_lt ref a Ha) as Hi0.
    assert (slot rs < n_residues ref)%nat as Hslot.
    { eapply Nat.lt_le_trans; [|apply n_unique_resids_le]. apply searchsorted_lt.
      by apply elem_of_np_unique. }
    assert (length (done ++ [a]) ≤ n_atoms ref)%nat as Hdone.
    { unfold n_atoms. rewrite Href, !length_app. simpl. lia. }
    assert (N.of_nat (n_atoms sel) < 2 ^ 32) as Hsel.
    { pose proof range as Hrange. unfold n_atoms in Hdone, Hrange |- *.
      rewrite length_app in Hdone. simpl in Hdone. nia. }
    assert ((0 < n_atoms sel)%nat → N.of_nat (n_atoms ref) < 2 ^ 32) as Hrefr.
    { pose proof range as Hrange. unfold n_atoms in Hrange |- *. nia. }
    pose proof (n_residues_le sel) as Hselres.
    apply loop_body_inv in Hbody
      as (_ & _ & _ & B4 & (c1 & B5 & B6) & (row1 & row1' & R1 & R2 & R3)
          & (c2 & B7 & B8) & (row2 & row2' & S1 & S2 & S3)).
    fold nr in B4, B5, R2, B7, S2.
    destruct (decide (rs = resid a)) as [->|Hne].
    + (* the residue of the atom *)
      pose proof (residue_n_contacts_le in_range (done ++ [a]) sel cutoff (resid a)) as Hb5.
      rewrite residue_n_contacts_snoc in Hb5 |- *. fold nr in Hb5 |- *.
      rewrite decide_True in Hb5 |- * by done.
      assert (N.of_nat (n_contacts in_range (filter (λ a0, resid a0 = resid a) done)
                          sel cutoff + n_atoms nr) < 2 ^ 32) as Hbound.
      { pose proof range as Hrange.
        assert (length (done ++ [a]) * n_atoms sel ≤ n_atoms ref * n_atoms sel)%nat
          by nia.
        lia. }
      assert (row (s_refres_selatm_pair st) (slot (resid a)) = row1) as Hr1.
      { unfold row. by rewrite R1. }
      assert (row (s_refres_selres_pair st) (slot (resid a)) = row2) as Hr2.
      { unfold row. by rewrite S1. }
      assert (row (s_refres_selatm_pair st') (slot (resid a)) = row1') as Hr1'.
      { rewrite R3, row_insert by (by eapply lookup_lt_Some). by rewrite decide_True. }
      assert (row (s_refres_selres_pair st') (slot (resid a)) = row2') as Hr2'.
      { rewrite S3, row_insert by (by eapply lookup_lt_Some). by rewrite decide_True. }
      rewrite Hr1 in K1, K3. rewrite Hr2 in K2, K4. rewrite Hr1', Hr2'.
      assert (∀ j b, sel !! j = Some b →
                bin row1' j = N.of_nat (atom_contacts in_range (done ++ [a]) cutoff
                                          (resid a) b) ∧
                (bin row1' j ≠ 0
                 ↔ j ∈ intersect1d_indices (ids sel) (ids nr) ∨ bin row1 j ≠ 0)) as K1'.
      { intros j b Hj. pose proof R2 as (_ & _ & Hbin)%fancy_incr_inv.
        rewrite Hbin, (K1 j b Hj), atom_contacts_snoc.
        pose proof (atom_contacts_le in_range done cutoff (resid a) b) as Hle.
        rewrite length_app in Hdone. simpl in Hdone.
        specialize (Hrefr ltac:(apply lookup_lt_Some in Hj; unfold n_atoms; lia)).
        pose proof (selatmids_elem a j b Hj) as Hel. fold nr in Hel.
        destruct (decide (j ∈ intersect1d_indices (ids sel) (ids nr))) as [Hin|Hin].
        - rewrite decide_True by tauto. rewrite u32_small by lia. split; [lia|].
          split; [tauto|lia].
        - rewrite decide_False by tauto. split; [lia|]. split; [tauto|].
          intros [?|?]; [done|lia]. }
      assert (∀ j q, np_unique (resids sel) !! j = Some q →
                bin row2' j = N.of_nat (residue_contacts in_range (done ++ [a]) sel cutoff
                                          (resid a) q) ∧
                (bin row2' j ≠ 0
                 ↔ j ∈ intersect1d_indices (np_unique (resids sel)) (np_unique (resids nr))
                   ∨ bin row2 j ≠ 0)) as K2'.
      { intros j q Hj.
        pose proof (residue_contacts_le in_range (done ++ [a]) sel cutoff (resid a) q)
          as Hle.
        rewrite residue_contacts_snoc, residue_n_contacts_snoc in Hle.
        rewrite residue_contacts_snoc.
        fold nr in Hle |- *. rewrite !decide_True in Hle by done.
        rewrite decide_True by done.
        destruct (selres_row_step a row2 row2' j q S2 Hj) as [Hbin Hel].
        { rewrite (K2 j q Hj). fold nr. lia. }
        fold nr in Hbin, Hel. rewrite Hbin, (K2 j q Hj), Hel. split; lia. }
      split; [|split; [|split; [|split]]].
      * apply incr_at_inv in B4 as [L4 ->]. rewrite bin_insert by done.
        rewrite decide_True by done. rewrite K5, u32_small; lia.
      * intros j b Hj. by apply K1'.
      * intros j q Hj. by apply K2'.
      * apply (mask_step (s_selatm_unused st) _ (s_refres_diff_selatm st) _ _
                 (intersect1d_indices (ids sel) (ids nr)) c1 row1 row1' (n_atoms sel));
          try done.
        -- apply NoDup_intersect1d_indices.
        -- apply (wf_atm_unused_rows _ _ _ _ Hwf').
        -- intros j Hj. destruct (lookup_lt_is_Some_2 sel j Hj) as [b Hb].
           by apply (K1' j b).
      * apply (mask_step (s_selres_unused st) _ (s_refres_diff_selres st) _ _
                 (intersect1d_indices (np_unique (resids sel)) (np_unique (resids nr)))
                 c2 row2 row2' (n_residues sel)); try done.
        -- apply NoDup_intersect1d_indices.
        -- apply (wf_res_unused_rows _ _ _ _ Hwf').
        -- lia.
        -- intros j Hj.
           destruct (decide (j < length (np_unique (resids sel)))%nat) as [Hju|Hju].
           ++ destruct (lookup_lt_is_Some_2 (np_unique (resids sel)) j Hju) as [q Hq].
              by apply (K2' j q).
           ++ assert (j ∉ intersect1d_indices (np_unique (resids sel))
                            (np_unique (resids nr))) as Hni.
              { intros Hin.
                pose proof (intersect1d_indices_lt (np_unique (resids sel))
                              (np_unique (resids nr))) as Hlt.
                eapply Forall_forall in Hlt; [|exact Hin]. simpl in Hlt. lia. }
              rewrite (add_at_bin_notin _ _ _ _ _ S2 Hni). tauto.
    + (* another residue *)
      assert (slot rs ≠ slot (resid a)) as Hslots.
      { intros Heq. apply Hne.
        apply (searchsorted_inj (np_unique (resids ref))); [| |done];
          apply elem_of_np_unique; [done|]. unfold resids. by apply list_elem_of_fmap_2. }
      apply incr_at_inv in B4 as [L4 ->]. apply incr_at_inv in B6 as [L6 ->].
      apply incr_at_inv in B8 as [L8 ->].
      apply credit_unused_inv in B5 as (? & ? & ? & X1 & _ & _ & _ & ->).
      apply credit_unused_inv in B7 as (? & ? & ? & Y1 & _ & _ & _ & ->).
      rewrite R3, S3. rewrite !bin_insert by done. rewrite !decide_False by done.
      rewrite !row_insert by (by eapply lookup_lt_Some).
      rewrite !decide_False by done. rewrite !list_lookup_insert_ne by done.
      rewrite residue_n_contacts_snoc, decide_False by congruence. rewrite Nat.add_0_r.
      split; [done|]. split; [|split; [|done]].
      * intros j b Hj.
        rewrite atom_contacts_snoc, decide_False by (intros [? _]; congruence).
        rewrite Nat.add_0_r. by apply K1.
      * intros j q Hj. rewrite residue_contacts_snoc, decide_False by congruence.
        rewrite Nat.add_0_r. by apply K2.
Qed.

End ResidueTallies.

(** ** From slots to residues, from positions to partners *)

Lemma slots_Permutation (ref : AtomGroup) :
  seq 0 (n_residues ref)
  ≡ₚ (searchsorted (np_unique (resids ref)) <$> np_unique (resids ref))
     ++ seq (length (np_unique (resids ref))) (unused_slots ref).
Proof. apply slots_by_resid. Qed.

Lemma unused_slots_distinct ref : resids_distinct ref → unused_slots ref = 0%nat.
Proof. intros H. unfold unused_slots. rewrite length_np_unique_resids by done. lia. Qed.

(** A per-residue array, read residue by residue. *)
Lemma array_by_residue (ref : AtomGroup) (arr : list N) :
  length arr = n_residues ref →
  arr ≡ₚ ((λ rs, bin arr (searchsorted (np_unique (resids ref)) rs))
            <$> remove_dups (resids ref))
         ++ (bin arr <$> seq (length (np_unique (resids ref))) (unused_slots ref)).
Proof.
  intros Hlen. rewrite <- np_unique_Permutation.
  rewrite (list_fmap_compose (searchsorted (np_unique (resids ref))) (bin arr)).
  rewrite <- fmap_app, <- slots_Permutation, <- Hlen. by rewrite fmap_bin_seq.
Qed.

Lemma fmap_row_seq (matrix : list (list N)) :
  row matrix <$> seq 0 (length matrix) = matrix.
Proof.
  apply list_eq. intros i. rewrite list_lookup_fmap.
  destruct (decide (i < length matrix)%nat) as [Hi|Hi].
  - rewrite lookup_seq_lt by done. simpl. unfold row.
    destruct (lookup_lt_is_Some_2 matrix i Hi) as [r ->]. done.
  - rewrite lookup_seq_ge by lia. by rewrite lookup_ge_None_2 by lia.
Qed.

(** A matrix with one row per reference residue, read residue by residue. *)
Lemma matrix_by_residue (ref : AtomGroup) (matrix : list (list N)) :
  length matrix = n_residues ref →
  matrix ≡ₚ ((λ rs, row matrix (searchsorted (np_unique (resids ref)) rs))
               <$> remove_dups (resids ref))
            ++ (row matrix <$> seq (length (np_unique (resids ref))) (unused_slots ref)).
Proof.
  intros Hlen. rewrite <- np_unique_Permutation.
  rewrite (list_fmap_compose (searchsorted (np_unique (resids ref))) (row matrix)).
  rewrite <- fmap_app, <- slots_Permutation, <- Hlen. by rewrite fmap_row_seq.
Qed.

Lemma sum_list_by_residue (ref : AtomGroup) (matrix : list (list N)) (f : list N → nat) :
  length matrix = n_residues ref →
  (∀ i, (length (np_unique (resids ref)) ≤ i < n_residues ref)%nat →
     f (row matrix i) = 0%nat) →
  sum_list (f <$> matrix)
  = sum_list ((λ rs, f (row matrix (searchsorted (np_unique (resids ref)) rs)))
                <$> remove_dups (resids ref)).
Proof.
  intros Hlen Hunused. rewrite (matrix_by_residue ref matrix Hlen) at 1.
  rewrite fmap_app, sum_list_app', <- !list_fmap_compose.
  assert (sum_list ((f ∘ row matrix)
                      <$> seq (length (np_unique (resids ref))) (unused_slots ref))
          = 0%nat) as ->; [|by rewrite Nat.add_0_r].
  pose proof (n_unique_resids_le ref) as Hle.
  assert (∀ l : list nat, Forall (λ i, f (row matrix i) = 0%nat) l →
            sum_list ((f ∘ row matrix) <$> l) = 0%nat) as Hzero.
  { intros l Hl. induction Hl as [|i l Hi _ IH]; [done|].
    rewrite sum_list_cons_fmap, IH. simpl. lia. }
  apply Hzero, Forall_forall. intros i Hi%elem_of_seq. apply Hunused.
  unfold unused_slots in Hi. lia.
Qed.

Lemma sum_list_indicators {A} (P : A → Prop) `{!∀ x, Decision (P x)} (l : list A) :
  sum_list ((λ x, if decide (P x) then 1%nat else 0%nat) <$> l) = length (filter P l).
Proof.
  induction l as [|x l IH]; [done|].
  rewrite sum_list_cons_fmap, filter_cons, IH. destruct (decide (P x)); simpl; lia.
Qed.

Lemma length_filter_pairs {A B} (P : A * B → Prop) `{!∀ p, Decision (P p)}
    (l : list A) (ps : list B) :
  length (filter P (x ← l; (λ b, (x, b)) <$> ps))
  = sum_list ((λ x, length (filter (λ b, P (x, b)) ps)) <$> l).
Proof.
  induction l as [|x l IH]; [done|].
  rewrite sum_list_cons_fmap, <- IH. cbn [mbind list_bind].
  by rewrite filter_app, length_app, length_filter_fmap.
Qed.

Lemma sum_list_fmap_ext {A} (f g : A → nat) (l : list A) :
  (∀ x, x ∈ l → f x = g x) → sum_list (f <$> l) = sum_list (g <$> l).
Proof. intros H. f_equal. apply Forall_fmap_ext_1, Forall_forall. exact H. Qed.

(** A row read partner by partner. *)
Lemma row_as_fmap {B} (partners : list B) (g : B → N) (r : list N) :
  length r = length partners →
  (∀ j b, partners !! j = Some b → bin r j = g b) →
  r = g <$> partners.
Proof.
  intros Hlen Hent. apply list_eq. intros j. rewrite list_lookup_fmap.
  destruct (partners !! j) as [b|] eqn:Hb; simpl.
  - rewrite lookup_bin by (apply lookup_lt_Some in Hb; lia). f_equal. by apply Hent.
  - apply lookup_ge_None_2. apply lookup_ge_None_1 in Hb. lia.
Qed.

(** The marks of a mask, partner by partner. *)
Lemma mask_as_filter {B} (partners : list B) (P : B → Prop) `{!∀ b, Decision (P b)}
    (u : list bool) :
  length u = length partners →
  (∀ j b, partners !! j = Some b → u !! j = Some false ↔ P b) →
  length (filter (λ x : bool, x = false) u) = length (filter P partners).
Proof.
  revert partners. induction u as [|x u IH]; intros [|b ps] Hlen Hmask; try done.
  injection Hlen as Hlen.
  specialize (IH ps Hlen ltac:(intros j b' Hj; exact (Hmask (S j) b' Hj))).
  specialize (Hmask 0%nat b eq_refl). simpl in Hmask.
  rewrite !filter_cons.
  destruct (decide (x = false)) as [->|Hx], (decide (P b)) as [HP|HP];
    cbn [length]; rewrite ?IH; try done.
  - exfalso. tauto.
  - exfalso. apply Hx. apply Hmask in HP. congruence.
Qed.

Section Matrix.
Context {B : Type} (ref : AtomGroup) (partners : list B) (c : N → B → nat).
Context (matrix : list (list N)).
Hypothesis matrix_rows : length matrix = n_residues ref.
Hypothesis matrix_columns : Forall (λ r, length r = length partners) matrix.
Hypothesis matrix_entries :
  ∀ rs, rs ∈ resids ref → ∀ j b, partners !! j = Some b →
    bin (row matrix (searchsorted (np_unique (resids ref)) rs)) j = N.of_nat (c rs b).
Hypothesis matrix_unused :
  ∀ i, (length (np_unique (resids ref)) ≤ i < n_residues ref)%nat →
    Forall (λ x, x = 0) (row matrix i).

Local Abbreviation slot rs := (searchsorted (np_unique (resids ref)) rs).

Lemma matrix_row rs :
  rs ∈ resids ref → row matrix (slot rs) = (λ b, N.of_nat (c rs b)) <$> partners.
Proof.
  intros Hrs. apply row_as_fmap; [|by apply matrix_entries].
  assert (slot rs < length matrix)%nat as Hlt.
  { rewrite matrix_rows. eapply Nat.lt_le_trans; [|apply n_unique_resids_le].
    apply searchsorted_lt. by apply elem_of_np_unique. }
  destruct (lookup_lt_is_Some_2 matrix _ Hlt) as [r Hr]. unfold row. rewrite Hr. simpl.
  pose proof matrix_columns as Hcols.
  eapply Forall_lookup_1 in Hcols; [|exact Hr]. done.
Qed.

(** The entries with a given value other than 0 are the pairs of a
    residue and a partner with as many contacts. *)
Lemma matrix_count k :
  k ≠ 0%nat →
  count_of (N.of_nat k) (concat matrix)
  = length (filter (λ p : N * B, c p.1 p.2 = k)
              (rs ← remove_dups (resids ref); (λ b, (rs, b)) <$> partners)).
Proof.
  intros Hk. rewrite count_of_concat, (sum_list_by_residue ref matrix _ matrix_rows).
  - rewrite length_filter_pairs. apply sum_list_fmap_ext. intros rs Hrs.
    apply (proj1 (elem_of_remove_dups _ _)) in Hrs.
    rewrite (matrix_row rs Hrs), count_of_fmap. simpl.
    f_equal. apply list_filter_iff. intros b. lia.
  - intros i Hi. apply count_of_zero. intros x Hx.
    pose proof (matrix_unused i Hi) as Hz.
    eapply Forall_forall in Hz; [|exact Hx]. cbv beta in Hz. lia.
Qed.

(** The rows with an entry of a given value other than 0 are the residues
    with a partner at as many contacts. *)
Lemma matrix_scan k :
  k ≠ 0%nat →
  residues_with_partner_at (N.of_nat k) matrix
  = length (filter (λ rs, Exists (λ b, c rs b = k) partners) (remove_dups (resids ref))).
Proof.
  intros Hk.
  rewrite residues_with_partner_at_sum, (sum_list_by_residue ref matrix _ matrix_rows).
  - rewrite <- sum_list_indicators. apply sum_list_fmap_ext.
    intros rs Hrs. apply (proj1 (elem_of_remove_dups _ _)) in Hrs.
    rewrite (matrix_row rs Hrs).
    assert (N.of_nat k ∈ (λ b, N.of_nat (c rs b)) <$> partners
            ↔ Exists (λ b, c rs b = k) partners) as Hiff.
    { rewrite list_elem_of_fmap, Exists_exists. split.
      - intros (b & Heq & Hb). exists b. split; [done|]. lia.
      - intros (b & Hb & Heq). exists b. split; [lia|done]. }
    destruct (decide (N.of_nat k ∈ (λ b, N.of_nat (c rs b)) <$> partners)),
      (decide (Exists (λ b, c rs b = k) partners)); tauto || done.
  - intros i Hi. rewrite decide_False; [done|]. intros Hin.
    pose proof (matrix_unused i Hi) as Hz.
    eapply Forall_forall in Hz; [|exact Hin]. cbv beta in Hz. lia.
Qed.

(** The marks of the mask of a residue are its partners with a contact. *)
Lemma matrix_mask rs (u : list bool) :
  rs ∈ resids ref → length u = length partners →
  (∀ j, (j < length partners)%nat →
     u !! j = Some false ↔ bin (row matrix (slot rs)) j ≠ 0) →
  length (filter (λ x : bool, x = false) u)
  = length (filter (λ b, c rs b ≠ 0%nat) partners).
Proof.
  intros Hrs Hlen Hmask. apply mask_as_filter; [done|]. intros j b Hj.
  rewrite (Hmask j ltac:(by eapply lookup_lt_Some)), (matrix_entries rs Hrs j b Hj). lia.
Qed.

End Matrix.

(** The slots of a per-residue array with a given value, when the unused
    slots hold 0. *)
Lemma count_by_residue (ref : AtomGroup) (arr : list N) (g : N → nat) k :
  length arr = n_residues ref →
  (∀ rs, rs ∈ resids ref →
     bin arr (searchsorted (np_unique (resids ref)) rs) = N.of_nat (g rs)) →
  (∀ i, (length (np_unique (resids ref)) ≤ i < n_residues ref)%nat → bin arr i = 0) →
  count_of (N.of_nat k) arr
  = (length (filter (λ rs, g rs = k) (remove_dups (resids ref)))
     + if decide (k = 0%nat) then unused_slots ref else 0)%nat.
Proof.
  intros Hlen Harr Hunused.
  rewrite (count_of_Permutation _ _ _ (array_by_residue ref arr Hlen)).
  rewrite count_of_app, !count_of_fmap. f_equal.
  - f_equal. apply filter_ext_in. intros rs Hrs.
    apply (proj1 (elem_of_remove_dups _ _)) in Hrs. rewrite (Harr rs Hrs). lia.
  - pose proof (n_unique_resids_le ref) as Hle.
    assert (∀ i, i ∈ seq (length (np_unique (resids ref))) (unused_slots ref) →
              bin arr i = 0) as Hz.
    { intros i Hi%elem_of_seq. apply Hunused. unfold unused_slots in Hi. lia. }
    case_decide as Hk.
    + subst k. rewrite filter_all; [by rewrite length_seq|]. intros i Hi.
      by rewrite (Hz i Hi).
    + rewrite filter_none; [done|]. intros i Hi. rewrite (Hz i Hi). lia.
Qed.

(** The slots beyond those of the resids are never written. *)
Lemma loop_unused_slots in_range ref sel cutoff emc st :
  NoDup (ids sel) → N.of_nat (n_atoms ref * n_atoms sel) < 2 ^ 32 → (0 < emc)%nat →
  for_each (loop_body in_range sel cutoff (np_unique (resids ref)) (np_unique (resids sel)))
    (init_state ref sel emc) ref = Some st →
  ∀ i, (length (np_unique (resids ref)) ≤ i < n_residues ref)%nat →
    bin (s_refres_selatm_tot st) i = 0 ∧
    bin (s_refres_diff_selatm st) i = 0 ∧
    bin (s_refres_diff_selres st) i = 0 ∧
    Forall (λ x, x = 0) (row (s_refres_selatm_pair st) i) ∧
    Forall (λ x, x = 0) (row (s_refres_selres_pair st) i).
Proof.
  intros Hids Hrange Hemc Hst i [Hi1 Hi2].
  destruct (loop_residue_slots in_range ref sel cutoff emc Hids Hrange Hemc)
    as (st' & Hst' & _ & Hslots).
  rewrite Hst in Hst'. injection Hst' as <-.
  destruct (Hslots i Hi2) as (Z0 & A1 & A2 & D1 & D2).
  assert (bin (s_refres_selatm_tot st) i = 0) as Htot.
  { apply Z0, Forall_forall. intros a Ha Heq. exfalso.
    assert (searchsorted (np_unique (resids ref)) (resid a)
            < length (np_unique (resids ref)))%nat as Hlt.
    { apply searchsorted_lt, elem_of_np_unique. unfold resids.
      by apply list_elem_of_fmap_2. }
    lia. }
  split; [done|]. split; [by apply D1|]. split; [by apply D2|].
  rewrite Htot in A1, A2.
  split; apply Forall_forall; intros x Hx; destruct (decide (x = 0)) as [|Hne];
    try done; exfalso.
  - apply (proj1 (np_sum_eq_0 _) A1). apply Exists_exists. by exists x.
  - apply (proj1 (np_sum_eq_0 _) A2). apply Exists_exists. by exists x.
Qed.

(** ** The histograms after the loop *)

(** The residue-level histograms on the path through the loop, in terms
    of the contacts of the reference residues, which are named by their
    resids; bin 0 of the histograms of a per-residue array also counts the
    unused slots. The selection residues are listed in the order of
    [np.unique]. *)
Lemma residue_tallies_normal in_range ref sel cutoff emc st r :
  NoDup (ids sel) → N.of_nat (n_atoms ref * n_atoms sel) < 2 ^ 32 →
  (0 < emc)%nat → (0 < n_atoms sel)%nat →
  for_each (loop_body in_range sel cutoff (np_unique (resids ref)) (np_unique (resids sel)))
    (init_state ref sel emc) ref = Some st →
  finish ref st = Some r →
  ∀ k,
    bin (refres_selatm_tot r) k
    = N.of_nat (length (filter
        (λ rs, n_contacts in_range (filter (λ a, resid a = rs) ref) sel cutoff = k)
        (remove_dups (resids ref)))
        + if decide (k = 0%nat) then unused_slots ref else 0) ∧
    bin (refres_diff_selatm r) k
    = N.of_nat (length (filter
        (λ rs, length (filter (λ b, atom_contacts in_range ref cutoff rs b ≠ 0%nat) sel) = k)
        (remove_dups (resids ref)))
        + if decide (k = 0%nat) then unused_slots ref else 0) ∧
    (k ≠ 0%nat →
     bin (refres_same_selatm r) k
     = N.of_nat (length (filter
         (λ rs, Exists (λ b, atom_contacts in_range ref cutoff rs b = k) sel)
         (remove_dups (resids ref)))) ∧
     bin (refres_selatm_pair r) k
     = N.of_nat (length (filter
         (λ p : N * Atom, atom_contacts in_range ref cutoff p.1 p.2 = k)
         (rs ← remove_dups (resids ref); (λ b, (rs, b)) <$> sel)))) ∧
    (resids_distinct sel →
     bin (refres_diff_selres r) k
     = N.of_nat (length (filter
         (λ rs, length (filter (λ q, residue_contacts in_range ref sel cutoff rs q ≠ 0%nat)
                          (np_unique (resids sel))) = k)
         (remove_dups (resids ref)))
         + if decide (k = 0%nat) then unused_slots ref else 0) ∧
     (k ≠ 0%nat →
      bin (refres_same_selres r) k
      = N.of_nat (length (filter
          (λ rs, Exists (λ q, residue_contacts in_range ref sel cutoff rs q = k)
                   (np_unique (resids sel)))
          (remove_dups (resids ref)))) ∧
      bin (refres_selres_pair r) k
      = N.of_nat (length (filter
          (λ p : N * N, residue_contacts in_range ref sel cutoff p.1 p.2 = k)
          (rs ← remove_dups (resids ref); (λ q, (rs, q)) <$> np_unique (resids sel)))))).
Proof.
  intros Hids Hrange Hemc Hsel Hst Hfin.
  destruct (loop_residue_tallies in_range ref sel cutoff emc Hids Hrange Hemc)
    as (st' & Hst' & Hwf & HT).
  rewrite Hst in Hst'. injection Hst' as <-.
  pose proof (loop_unused_slots in_range ref sel cutoff emc st Hids Hrange Hemc Hst)
    as Hunused.
  apply finish_inv in Hfin
    as (sa & sr & pa & pr & L & Hsa & Hsr & Hpa & Hpr & -> & _ & HL).
  cbn [refres_diff_selatm refres_same_selatm refres_selatm_tot refres_diff_selres
         refres_same_selres refres_selatm_pair refres_selres_pair].
  assert (N.of_nat (n_atoms ref) < 2 ^ 32) as Href by nia.
  pose proof (n_residues_le ref) as Hres. pose proof (n_residues_le sel) as Hselres.
  assert (N.of_nat (n_residues ref) < 2 ^ 32) as Hres' by lia.
  assert (N.of_nat (n_residues ref * n_atoms sel) < 2 ^ 32) as Hprod by nia.
  assert (N.of_nat (n_residues ref * n_residues sel) < 2 ^ 32) as Hprod' by nia.
  (* the two matrices *)
  pose proof (wf_atm_pair _ _ _ _ Hwf) as M1rows.
  pose proof (wf_atm_rows _ _ _ _ Hwf) as M1cols.
  pose proof (wf_res_pair _ _ _ _ Hwf) as M2rows.
  assert (∀ rs, rs ∈ resids ref → ∀ j b, sel !! j = Some b →
            bin (row (s_refres_selatm_pair st)
                   (searchsorted (np_unique (resids ref)) rs)) j
            = N.of_nat (atom_contacts in_range ref cutoff rs b)) as M1ent.
  { intros rs Hrs. by destruct (HT rs Hrs) as (_ & K1 & _). }
  assert (∀ rs, rs ∈ resids ref → ∀ j q, np_unique (resids sel) !! j = Some q →
            bin (row (s_refres_selres_pair st)
                   (searchsorted (np_unique (resids ref)) rs)) j
            = N.of_nat (residue_contacts in_range ref sel cutoff rs q)) as M2ent.
  { intros rs Hrs. by destruct (HT rs Hrs) as (_ & _ & K2 & _). }
  assert (∀ i, (length (np_unique (resids ref)) ≤ i < n_residues ref)%nat →
            Forall (λ x, x = 0) (row (s_refres_selatm_pair st) i)) as M1unused.
  { intros i Hi. by destruct (Hunused i Hi) as (_ & _ & _ & U1 & _). }
  assert (∀ i, (length (np_unique (resids ref)) ≤ i < n_residues ref)%nat →
            Forall (λ x, x = 0) (row (s_refres_selres_pair st) i)) as M2unused.
  { intros i Hi. by destruct (Hunused i Hi) as (_ & _ & _ & _ & U2). }
  assert (∀ (arr : list N) (g : N → nat) k,
            length arr = n_residues ref →
            (∀ rs, rs ∈ resids ref →
               bin arr (searchsorted (np_unique (resids ref)) rs) = N.of_nat (g rs)) →
            (∀ i, (length (np_unique (resids ref)) ≤ i < n_residues ref)%nat →
               bin arr i = 0) →
            u32 (N.of_nat (count_of (N.of_nat k) arr))
            = N.of_nat (length (filter (λ rs, g rs = k) (remove_dups (resids ref)))
                        + if decide (k = 0%nat) then unused_slots ref else 0)) as Hcount.
  { intros arr g k Hlen Harr Hz.
    pose proof (count_of_le (N.of_nat k) arr) as Hle.
    rewrite <- (count_by_residue ref arr g k Hlen Harr Hz).
    apply u32_small. lia. }
  intros k. rewrite !bin_extend, !bin_bincount.
  split; [|split; [|split]].
  - apply (Hcount _
             (λ rs, n_contacts in_range (filter (λ a, resid a = rs) ref) sel cutoff) k
             (wf_tot _ _ _ _ Hwf)).
    + intros rs Hrs. by destruct (HT rs Hrs) as (K5 & _).
    + intros i Hi. by destruct (Hunused i Hi) as (U0 & _).
  - apply (Hcount _
             (λ rs, length (filter (λ b, atom_contacts in_range ref cutoff rs b ≠ 0%nat)
                              sel)) k (wf_diff_selatm _ _ _ _ Hwf)).
    + intros rs Hrs. destruct (HT rs Hrs) as (_ & _ & _ & (u & Hu & Hd & Hm) & _).
      rewrite Hd. f_equal.
      apply (matrix_mask ref sel (atom_contacts in_range ref cutoff)
               (s_refres_selatm_pair st) M1rows M1ent rs u Hrs); [|exact Hm].
      pose proof (wf_atm_unused_rows _ _ _ _ Hwf) as Hrows.
      eapply Forall_lookup_1 in Hrows; [|exact Hu]. done.
    + intros i Hi. by destruct (Hunused i Hi) as (_ & U0 & _).
  - intros Hk.
    destruct (refres_same_bins _ _ _ Hsa M1rows Hres') as [_ Ba].
    apply refres_pair_inv in Hpa as [Lpa ->]. rewrite length_insert in Lpa.
    rewrite (Ba k) by lia. rewrite bin_insert by done.
    rewrite decide_False by done. rewrite bin_bincount.
    rewrite (matrix_scan ref sel (atom_contacts in_range ref cutoff)
               (s_refres_selatm_pair st) M1rows M1cols M1ent M1unused k Hk).
    rewrite (matrix_count ref sel (atom_contacts in_range ref cutoff)
               (s_refres_selatm_pair st) M1rows M1cols M1ent M1unused k Hk).
    split; [done|]. apply u32_small.
    rewrite <- (matrix_count ref sel (atom_contacts in_range ref cutoff)
                  (s_refres_selatm_pair st) M1rows M1cols M1ent M1unused k Hk).
    pose proof (count_of_le (N.of_nat k) (concat (s_refres_selatm_pair st))) as Hle.
    rewrite (length_concat_rows _ _ M1cols), M1rows in Hle. unfold n_atoms in *. lia.
  - intros Hdistinct.
    assert (Forall (λ r, length r = length (np_unique (resids sel)))
              (s_refres_selres_pair st)) as M2cols.
    { rewrite length_np_unique_resids by done. apply (wf_res_rows _ _ _ _ Hwf). }
    split.
    + apply (Hcount _
               (λ rs, length (filter
                  (λ q, residue_contacts in_range ref sel cutoff rs q ≠ 0%nat)
                  (np_unique (resids sel)))) k (wf_diff_selres _ _ _ _ Hwf)).
      * intros rs Hrs. destruct (HT rs Hrs) as (_ & _ & _ & _ & (u & Hu & Hd & Hm)).
        rewrite Hd. f_equal.
        apply (matrix_mask ref (np_unique (resids sel))
                 (residue_contacts in_range ref sel cutoff)
                 (s_refres_selres_pair st) M2rows M2ent rs u Hrs).
        -- pose proof (wf_res_unused_rows _ _ _ _ Hwf) as Hrows.
           eapply Forall_lookup_1 in Hrows; [|exact Hu].
           by rewrite length_np_unique_resids.
        -- rewrite length_np_unique_resids by done. exact Hm.
      * intros i Hi. by destruct (Hunused i Hi) as (_ & _ & U0 & _).
    + intros Hk.
      destruct (refres_same_bins _ _ _ Hsr M2rows Hres') as [_ Br].
      apply refres_pair_inv in Hpr as [Lpr ->]. rewrite length_insert in Lpr.
      rewrite (Br k) by lia. rewrite bin_insert by done.
      rewrite decide_False by done. rewrite bin_bincount.
      rewrite (matrix_scan ref (np_unique (resids sel))
                 (residue_contacts in_range ref sel cutoff)
                 (s_refres_selres_pair st) M2rows M2cols M2ent M2unused k Hk).
      rewrite (matrix_count ref (np_unique (resids sel))
                 (residue_contacts in_range ref sel cutoff)
                 (s_refres_selres_pair st) M2rows M2cols M2ent M2unused k Hk).
      split; [done|]. apply u32_small.
      rewrite <- (matrix_count ref (np_unique (resids sel))
                    (residue_contacts in_range ref sel cutoff)
                    (s_refres_selres_pair st) M2rows M2cols M2ent M2unused k Hk).
      pose proof (count_of_le (N.of_nat k) (concat (s_refres_selres_pair st))) as Hle.
      rewrite (length_concat_rows _ _ M2cols), M2rows, length_np_unique_resids in Hle
        by done.
      lia.
Qed.

Lemma no_unused_slots ref (k n : nat) :
  resids_distinct ref →
  (n + if decide (k = 0%nat) then unused_slots ref else 0)%nat = n.
Proof. intros H. rewrite (unused_slots_distinct ref H). case_decide; lia. Qed.

Lemma pairs_no_partner {A B} (l : list A) :
  (x ← l; (λ b : B, (x, b)) <$> []) = [].
Proof. induction l as [|x l IH]; [done|]. simpl. exact IH. Qed.

Lemma length_filter_np_unique (P : N → Prop) `{!∀ x, Decision (P x)} (l : list N) :
  length (filter P (np_unique l)) = length (filter P (remove_dups l)).
Proof. by rewrite np_unique_Permutation. Qed.

Lemma Exists_np_unique (P : N → Prop) (l : list N) :
  Exists P (np_unique l) ↔ Exists P (remove_dups l).
Proof.
  rewrite !Exists_exists. split; intros (x & Hx & HP); exists x; (split; [|done]).
  - by apply elem_of_remove_dups, elem_of_np_unique.
  - apply elem_of_np_unique. by apply (proj1 (elem_of_remove_dups _ _)) in Hx.
Qed.

(** X27. For a reference group no two residues of which share a resid (a
    residue is then named by its resid [rs], and its atoms are those with
    [resid a = rs]), a positive cutoff, distinct selection atoms and
    [n_ref_atoms * n_sel_atoms < 2^32], the residue-level histograms over
    the selection atoms count what the docstring says: bin [k] of
    [refres_selatm_tot] the reference residues with [k] contacts in total,
    bin [k] of [refres_diff_selatm] those in contact with [k] different
    selection atoms, and for [k] other than 0, bin [k] of
    [refres_same_selatm] those with some selection atom at exactly [k]
    contacts and bin [k] of [refres_selatm_pair] the pairs of a reference
    residue and a selection atom with exactly [k] contacts. *)
Theorem residue_selatm_histograms_tally in_range ref sel cutoff expected_max_contacts :
  resids_distinct ref → ¬ (cutoff <= 0)%Q → NoDup (ids sel) →
  N.of_nat (n_atoms ref * n_atoms sel) < 2 ^ 32 →
  ∃ r, (contact_hist in_range ref sel cutoff expected_max_contacts).2 = Some r ∧
    ∀ k,
      bin (refres_selatm_tot r) k
      = N.of_nat (length (filter
          (λ rs, n_contacts in_range (filter (λ a, resid a = rs) ref) sel cutoff = k)
          (remove_dups (resids ref)))) ∧
      bin (refres_diff_selatm r) k
      = N.of_nat (length (filter
          (λ rs, length (filter (λ b, atom_contacts in_range ref cutoff rs b ≠ 0%nat) sel)
                 = k)
          (remove_dups (resids ref)))) ∧
      (k ≠ 0%nat →
       bin (refres_same_selatm r) k
       = N.of_nat (length (filter
           (λ rs, Exists (λ b, atom_contacts in_range ref cutoff rs b = k) sel)
           (remove_dups (resids ref)))) ∧
       bin (refres_selatm_pair r) k
       = N.of_nat (length (filter
           (λ p : N * Atom, atom_contacts in_range ref cutoff p.1 p.2 = k)
           (refres_selatm_pairs ref sel)))).
Proof.
  intros Hdistinct Hcut Hids Hrange. apply contact_hist_cases.
  - intros ->%n_atoms_nil_inv k. by destruct k.
  - intros _ [->%n_atoms_nil_inv|Hle]; [|by apply Qle_bool_iff in Hle].
    intros k. unfold trivial_hists, refres_selatm_pairs.
    cbn [refres_selatm_tot refres_diff_selatm refres_same_selatm refres_selatm_pair].
    rewrite pairs_no_partner. destruct k as [|k].
    + rewrite bin_cons_0, <- (n_resids_distinct ref Hdistinct). split; [|split; [|done]].
      * rewrite filter_all; [done|]. intros rs _. apply n_contacts_no_sel.
      * rewrite filter_all; [done|]. done.
    + rewrite !bin_cons_S. unfold bin. simpl. split; [|split; [|intros _; split]].
      * rewrite filter_none; [done|]. intros rs _. by rewrite n_contacts_no_sel.
      * rewrite filter_none; [done|]. done.
      * rewrite filter_none; [done|]. by intros rs _ ?%Exists_nil.
      * done.
  - intros Href Hsel _ st r Hst _ Hfin k.
    destruct (residue_tallies_normal in_range ref sel cutoff _ st r Hids Hrange
                (expected_max_contacts_pos expected_max_contacts) ltac:(lia) Hst Hfin k)
      as (T1 & T2 & T4 & _).
    rewrite no_unused_slots in T1, T2 by done. done.
Qed.

Lemma residue_selatm_histograms_tally_witness :
  (resids_distinct example_ref ∧ ¬ (2 <= 0)%Q ∧ NoDup (ids example_sel) ∧
   N.of_nat (n_atoms example_ref * n_atoms example_sel) < 2 ^ 32) ∧
  ∃ r, (contact_hist euclid example_ref example_sel 2 16).2 = Some r ∧
    ∀ k,
      bin (refres_selatm_tot r) k
      = N.of_nat (length (filter
          (λ rs, n_contacts euclid (filter (λ a, resid a = rs) example_ref) example_sel 2
                 = k)
          (remove_dups (resids example_ref)))) ∧
      bin (refres_diff_selatm r) k
      = N.of_nat (length (filter
          (λ rs, length (filter (λ b, atom_contacts euclid example_ref 2 rs b ≠ 0%nat)
                           example_sel) = k)
          (remove_dups (resids example_ref)))) ∧
      (k ≠ 0%nat →
       bin (refres_same_selatm r) k
       = N.of_nat (length (filter
           (λ rs, Exists (λ b, atom_contacts euclid example_ref 2 rs b = k) example_sel)
           (remove_dups (resids example_ref)))) ∧
       bin (refres_selatm_pair r) k
       = N.of_nat (length (filter
           (λ p : N * Atom, atom_contacts euclid example_ref 2 p.1 p.2 = k)
           (refres_selatm_pairs example_ref example_sel)))).
Proof.
  assert (¬ (2 <= 0)%Q) as H1 by (intros H; vm_compute in H; apply H; reflexivity).
  assert (NoDup (ids example_sel)) as H0
    by (apply (bool_decide_unpack _); vm_compute; exact I).
  assert (N.of_nat (n_atoms example_ref * n_atoms example_sel) < 2 ^ 32) as H2
    by (vm_compute; reflexivity).
  assert (resids_distinct example_ref) as H3
    by (apply (bool_decide_unpack _); vm_compute; exact I).
  split; [split; [exact H3|split; [exact H1|split; [exact H0|exact H2]]]|].
  exact (residue_selatm_histograms_tally euclid example_ref example_sel 2 16 H3 H1 H0 H2).
Defined.

(** X28. For groups no two residues of which share a resid (a residue is
    then named by its resid), a positive cutoff, distinct selection atoms
    and [n_ref_atoms * n_sel_atoms < 2^32], the residue-level histograms
    over the selection residues count what the docstring says: bin [k] of
    [refres_diff_selres] the reference residues in contact with [k]
    different selection residues, and for [k] other than 0, bin [k] of
    [refres_same_selres] those with some selection residue at exactly [k]
    contacts and bin [k] of [refres_selres_pair] the pairs of a reference
    residue and a selection residue with exactly [k] contacts. *)
Theorem residue_selres_histograms_tally in_range ref sel cutoff expected_max_contacts :
  resids_distinct ref → resids_distinct sel → ¬ (cutoff <= 0)%Q → NoDup (ids sel) →
  N.of_nat (n_atoms ref * n_atoms sel) < 2 ^ 32 →
  ∃ r, (contact_hist in_range ref sel cutoff expected_max_contacts).2 = Some r ∧
    ∀ k,
      bin (refres_diff_selres r) k
      = N.of_nat (length (filter
          (λ rs, length (filter (λ q, residue_contacts in_range ref sel cutoff rs q ≠ 0%nat)
                           (remove_dups (resids sel))) = k)
          (remove_dups (resids ref)))) ∧
      (k ≠ 0%nat →
       bin (refres_same_selres r) k
       = N.of_nat (length (filter
           (λ rs, Exists (λ q, residue_contacts in_range ref sel cutoff rs q = k)
                    (remove_dups (resids sel)))
           (remove_dups (resids ref)))) ∧
       bin (refres_selres_pair r) k
       = N.of_nat (length (filter
           (λ p : N * N, residue_contacts in_range ref sel cutoff p.1 p.2 = k)
           (refres_selres_pairs ref sel)))).
Proof.
  intros Hdistinct Hdistinct' Hcut Hids Hrange. apply contact_hist_cases.
  - intros ->%n_atoms_nil_inv k. by destruct k.
  - intros _ [->%n_atoms_nil_inv|Hle]; [|by apply Qle_bool_iff in Hle].
    intros k. unfold trivial_hists, refres_selres_pairs.
    cbn [refres_diff_selres refres_same_selres refres_selres_pair].
    change (remove_dups (resids [])) with (@nil N).
    rewrite pairs_no_partner. destruct k as [|k].
    + rewrite bin_cons_0, <- (n_resids_distinct ref Hdistinct). split; [|done].
      rewrite filter_all; [done|]. done.
    + rewrite !bin_cons_S. unfold bin. simpl. split; [|intros _; split].
      * rewrite filter_none; [done|]. done.
      * rewrite filter_none; [done|]. by intros rs _ ?%Exists_nil.
      * done.
  - intros Href Hsel _ st r Hst _ Hfin k.
    destruct (residue_tallies_normal in_range ref sel cutoff _ st r Hids Hrange
                (expected_max_contacts_pos expected_max_contacts) ltac:(lia) Hst Hfin k)
      as (_ & _ & _ & T).
    destruct (T Hdistinct') as [T3 T4]. rewrite no_unused_slots in T3 by done.
    split.
    + rewrite T3. do 2 f_equal. apply list_filter_iff. intros rs.
      by rewrite length_filter_np_unique.
    + intros Hk. destruct (T4 Hk) as (T5 & T6). rewrite T5, T6. split.
      * do 2 f_equal. apply list_filter_iff. intros rs. apply Exists_np_unique.
      * f_equal. unfold refres_selres_pairs. rewrite !length_filter_pairs.
        apply sum_list_fmap_ext. intros rs _. apply length_filter_np_unique.
Qed.

Lemma residue_selres_histograms_tally_witness :
  (resids_distinct example_ref ∧ resids_distinct example_sel ∧ ¬ (2 <= 0)%Q ∧
   NoDup (ids example_sel) ∧
   N.of_nat (n_atoms example_ref * n_atoms example_sel) < 2 ^ 32) ∧
  ∃ r, (contact_hist euclid example_ref example_sel 2 16).2 = Some r ∧
    ∀ k,
      bin (refres_diff_selres r) k
      = N.of_nat (length (filter
          (λ rs, length (filter (λ q, residue_contacts euclid example_ref example_sel 2 rs q
                                      ≠ 0%nat)
                           (remove_dups (resids example_sel))) = k)
          (remove_dups (resids example_ref)))) ∧
      (k ≠ 0%nat →
       bin (refres_same_selres r) k
       = N.of_nat (length (filter
           (λ rs, Exists (λ q, residue_contacts euclid example_ref example_sel 2 rs q = k)
                    (remove_dups (resids example_sel)))
           (remove_dups (resids example_ref)))) ∧
       bin (refres_selres_pair r) k
       = N.of_nat (length (filter
           (λ p : N * N, residue_contacts euclid example_ref example_sel 2 p.1 p.2 = k)
           (refres_selres_pairs example_ref example_sel)))).
Proof.
  assert (¬ (2 <= 0)%Q) as H1 by (intros H; vm_compute in H; apply H; reflexivity).
  assert (NoDup (ids example_sel)) as H0
    by (apply (bool_decide_unpack _); vm_compute; exact I).
  assert (N.of_nat (n_atoms example_ref * n_atoms example_sel) < 2 ^ 32) as H2
    by (vm_compute; reflexivity).
  assert (resids_distinct example_ref) as H3
    by (apply (bool_decide_unpack _); vm_compute; exact I).
  assert (resids_distinct example_sel) as H4
    by (apply (bool_decide_unpack _); vm_compute; exact I).
  split; [split; [exact H3|split; [exact H4|split; [exact H1|split; [exact H0|exact H2]]]]|].
  exact (residue_selres_histograms_tally euclid example_ref example_sel 2 16
           H3 H4 H1 H0 H2).
Defined.

(** ** Selection residues of one atom *)

Lemma multiplicity_singleton in_range (sel : AtomGroup) p cutoff b :
  NoDup (resids sel) → b ∈ sel →
  multiplicity (atoms_around_point in_range sel p cutoff) (resid b)
  = if in_range p (position b) cutoff then 1%nat else 0%nat.
Proof.
  unfold multiplicity, atoms_around_point, resids, AtomGroup in *.
  induction sel as [|c sel IH]; intros Hnd Hb; [by apply elem_of_nil in Hb|].
  rewrite fmap_cons in Hnd. apply NoDup_cons in Hnd as [Hc Hnd].
  assert (∀ l : list Atom, (∀ x, x ∈ l → resid x ≠ resid b) → ∀ Q : Atom → Prop,
            ∀ HQ : (∀ x, Decision (Q x)),
            length (filter (λ x, resid x = resid b) (filter Q l)) = 0%nat) as Hnone.
  { intros l Hl Q HQ. rewrite filter_none; [done|].
    intros x [_ Hx]%list_elem_of_filter. by apply Hl. }
  apply elem_of_cons in Hb as [->|Hb].
  - rewrite (filter_cons (λ a, in_range p (position a) cutoff = true)).
    destruct (in_range p (position c) cutoff) eqn:Hin.
    + rewrite decide_True by done. rewrite filter_cons_True by done. cbn [length].
      rewrite Hnone; [done|]. intros x Hx Heq. apply Hc. rewrite <- Heq.
      by apply list_elem_of_fmap_2.
    + rewrite decide_False by done. apply Hnone. intros x Hx Heq. apply Hc.
      rewrite <- Heq. by apply list_elem_of_fmap_2.
  - assert (resid c ≠ resid b) as Hne.
    { intros Heq. apply Hc. rewrite Heq. by apply list_elem_of_fmap_2. }
    rewrite (filter_cons (λ a, in_range p (position a) cutoff = true)).
    destruct (decide (in_range p (position c) cutoff = true)).
    + rewrite filter_cons_False by done. by apply IH.
    + by apply IH.
Qed.

Lemma residue_contacts_singleton in_range ref (sel : AtomGroup) cutoff rs b :
  NoDup (resids sel) → b ∈ sel →
  residue_contacts in_range ref sel cutoff rs (resid b)
  = atom_contacts in_range ref cutoff rs b.
Proof.
  intros Hnd Hb. unfold residue_contacts, atom_contacts.
  rewrite (sum_list_fmap_ext _
    (λ a, if decide (in_range (position a) (position b) cutoff = true)
          then 1%nat else 0%nat)).
  2:{ intros a _. rewrite (multiplicity_singleton _ _ _ _ _ Hnd Hb).
      by destruct (in_range (position a) (position b) cutoff). }
  rewrite sum_list_indicators. unfold AtomGroup. rewrite list_filter_filter.
  f_equal. apply list_filter_iff. intros a. tauto.
Qed.

Lemma np_unique_NoDup_Permutation (l : list N) : NoDup l → np_unique l ≡ₚ l.
Proof.
  intros Hnd. apply NoDup_Permutation; [apply NoDup_np_unique|done|].
  intros x. apply elem_of_np_unique.
Qed.

(** With one atom per selection residue, the partners of a reference
    residue among the selection residues are its partners among the
    selection atoms. *)
Lemma singleton_partners in_range ref (sel : AtomGroup) cutoff rs (P : nat → Prop)
    `{!∀ n, Decision (P n)} :
  NoDup (resids sel) →
  length (filter (λ q, P (residue_contacts in_range ref sel cutoff rs q))
            (np_unique (resids sel)))
  = length (filter (λ b, P (atom_contacts in_range ref cutoff rs b)) sel) ∧
  (Exists (λ q, P (residue_contacts in_range ref sel cutoff rs q)) (np_unique (resids sel))
   ↔ Exists (λ b, P (atom_contacts in_range ref cutoff rs b)) sel).
Proof.
  intros Hnd. split.
  - rewrite (np_unique_NoDup_Permutation _ Hnd). unfold resids.
    rewrite length_filter_fmap. f_equal. apply filter_ext_in. intros b Hb.
    by rewrite (residue_contacts_singleton _ _ _ _ _ _ Hnd Hb).
  - rewrite !Exists_exists. split.
    + intros (q & Hq & HP). apply (proj1 (elem_of_np_unique _ _)) in Hq.
      unfold resids in Hq. apply list_elem_of_fmap in Hq as (b & -> & Hb).
      exists b. split; [done|].
      by rewrite <- (residue_contacts_singleton _ _ _ _ _ _ Hnd Hb).
    + intros (b & Hb & HP). exists (resid b). split.
      * apply elem_of_np_unique. unfold resids. by apply list_elem_of_fmap_2.
      * by rewrite (residue_contacts_singleton _ _ _ _ _ _ Hnd Hb).
Qed.

(** X29. When the selection atoms have pairwise distinct resids (every
    selection residue then holds one atom and has a resid of its own), for
    distinct selection atoms and [n_ref_atoms * n_sel_atoms < 2^32], the
    residue-level histograms over the selection residues are those over
    the selection atoms, element by element: [refres_diff_selres] is
    [refres_diff_selatm], [refres_same_selres] is [refres_same_selatm] and
    [refres_selres_pair] is [refres_selatm_pair], whatever the reference
    group: what lines 790-795 and 802-805 of the debug branch check. The
    guard of these checks (lines 756-758) compares residue indices and also
    admits one-atom residues that share a resid, which the statement leaves
    out. *)
Theorem singleton_selection_residue_level in_range ref sel cutoff expected_max_contacts :
  NoDup (resids sel) → NoDup (ids sel) →
  N.of_nat (n_atoms ref * n_atoms sel) < 2 ^ 32 →
  ∃ r, (contact_hist in_range ref sel cutoff expected_max_contacts).2 = Some r ∧
    refres_diff_selres r = refres_diff_selatm r ∧
    refres_same_selres r = refres_same_selatm r ∧
    refres_selres_pair r = refres_selatm_pair r.
Proof.
  intros Hsingle Hids Hrange. apply contact_hist_cases.
  - done.
  - done.
  - intros Href Hsel _ st r Hst Hwf Hfin.
    pose proof (residue_tallies_normal in_range ref sel cutoff _ st r Hids Hrange
                  (expected_max_contacts_pos expected_max_contacts) ltac:(lia) Hst Hfin)
      as HT.
    destruct (loop_residue_slots in_range ref sel cutoff _ Hids Hrange
                (expected_max_contacts_pos expected_max_contacts))
      as (st' & Hst' & _ & Hslots).
    rewrite Hst in Hst'. injection Hst' as <-.
    pose proof Hfin as Hfin'.
    apply finish_inv in Hfin'
      as (sa & sr & pa & pr & L & Hsa & Hsr & Hpa & Hpr & Hr & Hlen & HL).
    assert (N.of_nat (n_residues ref) < 2 ^ 32) as Hres.
    { pose proof (n_residues_le ref). nia. }
    assert (bin (refres_same_selres r) 0 = bin (refres_same_selatm r) 0) as Hsame0.
    { rewrite Hr. cbn [refres_same_selres refres_same_selatm]. rewrite !bin_extend.
      destruct (refres_same_bins _ _ _ Hsa (wf_atm_pair _ _ _ _ Hwf) Hres) as [-> _].
      destruct (refres_same_bins _ _ _ Hsr (wf_res_pair _ _ _ _ Hwf) Hres) as [-> _].
      pose proof (zero_rows_count (s_refres_selatm_pair st) (s_refres_selatm_tot st)) as Z1.
      pose proof (zero_rows_count (s_refres_selres_pair st) (s_refres_selatm_tot st)) as Z2.
      rewrite (wf_atm_pair _ _ _ _ Hwf), (wf_tot _ _ _ _ Hwf) in Z1.
      rewrite (wf_res_pair _ _ _ _ Hwf), (wf_tot _ _ _ _ Hwf) in Z2.
      rewrite (Z1 eq_refl ltac:(intros i Hi; apply Hslots, Hi)).
      rewrite (Z2 eq_refl ltac:(intros i Hi; apply Hslots, Hi)). done. }
    assert (bin (refres_selres_pair r) 0 = bin (refres_selatm_pair r) 0) as Hpair0.
    { rewrite Hr. cbn [refres_selres_pair refres_selatm_pair]. rewrite !bin_extend.
      apply refres_pair_inv in Hpa as [Lpa ->]. apply refres_pair_inv in Hpr as [Lpr ->].
      rewrite length_insert in Lpa, Lpr. rewrite !bin_insert by done.
      by rewrite !decide_True. }
    unfold hists_list in Hlen.
    do 3 (apply Forall_cons in Hlen as [_ Hlen]).
    apply Forall_cons in Hlen as [Hl4 Hlen]. apply Forall_cons in Hlen as [Hl5 Hlen].
    apply Forall_cons in Hlen as [_ Hlen]. apply Forall_cons in Hlen as [Hl7 Hlen].
    apply Forall_cons in Hlen as [Hl8 Hlen]. apply Forall_cons in Hlen as [_ Hlen].
    apply Forall_cons in Hlen as [Hl10 Hlen]. apply Forall_cons in Hlen as [Hl11 _].
    pose proof (resids_distinct_NoDup sel Hsingle) as Hdistinct.
    split; [|split]; (apply same_bins_eq; [congruence|]); intros k.
    + destruct (HT k) as (_ & -> & _ & T). destruct (T Hdistinct) as [-> _].
      do 3 f_equal. apply list_filter_iff. intros rs.
      pose proof (singleton_partners in_range ref sel cutoff rs
                    (λ n, n ≠ 0%nat) Hsingle) as [E _].
      cbv beta in E. by rewrite E.
    + destruct k as [|k]; [done|].
      destruct (HT (S k)) as (_ & _ & Ta & T). destruct (T Hdistinct) as [_ Tr].
      destruct (Ta ltac:(done)) as (-> & _). destruct (Tr ltac:(done)) as (-> & _).
      do 2 f_equal. apply list_filter_iff. intros rs.
      pose proof (singleton_partners in_range ref sel cutoff rs
                    (λ n, n = S k) Hsingle) as [_ E].
      cbv beta in E. exact E.
    + destruct k as [|k]; [done|].
      destruct (HT (S k)) as (_ & _ & Ta & T). destruct (T Hdistinct) as [_ Tr].
      destruct (Ta ltac:(done)) as (_ & ->). destruct (Tr ltac:(done)) as (_ & ->).
      f_equal.
      rewrite !length_filter_pairs. apply sum_list_fmap_ext. intros rs _.
      pose proof (singleton_partners in_range ref sel cutoff rs
                    (λ n, n = S k) Hsingle) as [E _].
      cbv beta in E. exact E.
Qed.

Lemma singleton_selection_residue_level_witness :
  (NoDup (resids example_sel_singletons) ∧ NoDup (ids example_sel_singletons) ∧
   N.of_nat (n_atoms example_ref * n_atoms example_sel_singletons) < 2 ^ 32) ∧
  ∃ r, (contact_hist euclid example_ref example_sel_singletons 2 16).2 = Some r ∧
    refres_diff_selres r = refres_diff_selatm r ∧
    refres_same_selres r = refres_same_selatm r ∧
    refres_selres_pair r = refres_selatm_pair r.
Proof.
  assert (NoDup (resids example_sel_singletons)) as H0
    by (apply (bool_decide_unpack _); vm_compute; exact I).
  assert (NoDup (ids example_sel_singletons)) as H1
    by (apply (bool_decide_unpack _); vm_compute; exact I).
  assert (N.of_nat (n_atoms example_ref * n_atoms example_sel_singletons) < 2 ^ 32) as H2
    by (vm_compute; reflexivity).
  split; [split; [exact H0|split; [exact H1|exact H2]]|].
  exact (singleton_selection_residue_level euclid example_ref example_sel_singletons
           2 16 H0 H1 H2).
Defined.

(** * Properties of the text helpers *)

Lemma splitlines_from_nil line : splitlines_from line [] = match line with [] => [] | _ => [line] end.
Proof. done. Qed.

(** Joining the lines gives the text back. *)
Lemma concat_splitlines_from line text : concat (splitlines_from line text) = line ++ text.
Proof.
  remember (length text) as n eqn:Hn. revert line text Hn.
  induction n as [n IH] using lt_wf_ind. intros line text Hn.
  destruct text as [|c rest].
  - simpl. destruct line; simpl; by rewrite ?app_nil_r.
  - cbn [splitlines_from]. destruct (is_line_boundary c).
    + destruct rest as [|c' rest'].
      * simpl. by rewrite app_nil_r.
      * destruct ((c =? 13) && (c' =? 10)).
        -- cbn [concat].
           rewrite (IH (length rest') ltac:(simpl in Hn; lia) _ rest' eq_refl).
           by rewrite <- app_assoc.
        -- cbn [concat].
           rewrite (IH (length (c' :: rest')) ltac:(simpl in Hn; simpl; lia) _ _ eq_refl).
           by rewrite <- app_assoc.
    + rewrite (IH (length rest) ltac:(simpl in Hn; lia) _ rest eq_refl).
      by rewrite <- app_assoc.
Qed.

Lemma concat_splitlines text : concat (splitlines_keepends text) = text.
Proof. apply concat_splitlines_from. Qed.

Lemma str_mul_nonpositive amount char : (amount ≤ 0)%Z → str_mul amount char = [].
Proof. intros H. unfold str_mul. by replace (Z.to_nat amount) with 0%nat by lia. Qed.

Lemma str_mul_empty amount : str_mul amount [] = [].
Proof.
  unfold str_mul. induction (Z.to_nat amount) as [|n IH]; [done|]. simpl. exact IH.
Qed.

Lemma str_mul_add a b char :
  (0 ≤ a)%Z → (0 ≤ b)%Z → str_mul (a + b) char = str_mul b char ++ str_mul a char.
Proof.
  intros Ha Hb. unfold str_mul.
  replace (Z.to_nat (a + b)) with (Z.to_nat b + Z.to_nat a)%nat by lia.
  by rewrite replicate_add, concat_app.
Qed.

Lemma fmap_app_nil (lines : list str) : (λ line, [] ++ line) <$> lines = lines.
Proof. induction lines as [|l lines IH]; [done|]. rewrite fmap_cons, IH. done. Qed.

Lemma indent_no_padding text amount char :
  str_mul amount char = [] → indent text amount char = text.
Proof.
  intros Hpad. unfold indent. rewrite Hpad, fmap_app_nil. apply concat_splitlines.
Qed.

(** X11: [indent] with an amount that is not positive, or with an empty
    padding string, returns the text as it is: joining the lines that
    [str.splitlines(keepends=True)] gives restores the text, whatever its
    line ends. *)
Theorem indent_nonpositive text amount char :
  (amount ≤ 0)%Z ∨ char = [] → indent text amount char = text.
Proof.
  intros [H| ->]; apply indent_no_padding.
  - by apply str_mul_nonpositive.
  - apply str_mul_empty.
Qed.

Lemma indent_nonpositive_witness :
  ((-3 ≤ 0)%Z ∨ example_char = []) ∧
  indent example_text (-3) example_char = example_text.
Proof.
  assert ((-3 ≤ 0)%Z ∨ example_char = ([] : str)) as H by (left; lia).
  split; [exact H|].
  exact (indent_nonpositive example_text (-3)%Z example_char H).
Defined.

(** ** The lines of an indented text *)

Lemma splitlines_from_other line c rest :
  is_line_boundary c = false → splitlines_from line (c :: rest) = splitlines_from (line ++ [c]) rest.
Proof. intros H. cbn [splitlines_from]. by rewrite H. Qed.

Lemma splitlines_from_crlf line rest :
  splitlines_from line (13 :: 10 :: rest) = (line ++ [13; 10]) :: splitlines_from [] rest.
Proof. done. Qed.

(** A line boundary that is no carriage return before a line feed ends
    the line on its own. *)
Lemma splitlines_from_boundary line c rest :
  is_line_boundary c = true → (c = 13 → head rest ≠ Some 10) →
  splitlines_from line (c :: rest) = (line ++ [c]) :: splitlines_from [] rest.
Proof.
  intros Hc Hcr. cbn [splitlines_from]. rewrite Hc. destruct rest as [|c' rest']; [done|].
  destruct ((c =? 13) && (c' =? 10)) eqn:E; [|done].
  apply andb_true_iff in E as [->%N.eqb_eq ->%N.eqb_eq]. by destruct Hcr.
Qed.

(** Characters that end no line join the current line. *)
Lemma splitlines_from_app line w text :
  Forall (λ c, is_line_boundary c = false) w →
  splitlines_from line (w ++ text) = splitlines_from (line ++ w) text.
Proof.
  intros Hw. revert line. induction Hw as [|c w Hc _ IH]; intros line.
  - by rewrite app_nil_r.
  - rewrite <- app_comm_cons, splitlines_from_other by done.
    rewrite IH. by rewrite <- app_assoc.
Qed.

Lemma head_concat_padded (padding : str) (lines : list str) c :
  padding ≠ [] → head (concat ((λ line, padding ++ line) <$> lines)) = Some c →
  head padding = Some c.
Proof.
  intros Hp. destruct lines as [|l lines]; [done|]. simpl.
  destruct padding; [done|]. done.
Qed.

(** Splitting the padded lines of a text gives the padded lines. *)
Lemma splitlines_padded padding line text :
  padding ≠ [] → Forall (λ c, is_line_boundary c = false) padding →
  Forall (λ c, is_line_boundary c = false) line →
  splitlines_keepends (concat ((λ l, padding ++ l) <$> splitlines_from line text))
  = (λ l, padding ++ l) <$> splitlines_from line text.
Proof.
  intros Hne Hpad. remember (length text) as n eqn:Hn. revert line text Hn.
  induction n as [n IH] using lt_wf_ind. intros line text Hn Hline.
  unfold splitlines_keepends in *.
  assert (∀ lines c, head (concat ((λ l, padding ++ l) <$> lines)) = Some c →
                     is_line_boundary c = false) as Hhead.
  { intros lines c Hc. apply head_concat_padded in Hc; [|done].
    destruct padding as [|p padding]; [done|]. injection Hc as <-.
    by apply Forall_cons in Hpad as [? _]. }
  destruct text as [|c rest].
  - destruct line as [|c line]; [done|]. cbn [splitlines_from fmap list_fmap concat].
    rewrite (splitlines_from_app [] (padding ++ c :: line) []) by (by apply Forall_app).
    simpl. by destruct padding.
  - destruct (is_line_boundary c) eqn:Hc.
    + destruct (decide (c = 13 ∧ head rest = Some 10)) as [[-> Hrest]|Hncr].
      * destruct rest as [|c' rest']; [done|]. injection Hrest as ->.
        rewrite splitlines_from_crlf. cbn [fmap list_fmap concat].
        rewrite <- app_assoc, splitlines_from_app by done.
        rewrite <- app_assoc. cbn [app]. rewrite splitlines_from_app by done.
        rewrite splitlines_from_crlf. rewrite <- !app_assoc. f_equal.
        apply (IH (length rest')); [simpl in Hn; lia|done|done].
      * rewrite splitlines_from_boundary by (try done; intros ->; tauto).
        cbn [fmap list_fmap concat].
        rewrite <- app_assoc, splitlines_from_app by done.
        rewrite <- app_assoc. cbn [app]. rewrite splitlines_from_app by done.
        rewrite splitlines_from_boundary.
        -- rewrite <- !app_assoc. f_equal.
           apply (IH (length rest)); [simpl in Hn; lia|done|done].
        -- done.
        -- intros _ H10. apply Hhead in H10. done.
    + rewrite splitlines_from_other by done.
      apply (IH (length rest)); [simpl in Hn; lia|done|].
      apply Forall_app. split; [done|]. by apply Forall_singleton.
Qed.

Lemma str_mul_no_boundary amount char :
  Forall (λ c, is_line_boundary c = false) char →
  Forall (λ c, is_line_boundary c = false) (str_mul amount char).
Proof.
  intros H. unfold str_mul. induction (Z.to_nat amount) as [|n IH]; [done|].
  simpl. by apply Forall_app.
Qed.

(** The lines of an indented text are the padded lines of the text. *)
Lemma splitlines_indent text amount char :
  Forall (λ c, is_line_boundary c = false) char →
  splitlines_keepends (indent text amount char)
  = (λ line, str_mul amount char ++ line) <$> splitlines_keepends text.
Proof.
  intros Hchar. destruct (decide (str_mul amount char = [])) as [Hpad|Hpad].
  - rewrite indent_no_padding by done. by rewrite Hpad, fmap_app_nil.
  - unfold indent. cbv zeta. unfold splitlines_keepends at 2 3.
    apply splitlines_padded; [done|by apply str_mul_no_boundary|done].
Qed.

(** X12: indenting keeps the lines of a text: when the padding string
    holds no character that ends a line, the lines of the indented text are
    the lines of the text, each behind the padding, so that the number of
    lines is the same and the text is longer by the padding of every line. *)
Theorem indent_lines text amount char :
  Forall (λ c, is_line_boundary c = false) char →
  splitlines_keepends (indent text amount char)
  = (λ line, str_mul amount char ++ line) <$> splitlines_keepends text ∧
  length (indent text amount char)
  = (length text + length (splitlines_keepends text) * length (str_mul amount char))%nat.
Proof.
  intros Hchar. split; [by apply splitlines_indent|].
  unfold indent. cbv zeta. rewrite <- (concat_splitlines text) at 2.
  generalize (str_mul amount char) (splitlines_keepends text). clear.
  intros padding lines. induction lines as [|l lines IH]; [done|].
  rewrite fmap_cons. cbn [concat length]. rewrite !length_app, IH. lia.
Qed.

Lemma indent_lines_witness :
  Forall (λ c, is_line_boundary c = false) example_char ∧
  splitlines_keepends (indent example_text 2 example_char)
  = (λ line, str_mul 2 example_char ++ line) <$> splitlines_keepends example_text ∧
  length (indent example_text 2 example_char)
  = (length example_text
     + length (splitlines_keepends example_text)
       * length (str_mul 2 example_char))%nat.
Proof.
  assert (Forall (λ c, is_line_boundary c = false) example_char) as H
    by (apply (bool_decide_unpack _); vm_compute; exact I).
  split; [exact H|].
  exact (indent_lines example_text 2%Z example_char H).
Defined.

(** X13: indenting twice with the same padding string adds the amounts
    up, when the padding string holds no character that ends a line and the
    amounts are not negative. *)
Theorem indent_indent text a b char :
  Forall (λ c, is_line_boundary c = false) char → (0 ≤ a)%Z → (0 ≤ b)%Z →
  indent (indent text a char) b char = indent text (a + b) char.
Proof.
  intros Hchar Ha Hb. unfold indent at 1. cbv zeta.
  rewrite splitlines_indent by done. unfold indent. cbv zeta.
  rewrite <- list_fmap_compose, str_mul_add by done. f_equal.
  apply list_fmap_ext. intros _ line _. simpl. by rewrite app_assoc.
Qed.

Lemma indent_indent_witness :
  (Forall (λ c, is_line_boundary c = false) example_char ∧ (0 ≤ 1)%Z ∧ (0 ≤ 2)%Z) ∧
  indent (indent example_text 1 example_char) 2 example_char
  = indent example_text (1 + 2) example_char.
Proof.
  assert (Forall (λ c, is_line_boundary c = false) example_char) as H
    by (apply (bool_decide_unpack _); vm_compute; exact I).
  assert (0 ≤ 1)%Z as H1 by lia. assert (0 ≤ 2)%Z as H2 by lia.
  split; [split; [exact H|split; [exact H1|exact H2]]|].
  exact (indent_indent example_text 1%Z 2%Z example_char H H1 H2).
Defined.

(** * Illustrations *)

(** One reference atom that touches two selection residues by one contact
    each: bin 1 of [refatm_same_selres] counts the atom once, bin 1 of
    [refatm_selres_pair] counts the two pairs. *)
Lemma shared_multiplicity_example :
  ∃ r, (contact_hist euclid [atom1] [atom_a; atom_c] 60 16).2 = Some r ∧
    bin (refatm_same_selres r) 1 = 1 ∧ bin (refatm_selres_pair r) 1 = 2.
Proof. eexists. split; [vm_compute; reflexivity|]. split; reflexivity. Qed.

(** The bins of a "same partner" histogram may add up to more than the
    number of reference units: with the cutoff [60], [atom1] touches one
    residue by two contacts and another by one. *)
Lemma same_histogram_sum_example :
  ∃ r, (contact_hist euclid example_ref example_sel 60 16).2 = Some r ∧
    N.of_nat (n_atoms example_ref) < np_sum (refatm_same_selres r).
Proof. eexists. split; [vm_compute; reflexivity|]. reflexivity. Qed.

(** The bound average of a histogram without bound unit is a NaN; the one
    of the histogram [[20, 25, 5]] of 50 reference atoms is the quotient of
    [0.7] by [1 - 0.4]. *)
Lemma bound_average_examples :
  bound_average sum_left (probabilities [5; 0; 0] 5) = Some S754_nan ∧
  bound_average sum_left (probabilities [20; 25; 5] 50)
  = Some (S754_finite false 5254199565265579 (-52)).
Proof. split; vm_compute; reflexivity. Qed.

(** Selection residues of one atom that share a resid: [atom1] touches both
    atoms of [example_sel_shared_resid] and [atom2] none. The guard of lines
    756-758 holds; [refatm_selatm] and [refatm_diff_selres] are [[1,0,1]].
    The histograms that tell the selection residues by resid count one
    residue touched twice: [refatm_same_selres] is [[1,0,1]] and not
    [[1,1]], [refatm_selres_pair] is [[0,0,1]] and not [[0,2]], and
    [refres_diff_selres] is [[1,1]] while [refres_diff_selatm] is
    [[1,0,1]]. *)
Lemma shared_selection_resid_example :
  NoDup (resindices example_sel_shared_resid) ∧
  ∃ r, (contact_hist euclid example_ref example_sel_shared_resid 2 16).2 = Some r ∧
    refatm_selatm r = extend [1; 0; 1] 16 ∧
    refatm_diff_selres r = extend [1; 0; 1] 16 ∧
    refatm_same_selres r = extend [1; 0; 1] 16 ∧
    refatm_selres_pair r = extend [0; 0; 1] 16 ∧
    refres_diff_selres r = extend [1; 1] 16 ∧
    refres_diff_selatm r = extend [1; 0; 1] 16.
Proof.
  split; [apply (bool_decide_unpack _); vm_compute; exact I|].
  eexists. split; [vm_compute; reflexivity|]. repeat split; vm_compute; reflexivity.
Qed.

(** A frame with an empty selection group: [contact_hist] returns early
    with arrays of the default integer type, and the addition to the
    [uint32] totals of the loop over the frames raises. *)
Lemma empty_selection_frame_example :
  (contact_hist euclid example_ref [] 2 16).2 = Some (trivial_hists example_ref) ∧
  accumulate false false 2 [mkFrame euclid example_ref []] = None.
Proof. split; vm_compute; reflexivity. Qed.
